(** * A shallow embedding of the VM placement engine (variant v09)

    The development follows [src/src/v09.cpp].  Pointers into the fixed
    topology are positions in the nested vectors ([Rack *] is a pair
    (domain position, rack position), and so on); pointers to a [VM] or a
    [PG] are the keys of [vmsByIndex] and [pgsByIndex].  C++ [int]s are
    unbounded [Z] (signed overflow is undefined and out of reach for the
    inputs of the problem); mixed [int]/[size_t] comparisons convert the
    [int] operand as the compiler does; a [double] is a binary64 float.  A
    thrown exception or an access through an empty vector is the failure
    [None] of the monad [M]. *)

From Stdlib Require Import ZArith Floats Lia Sorted Permutation.
From stdpp Require Import base option list gmap fin_maps.

Local Open Scope Z_scope.

(** ** What the C++ standard library leaves open

    [std::sort] returns a permutation, sorted when the comparator is a
    strict weak ordering of the elements, with the order of equivalent
    elements unspecified; iteration over an [unordered_map] or an
    [unordered_set] visits the elements in an unspecified order.  The model
    is parameterised by both. *)

Definition StrictWeakOn {A} (lt : A → A → bool) (l : list A) : Prop :=
  (∀ a b, a ∈ l → b ∈ l → lt a b = true → lt b a = false) ∧
  (∀ a b c, a ∈ l → b ∈ l → c ∈ l → lt b a = false → lt c b = false → lt c a = false).

Class StdLib := {
  std_sort : ∀ {A : Type}, (A → A → bool) → list A → list A;
  std_sort_perm : ∀ (A : Type) (lt : A → A → bool) (l : list A),
    Permutation (std_sort lt l) l;
  std_sort_sorted : ∀ (A : Type) (lt : A → A → bool) (l : list A),
    StrictWeakOn lt l →
    StronglySorted (λ a b, lt b a = false) (std_sort lt l);
  hash_order : ∀ {A : Type}, list A → list A;
  hash_order_perm : ∀ (A : Type) (l : list A), Permutation (hash_order l) l
}.

(** ** [double]

    The operations on [double]s are those of IEEE 754 on binary64, rounding
    to nearest, which the primitive floats have.  The conversion of an
    [int] is exact. *)

Definition double : Type := float.

Definition to_double (x : Z) : double :=
  if x <? 0 then PrimFloat.opp (PrimFloat.of_uint63 (Uint63.of_Z (- x)))
  else PrimFloat.of_uint63 (Uint63.of_Z x).

(** ** Data model *)

Inductive Affinity := NONE | SOFT | HARD.

#[global] Instance Affinity_eq_dec : EqDecision Affinity.
Proof. solve_decision. Defined.

(** [struct Type] *)
Record VMType := {
  t_index : Z;
  t_nodes : Z;
  t_cpu : Z;
  t_memory : Z
}.

(** [struct WithResources] *)
Record WithResources := {
  totalCPU : Z;
  totalMemory : Z;
  availableCPU : Z;
  availableMemory : Z;
  typeFits : gmap Z Z
}.

Record Node := {
  node_res : WithResources;
  node_index : Z
}.

Record PM := {
  pm_res : WithResources;
  pm_index : Z;
  pm_nodes : list Node;
  vmsByPG : gmap Z Z
}.

Record Rack := {
  rack_res : WithResources;
  rack_index : Z;
  rack_pms : list PM
}.

Record Domain := {
  dom_res : WithResources;
  dom_index : Z;
  dom_racks : list Rack
}.

(** Pointers into the topology. *)
Definition DomainRef : Type := nat.
Definition RackRef : Type := nat * nat.
Definition PMRef : Type := nat * nat * nat.
Definition NodeRef : Type := nat * nat * nat * nat.

Definition node_pm (n : NodeRef) : PMRef := n.1.
Definition pm_rack (p : PMRef) : RackRef := p.1.
Definition rack_domain (r : RackRef) : DomainRef := r.1.
Definition node_rack (n : NodeRef) : RackRef := pm_rack (node_pm n).

(** [struct PG]; [pg_vms] holds the keys of the member VMs, and
    [partitionRacks] keeps its keys and the racks of each key in insertion
    order. *)
Record PG := {
  pg_index : Z;
  hardRackAntiAffinityPartitions : Z;
  softPMAntiAffinity : Z;
  domainAffinity : Affinity;
  rackAffinity : Affinity;
  pg_vms : list Z;
  targetDomain : option DomainRef;
  domainAffinityPossible : bool;
  targetRack : option RackRef;
  rackAffinityPossible : bool;
  softPMAntiAffinityPossible : bool;
  partitionRacks : list (Z * list RackRef)
}.

(** [struct VM]; [vm_pg] is the key of the group the [PG *pg] points to
    (which is that group's [index], see [createPG]). *)
Record VM := {
  vm_index : Z;
  vm_type : VMType;
  vm_pg : Z;
  vm_partition : Z;
  vm_nodes : list NodeRef
}.

(** [struct Placement]; the [double] penalty is an exact rational. *)
Record Placement := {
  placements : gmap Z (list NodeRef);
  penalty : double
}.

(** [struct Manager], with the lines written to [std::cout]. *)
Record Manager := {
  types : list VMType;
  domains : list Domain;
  pgsByIndex : gmap Z PG;
  vmsByIndex : gmap Z VM;
  stdout : list (list Z)
}.

(** ** The state and failure monad *)

Definition M (A : Type) : Type := Manager → option (A * Manager).

#[global] Instance M_ret : MRet M := λ A a s, Some (a, s).
#[global] Instance M_bind : MBind M := λ A B f m s,
  match m s with
  | Some (a, s') => f a s'
  | None => None
  end.

Definition crash {A} : M A := λ _, None.
Definition getsM {A} (f : Manager → A) : M A := λ s, Some (f s, s).
Definition orCrash {A} (o : option A) : M A :=
  match o with Some a => mret a | None => crash end.

Definition set_domains (ds : list Domain) (s : Manager) : Manager :=
  {| types := types s; domains := ds; pgsByIndex := pgsByIndex s;
     vmsByIndex := vmsByIndex s; stdout := stdout s |}.
Definition set_pgs (m : gmap Z PG) (s : Manager) : Manager :=
  {| types := types s; domains := domains s; pgsByIndex := m;
     vmsByIndex := vmsByIndex s; stdout := stdout s |}.
Definition set_vms (m : gmap Z VM) (s : Manager) : Manager :=
  {| types := types s; domains := domains s; pgsByIndex := pgsByIndex s;
     vmsByIndex := m; stdout := stdout s |}.
Definition print (line : list Z) (s : Manager) : Manager :=
  {| types := types s; domains := domains s; pgsByIndex := pgsByIndex s;
     vmsByIndex := vmsByIndex s; stdout := stdout s ++ [line] |}.

Definition modifyM (f : Manager → Manager) : M unit := λ s, Some (tt, f s).

(** ** Resources *)

Definition claimResources (t : VMType) (w : WithResources) : WithResources :=
  {| totalCPU := totalCPU w; totalMemory := totalMemory w;
     availableCPU := availableCPU w - t_cpu t;
     availableMemory := availableMemory w - t_memory t;
     typeFits := ∅ |}.

Definition releaseResources (t : VMType) (w : WithResources) : WithResources :=
  {| totalCPU := totalCPU w; totalMemory := totalMemory w;
     availableCPU := availableCPU w + t_cpu t;
     availableMemory := availableMemory w + t_memory t;
     typeFits := ∅ |}.

Definition hasResources (cpu memory : Z) (w : WithResources) : bool :=
  (cpu <=? availableCPU w) && (memory <=? availableMemory w).

Definition hasResourcesType (t : VMType) (w : WithResources) : bool :=
  hasResources (t_nodes t * t_cpu t) (t_nodes t * t_memory t) w.

(** [a < b] on [double]s. *)
Definition dlt (a b : double) : bool := PrimFloat.ltb a b.

(** [std::max(a, b)] is [(a < b) ? b : a]. *)
Definition std_max (a b : double) : double := if dlt a b then b else a.

(** [WithResources::getLoad] *)
Definition getLoad (w : WithResources) : double :=
  let loadCPU :=
    PrimFloat.div (to_double (totalCPU w - availableCPU w)) (to_double (totalCPU w)) in
  let loadMemory :=
    PrimFloat.div (to_double (totalMemory w - availableMemory w))
                  (to_double (totalMemory w)) in
  std_max loadCPU loadMemory.

Definition cacheTypeFit (k v : Z) (w : WithResources) : WithResources :=
  {| totalCPU := totalCPU w; totalMemory := totalMemory w;
     availableCPU := availableCPU w; availableMemory := availableMemory w;
     typeFits := <[k := v]> (typeFits w) |}.

Definition set_node_res (w : WithResources) (n : Node) : Node :=
  {| node_res := w; node_index := node_index n |}.
Definition set_pm_res (w : WithResources) (p : PM) : PM :=
  {| pm_res := w; pm_index := pm_index p; pm_nodes := pm_nodes p; vmsByPG := vmsByPG p |}.
Definition set_pm_nodes (ns : list Node) (p : PM) : PM :=
  {| pm_res := pm_res p; pm_index := pm_index p; pm_nodes := ns; vmsByPG := vmsByPG p |}.
Definition set_vmsByPG (m : gmap Z Z) (p : PM) : PM :=
  {| pm_res := pm_res p; pm_index := pm_index p; pm_nodes := pm_nodes p; vmsByPG := m |}.
Definition set_rack_res (w : WithResources) (r : Rack) : Rack :=
  {| rack_res := w; rack_index := rack_index r; rack_pms := rack_pms r |}.
Definition set_rack_pms (ps : list PM) (r : Rack) : Rack :=
  {| rack_res := rack_res r; rack_index := rack_index r; rack_pms := ps |}.
Definition set_dom_res (w : WithResources) (d : Domain) : Domain :=
  {| dom_res := w; dom_index := dom_index d; dom_racks := dom_racks d |}.
Definition set_dom_racks (rs : list Rack) (d : Domain) : Domain :=
  {| dom_res := dom_res d; dom_index := dom_index d; dom_racks := rs |}.

(** ** typeFit, memoised per level *)

Section Model.
Context `{StdLib}.

(** The loop [for (i = 0; i < byNode.size(); i += type.nodes)] of
    [PM::getTypeFitImpl], for [type.nodes >= 1]: [skip] entries are passed
    over before the next one is added. *)
Fixpoint sumEvery (k skip : nat) (l : list Z) : Z :=
  match l with
  | [] => 0
  | x :: l' =>
      match skip with
      | O => x + sumEvery k (k - 1) l'
      | S skip' => sumEvery k skip' l'
      end
  end.

Definition Node_getTypeFitImpl (t : VMType) (n : Node) : Z :=
  Z.min (Z.quot (availableCPU (node_res n)) (t_cpu t))
        (Z.quot (availableMemory (node_res n)) (t_memory t)).

Definition Node_getTypeFit (t : VMType) (n : Node) : Z * Node :=
  match typeFits (node_res n) !! t_index t with
  | Some v => (v, n)
  | None =>
      let value := Node_getTypeFitImpl t n in
      (value, set_node_res (cacheTypeFit (t_index t) value (node_res n)) n)
  end.

(** Calls [getTypeFit] on every element in order, keeping the updated
    elements. *)
Fixpoint fitAll {A} (fit : A → Z * A) (l : list A) : list Z * list A :=
  match l with
  | [] => ([], [])
  | x :: l' =>
      let '(v, x') := fit x in
      let '(vs, l'') := fitAll fit l' in
      (v :: vs, x' :: l'')
  end.

Definition PM_getTypeFitImpl (t : VMType) (p : PM) : Z * PM :=
  let '(byNode, ns) := fitAll (Node_getTypeFit t) (pm_nodes p) in
  let sorted := std_sort Z.ltb byNode in
  (sumEvery (Z.to_nat (t_nodes t)) 0 sorted, set_pm_nodes ns p).

Definition PM_getTypeFit (t : VMType) (p : PM) : Z * PM :=
  match typeFits (pm_res p) !! t_index t with
  | Some v => (v, p)
  | None =>
      let '(value, p') := PM_getTypeFitImpl t p in
      (value, set_pm_res (cacheTypeFit (t_index t) value (pm_res p')) p')
  end.

Definition Rack_getTypeFitImpl (t : VMType) (r : Rack) : Z * Rack :=
  let '(vs, ps) := fitAll (PM_getTypeFit t) (rack_pms r) in
  (foldl Z.add 0 vs, set_rack_pms ps r).

Definition Rack_getTypeFit (t : VMType) (r : Rack) : Z * Rack :=
  match typeFits (rack_res r) !! t_index t with
  | Some v => (v, r)
  | None =>
      let '(value, r') := Rack_getTypeFitImpl t r in
      (value, set_rack_res (cacheTypeFit (t_index t) value (rack_res r')) r')
  end.

Definition Domain_getTypeFitImpl (t : VMType) (d : Domain) : Z * Domain :=
  let '(vs, rs) := fitAll (Rack_getTypeFit t) (dom_racks d) in
  (foldl Z.add 0 vs, set_dom_racks rs d).

Definition Domain_getTypeFit (t : VMType) (d : Domain) : Z * Domain :=
  match typeFits (dom_res d) !! t_index t with
  | Some v => (v, d)
  | None =>
      let '(value, d') := Domain_getTypeFitImpl t d in
      (value, set_dom_res (cacheTypeFit (t_index t) value (dom_res d')) d')
  end.

(** ** Access to the topology through pointers *)

Definition getDomain (d : DomainRef) (ds : list Domain) : option Domain := ds !! d.
Definition getRack (r : RackRef) (ds : list Domain) : option Rack :=
  getDomain r.1 ds ≫= λ d, dom_racks d !! r.2.
Definition getPM (p : PMRef) (ds : list Domain) : option PM :=
  getRack p.1 ds ≫= λ r, rack_pms r !! p.2.
Definition getNode (n : NodeRef) (ds : list Domain) : option Node :=
  getPM n.1 ds ≫= λ p, pm_nodes p !! n.2.

Definition alterDomain (f : Domain → Domain) (d : DomainRef) (ds : list Domain) : list Domain :=
  alter f d ds.
Definition alterRack (f : Rack → Rack) (r : RackRef) (ds : list Domain) : list Domain :=
  alterDomain (λ d, set_dom_racks (alter f r.2 (dom_racks d)) d) r.1 ds.
Definition alterPM (f : PM → PM) (p : PMRef) (ds : list Domain) : list Domain :=
  alterRack (λ r, set_rack_pms (alter f p.2 (rack_pms r)) r) p.1 ds.
Definition alterNode (f : Node → Node) (n : NodeRef) (ds : list Domain) : list Domain :=
  alterPM (λ p, set_pm_nodes (alter f n.2 (pm_nodes p)) p) n.1 ds.

(** The four calls of one iteration of the loops of [VM::place] and
    [VM::unplace], with [g] one of [claimResources type] and
    [releaseResources type]. *)
Definition chargePath (g : WithResources → WithResources) (n : NodeRef)
    (ds : list Domain) : list Domain :=
  let ds1 := alterNode (λ x, set_node_res (g (node_res x)) x) n ds in
  let ds2 := alterPM (λ x, set_pm_res (g (pm_res x)) x) (node_pm n) ds1 in
  let ds3 := alterRack (λ x, set_rack_res (g (rack_res x)) x) (node_rack n) ds2 in
  alterDomain (λ x, set_dom_res (g (dom_res x)) x) (rack_domain (node_rack n)) ds3.

(** [m[k]] on the [unordered_map<int, int>] of a PM: a missing key reads
    as 0. *)
Definition countOf (k : Z) (m : gmap Z Z) : Z := default 0 (m !! k).

(** [vmsByPG[k] += delta] *)
Definition bumpCount (k delta : Z) (p : PM) : PM :=
  set_vmsByPG (<[k := countOf k (vmsByPG p) + delta]> (vmsByPG p)) p.

Definition set_vm_nodes (ns : list NodeRef) (v : VM) : VM :=
  {| vm_index := vm_index v; vm_type := vm_type v; vm_pg := vm_pg v;
     vm_partition := vm_partition v; vm_nodes := ns |}.

Definition isPlaced (v : VM) : bool :=
  match vm_nodes v with [] => false | _ => true end.

Definition readVM (vmi : Z) : M VM := λ s, orCrash (vmsByIndex s !! vmi) s.
Definition readPG (pgi : Z) : M PG := λ s, orCrash (pgsByIndex s !! pgi) s.
Definition readDomain (d : DomainRef) : M Domain := λ s, orCrash (getDomain d (domains s)) s.
Definition readRack (r : RackRef) : M Rack := λ s, orCrash (getRack r (domains s)) s.
Definition readPM (p : PMRef) : M PM := λ s, orCrash (getPM p (domains s)) s.
Definition readNode (n : NodeRef) : M Node := λ s, orCrash (getNode n (domains s)) s.

(** [VM::place], on the VM with key [vmi]. *)
Definition place (vmi : Z) (placement : list NodeRef) : M unit :=
  vm ← readVM vmi;
  modifyM (λ s, set_vms (<[vmi := set_vm_nodes placement vm]> (vmsByIndex s)) s);;
  modifyM (λ s, set_domains
    (foldl (λ ds n, chargePath (claimResources (vm_type vm)) n ds) (domains s) placement) s);;
  n0 ← orCrash (head placement);
  modifyM (λ s, set_domains (alterPM (bumpCount (vm_pg vm) 1) (node_pm n0) (domains s)) s).

(** [VM::unplace] *)
Definition unplace (vmi : Z) : M unit :=
  vm ← readVM vmi;
  modifyM (λ s, set_domains
    (foldl (λ ds n, chargePath (releaseResources (vm_type vm)) n ds) (domains s) (vm_nodes vm)) s);;
  n0 ← orCrash (head (vm_nodes vm));
  modifyM (λ s, set_domains (alterPM (bumpCount (vm_pg vm) (-1)) (node_pm n0) (domains s)) s);;
  modifyM (λ s, set_vms (<[vmi := set_vm_nodes [] vm]> (vmsByIndex s)) s).

(** [Manager::unplaceVMs] *)
Fixpoint unplaceVMs (vms : list Z) : M unit :=
  match vms with
  | [] => mret tt
  | vmi :: rest =>
      vm ← readVM vmi;
      (if isPlaced vm then unplace vmi else mret tt);;
      unplaceVMs rest
  end.

(** ** Derived state of a placement group *)

(** [partitionRacks[p].insert(r)] *)
Fixpoint prInsert (p : Z) (r : RackRef) (m : list (Z * list RackRef)) :
    list (Z * list RackRef) :=
  match m with
  | [] => [(p, [r])]
  | (q, rs) :: m' =>
      if decide (q = p)
      then (q, if decide (r ∈ rs) then rs else rs ++ [r]) :: m'
      else (q, rs) :: prInsert p r m'
  end.

(** [partitionRacks[p]], which adds an empty set under a missing key. *)
Fixpoint prAt (p : Z) (m : list (Z * list RackRef)) :
    list RackRef * list (Z * list RackRef) :=
  match m with
  | [] => ([], [(p, [])])
  | (q, rs) :: m' =>
      if decide (q = p) then (rs, m)
      else let '(found, m'') := prAt p m' in (found, (q, rs) :: m'')
  end.

Record Targets := {
  tg_domain : option DomainRef;
  tg_domainPossible : bool;
  tg_rack : option RackRef;
  tg_rackPossible : bool;
  tg_partitionRacks : list (Z * list RackRef)
}.

(** The body of the loop over [vms] in [PG::updateTargets]. *)
Definition updateTargets_step (pg : PG) (a : Targets) (vm : VM) : Targets :=
  match vm_nodes vm with
  | [] => a
  | n0 :: _ =>
      let rack := node_rack n0 in
      let domain := rack_domain rack in
      let '(td, dp) :=
        if bool_decide (domainAffinity pg ≠ NONE) && tg_domainPossible a then
          match tg_domain a with
          | None => (Some domain, tg_domainPossible a)
          | Some d => if bool_decide (d ≠ domain) then (Some d, false)
                      else (Some d, tg_domainPossible a)
          end
        else (tg_domain a, tg_domainPossible a) in
      let '(tr, rp) :=
        if bool_decide (rackAffinity pg ≠ NONE) && tg_rackPossible a then
          match tg_rack a with
          | None => (Some rack, tg_rackPossible a)
          | Some r => if bool_decide (r ≠ rack) then (Some r, false)
                      else (Some r, tg_rackPossible a)
          end
        else (tg_rack a, tg_rackPossible a) in
      {| tg_domain := td; tg_domainPossible := dp; tg_rack := tr; tg_rackPossible := rp;
         tg_partitionRacks :=
           if 0 <? hardRackAntiAffinityPartitions pg
           then prInsert (vm_partition vm) rack (tg_partitionRacks a)
           else tg_partitionRacks a |}
  end.

Definition set_targets (a : Targets) (soft : bool) (pg : PG) : PG :=
  {| pg_index := pg_index pg;
     hardRackAntiAffinityPartitions := hardRackAntiAffinityPartitions pg;
     softPMAntiAffinity := softPMAntiAffinity pg;
     domainAffinity := domainAffinity pg;
     rackAffinity := rackAffinity pg;
     pg_vms := pg_vms pg;
     targetDomain := tg_domain a;
     domainAffinityPossible := tg_domainPossible a;
     targetRack := tg_rack a;
     rackAffinityPossible := tg_rackPossible a;
     softPMAntiAffinityPossible := soft;
     partitionRacks := tg_partitionRacks a |}.

Definition updateTargets_pg (pg : PG) (vms : list VM) : PG :=
  let a := foldl (updateTargets_step pg)
             {| tg_domain := None; tg_domainPossible := true; tg_rack := None;
                tg_rackPossible := true; tg_partitionRacks := [] |} vms in
  if (bool_decide (domainAffinity pg = SOFT) && negb (tg_domainPossible a))
     || (bool_decide (rackAffinity pg = SOFT) && negb (tg_rackPossible a))
  then set_targets {| tg_domain := tg_domain a; tg_domainPossible := false;
                      tg_rack := tg_rack a; tg_rackPossible := false;
                      tg_partitionRacks := tg_partitionRacks a |} false pg
  else set_targets a (0 <? softPMAntiAffinity pg) pg.

(** Reads the VMs the pointers of [pg.vms] point to. *)
Fixpoint readVMs (vms : list Z) : M (list VM) :=
  match vms with
  | [] => mret []
  | vmi :: rest => vm ← readVM vmi; l ← readVMs rest; mret (vm :: l)
  end.

(** [PG::updateTargets], on the group with key [pgi]. *)
Definition updateTargets (pgi : Z) : M unit :=
  pg ← readPG pgi;
  vms ← readVMs (pg_vms pg);
  modifyM (λ s, set_pgs (<[pgi := updateTargets_pg pg vms]> (pgsByIndex s)) s).

(** ** Feasibility and scoring *)

(** Conversion of an [int] operand compared with a [size_t]. *)
Definition to_size_t (x : Z) : Z := x mod 2 ^ 64.

Definition rackLoad (ds : list Domain) (r : RackRef) : double :=
  match getRack r ds with
  | Some rk => getLoad (rack_res rk)
  | None => PrimFloat.zero
  end.

(** [std::sort] of racks with the comparator [a->getLoad() < b->getLoad()]. *)
Definition sortByLoad (ds : list Domain) (racks : list RackRef) : list RackRef :=
  std_sort (λ a b, dlt (rackLoad ds a) (rackLoad ds b)) racks.

(** [rack->getTypeFit(type)] through a pointer. *)
Definition rackGetTypeFit (t : VMType) (r : RackRef) : M Z :=
  rk ← readRack r;
  let '(v, rk') := Rack_getTypeFit t rk in
  modifyM (λ s, set_domains (alterRack (λ _, rk') r (domains s)) s);;
  mret v.

Fixpoint racksGetTypeFit (t : VMType) (racks : list RackRef) : M (list Z) :=
  match racks with
  | [] => mret []
  | r :: rest => v ← rackGetTypeFit t r; vs ← racksGetTypeFit t rest; mret (v :: vs)
  end.

(** The [std::sort] at the head of the loop of [tryPlaceInner]: larger
    typeFit first, then smaller load.  The comparator fills the typeFit
    memos of every rack it is called on, which is every rack once there are
    two; with fewer it is never called. *)
Definition sortRacksByFit (t : VMType) (racks : list RackRef) : M (list RackRef) :=
  if (length racks <? 2)%nat then mret racks
  else
    fits ← racksGetTypeFit t racks;
    ds ← getsM domains;
    let keyed := zip racks (zip fits (rackLoad ds <$> racks)) in
    mret ((std_sort (λ a b, if a.2.1 =? b.2.1 then dlt a.2.2 b.2.2 else b.2.1 <? a.2.1)
             keyed).*1).

(** The [std::sort] of the nodes of a PM by descending typeFit; the result
    pairs each node position with the node. *)
Definition sortNodesByFit (t : VMType) (pr : PMRef) : M (list (nat * Node)) :=
  pm ← readPM pr;
  if (length (pm_nodes pm) <? 2)%nat then mret (imap pair (pm_nodes pm))
  else
    let '(fits, ns) := fitAll (Node_getTypeFit t) (pm_nodes pm) in
    modifyM (λ s, set_domains (alterPM (set_pm_nodes ns) pr (domains s)) s);;
    mret ((std_sort (λ a b, b.2 <? a.2) (zip (imap pair ns) fits)).*1).

(** The loop collecting [vmNodes]. *)
Fixpoint pickNodes (t : VMType) (pr : PMRef) (cands : list (nat * Node))
    (vmNodes : list NodeRef) : list NodeRef :=
  match cands with
  | [] => vmNodes
  | (i, node) :: rest =>
      if negb (hasResources (t_cpu t) (t_memory t) (node_res node))
      then pickNodes t pr rest vmNodes
      else
        let vmNodes' := vmNodes ++ [(pr, i)] in
        if Z.of_nat (length vmNodes') =? to_size_t (t_nodes t) then vmNodes'
        else pickNodes t pr rest vmNodes'
  end.

(** [pm.vmsByPG[k]] through a pointer, with the entry it creates. *)
Definition countAt (pr : PMRef) (k : Z) : M Z :=
  pm ← readPM pr;
  modifyM (λ s, set_domains (alterPM (bumpCount k 0) pr (domains s)) s);;
  mret (countOf k (vmsByPG pm)).

(** The loop over the PMs of one rack in [tryPlaceInner]; [Some] is the
    [break] after [vm->place]. *)
Fixpoint tryPMs (pgi vmi : Z) (t : VMType) (force : bool) (rack : RackRef) (pms : list nat)
    (plc : gmap Z (list NodeRef)) : M (option (gmap Z (list NodeRef))) :=
  match pms with
  | [] => mret None
  | p :: rest =>
      pm ← readPM (rack, p);
      if negb (hasResourcesType t (pm_res pm)) then tryPMs pgi vmi t force rack rest plc
      else
        pg ← readPG pgi;
        skip ← (if negb force && (0 <? softPMAntiAffinity pg) && softPMAntiAffinityPossible pg
                then c ← countAt (rack, p) (pg_index pg); mret (softPMAntiAffinity pg <=? c)
                else mret false);
        if (skip : bool) then tryPMs pgi vmi t force rack rest plc
        else
          pmNodes ← sortNodesByFit t (rack, p);
          let vmNodes := pickNodes t (rack, p) pmNodes [] in
          if negb (Z.of_nat (length vmNodes) =? to_size_t (t_nodes t))
          then tryPMs pgi vmi t force rack rest plc
          else
            vm ← readVM vmi;
            place vmi vmNodes;;
            mret (Some (<[vm_index vm := vmNodes]> plc))
  end.

(** The loop over the racks in [tryPlaceInner]. *)
Fixpoint tryRacks (pgi vmi : Z) (t : VMType) (force : bool) (racks : list RackRef)
    (plc : gmap Z (list NodeRef)) : M (option (gmap Z (list NodeRef))) :=
  match racks with
  | [] => mret None
  | r :: rest =>
      rk ← readRack r;
      if negb (hasResourcesType t (rack_res rk)) then tryRacks pgi vmi t force rest plc
      else
        res ← tryPMs pgi vmi t force r (seq 0 (length (rack_pms rk))) plc;
        match res with
        | Some plc' => mret (Some plc')
        | None => tryRacks pgi vmi t force rest plc
        end
  end.

(** [Manager::tryPlaceInner]; returns the placements and the deque of
    racks, both passed by reference. *)
Fixpoint tryPlaceInner (pgi : Z) (vmsToPlace : list Z) (t : VMType) (racks : list RackRef)
    (plc : gmap Z (list NodeRef)) (force : bool) :
    M (gmap Z (list NodeRef) * list RackRef) :=
  match vmsToPlace with
  | [] => mret (plc, racks)
  | vmi :: rest =>
      vm ← readVM vmi;
      if isPlaced vm then tryPlaceInner pgi rest t racks plc force
      else
        racks' ← sortRacksByFit t racks;
        res ← tryRacks pgi vmi t force racks' plc;
        tryPlaceInner pgi rest t racks' (default plc res) force
  end.

Fixpoint sumAvailable (racks : list RackRef) : M (Z * Z) :=
  match racks with
  | [] => mret (0, 0)
  | r :: rest =>
      rk ← readRack r;
      '(c, m) ← sumAvailable rest;
      mret (availableCPU (rack_res rk) + c, availableMemory (rack_res rk) + m)
  end.

(** The loop counting the VMs over the soft per-PM limit in [tryPlace]. *)
Fixpoint softPenalty (pgi : Z) (vms : list Z) : M Z :=
  match vms with
  | [] => mret 0
  | vmi :: rest =>
      vm ← readVM vmi;
      n0 ← orCrash (head (vm_nodes vm));
      pg ← readPG pgi;
      c ← countAt (node_pm n0) (pg_index pg);
      p ← softPenalty pgi rest;
      mret ((if softPMAntiAffinity pg <? c then 1 else 0) + p)
  end.

(** [Manager::tryPlace]; returns its result and the deque of racks. *)
Definition tryPlace (pgi : Z) (vmsToPlace : list Z) (t : VMType) (racks : list RackRef)
    (force : bool) : M (option Placement * list RackRef) :=
  unplaceVMs vmsToPlace;;
  '(availCPU, availMemory) ← sumAvailable racks;
  let n := Z.of_nat (length vmsToPlace) in
  if (to_size_t availCPU <? to_size_t (n * t_nodes t * t_cpu t))
     || (to_size_t availMemory <? to_size_t (n * t_nodes t * t_memory t))
  then mret (None, racks)
  else
    '(plc, racks1) ← tryPlaceInner pgi vmsToPlace t racks ∅ false;
    '(plc, racks2) ← (if force && (size plc <? length vmsToPlace)%nat
                      then tryPlaceInner pgi vmsToPlace t racks1 plc true
                      else mret (plc, racks1));
    if (size plc <? length vmsToPlace)%nat then mret (None, racks2)
    else
      updateTargets pgi;;
      pg ← readPG pgi;
      soft ← (if (0 <? softPMAntiAffinity pg) && softPMAntiAffinityPossible pg
              then softPenalty pgi vmsToPlace else mret 0);
      let pd := if bool_decide (domainAffinity pg = SOFT) && negb (domainAffinityPossible pg)
                then 1000 else 0 in
      let pr := if bool_decide (rackAffinity pg = SOFT) && negb (rackAffinityPossible pg)
                then 1000 else 0 in
      mret (Some {| placements := plc; penalty := to_double (soft + pd + pr) |}, racks2).

(** [vmsByPartition[p].push_back(vm)] *)
Fixpoint vbpInsert (p vmi : Z) (m : list (Z * list Z)) : list (Z * list Z) :=
  match m with
  | [] => [(p, [vmi])]
  | (q, l) :: m' =>
      if decide (q = p) then (q, l ++ [vmi]) :: m' else (q, l) :: vbpInsert p vmi m'
  end.

Definition set_partitionRacks (m : list (Z * list RackRef)) (pg : PG) : PG :=
  {| pg_index := pg_index pg;
     hardRackAntiAffinityPartitions := hardRackAntiAffinityPartitions pg;
     softPMAntiAffinity := softPMAntiAffinity pg;
     domainAffinity := domainAffinity pg;
     rackAffinity := rackAffinity pg;
     pg_vms := pg_vms pg;
     targetDomain := targetDomain pg;
     domainAffinityPossible := domainAffinityPossible pg;
     targetRack := targetRack pg;
     rackAffinityPossible := rackAffinityPossible pg;
     softPMAntiAffinityPossible := softPMAntiAffinityPossible pg;
     partitionRacks := m |}.

(** The racks of the other partitions ([invalidRacks], used for membership
    only). *)
Definition invalidRacks (partition : Z) (m : list (Z * list RackRef)) : list RackRef :=
  concat ((filter (λ e, e.1 ≠ partition) m).*2).

(** The choice of [startRacks] and [extraRacks] for one partition; [None]
    is the [return {}] of an empty choice. *)
Definition chooseRacks (pgi partition : Z) (racks : list RackRef) :
    M (option (list RackRef * list RackRef)) :=
  ds ← getsM domains;
  let sortedRacks := sortByLoad ds racks in
  pg ← readPG pgi;
  if 0 <? partition then
    let invalid := invalidRacks partition (partitionRacks pg) in
    let '(own, m') := prAt partition (partitionRacks pg) in
    modifyM (λ s, set_pgs (<[pgi := set_partitionRacks m' pg]> (pgsByIndex s)) s);;
    let startRacks := filter (λ r, r ∉ invalid) (hash_order own) in
    let extraRacks := filter (λ r, (r ∉ invalid) ∧ (r ∉ startRacks)) racks in
    match startRacks, extraRacks with
    | [], [] => mret None
    | [], e :: extra' => mret (Some ([e], extra'))
    | _, _ => mret (Some (startRacks, extraRacks))
    end
  else if bool_decide (rackAffinity pg = SOFT) && rackAffinityPossible pg then
    match targetRack pg with
    | Some tr =>
        if bool_decide (tr ∈ racks)
        then mret (Some ([tr], filter (λ r, r ≠ tr) sortedRacks))
        else
          match sortedRacks with
          | [] => crash
          | r0 :: rest => mret (Some ([r0], rest))
          end
    | None =>
        match sortedRacks with
        | [] => crash
        | r0 :: rest => mret (Some ([r0], rest))
        end
    end
  else mret (Some (sortedRacks, [])).

(** The [while (true)] loop of [getBestPlacement] for one value of [force]:
    [None] when the extra racks are used up. *)
Fixpoint expandRacks (pgi : Z) (vms : list Z) (t : VMType)
    (currentStartRacks currentExtraRacks : list RackRef) (force : bool) :
    M (option Placement) :=
  '(placement, racks') ← tryPlace pgi vms t currentStartRacks force;
  match placement with
  | Some p => mret (Some p)
  | None =>
      match currentExtraRacks with
      | [] => mret None
      | e :: extra' => expandRacks pgi vms t (racks' ++ [e]) extra' force
      end
  end.

Definition addPlacement (cp p : Placement) : Placement :=
  {| placements := placements cp ∪ placements p;
     penalty := PrimFloat.add (penalty cp) (penalty p) |}.

(** The body of the loop over [vmsByPartition]. *)
Definition placePartition (pgi : Z) (t : VMType) (racks : list RackRef)
    (partition : Z) (vms : list Z) (cp : Placement) : M (option Placement) :=
  unplaceVMs vms;;
  updateTargets pgi;;
  choice ← chooseRacks pgi partition racks;
  match choice with
  | None => mret None
  | Some (startRacks, extraRacks) =>
      r ← expandRacks pgi vms t startRacks extraRacks false;
      match r with
      | Some p => mret (Some (addPlacement cp p))
      | None =>
          r ← expandRacks pgi vms t startRacks extraRacks true;
          match r with
          | Some p => mret (Some (addPlacement cp p))
          | None => mret None
          end
      end
  end.

Fixpoint placePartitions (pgi : Z) (t : VMType) (racks : list RackRef)
    (parts : list (Z * list Z)) (cp : Placement) : M (option Placement) :=
  match parts with
  | [] => mret (Some cp)
  | (partition, vms) :: rest =>
      r ← placePartition pgi t racks partition vms cp;
      match r with
      | None => mret None
      | Some cp' => placePartitions pgi t racks rest cp'
      end
  end.

(** [Manager::getBestPlacement] *)
Definition getBestPlacement (pgi : Z) (vmsToPlace : list Z) (t : VMType)
    (racks : list RackRef) : M (option Placement) :=
  vms ← readVMs vmsToPlace;
  let vmsByPartition :=
    foldl (λ m vm, vbpInsert (vm_partition vm.2) vm.1 m) [] (zip vmsToPlace vms) in
  r ← placePartitions pgi t racks (hash_order vmsByPartition)
        {| placements := ∅; penalty := PrimFloat.zero |};
  match r with
  | None => mret None
  | Some cp =>
      ds ← getsM domains;
      let totalLoad := foldl (λ a r, PrimFloat.add a (rackLoad ds r)) PrimFloat.zero racks in
      mret (Some {| placements := placements cp;
                    penalty := PrimFloat.add (penalty cp)
                                 (PrimFloat.div totalLoad
                                    (to_double (Z.of_nat (length racks)))) |})
  end.

(** ** Candidate rack groups *)

(** [getVectorPointers(domain.racks)] *)
Definition racksOf (ds : list Domain) (d : DomainRef) : list RackRef :=
  match ds !! d with
  | Some dom => (λ r, (d, r)) <$> seq 0 (length (dom_racks dom))
  | None => []
  end.

Definition domainRefs (ds : list Domain) : list DomainRef := seq 0 (length ds).

(** The racks of all domains, domain by domain. *)
Definition allRacks (ds : list Domain) : list RackRef :=
  concat (racksOf ds <$> domainRefs ds).

(** [Manager::getRackGroups] *)
Definition getRackGroups (pgi : Z) : M (list (list RackRef)) :=
  updateTargets pgi;;
  pg ← readPG pgi;
  ds ← getsM domains;
  let singles := (λ r, [r]) <$> allRacks ds in
  let perDomain := racksOf ds <$> domainRefs ds in
  if bool_decide (rackAffinity pg = HARD) then
    mret (match targetRack pg with Some tr => [[tr]] | None => singles end)
  else if bool_decide (domainAffinity pg = HARD) then
    mret (match targetDomain pg with Some td => [racksOf ds td] | None => perDomain end)
  else
    let byRack :=
      if bool_decide (rackAffinity pg = SOFT) && rackAffinityPossible pg
      then match targetRack pg with Some tr => [[tr]] | None => singles end
      else [] in
    let byDomain :=
      if bool_decide (domainAffinity pg = SOFT) && domainAffinityPossible pg
      then match targetDomain pg with Some td => [racksOf ds td] | None => perDomain end
      else perDomain in
    mret (byRack ++ byDomain ++ [allRacks ds]).

(** The load of [a[0]] for a group [a]; a group is never empty when every
    domain has a rack. *)
Definition groupLoad (ds : list Domain) (g : list RackRef) : double :=
  match g with
  | [] => PrimFloat.zero
  | r :: _ => rackLoad ds r
  end.

(** [std::sort(groups.begin() + sortStart, groups.end(), ...)] by the load
    of the first rack. *)
Definition sortGroupsFrom (ds : list Domain) (sortStart : nat)
    (groups : list (list RackRef)) : list (list RackRef) :=
  take sortStart groups
  ++ std_sort (λ a b, dlt (groupLoad ds a) (groupLoad ds b)) (drop sortStart groups).

(** The singleton groups of the racks with a non-zero typeFit. *)
Fixpoint fittingRacks (t : VMType) (racks : list RackRef) : M (list (list RackRef)) :=
  match racks with
  | [] => mret []
  | r :: rest =>
      v ← rackGetTypeFit t r;
      l ← fittingRacks t rest;
      mret (if v =? 0 then l else [r] :: l)
  end.

(** One group per domain whose racks' typeFits add up to the batch size. *)
Fixpoint fittingDomains (t : VMType) (n : Z) (doms : list DomainRef) :
    M (list (list RackRef)) :=
  match doms with
  | [] => mret []
  | d :: rest =>
      ds ← getsM domains;
      let group := racksOf ds d in
      fits ← racksGetTypeFit t group;
      let totalFit := foldl Z.add 0 fits in
      l ← fittingDomains t n rest;
      mret (if to_size_t totalFit <? n then l else sortByLoad ds group :: l)
  end.

(** The sorted groups of the domains other than [pg->targetDomain]. *)
Definition otherDomains (ds : list Domain) (target : option DomainRef) :
    list (list RackRef) :=
  (λ d, sortByLoad ds (racksOf ds d))
    <$> filter (λ d, Some d ≠ target) (domainRefs ds).

(** [Manager::getRackGroups2] *)
Definition getRackGroups2 (vmsToPlace : list Z) : M (list (list RackRef)) :=
  vm0 ← orCrash (head vmsToPlace);
  vm ← readVM vm0;
  let pgi := vm_pg vm in
  updateTargets pgi;;
  let t := vm_type vm in
  let n := Z.of_nat (length vmsToPlace) in
  groups ← getRackGroups pgi;
  pg ← readPG pgi;
  ds ← getsM domains;
  let rackFailed := bool_decide (rackAffinity pg = NONE) || negb (rackAffinityPossible pg) in
  let domainFailed :=
    bool_decide (domainAffinity pg = NONE) || negb (domainAffinityPossible pg) in
  if bool_decide (rackAffinity pg = HARD) then
    match targetRack pg with
    | Some tr => mret (groups ++ [[tr]])
    | None =>
        l ← fittingRacks t (allRacks ds);
        mret (sortGroupsFrom ds 0 (groups ++ l))
    end
  else if bool_decide (domainAffinity pg = HARD) && rackFailed then
    match targetDomain pg with
    | Some td => mret (groups ++ [sortByLoad ds (racksOf ds td)])
    | None =>
        l ← fittingDomains t n (domainRefs ds);
        mret (sortGroupsFrom ds 0 (groups ++ l))
    end
  else if bool_decide (domainAffinity pg = HARD) && bool_decide (rackAffinity pg = SOFT)
          && rackAffinityPossible pg then
    let '(groups1, sortStart) :=
      match targetRack pg with
      | Some tr => (groups ++ [[tr]], 1%nat)
      | None => (groups, 0%nat)
      end in
    l ← match targetDomain pg with
        | Some td => mret [sortByLoad ds (racksOf ds td)]
        | None => fittingDomains t n (domainRefs ds)
        end;
    mret (sortGroupsFrom ds sortStart (groups1 ++ l))
  else if bool_decide (domainAffinity pg = SOFT) && domainAffinityPossible pg
          && bool_decide (rackAffinity pg = SOFT) && rackAffinityPossible pg then
    let '(groups1, sortStart1) :=
      match targetRack pg with
      | Some tr => (groups ++ [[tr]], 1%nat)
      | None => (groups, 0%nat)
      end in
    let '(groups2, sortStart2) :=
      match targetDomain pg with
      | Some td => (groups1 ++ [sortByLoad ds (racksOf ds td)], S sortStart1)
      | None => (groups1, sortStart1)
      end in
    mret (sortGroupsFrom ds sortStart2 (groups2 ++ otherDomains ds (targetDomain pg))
          ++ [sortByLoad ds (allRacks ds)])
  else if bool_decide (domainAffinity pg = SOFT) && domainAffinityPossible pg
          && rackFailed then
    let '(groups1, sortStart) :=
      match targetDomain pg with
      | Some td => (groups ++ [sortByLoad ds (racksOf ds td)], 1%nat)
      | None => (groups, 0%nat)
      end in
    mret (sortGroupsFrom ds sortStart (groups1 ++ otherDomains ds (targetDomain pg))
          ++ [sortByLoad ds (allRacks ds)])
  else if domainFailed || rackFailed then
    mret (groups ++ [sortByLoad ds (allRacks ds)])
  else mret groups.

(** ** Requests *)

(** [duration_cast<seconds>] of an elapsed time in nanoseconds. *)
Definition duration_cast_seconds (elapsed : Z) : Z := Z.quot elapsed 1000000000.

Definition mkPG (index hardParts softPM : Z) (domA rackA : Affinity) : PG :=
  {| pg_index := index;
     hardRackAntiAffinityPartitions := hardParts;
     softPMAntiAffinity := softPM;
     domainAffinity := domA;
     rackAffinity := rackA;
     pg_vms := [];
     targetDomain := None;
     domainAffinityPossible := true;
     targetRack := None;
     rackAffinityPossible := true;
     softPMAntiAffinityPossible := true;
     partitionRacks := [] |}.

(** [Manager::createPG]; [emplace] keeps an entry that is already there. *)
Definition createPG (index hardParts softPM : Z) (domA rackA : Affinity) : M unit :=
  let hardParts' := if hardParts <=? 1 then 0 else hardParts in
  modifyM (λ s,
    match pgsByIndex s !! index with
    | Some _ => s
    | None => set_pgs (<[index := mkPG index hardParts' softPM domA rackA]> (pgsByIndex s)) s
    end).

Definition push_vm (vmi : Z) (pg : PG) : PG :=
  {| pg_index := pg_index pg;
     hardRackAntiAffinityPartitions := hardRackAntiAffinityPartitions pg;
     softPMAntiAffinity := softPMAntiAffinity pg;
     domainAffinity := domainAffinity pg;
     rackAffinity := rackAffinity pg;
     pg_vms := pg_vms pg ++ [vmi];
     targetDomain := targetDomain pg;
     domainAffinityPossible := domainAffinityPossible pg;
     targetRack := targetRack pg;
     rackAffinityPossible := rackAffinityPossible pg;
     softPMAntiAffinityPossible := softPMAntiAffinityPossible pg;
     partitionRacks := partitionRacks pg |}.

Definition remove_vm (vmi : Z) (pg : PG) : PG :=
  {| pg_index := pg_index pg;
     hardRackAntiAffinityPartitions := hardRackAntiAffinityPartitions pg;
     softPMAntiAffinity := softPMAntiAffinity pg;
     domainAffinity := domainAffinity pg;
     rackAffinity := rackAffinity pg;
     pg_vms := filter (λ i, i ≠ vmi) (pg_vms pg);
     targetDomain := targetDomain pg;
     domainAffinityPossible := domainAffinityPossible pg;
     targetRack := targetRack pg;
     rackAffinityPossible := rackAffinityPossible pg;
     softPMAntiAffinityPossible := softPMAntiAffinityPossible pg;
     partitionRacks := partitionRacks pg |}.

(** The loop of [createVMs] that materialises the batch; [i] counts from
    0. *)
Fixpoint registerVMs (t : VMType) (pgi partition : Z) (i : Z) (indices : list Z) : M unit :=
  match indices with
  | [] => mret tt
  | index :: rest =>
      let vm := {| vm_index := index; vm_type := t; vm_pg := pgi;
                   vm_partition := if 0 <=? partition then partition else i + 1;
                   vm_nodes := [] |} in
      modifyM (λ s,
        match vmsByIndex s !! index with
        | Some _ => s
        | None => set_vms (<[index := vm]> (vmsByIndex s)) s
        end);;
      readVM index;;
      modifyM (λ s, set_pgs (alter (push_vm index) pgi (pgsByIndex s)) s);;
      registerVMs t pgi partition (i + 1) rest
  end.

(** The loop of [createVMs] over the rack groups. *)
Fixpoint tryGroups (pgi : Z) (vmsToPlace : list Z) (t : VMType)
    (groups : list (list RackRef)) (bestPlacement : option Placement) :
    M (option Placement) :=
  match groups with
  | [] => mret bestPlacement
  | racks :: rest =>
      placement ← getBestPlacement pgi vmsToPlace t racks;
      let best' :=
        match placement, bestPlacement with
        | None, _ => bestPlacement
        | Some p, None => Some p
        | Some p, Some b => if dlt (penalty p) (penalty b) then Some p else Some b
        end in
      tryGroups pgi vmsToPlace t rest best'
  end.

Fixpoint nodeIndices (nodes : list NodeRef) : M (list Z) :=
  match nodes with
  | [] => mret []
  | n :: rest =>
      node ← readNode n;
      l ← nodeIndices rest;
      mret (node_index node :: l)
  end.

(** The loop of [createVMs] that places the chosen plan and writes one
    line per VM. *)
Fixpoint commitVMs (best : Placement) (vmsToPlace : list Z) : M unit :=
  match vmsToPlace with
  | [] => mret tt
  | vmi :: rest =>
      vm ← readVM vmi;
      let nodes := default [] (placements best !! vm_index vm) in
      n0 ← orCrash (head nodes);
      let pr := node_pm n0 in
      place vmi nodes;;
      pm ← readPM pr;
      rack ← readRack (pm_rack pr);
      domain ← readDomain (rack_domain (pm_rack pr));
      idx ← nodeIndices nodes;
      modifyM (print (dom_index domain :: rack_index rack :: pm_index pm :: idx));;
      commitVMs best rest
  end.

(** The search of [createVMs]: the loop over the rack groups and the
    [unplaceVMs] that follows it. *)
Definition searchPlacement (pgIndex : Z) (vmsToPlace : list Z) (t : VMType) :
    M (option Placement) :=
  groups ← getRackGroups2 vmsToPlace;
  bestPlacement ← tryGroups pgIndex vmsToPlace t groups None;
  unplaceVMs vmsToPlace;;
  mret bestPlacement.

(** [Manager::createVMs]; [elapsed] is [currentTime - startTime]. *)
Definition createVMs (elapsed : Z) (indices : list Z) (typeIndex pgIndex partition : Z) :
    M bool :=
  if 14 <=? duration_cast_seconds elapsed then
    modifyM (print [-1]);; mret false
  else
    ts ← getsM types;
    t ← (if 0 <=? typeIndex - 1 then orCrash (ts !! Z.to_nat (typeIndex - 1)) else crash);
    pg ← readPG pgIndex;
    let partition := if hardRackAntiAffinityPartitions pg =? 0 then 0 else partition in
    registerVMs t pgIndex partition 0 indices;;
    let vmsToPlace := indices in
    bestPlacement ← searchPlacement pgIndex vmsToPlace t;
    match bestPlacement with
    | None => modifyM (print [-1]);; mret false
    | Some best =>
        commitVMs best vmsToPlace;;
        updateTargets pgIndex;;
        mret true
    end.

(** [Manager::deleteVMs] *)
Fixpoint deleteVMs (indices : list Z) : M unit :=
  match indices with
  | [] => mret tt
  | index :: rest =>
      vm ← readVM index;
      unplace index;;
      modifyM (λ s, set_pgs (alter (remove_vm index) (vm_pg vm) (pgsByIndex s)) s);;
      modifyM (λ s, set_vms (delete index (vmsByIndex s)) s);;
      deleteVMs rest
  end.

Inductive Request :=
  | CreatePG (index hardParts softPM : Z) (domA rackA : Affinity)
  | CreateVMs (indices : list Z) (typeIndex pgIndex partition : Z)
  | DeleteVMs (indices : list Z)
  | Terminate.

(** The [switch] of [main]; the result is [terminate]. *)
Definition handle (elapsed : Z) (req : Request) : M bool :=
  match req with
  | CreatePG index hardParts softPM domA rackA =>
      createPG index hardParts softPM domA rackA;; mret false
  | CreateVMs indices typeIndex pgIndex partition =>
      ok ← createVMs elapsed indices typeIndex pgIndex partition; mret (negb ok)
  | DeleteVMs indices => deleteVMs indices;; mret false
  | Terminate => mret true
  end.

(** The request loop of [main]; [clock requestId] is the elapsed time a
    creation request with that number reads. *)
Fixpoint run (clock : nat → Z) (requestId : nat) (reqs : list Request) : M unit :=
  match reqs with
  | [] => mret tt
  | req :: rest =>
      terminate ← handle (clock requestId) req;
      if (terminate : bool) then mret tt else run clock (S requestId) rest
  end.

(** ** Construction of the fleet *)

Definition mkResources (cpu memory : Z) : WithResources :=
  {| totalCPU := cpu; totalMemory := memory; availableCPU := cpu;
     availableMemory := memory; typeFits := ∅ |}.

Definition accumulate (l : list Z) : Z := foldl Z.add 0 l.

Definition mkPM (index : Z) (nodeCPU nodeMemory : list Z) : PM :=
  {| pm_res := mkResources (accumulate nodeCPU) (accumulate nodeMemory);
     pm_index := index;
     pm_nodes := imap (λ i cm, {| node_res := mkResources cm.1 cm.2;
                                   node_index := Z.of_nat i + 1 |})
                   (zip nodeCPU nodeMemory);
     vmsByPG := ∅ |}.

Definition mkRack (index noPMs : Z) (nodeCPU nodeMemory : list Z) : Rack :=
  {| rack_res := mkResources (noPMs * accumulate nodeCPU) (noPMs * accumulate nodeMemory);
     rack_index := index;
     rack_pms := (λ i, mkPM (Z.of_nat i + 1) nodeCPU nodeMemory) <$> seq 0 (Z.to_nat noPMs) |}.

Definition mkDomain (index noRacks noPMs : Z) (nodeCPU nodeMemory : list Z) : Domain :=
  {| dom_res := mkResources (noRacks * noPMs * accumulate nodeCPU)
                            (noRacks * noPMs * accumulate nodeMemory);
     dom_index := index;
     dom_racks := (λ i, mkRack (Z.of_nat i + 1) noPMs nodeCPU nodeMemory)
                    <$> seq 0 (Z.to_nat noRacks) |}.

(** The constructor of [Manager]. *)
Definition mkManager (noDomains noRacks noPMs : Z) (nodeCPU nodeMemory : list Z)
    (ts : list VMType) : Manager :=
  {| types := ts;
     domains := (λ i, mkDomain (Z.of_nat i + 1) noRacks noPMs nodeCPU nodeMemory)
                  <$> seq 0 (Z.to_nat noDomains);
     pgsByIndex := ∅;
     vmsByIndex := ∅;
     stdout := [] |}.

(** The header of the input: the four sizes (the fourth is the length of
    [h_nodes]), the node templates and the types. *)
Record Header := {
  h_domains : Z;
  h_racks : Z;
  h_pms : Z;
  h_nodes : list (Z * Z);
  h_types : list (Z * Z * Z)
}.

Definition initial (h : Header) : Manager :=
  mkManager (h_domains h) (h_racks h) (h_pms h) (h_nodes h).*1 (h_nodes h).*2
    (imap (λ i t, {| t_index := Z.of_nat i + 1; t_nodes := t.1.1;
                     t_cpu := t.1.2; t_memory := t.2 |}) (h_types h)).

(** [main]: the lines written, or [None] when the program is aborted. *)
Definition main (h : Header) (clock : nat → Z) (reqs : list Request) :
    option (list (list Z)) :=
  match run clock 1 reqs (initial h) with
  | Some (_, s) => Some (stdout s)
  | None => None
  end.

End Model.

(** * Specification *)

Section Specification.
Context `{StdLib}.

(** ** Observations of the topology *)

(** The places where availability is kept: the four levels, and the count
    of a group on a PM. *)
Inductive Loc :=
  | LDomain (d : DomainRef)
  | LRack (r : RackRef)
  | LPM (p : PMRef)
  | LNode (n : NodeRef)
  | LCount (p : PMRef) (k : Z).

#[global] Instance Loc_eq_dec : EqDecision Loc.
Proof. solve_decision. Defined.

Definition availOf (w : WithResources) : Z * Z := (availableCPU w, availableMemory w).

(** Available CPU and memory at a level, or the count of group [k] (with a
    0 beside it); [None] where the topology has no such place. *)
Definition observe (ds : list Domain) (l : Loc) : option (Z * Z) :=
  match l with
  | LDomain d => availOf <$> (dom_res <$> getDomain d ds)
  | LRack r => availOf <$> (rack_res <$> getRack r ds)
  | LPM p => availOf <$> (pm_res <$> getPM p ds)
  | LNode n => availOf <$> (node_res <$> getNode n ds)
  | LCount p k => (λ m, (countOf k m, 0)) <$> (vmsByPG <$> getPM p ds)
  end.

Definition sameAvailability (ds ds' : list Domain) : Prop :=
  ∀ l, observe ds l = observe ds' l.

Definition padd (a b : Z * Z) : Z * Z := (a.1 + b.1, a.2 + b.2).
Definition pneg (a : Z * Z) : Z * Z := (- a.1, - a.2).
Definition shift (a : Z * Z) (o : option (Z * Z)) : option (Z * Z) := padd a <$> o.

(** Whether the place [l] is charged for the node [n]. *)
Definition onPath (n : NodeRef) (l : Loc) : bool :=
  match l with
  | LDomain d => bool_decide (d = rack_domain (node_rack n))
  | LRack r => bool_decide (r = node_rack n)
  | LPM p => bool_decide (p = node_pm n)
  | LNode n' => bool_decide (n' = n)
  | LCount _ _ => false
  end.

(** What the nodes of a VM of type [t] and group [pg] hold at [l], as
    [unplace] gives it back. *)
Definition heldBy (t : VMType) (pg : Z) (nodes : list NodeRef) (l : Loc) : Z * Z :=
  match l with
  | LCount p k =>
      match nodes with
      | n0 :: _ => if bool_decide (p = node_pm n0 ∧ k = pg) then (-1, 0) else (0, 0)
      | [] => (0, 0)
      end
  | _ =>
      let c := Z.of_nat (length (filter (λ n, onPath n l = true) nodes)) in
      (c * t_cpu t, c * t_memory t)
  end.

Definition held (vm : VM) : Loc → Z * Z := heldBy (vm_type vm) (vm_pg vm) (vm_nodes vm).

(** What the VMs with the keys [B] hold together. *)
Definition debt (vms : gmap Z VM) (B : list Z) (l : Loc) : Z * Z :=
  foldr (λ i acc, padd (from_option (λ vm, held vm l) (0, 0) (vms !! i)) acc) (0, 0) B.

(** ** typeFit without the memo *)

Definition Node_uncached (t : VMType) (n : Node) : Z := Node_getTypeFitImpl t n.
Definition PM_uncached (t : VMType) (p : PM) : Z :=
  sumEvery (Z.to_nat (t_nodes t)) 0 (std_sort Z.ltb (Node_uncached t <$> pm_nodes p)).
Definition Rack_uncached (t : VMType) (r : Rack) : Z :=
  foldl Z.add 0 (PM_uncached t <$> rack_pms r).
Definition Domain_uncached (t : VMType) (d : Domain) : Z :=
  foldl Z.add 0 (Rack_uncached t <$> dom_racks d).

(** Every memoised value of a type of the fleet is the uncached one. *)
Definition memo_ok (ts : list VMType) (w : WithResources) (fit : VMType → Z) : Prop :=
  ∀ t v, t ∈ ts → typeFits w !! t_index t = Some v → v = fit t.

Definition node_ok (ts : list VMType) (n : Node) : Prop :=
  memo_ok ts (node_res n) (λ t, Node_uncached t n).
Definition pm_ok (ts : list VMType) (p : PM) : Prop :=
  memo_ok ts (pm_res p) (λ t, PM_uncached t p) ∧ Forall (node_ok ts) (pm_nodes p).
Definition rack_ok (ts : list VMType) (r : Rack) : Prop :=
  memo_ok ts (rack_res r) (λ t, Rack_uncached t r) ∧ Forall (pm_ok ts) (rack_pms r).
Definition dom_ok (ts : list VMType) (d : Domain) : Prop :=
  memo_ok ts (dom_res d) (λ t, Domain_uncached t d) ∧ Forall (rack_ok ts) (dom_racks d).
Definition cache_ok (ts : list VMType) (ds : list Domain) : Prop := Forall (dom_ok ts) ds.

Definition types_unique (ts : list VMType) : Prop :=
  ∀ t t', t ∈ ts → t' ∈ ts → t_index t = t_index t' → t = t'.

(** Equal up to the memos and to counts of 0. *)
Definition res_quiet (w w' : WithResources) : Prop :=
  totalCPU w = totalCPU w' ∧ totalMemory w = totalMemory w'
  ∧ availableCPU w = availableCPU w' ∧ availableMemory w = availableMemory w'.
Definition node_quiet (n n' : Node) : Prop :=
  res_quiet (node_res n) (node_res n') ∧ node_index n = node_index n'.
Definition pm_quiet (p p' : PM) : Prop :=
  res_quiet (pm_res p) (pm_res p') ∧ pm_index p = pm_index p'
  ∧ Forall2 node_quiet (pm_nodes p) (pm_nodes p')
  ∧ ∀ k, countOf k (vmsByPG p) = countOf k (vmsByPG p').
Definition rack_quiet (r r' : Rack) : Prop :=
  res_quiet (rack_res r) (rack_res r') ∧ rack_index r = rack_index r'
  ∧ Forall2 pm_quiet (rack_pms r) (rack_pms r').
Definition dom_quiet (d d' : Domain) : Prop :=
  res_quiet (dom_res d) (dom_res d') ∧ dom_index d = dom_index d'
  ∧ Forall2 rack_quiet (dom_racks d) (dom_racks d').
Definition topo_quiet (ds ds' : list Domain) : Prop := Forall2 dom_quiet ds ds'.

(** [c] times a pair of amounts. *)
Definition pscale (c : Z) (a : Z * Z) : Z * Z := (c * a.1, c * a.2).

(** ** What a search may change *)

(** The fields of a group that [createPG] and the registration of VMs set;
    the rest is derived by [updateTargets]. *)
Definition pg_static (pg : PG) : Z * Z * Z * Affinity * Affinity * list Z :=
  (pg_index pg, hardRackAntiAffinityPartitions pg, softPMAntiAffinity pg,
   domainAffinity pg, rackAffinity pg, pg_vms pg).

(** [Frame B S t st st']: from [st] to [st'] only the VMs with keys in [S]
    were placed or unplaced, only derived fields of groups changed, the
    availability moved by what the VMs of [B] hold, and the memos stayed
    right for the type [t]. *)
Record Frame (B S : list Z) (t : VMType) (st st' : Manager) : Prop := {
  fr_types : types st' = types st;
  fr_pgs : ∀ k, pg_static <$> pgsByIndex st' !! k = pg_static <$> pgsByIndex st !! k;
  fr_vms_out : ∀ i, i ∉ S → vmsByIndex st' !! i = vmsByIndex st !! i;
  fr_vms_static : ∀ i,
    set_vm_nodes [] <$> vmsByIndex st' !! i = set_vm_nodes [] <$> vmsByIndex st !! i;
  fr_balance : ∀ l,
    observe (domains st') l =
    shift (padd (debt (vmsByIndex st) B l) (pneg (debt (vmsByIndex st') B l)))
      (observe (domains st) l);
  fr_cache :
    types_unique (types st) → t ∈ types st →
    cache_ok (types st) (domains st) → cache_ok (types st) (domains st')
}.

(** The registry after [unplaceVMs V]. *)
Definition clearNodes (V : list Z) (vms : gmap Z VM) : gmap Z VM :=
  foldl (λ m i, alter (set_vm_nodes []) i m) vms V.

(** Nodes [tryPlaceInner] may choose for a VM of type [t] among the racks
    [R]: as many as the type asks for, on one PM of one of the racks. *)
Definition goodNodes (t : VMType) (R : list RackRef) (nodes : list NodeRef) : Prop :=
  nodes ≠ [] ∧ Z.of_nat (length nodes) = to_size_t (t_nodes t)
  ∧ ∃ r p, r ∈ R ∧ Forall (λ n, node_pm n = (r, p)) nodes.

(** A property of the recorded placements and the registry that survives
    every step of a search for the VMs [V] on the racks [R]. *)
Record SearchInv (V : list Z) (t : VMType) (R : list RackRef)
    (I : gmap Z (list NodeRef) → gmap Z VM → Prop) : Prop := {
  si_place : ∀ plc vms i vm nodes,
    I plc vms → i ∈ V → vms !! i = Some vm → vm_nodes vm = [] → goodNodes t R nodes →
    I (<[vm_index vm := nodes]> plc) (<[i := set_vm_nodes nodes vm]> vms);
  si_clear : ∀ plc vms, I plc vms → I ∅ (clearNodes V vms)
}.

(** ** Properties of the registry of VMs *)

(** No rack holds nodes of two VMs of one group with different positive
    partitions. *)
Definition antiAffine (vms : gmap Z VM) : Prop :=
  ∀ i j vi vj n m,
    vms !! i = Some vi → vms !! j = Some vj → vm_pg vi = vm_pg vj →
    0 < vm_partition vi → 0 < vm_partition vj → vm_partition vi ≠ vm_partition vj →
    n ∈ vm_nodes vi → m ∈ vm_nodes vj → node_rack n ≠ node_rack m.

(** The nodes of a VM are on one PM. *)
Definition colocated (vms : gmap Z VM) : Prop :=
  ∀ i vi n m, vms !! i = Some vi → n ∈ vm_nodes vi → m ∈ vm_nodes vi → node_pm n = node_pm m.

(** The rack [r] holds no node of a VM of group [pg] outside partition
    [p]. *)
Definition safeRack (vms : gmap Z VM) (pg p : Z) (r : RackRef) : Prop :=
  ∀ j vj m, vms !! j = Some vj → vm_pg vj = pg → vm_partition vj ≠ p →
    m ∈ vm_nodes vj → node_rack m ≠ r.

(** The VMs with keys [V] are registered for group [pg] and partition
    [p], under their own index. *)
Definition batchOf (V : list Z) (pg p : Z) (vms : gmap Z VM) : Prop :=
  ∀ i, i ∈ V → ∃ vm, vms !! i = Some vm ∧ vm_pg vm = pg ∧ vm_partition vm = p
                    ∧ vm_index vm = i.

(** [plc] records exactly the nodes of the placed VMs among [V]. *)
Definition snapshot (V : list Z) (t : VMType) (plc : gmap Z (list NodeRef))
    (vms : gmap Z VM) : Prop :=
  (∀ i nodes, plc !! i = Some nodes → i ∈ V)
  ∧ ∀ i, i ∈ V → ∃ vm, vms !! i = Some vm
      ∧ ((vm_nodes vm = [] ∧ plc !! i = None)
         ∨ (plc !! i = Some (vm_nodes vm) ∧ vm_nodes vm ≠ []
            ∧ Z.of_nat (length (vm_nodes vm)) = to_size_t (t_nodes t))).

(** The invariant of the search for one partition. *)
Definition partitionInv (V : list Z) (t : VMType) (R : list RackRef) (pg p : Z)
    (plc : gmap Z (list NodeRef)) (vms : gmap Z VM) : Prop :=
  antiAffine vms ∧ colocated vms
  ∧ (0 < p → ∀ r, r ∈ R → safeRack vms pg p r)
  ∧ batchOf V pg p vms
  ∧ snapshot V t plc vms.

(** Every registered VM of group [pgi] is among the members [pg_vms]. *)
Definition membersOf (pgi : Z) (pg : PG) (vms : gmap Z VM) : Prop :=
  ∀ j vj, vms !! j = Some vj → vm_pg vj = pgi → j ∈ pg_vms pg.

(** [plc] gives every VM of [V] the nodes it is placed on. *)
Definition covers (V : list Z) (t : VMType) (plc : gmap Z (list NodeRef))
    (vms : gmap Z VM) : Prop :=
  ∀ i, i ∈ V → ∃ vm, vms !! i = Some vm ∧ plc !! i = Some (vm_nodes vm)
    ∧ vm_nodes vm ≠ [] ∧ Z.of_nat (length (vm_nodes vm)) = to_size_t (t_nodes t).

(** The VMs with keys [B] are registered for group [pgi], every VM of the
    group is a member, and a positive partition only occurs in a group with
    partitions. *)
Definition batchReady (B : list Z) (pgi : Z) (st : Manager) : Prop :=
  ∃ pg, pgsByIndex st !! pgi = Some pg
    ∧ membersOf pgi pg (vmsByIndex st)
    ∧ ∀ i, i ∈ B → ∃ vm, vmsByIndex st !! i = Some vm ∧ vm_pg vm = pgi ∧ vm_index vm = i
        ∧ (0 < vm_partition vm → 0 < hardRackAntiAffinityPartitions pg).

(** Group [pgi] has partitions. *)
Definition hpPositive (pgi : Z) (st : Manager) : Prop :=
  ∃ pg, pgsByIndex st !! pgi = Some pg ∧ 0 < hardRackAntiAffinityPartitions pg.

(** A plan for the VMs [B]: the nodes they hold in a registry that differs
    from [vms0] only in where the VMs of [B] are placed, and that keeps the
    partitions apart. *)
Definition planOK (B : list Z) (t : VMType) (vms0 : gmap Z VM) (best : Placement) : Prop :=
  ∃ vmsg, antiAffine vmsg ∧ colocated vmsg
    ∧ (∀ i, i ∉ B → vmsg !! i = vms0 !! i)
    ∧ (∀ i, set_vm_nodes [] <$> vmsg !! i = set_vm_nodes [] <$> vms0 !! i)
    ∧ covers B t (placements best) vmsg.

(** The availability moved by what the VMs of [B] hold. *)
Definition Balance (B : list Z) (st st' : Manager) : Prop :=
  ∀ l, observe (domains st') l =
       shift (padd (debt (vmsByIndex st) B l) (pneg (debt (vmsByIndex st') B l)))
         (observe (domains st) l).

(** ** Sessions *)

(** A type of the header: the number of nodes fits an [int], and every
    quantity is positive. *)
Definition wf_type (t : VMType) : Prop :=
  1 ≤ t_nodes t < 2 ^ 31 ∧ 1 ≤ t_cpu t ∧ 1 ≤ t_memory t.

Definition wf_header (h : Header) : Prop :=
  Forall (λ s, 1 ≤ s.1.1 < 2 ^ 31 ∧ 1 ≤ s.1.2 ∧ 1 ≤ s.2) (h_types h).

(** A creation request names VMs that do not exist yet, each once. *)
Definition wf_request (st : Manager) (req : Request) : Prop :=
  match req with
  | CreateVMs indices _ _ _ =>
      NoDup indices ∧ ∀ i, i ∈ indices → vmsByIndex st !! i = None
  | _ => True
  end.

(** The states after a successful request: [handle] returned without
    asking to terminate. *)
Inductive reachable : Manager → Prop :=
  | reachable_initial h : wf_header h → reachable (initial h)
  | reachable_step st elapsed req st' :
      reachable st → wf_request st req →
      handle elapsed req st = Some (false, st') → reachable st'.

(** The invariant of the session; the VMs with keys in [X] are exempt from
    being placed. *)
Record Inv (X : list Z) (st : Manager) : Prop := {
  inv_types : types_unique (types st);
  inv_wf : ∀ t, t ∈ types st → wf_type t;
  inv_cache : cache_ok (types st) (domains st);
  inv_anti : antiAffine (vmsByIndex st);
  inv_coloc : colocated (vmsByIndex st);
  inv_placed : ∀ i vm, i ∉ X → vmsByIndex st !! i = Some vm →
    vm_nodes vm ≠ [] ∧ Z.of_nat (length (vm_nodes vm)) = to_size_t (t_nodes (vm_type vm));
  inv_vmtype : ∀ i vm, vmsByIndex st !! i = Some vm → vm_type vm ∈ types st;
  inv_members : ∀ j vj, vmsByIndex st !! j = Some vj →
    ∃ pg, pgsByIndex st !! vm_pg vj = Some pg ∧ j ∈ pg_vms pg;
  inv_live : ∀ k pg j, pgsByIndex st !! k = Some pg → j ∈ pg_vms pg →
    ∃ vj, vmsByIndex st !! j = Some vj ∧ vm_pg vj = k;
  inv_norm : ∀ k pg, pgsByIndex st !! k = Some pg →
    hardRackAntiAffinityPartitions pg = 0 ∨ 2 ≤ hardRackAntiAffinityPartitions pg
}.

(** A check of [StrictWeakOn]. *)
Definition strictWeakOnb {A} (lt : A → A → bool) (l : list A) : bool :=
  forallb (λ a, forallb (λ b,
    implb (lt a b) (negb (lt b a))
    && forallb (λ c, implb (negb (lt b a) && negb (lt c b)) (negb (lt c a))) l) l) l.

(** ** The penalty of a plan *)

(** The count of group [k] on the PM [p]. *)
Definition countSeen (ds : list Domain) (p : PMRef) (k : Z) : Z :=
  from_option fst 0 (observe ds (LCount p k)).

(** The VMs of [V] whose PM holds more VMs of the group than
    [softPMAntiAffinity]. *)
Fixpoint softCount (pg : PG) (vms : gmap Z VM) (ds : list Domain) (V : list Z) : Z :=
  match V with
  | [] => 0
  | i :: rest =>
      match vms !! i ≫= λ vm, head (vm_nodes vm) with
      | Some n0 =>
          if softPMAntiAffinity pg <? countSeen ds (node_pm n0) (pg_index pg) then 1 else 0
      | None => 0
      end + softCount pg vms ds rest
  end.

(** What [tryPlace] charges for the VMs [V] of one partition, read from
    the state it returns in. *)
Definition partPenalty (pgi : Z) (V : list Z) (st : Manager) : Z :=
  match pgsByIndex st !! pgi with
  | Some pg =>
      (if (0 <? softPMAntiAffinity pg) && softPMAntiAffinityPossible pg
       then softCount pg (vmsByIndex st) (domains st) V else 0)
      + (if bool_decide (domainAffinity pg = SOFT) && negb (domainAffinityPossible pg)
         then 1000 else 0)
      + (if bool_decide (rackAffinity pg = SOFT) && negb (rackAffinityPossible pg)
         then 1000 else 0)
  | None => 0
  end.

Definition averageLoad (ds : list Domain) (racks : list RackRef) : double :=
  PrimFloat.div (foldl (λ a r, PrimFloat.add a (rackLoad ds r)) PrimFloat.zero racks)
                (to_double (Z.of_nat (length racks))).

(** The partitions of a batch, as [getBestPlacement] groups them. *)
Definition partitionsOf (B : list Z) (vms : list VM) : list (Z * list Z) :=
  foldl (λ m vm, vbpInsert (vm_partition vm.2) vm.1 m) [] (zip B vms).

(** The penalty as the specification words it: each of the two charges of
    1000 once for the whole batch, when the placed members of the group
    are in more than one domain, or on more than one rack. *)
Definition placedRacks (pgi : Z) (vms : gmap Z VM) : list RackRef :=
  omap (λ vm, if bool_decide (vm_pg vm = pgi) then node_rack <$> head (vm_nodes vm) else None)
       (map_to_list vms).*2.

Definition shareOne {A} `{EqDecision A} (l : list A) : bool :=
  match l with
  | [] => true
  | x :: l' => forallb (λ y, bool_decide (y = x)) l'
  end.

Definition spec_penalty (pgi : Z) (B : list Z) (racks : list RackRef) (st : Manager) :
    double :=
  match pgsByIndex st !! pgi with
  | Some pg =>
      PrimFloat.add
        (to_double
           ((if (0 <? softPMAntiAffinity pg) && softPMAntiAffinityPossible pg
             then softCount pg (vmsByIndex st) (domains st) B else 0)
            + (if bool_decide (domainAffinity pg = SOFT)
                  && negb (shareOne (rack_domain <$> placedRacks pgi (vmsByIndex st)))
               then 1000 else 0)
            + (if bool_decide (rackAffinity pg = SOFT)
                  && negb (shareOne (placedRacks pgi (vmsByIndex st)))
               then 1000 else 0)))
        (averageLoad (domains st) racks)
  | None => PrimFloat.zero
  end.

(** [tryPlace] succeeded on the VMs [V] and returned [p] in the state
    [s]. *)
Definition placedBy (pgi : Z) (t : VMType) (V : list Z) (p : Placement) (s : Manager) : Prop :=
  ∃ racks force s_in racks',
    tryPlace pgi V t racks force s_in = Some ((Some p, racks'), s).

(** ** Independence of the number of partitions

    A group is read through [normPG], which keeps of
    [hardRackAntiAffinityPartitions] only whether it exceeds 1. *)

Definition normHP (x : Z) : Z := if 1 <? x then 2 else x.

Definition normPG (pg : PG) : PG :=
  {| pg_index := pg_index pg;
     hardRackAntiAffinityPartitions := normHP (hardRackAntiAffinityPartitions pg);
     softPMAntiAffinity := softPMAntiAffinity pg;
     domainAffinity := domainAffinity pg;
     rackAffinity := rackAffinity pg;
     pg_vms := pg_vms pg;
     targetDomain := targetDomain pg;
     domainAffinityPossible := domainAffinityPossible pg;
     targetRack := targetRack pg;
     rackAffinityPossible := rackAffinityPossible pg;
     softPMAntiAffinityPossible := softPMAntiAffinityPossible pg;
     partitionRacks := partitionRacks pg |}.

Definition normS (s : Manager) : Manager := set_pgs (normPG <$> pgsByIndex s) s.

(** [m'] does on the normalised state what [m] does on the state, up to
    [g] on the results. *)
Definition SimG {A B} (g : A → B) (m : M A) (m' : M B) : Prop :=
  ∀ s, m' (normS s) = prod_map g normS <$> m s.

(** Requests that differ at most in the number of partitions of a group,
    on the same side of 1. *)
Inductive sameSide : Request → Request → Prop :=
  | sameSide_pg index hp hp' softPM domA rackA :
      (1 <? hp) = (1 <? hp') →
      sameSide (CreatePG index hp softPM domA rackA) (CreatePG index hp' softPM domA rackA)
  | sameSide_refl req : sameSide req req.

(** The states the session goes through: the states between the requests,
    closed under changes of the two registries and under the operations
    that change the topology, which are [place], [unplace], the memoising
    [getTypeFit] of a rack and of the nodes of a PM, and the read of a
    count. *)
Inductive touched : Manager → Prop :=
  | touched_reachable st : reachable st → touched st
  | touched_registry st vms pgs : touched st → touched (set_vms vms (set_pgs pgs st))
  | touched_place st i nodes u st' :
      touched st → place i nodes st = Some (u, st') → touched st'
  | touched_unplace st i u st' :
      touched st → unplace i st = Some (u, st') → touched st'
  | touched_rackFit st t r v st' :
      touched st → t ∈ types st → rackGetTypeFit t r st = Some (v, st') → touched st'
  | touched_nodesFit st t pr l st' :
      touched st → t ∈ types st → sortNodesByFit t pr st = Some (l, st') → touched st'
  | touched_count st pr k c st' :
      touched st → countAt pr k st = Some (c, st') → touched st'.

(** ** Properties kept by a computation *)

(** [m] leads from a state with [P] to states with [P] only. *)
Definition Keeps (P : Manager → Prop) {A} (m : M A) : Prop :=
  ∀ s a s', P s → m s = Some (a, s') → P s'.

(** ** The layout of the fleet

    What the constructor of [Manager] lays out and no member function
    assigns: the totals and the index at every level, and with them the
    number of domains, racks, PMs and nodes. *)

Definition capOf (w : WithResources) : Z * Z := (totalCPU w, totalMemory w).

Definition node_layout (n : Node) : Z * Z * Z := (capOf (node_res n), node_index n).
Definition pm_layout (p : PM) : Z * Z * Z * list (Z * Z * Z) :=
  (capOf (pm_res p), pm_index p, node_layout <$> pm_nodes p).
Definition rack_layout (r : Rack) : Z * Z * Z * list (Z * Z * Z * list (Z * Z * Z)) :=
  (capOf (rack_res r), rack_index r, pm_layout <$> rack_pms r).
Definition dom_layout (d : Domain) :
    Z * Z * Z * list (Z * Z * Z * list (Z * Z * Z * list (Z * Z * Z))) :=
  (capOf (dom_res d), dom_index d, rack_layout <$> dom_racks d).
Definition layout (ds : list Domain) :
    list (Z * Z * Z * list (Z * Z * Z * list (Z * Z * Z * list (Z * Z * Z)))) :=
  dom_layout <$> ds.

(** The state of the session during the search for the batch [B] from the
    state [st0]. *)
Definition searching (B : list Z) (pgi : Z) (t : VMType) (st0 s : Manager) : Prop :=
  Frame B B t st0 s ∧ batchReady B pgi s
  ∧ antiAffine (vmsByIndex s) ∧ colocated (vmsByIndex s).

(** ** Capacity *)

(** The totals of a level; a count starts from 0. *)
Definition capacity (ds : list Domain) (l : Loc) : option (Z * Z) :=
  match l with
  | LDomain d => capOf <$> (dom_res <$> getDomain d ds)
  | LRack r => capOf <$> (rack_res <$> getRack r ds)
  | LPM p => capOf <$> (pm_res <$> getPM p ds)
  | LNode n => capOf <$> (node_res <$> getNode n ds)
  | LCount p k => (λ _, (0, 0)) <$> getPM p ds
  end.

(** The keys of the registry of VMs. *)
Definition registered (vms : gmap Z VM) : list Z := (map_to_list vms).*1.

(** Every place holds its capacity less what the registered VMs hold
    there. *)
Definition conserved (st : Manager) : Prop :=
  ∀ l, observe (domains st) l =
       shift (pneg (debt (vmsByIndex st) (registered (vmsByIndex st)) l))
         (capacity (domains st) l).

(** ** Nodes within their capacity *)

(** No node has given out more than it had. *)
Definition nodesNonneg (ds : list Domain) : Prop :=
  ∀ n x, getNode n ds = Some x →
    0 ≤ availableCPU (node_res x) ∧ 0 ≤ availableMemory (node_res x).

(** The nodes of every VM are nodes of the fleet, each taken once. *)
Definition nodesDistinct (ds : list Domain) (vms : gmap Z VM) : Prop :=
  ∀ i vm, vms !! i = Some vm →
    NoDup (vm_nodes vm) ∧ ∀ n, n ∈ vm_nodes vm → is_Some (getNode n ds).

(** The nodes of the fleet have a capacity. *)
Definition capacityNonneg (ds : list Domain) : Prop :=
  ∀ n x, getNode n ds = Some x → 0 ≤ totalCPU (node_res x) ∧ 0 ≤ totalMemory (node_res x).

(** The above during the search for the VMs [V] of type [t], the first
    under the condition [C]; no type asks for a negative amount. *)
Definition sound (C : Prop) (V : list Z) (t : VMType) (s : Manager) : Prop :=
  (C → nodesNonneg (domains s)) ∧ nodesDistinct (domains s) (vmsByIndex s)
  ∧ (∀ i vm, vmsByIndex s !! i = Some vm →
       0 ≤ t_cpu (vm_type vm) ∧ 0 ≤ t_memory (vm_type vm))
  ∧ (∀ i vm, i ∈ V → vmsByIndex s !! i = Some vm → vm_type vm = t).

(** ** Hard affinities *)

(** The nodes of the VMs of group [k] agree on [key], which is the rack
    or the domain of the rack. *)
Definition together {X} (key : RackRef → X) (k : Z) (vms : gmap Z VM) : Prop :=
  ∀ i j vi vj n m,
    vms !! i = Some vi → vms !! j = Some vj → vm_pg vi = k → vm_pg vj = k →
    n ∈ vm_nodes vi → m ∈ vm_nodes vj → key (node_rack n) = key (node_rack m).

(** Every group with a hard rack affinity is on one rack, and every group
    with a hard domain affinity in one domain. *)
Definition affine (st : Manager) : Prop :=
  ∀ k pg, pgsByIndex st !! k = Some pg →
    (rackAffinity pg = HARD → together id k (vmsByIndex st))
    ∧ (domainAffinity pg = HARD → together rack_domain k (vmsByIndex st)).

(** The rack of the node [n] is one of [racks], or holds a node of a
    member of the group outside the batch [B]. *)
Definition nearBy (B members : list Z) (racks : list RackRef) (vms : gmap Z VM)
    (n : NodeRef) : Prop :=
  node_rack n ∈ racks
  ∨ (∃ j vj m, vms !! j = Some vj ∧ j ∈ members ∧ (j ∉ B) ∧ m ∈ vm_nodes vj
               ∧ node_rack m = node_rack n).

(** The nodes of the VMs [D] are near. *)
Definition within (B members : list Z) (racks : list RackRef) (D : list Z)
    (vms : gmap Z VM) : Prop :=
  ∀ i vm n, i ∈ D → vms !! i = Some vm → n ∈ vm_nodes vm → nearBy B members racks vms n.

(** The nodes of the VMs [V] are on the racks [R]. *)
Definition onRacks (V : list Z) (R : list RackRef) (plc : gmap Z (list NodeRef))
    (vms : gmap Z VM) : Prop :=
  ∀ i vm n, i ∈ V → vms !! i = Some vm → n ∈ vm_nodes vm → node_rack n ∈ R.

(** The racks of the group [g] agree on [key], and with them the nodes of
    the members. *)
Definition groupFits {X} (key : RackRef → X) (members : list Z) (vms : gmap Z VM)
    (g : list RackRef) : Prop :=
  ∃ x, (∀ r, r ∈ g → key r = x)
    ∧ ∀ j vj m, j ∈ members → vms !! j = Some vj → m ∈ vm_nodes vj → key (node_rack m) = x.

(** The nodes of the members agree on [key]. *)
Definition membersTogether {X} (key : RackRef → X) (members : list Z) (vms : gmap Z VM) :
    Prop :=
  ∀ j j' vj vj' n m, j ∈ members → j' ∈ members →
    vms !! j = Some vj → vms !! j' = Some vj' →
    n ∈ vm_nodes vj → m ∈ vm_nodes vj' → key (node_rack n) = key (node_rack m).

(** ** The lines written *)

(** Every domain, rack, PM and node carries its position, counted from 1,
    as its index. *)
Definition indexed (ds : list Domain) : Prop :=
  (∀ d x, getDomain d ds = Some x → dom_index x = Z.of_nat d + 1)
  ∧ (∀ r x, getRack r ds = Some x → rack_index x = Z.of_nat r.2 + 1)
  ∧ (∀ p x, getPM p ds = Some x → pm_index x = Z.of_nat p.2 + 1)
  ∧ (∀ n x, getNode n ds = Some x → node_index x = Z.of_nat n.2 + 1).

(** The line for a VM on the nodes [nodes]: the domain, the rack and the
    PM of the first node, then the nodes, all counted from 1. *)
Definition outputLine (nodes : list NodeRef) : list Z :=
  match nodes with
  | [] => []
  | n0 :: _ =>
      [Z.of_nat (rack_domain (node_rack n0)) + 1; Z.of_nat (node_rack n0).2 + 1;
       Z.of_nat (node_pm n0).2 + 1]
      ++ ((λ n : NodeRef, Z.of_nat n.2 + 1) <$> nodes)
  end.

(** ** What the requests change in the registries *)

(** The constraints of a group, which [createPG] sets. *)
Definition pg_constraints (pg : PG) : Z * Z * Z * Affinity * Affinity :=
  (pg_index pg, hardRackAntiAffinityPartitions pg, softPMAntiAffinity pg,
   domainAffinity pg, rackAffinity pg).

(** The partition of the VM at position [k] of a batch created with the
    partition [partition] in a group with [hardParts] partitions. *)
Definition partitionOf (hardParts partition : Z) (k : nat) : Z :=
  if hardParts =? 0 then 0
  else if 0 <=? partition then partition else Z.of_nat k + 1.

(** ** The replay of a plan *)

(** Places the VMs [V] on the nodes the plan [plc] gives them. *)
Fixpoint placeAs (plc : gmap Z (list NodeRef)) (V : list Z) : M unit :=
  match V with
  | [] => mret tt
  | i :: rest => place i (default [] (plc !! i));; placeAs plc rest
  end.

(** Replays the plan [plc] of an attempt, without any search: partition
    by partition, in the order of [parts], the VMs of the partition are
    unplaced and placed where the plan has them, and the targets of the
    group are updated; the result lists what each partition is charged in
    the state so reached. *)
Fixpoint replay (pgi : Z) (plc : gmap Z (list NodeRef)) (parts : list (Z * list Z)) :
    M (list Z) :=
  match parts with
  | [] => mret []
  | (_, V) :: rest =>
      unplaceVMs V;;
      placeAs plc V;;
      updateTargets pgi;;
      c ← getsM (partPenalty pgi V);
      cs ← replay pgi plc rest;
      mret (c :: cs)
  end.

(** Two states with the same VMs, the same group [pgi] and the same
    amounts and counts in the fleet. *)
Definition agree (pgi : Z) (s r : Manager) : Prop :=
  vmsByIndex s = vmsByIndex r
  ∧ pgsByIndex s !! pgi = pgsByIndex r !! pgi
  ∧ sameAvailability (domains s) (domains r).

(** A check of [capacityNonneg]. *)
Definition capacityNonnegb (ds : list Domain) : bool :=
  forallb (λ d, forallb (λ r, forallb (λ p, forallb (λ n,
    (0 <=? totalCPU (node_res n)) && (0 <=? totalMemory (node_res n)))
    (pm_nodes p)) (rack_pms r)) (dom_racks d)) ds.

End Specification.

(** ** One standard library

    A stable insertion sort for [std::sort], which is what libstdc++ runs
    on at most 16 elements, and for the iteration over hashed
    containers the reverse of the order of insertion, which is the order
    of libstdc++ while every bucket holds at most one element. *)

Fixpoint insert_sorted {A} (lt : A → A → bool) (x : A) (l : list A) : list A :=
  match l with
  | [] => [x]
  | y :: l' => if lt y x then y :: insert_sorted lt x l' else x :: l
  end.

Fixpoint insertion_sort {A} (lt : A → A → bool) (l : list A) : list A :=
  match l with
  | [] => []
  | x :: l' => insert_sorted lt x (insertion_sort lt l')
  end.

#[global] Instance stable_StdLib : StdLib.
Proof.
  assert (∀ A (lt : A → A → bool) x l, Permutation (insert_sorted lt x l) (x :: l)) as Hins.
  { intros A lt x l. induction l as [|y l IH]; simpl; [done|].
    destruct (lt y x); [|done]. rewrite IH. apply perm_swap. }
  assert (∀ A (lt : A → A → bool) l, Permutation (insertion_sort lt l) l) as Hperm.
  { intros A lt l. induction l as [|x l IH]; simpl; [done|].
    rewrite Hins. by constructor. }
  refine {| std_sort := @insertion_sort; hash_order := @rev |}.
  - exact Hperm.
  - intros A lt l [Hasym Htrans].
    assert (∀ l0, (∀ x, x ∈ l0 → x ∈ l) →
              StronglySorted (λ a b, lt b a = false) (insertion_sort lt l0)) as Hgen.
    { induction l0 as [|x l0 IH]; intros Hsub; simpl; [constructor|].
      assert (x ∈ l) as Hx by (apply Hsub; by left).
      assert (∀ y, y ∈ insertion_sort lt l0 → y ∈ l) as Hs.
      { intros y Hy. apply Hsub. right. by rewrite <- (Hperm _ lt l0). }
      assert (StronglySorted (λ a b, lt b a = false) (insertion_sort lt l0)) as Hsorted.
      { apply IH. intros y Hy. apply Hsub. by right. }
      clear IH. revert Hs. induction Hsorted as [|y s Hl IH' Hy]; intros Hs; simpl.
      - repeat constructor.
      - assert (y ∈ l) as Hyl by (apply Hs; by left).
        destruct (lt y x) eqn:Hyx.
        + constructor; [apply IH'; intros; apply Hs; by right|].
          rewrite Hins. constructor; [by apply Hasym|done].
        + constructor; [by constructor|]. constructor; [done|].
          apply Forall_forall. intros z Hz. rewrite Forall_forall in Hy.
          apply (Htrans x y z); [done|done|apply Hs; by right|done|by apply Hy]. }
    apply Hgen. auto.
  - intros A l. symmetry. apply Permutation_rev.
Defined.

#[global] Instance wf_request_dec `{StdLib} st req : Decision (wf_request st req).
Proof.
  destruct req as [| indices ? ? ? | |]; simpl; try apply _.
  refine (cast_if (decide (NoDup indices ∧ Forall (λ i, vmsByIndex st !! i = None) indices)));
    rewrite Forall_forall in *; tauto.
Defined.

(** The state after the requests [reqs], all well-formed and successful. *)
Fixpoint steps `{StdLib} (clock : nat → Z) (requestId : nat) (reqs : list Request)
    (st : Manager) : option Manager :=
  match reqs with
  | [] => Some st
  | req :: rest =>
      if bool_decide (wf_request st req) then
        match handle (clock requestId) req st with
        | Some (false, st') => steps clock (S requestId) rest st'
        | _ => None
        end
      else None
  end.

(** ** Another standard library

    The same sort, with the iteration over hashed containers in the order
    of insertion.  The order in which an [unordered_set] of pointers is
    visited depends on the addresses. *)
Definition forward_StdLib : StdLib :=
  {| std_sort := @std_sort stable_StdLib;
     std_sort_perm := @std_sort_perm stable_StdLib;
     std_sort_sorted := @std_sort_sorted stable_StdLib;
     hash_order := λ A l, l;
     hash_order_perm := λ A l, Permutation_refl l |}.

(** ** Sessions used as examples *)

Definition clock0 : nat → Z := λ _, 0.

(** One domain with two racks of one PM with one node. *)
Definition fleet12 : Header :=
  {| h_domains := 1; h_racks := 2; h_pms := 1; h_nodes := [(8, 8)];
     h_types := [(1, 1, 1)] |}.

(** One rack in all. *)
Definition fleet11 : Header :=
  {| h_domains := 1; h_racks := 1; h_pms := 1; h_nodes := [(8, 8)];
     h_types := [(1, 1, 1)] |}.

Definition type1 : VMType := {| t_index := 1; t_nodes := 1; t_cpu := 1; t_memory := 1 |}.

Definition after (h : Header) (reqs : list Request) : Manager :=
  default (initial h) (steps clock0 1 reqs (initial h)).

(** Two VMs of a group with two partitions, each in its own partition. *)
Definition spread : Manager :=
  after fleet12 [CreatePG 1 2 0 NONE NONE; CreateVMs [1; 2] 1 1 (-1)].

(** A VM of partition 1 and a VM of partition 0 in a group with two
    partitions. *)
Definition mixed_requests : list Request :=
  [CreatePG 1 2 0 NONE NONE; CreateVMs [1] 1 1 1; CreateVMs [2] 1 1 0].
Definition mixed : Manager := after fleet11 mixed_requests.

Definition vmAt (i partition : Z) (nodes : list NodeRef) : VM :=
  {| vm_index := i; vm_type := type1; vm_pg := 1; vm_partition := partition;
     vm_nodes := nodes |}.

(** The group of [spread] before its VMs are created. *)
Definition grouped : Manager := after fleet12 [CreatePG 1 2 0 NONE NONE].

(** The state in which the search for three VMs, each in its own
    partition, starts on two racks. *)
Definition crowded : Manager :=
  default grouped (snd <$> registerVMs type1 1 (-1) 0 [1; 2; 3] grouped).
Definition bothRacks : list RackRef := [(0, 0); (0, 1)]%nat.

(** The state in which the first attempt of the search from [crowded]
    starts, and the states after that attempt and after the search. *)
Definition crowded_entry : Manager :=
  default crowded (snd <$> getRackGroups2 [1; 2; 3] crowded).
Definition crowded_attempt : Manager :=
  default crowded (snd <$> getBestPlacement 1 [1; 2; 3] type1 bothRacks crowded_entry).
Definition crowded_searched : Manager :=
  default crowded (snd <$> searchPlacement 1 [1; 2; 3] type1 crowded).

(** The same for a batch of two VMs, which fits. *)
Definition paired : Manager :=
  default grouped (snd <$> registerVMs type1 1 (-1) 0 [1; 2] grouped).
Definition paired_entry : Manager :=
  default paired (snd <$> getRackGroups2 [1; 2] paired).
Definition paired_attempt : Manager :=
  default paired (snd <$> getBestPlacement 1 [1; 2] type1 bothRacks paired_entry).

(** A group without affinities on the fleet of one rack, and the state in
    which the search for its first VM starts. *)
Definition plain : Manager := after fleet11 [CreatePG 1 0 0 NONE NONE].
Definition plain_batch : Manager :=
  default plain (snd <$> registerVMs type1 1 0 0 [1] plain).

(** The same on the fleet of two racks. *)
Definition plain2 : Manager := after fleet12 [CreatePG 1 0 0 NONE NONE].
Definition plain2_batch : Manager :=
  default plain2 (snd <$> registerVMs type1 1 0 0 [1] plain2).

(** A clock that has run for 15 seconds at every request. *)
Definition clock15 : nat → Z := λ _, 15000000000.
(** A clock that has run for one second at every request. *)
Definition clock1 : nat → Z := λ _, 1000000000.

(** The plan of the attempt from [paired_entry]. *)
Definition noPlan : Placement := {| placements := ∅; penalty := PrimFloat.zero |}.
Definition paired_plan : Placement :=
  default noPlan (getBestPlacement 1 [1; 2] type1 bothRacks paired_entry ≫= fst).

(** Two domains of one rack, and a group with two partitions and a soft
    domain affinity whose first two VMs are in the two domains; the second
    batch, the state in which its first attempt starts, and the plan and
    the state of that attempt. *)
Definition fleet21 : Header :=
  {| h_domains := 2; h_racks := 1; h_pms := 1; h_nodes := [(8, 8)];
     h_types := [(1, 1, 1)] |}.
Definition softdom : Manager :=
  after fleet21 [CreatePG 1 2 0 SOFT NONE; CreateVMs [1; 2] 1 1 (-1)].
Definition softdom_batch : Manager :=
  default softdom (snd <$> registerVMs type1 1 (-1) 0 [3; 4] softdom).
Definition softdom_entry : Manager :=
  default softdom (snd <$> getRackGroups2 [3; 4] softdom_batch).
Definition firstRack : list RackRef := [(0, 0)%nat].
Definition softdom_plan : Placement :=
  default noPlan (getBestPlacement 1 [3; 4] type1 firstRack softdom_entry ≫= fst).
Definition softdom_attempt : Manager :=
  default softdom (snd <$> getBestPlacement 1 [3; 4] type1 firstRack softdom_entry).

(** One VM of a group without constraints on the fleet of two racks. *)
Definition once : Manager :=
  after fleet12 [CreatePG 1 0 0 NONE NONE; CreateVMs [1] 1 1 0].

(** One PM of two nodes and two types, of one node and of two nodes; one
    VM of the first type. *)
Definition twins : Header :=
  {| h_domains := 1; h_racks := 1; h_pms := 1; h_nodes := [(8, 8); (8, 8)];
     h_types := [(1, 1, 1); (2, 1, 1)] |}.
Definition single : Manager :=
  after twins [CreatePG 1 0 0 NONE NONE; CreateVMs [1] 1 1 0].

(** Two domains of two racks of two PMs of two nodes, with one VM. *)
Definition roomy : Header :=
  {| h_domains := 2; h_racks := 2; h_pms := 2; h_nodes := [(8, 8); (8, 8)];
     h_types := [(1, 1, 1)] |}.
Definition warm : Manager :=
  after roomy [CreatePG 1 0 0 NONE NONE; CreateVMs [1] 1 1 0].

(** Two racks that hold two VMs each; a partition that is left with one VM
    on each rack and gets one more. *)
Definition small12 : Header :=
  {| h_domains := 1; h_racks := 2; h_pms := 1; h_nodes := [(2, 2)];
     h_types := [(1, 1, 1)] |}.
Definition regrouped : list Request :=
  [CreatePG 1 2 0 NONE NONE; CreateVMs [1; 2; 3; 4] 1 1 1; DeleteVMs [2; 4];
   CreateVMs [5] 1 1 1; Terminate].

(** A clock that is past the budget from the request [k] on. *)
Definition slow_from (k : nat) : nat → Z :=
  λ requestId, if (k <=? requestId)%nat then 15000000000 else 0.

(** Two domains of two racks of one PM with one node, which holds one VM of
    the only type. *)
Definition tiny22 : Header :=
  {| h_domains := 2; h_racks := 2; h_pms := 1; h_nodes := [(1, 1)];
     h_types := [(1, 1, 1)] |}.

(** A group with a hard domain affinity, and a group with a hard rack
    affinity, each with two VMs. *)
Definition harddom : Manager :=
  after tiny22 [CreatePG 1 0 0 HARD NONE; CreateVMs [1; 2] 1 1 0].
Definition hardrack : Manager :=
  after fleet12 [CreatePG 1 0 0 NONE HARD; CreateVMs [1; 2] 1 1 0].

(** A group on the fleet of small nodes, and the state after a third VM
    found no place in its domain. *)
Definition harddom_full : Manager :=
  default harddom (snd <$> handle 0 (CreateVMs [3] 1 1 0) harddom).

(** The state in which the search for a third VM of the group of
    [hardrack] starts, and the rack groups of that search. *)
Definition hardrack_batch : Manager :=
  default hardrack (snd <$> registerVMs type1 1 0 0 [3] hardrack).
Definition hardrack_groups : list (list RackRef) :=
  default [] (fst <$> getRackGroups2 [3] hardrack_batch).
Definition hardrack_entry : Manager :=
  default hardrack_batch (snd <$> getRackGroups2 [3] hardrack_batch).

(** * Proofs *)

(** ** Reasoning about the monad *)

Lemma bind_inv {A B} (m : M A) (f : A → M B) s r :
  (m ≫= f) s = Some r → ∃ a s1, m s = Some (a, s1) ∧ f a s1 = Some r.
Proof.
  unfold mbind, M_bind. destruct (m s) as [[a s1]|]; [|done]. eauto.
Qed.

Lemma bind_Some {A B} (m : M A) (f : A → M B) s a s1 :
  m s = Some (a, s1) → (m ≫= f) s = f a s1.
Proof. unfold mbind, M_bind. by intros ->. Qed.

Lemma bind_None {A B} (m : M A) (f : A → M B) s :
  m s = None → (m ≫= f) s = None.
Proof. unfold mbind, M_bind. by intros ->. Qed.

Lemma mret_inv {A} (a b : A) s s' : mret (M := M) a s = Some (b, s') → b = a ∧ s' = s.
Proof. unfold mret, M_ret. by intros [= -> ->]. Qed.

Lemma modifyM_inv f s r s' : modifyM f s = Some (r, s') → s' = f s.
Proof. unfold modifyM. by intros [= _ ->]. Qed.

Lemma getsM_inv {A} (f : Manager → A) s a s' : getsM f s = Some (a, s') → a = f s ∧ s' = s.
Proof. unfold getsM. by intros [= <- <-]. Qed.

Lemma orCrash_inv {A} (o : option A) s a s' : orCrash o s = Some (a, s') → o = Some a ∧ s' = s.
Proof. destruct o; simpl; [|done]. by intros [-> ->]%mret_inv. Qed.

Lemma readVM_inv i s vm s' : readVM i s = Some (vm, s') → vmsByIndex s !! i = Some vm ∧ s' = s.
Proof. apply orCrash_inv. Qed.
Lemma readPG_inv i s pg s' : readPG i s = Some (pg, s') → pgsByIndex s !! i = Some pg ∧ s' = s.
Proof. apply orCrash_inv. Qed.
Lemma readDomain_inv i s x s' :
  readDomain i s = Some (x, s') → getDomain i (domains s) = Some x ∧ s' = s.
Proof. apply orCrash_inv. Qed.
Lemma readRack_inv i s x s' :
  readRack i s = Some (x, s') → getRack i (domains s) = Some x ∧ s' = s.
Proof. apply orCrash_inv. Qed.
Lemma readPM_inv i s x s' : readPM i s = Some (x, s') → getPM i (domains s) = Some x ∧ s' = s.
Proof. apply orCrash_inv. Qed.
Lemma readNode_inv i s x s' :
  readNode i s = Some (x, s') → getNode i (domains s) = Some x ∧ s' = s.
Proof. apply orCrash_inv. Qed.

(** Inverts the monadic equations among the hypotheses. *)
Ltac minv1 :=
  match goal with
  | H : (_ ≫= _) _ = Some _ |- _ =>
      let a := fresh "a" in let s := fresh "s" in let E := fresh "E" in
      apply bind_inv in H; destruct H as (a & s & E & H)
  | H : mret _ _ = Some (_, _) |- _ => apply mret_inv in H; destruct H as [? ?]; subst
  | H : modifyM _ _ = Some (_, _) |- _ => apply modifyM_inv in H; subst
  | H : getsM _ _ = Some (_, _) |- _ => apply getsM_inv in H; destruct H as [? ?]; subst
  | H : readVM _ _ = Some (_, _) |- _ => apply readVM_inv in H; destruct H as [H ?]; subst
  | H : readPG _ _ = Some (_, _) |- _ => apply readPG_inv in H; destruct H as [H ?]; subst
  | H : readDomain _ _ = Some (_, _) |- _ => apply readDomain_inv in H; destruct H as [H ?]; subst
  | H : readRack _ _ = Some (_, _) |- _ => apply readRack_inv in H; destruct H as [H ?]; subst
  | H : readPM _ _ = Some (_, _) |- _ => apply readPM_inv in H; destruct H as [H ?]; subst
  | H : readNode _ _ = Some (_, _) |- _ => apply readNode_inv in H; destruct H as [H ?]; subst
  | H : orCrash _ _ = Some (_, _) |- _ => apply orCrash_inv in H; destruct H as [H ?]; subst
  | H : crash _ = Some _ |- _ => discriminate H
  | H : Some _ = Some _ |- _ => injection H as H
  | H : (_, _) = (_, _) |- _ => injection H as H
  | x : unit |- _ => destruct x
  | x : (_ * _)%type |- _ => destruct x
  end.
Ltac minv := repeat minv1; subst.

(** Inverts the first bind of [H], naming the value, the state and the
    equation of the first computation. *)
Tactic Notation "mbind" hyp(H) "as" simple_intropattern(pat) ident(s) ident(E) :=
  apply bind_inv in H; destruct H as (pat & s & E & H).

(** Names the final state of the run in [H]. *)
Tactic Notation "state_of" hyp(H) "as" ident(s) :=
  match type of H with _ = Some (_, ?x) => rename x into s end.

(** Names the hypothesis with the given statement. *)
Tactic Notation "name" open_constr(pat) "as" ident(H) :=
  match goal with X : ?T |- _ => unify T pat; rename X into H end.

(** ** Lookups through updates of the topology *)

Lemma getDomain_alterDomain f d d' ds :
  getDomain d' (alterDomain f d ds) =
  if decide (d' = d) then f <$> getDomain d ds else getDomain d' ds.
Proof.
  unfold getDomain, alterDomain. case_decide as E.
  - subst. apply list_lookup_alter_eq.
  - by apply list_lookup_alter_ne.
Qed.

Lemma getDomain_alterDomain_proj {X} (π : Domain → X) f d d' ds :
  (∀ x, π (f x) = π x) →
  π <$> getDomain d' (alterDomain f d ds) = π <$> getDomain d' ds.
Proof.
  intros Hf. rewrite getDomain_alterDomain. case_decide; [subst|done].
  destruct (getDomain d ds); simpl; [|done]. by rewrite Hf.
Qed.

Lemma getRack_alterDomain f d r ds :
  (∀ x, dom_racks (f x) = dom_racks x) →
  getRack r (alterDomain f d ds) = getRack r ds.
Proof.
  intros Hf. unfold getRack. rewrite getDomain_alterDomain. case_decide as E; [|done].
  rewrite E. destruct (getDomain d ds); simpl; [|done]. by rewrite Hf.
Qed.

Lemma getRack_alterRack f r r' ds :
  getRack r' (alterRack f r ds) =
  if decide (r' = r) then f <$> getRack r ds else getRack r' ds.
Proof.
  unfold getRack, alterRack. rewrite getDomain_alterDomain.
  destruct r as [d i], r' as [d' i']; simpl.
  repeat case_decide; simplify_eq; simpl; try done.
  - destruct (getDomain d ds); simpl; [apply list_lookup_alter_eq|done].
  - destruct (getDomain d ds); simpl; [|done]. apply list_lookup_alter_ne. congruence.
Qed.

Lemma getRack_alterRack_proj {X} (π : Rack → X) f r r' ds :
  (∀ x, π (f x) = π x) →
  π <$> getRack r' (alterRack f r ds) = π <$> getRack r' ds.
Proof.
  intros Hf. rewrite getRack_alterRack. case_decide; [subst|done].
  destruct (getRack r ds); simpl; [|done]. by rewrite Hf.
Qed.

Lemma getPM_alterRack f r p ds :
  (∀ x, rack_pms (f x) = rack_pms x) →
  getPM p (alterRack f r ds) = getPM p ds.
Proof.
  intros Hf. unfold getPM. rewrite getRack_alterRack. case_decide as E; [|done].
  rewrite E. destruct (getRack r ds); simpl; [|done]. by rewrite Hf.
Qed.

Lemma getPM_alterDomain f d p ds :
  (∀ x, dom_racks (f x) = dom_racks x) →
  getPM p (alterDomain f d ds) = getPM p ds.
Proof. intros Hf. unfold getPM. by rewrite getRack_alterDomain. Qed.

Lemma getPM_alterPM f p p' ds :
  getPM p' (alterPM f p ds) =
  if decide (p' = p) then f <$> getPM p ds else getPM p' ds.
Proof.
  unfold getPM, alterPM. rewrite getRack_alterRack.
  destruct p as [r i], p' as [r' i']; simpl.
  repeat case_decide; simplify_eq; simpl; try done.
  - destruct (getRack r ds); simpl; [apply list_lookup_alter_eq|done].
  - destruct (getRack r ds); simpl; [|done]. apply list_lookup_alter_ne. congruence.
Qed.

Lemma getPM_alterPM_proj {X} (π : PM → X) f p p' ds :
  (∀ x, π (f x) = π x) →
  π <$> getPM p' (alterPM f p ds) = π <$> getPM p' ds.
Proof.
  intros Hf. rewrite getPM_alterPM. case_decide; [subst|done].
  destruct (getPM p ds); simpl; [|done]. by rewrite Hf.
Qed.

Lemma getNode_alterPM f p n ds :
  (∀ x, pm_nodes (f x) = pm_nodes x) →
  getNode n (alterPM f p ds) = getNode n ds.
Proof.
  intros Hf. unfold getNode. rewrite getPM_alterPM. case_decide as E; [|done].
  rewrite E. destruct (getPM p ds); simpl; [|done]. by rewrite Hf.
Qed.

Lemma getNode_alterRack f r n ds :
  (∀ x, rack_pms (f x) = rack_pms x) →
  getNode n (alterRack f r ds) = getNode n ds.
Proof. intros Hf. unfold getNode. by rewrite getPM_alterRack. Qed.

Lemma getNode_alterDomain f d n ds :
  (∀ x, dom_racks (f x) = dom_racks x) →
  getNode n (alterDomain f d ds) = getNode n ds.
Proof. intros Hf. unfold getNode. by rewrite getPM_alterDomain. Qed.

Lemma getNode_alterNode f n n' ds :
  getNode n' (alterNode f n ds) =
  if decide (n' = n) then f <$> getNode n ds else getNode n' ds.
Proof.
  unfold getNode, alterNode. rewrite getPM_alterPM.
  destruct n as [r i], n' as [r' i']; simpl.
  repeat case_decide; simplify_eq; simpl; try done.
  - destruct (getPM r ds); simpl; [apply list_lookup_alter_eq|done].
  - destruct (getPM r ds); simpl; [|done]. apply list_lookup_alter_ne. congruence.
Qed.

(** Updates below a level keep what that level itself holds. *)
Lemma getDomain_alterRack_proj {X} (π : Domain → X) f r d ds :
  (∀ x rs, π (set_dom_racks rs x) = π x) →
  π <$> getDomain d (alterRack f r ds) = π <$> getDomain d ds.
Proof. intros Hπ. unfold alterRack. by apply getDomain_alterDomain_proj. Qed.

Lemma getRack_alterPM_proj {X} (π : Rack → X) f p r ds :
  (∀ x ps, π (set_rack_pms ps x) = π x) →
  π <$> getRack r (alterPM f p ds) = π <$> getRack r ds.
Proof. intros Hπ. unfold alterPM. by apply getRack_alterRack_proj. Qed.

Lemma getPM_alterNode_proj {X} (π : PM → X) f n p ds :
  (∀ x ns, π (set_pm_nodes ns x) = π x) →
  π <$> getPM p (alterNode f n ds) = π <$> getPM p ds.
Proof. intros Hπ. unfold alterNode. by apply getPM_alterPM_proj. Qed.

Lemma getDomain_alterPM_proj {X} (π : Domain → X) f p d ds :
  (∀ x rs, π (set_dom_racks rs x) = π x) →
  π <$> getDomain d (alterPM f p ds) = π <$> getDomain d ds.
Proof. intros Hπ. unfold alterPM. by apply getDomain_alterRack_proj. Qed.

Lemma getDomain_alterNode_proj {X} (π : Domain → X) f n d ds :
  (∀ x rs, π (set_dom_racks rs x) = π x) →
  π <$> getDomain d (alterNode f n ds) = π <$> getDomain d ds.
Proof. intros Hπ. unfold alterNode. by apply getDomain_alterPM_proj. Qed.

Lemma getRack_alterNode_proj {X} (π : Rack → X) f n r ds :
  (∀ x ps, π (set_rack_pms ps x) = π x) →
  π <$> getRack r (alterNode f n ds) = π <$> getRack r ds.
Proof. intros Hπ. unfold alterNode. by apply getRack_alterPM_proj. Qed.

Lemma padd_0_l a : padd (0, 0) a = a.
Proof. destruct a. unfold padd. simpl. f_equal; lia. Qed.
Lemma padd_assoc a b c : padd a (padd b c) = padd (padd a b) c.
Proof. unfold padd. simpl. f_equal; lia. Qed.
Lemma padd_comm a b : padd a b = padd b a.
Proof. unfold padd. f_equal; lia. Qed.
Lemma padd_pneg a : padd a (pneg a) = (0, 0).
Proof. unfold padd, pneg. simpl. f_equal; lia. Qed.

Lemma shift_0 o : shift (0, 0) o = o.
Proof. destruct o; simpl; [|done]. by rewrite padd_0_l. Qed.
Lemma shift_shift a b o : shift a (shift b o) = shift (padd a b) o.
Proof. destruct o; simpl; [|done]. by rewrite padd_assoc. Qed.

Lemma fmap_through {X Y} (π : X → Y) (f : X → X) (g : Y → Y) (o : option X) :
  (∀ x, π (f x) = g (π x)) → π <$> (f <$> o) = g <$> (π <$> o).
Proof. intros Hf. destruct o; simpl; [|done]. by rewrite Hf. Qed.

Lemma fmap_availOf g δ (o : option WithResources) :
  (∀ w, availOf (g w) = padd δ (availOf w)) →
  availOf <$> (g <$> o) = shift δ (availOf <$> o).
Proof. intros Hg. destruct o; simpl; [|done]. by rewrite Hg. Qed.

(** The effect of one iteration of the loops of [place] and [unplace]. *)
Lemma observe_chargePath g δ n ds l :
  (∀ w, availOf (g w) = padd δ (availOf w)) →
  observe (chargePath g n ds) l =
  shift (if onPath n l then δ else (0, 0)) (observe ds l).
Proof.
  intros Hg. unfold chargePath.
  set (fn := λ x, set_node_res (g (node_res x)) x).
  set (fp := λ x, set_pm_res (g (pm_res x)) x).
  set (fr := λ x, set_rack_res (g (rack_res x)) x).
  set (fd := λ x, set_dom_res (g (dom_res x)) x).
  destruct l as [d|r|p|n'|p k]; simpl.
  - rewrite getDomain_alterDomain.
    assert (∀ x, dom_res <$> getDomain x
       (alterRack fr (node_rack n) (alterPM fp (node_pm n) (alterNode fn n ds)))
       = dom_res <$> getDomain x ds) as E.
    { intros x. rewrite getDomain_alterRack_proj, getDomain_alterPM_proj,
        getDomain_alterNode_proj; done. }
    case_bool_decide as Hd; case_decide; try done.
    + subst d. rewrite (fmap_through dom_res fd g) by done.
      rewrite E. by apply fmap_availOf.
    + rewrite E. by rewrite shift_0.
  - rewrite getRack_alterDomain by done. rewrite getRack_alterRack.
    assert (∀ x, rack_res <$> getRack x (alterPM fp (node_pm n) (alterNode fn n ds))
       = rack_res <$> getRack x ds) as E.
    { intros x. rewrite getRack_alterPM_proj, getRack_alterNode_proj; done. }
    case_bool_decide as Hd; case_decide; try done.
    + subst r. rewrite (fmap_through rack_res fr g) by done.
      rewrite E. by apply fmap_availOf.
    + rewrite E. by rewrite shift_0.
  - rewrite getPM_alterDomain, getPM_alterRack by done. rewrite getPM_alterPM.
    assert (∀ x, pm_res <$> getPM x (alterNode fn n ds) = pm_res <$> getPM x ds) as E.
    { intros x. by rewrite getPM_alterNode_proj. }
    case_bool_decide as Hd; case_decide; try done.
    + subst p. rewrite (fmap_through pm_res fp g) by done.
      rewrite E. by apply fmap_availOf.
    + rewrite E. by rewrite shift_0.
  - rewrite getNode_alterDomain, getNode_alterRack, getNode_alterPM by done.
    rewrite getNode_alterNode.
    case_bool_decide as Hd; case_decide; try done.
    + subst. rewrite (fmap_through node_res fn g) by done. by apply fmap_availOf.
    + by rewrite shift_0.
  - rewrite getPM_alterDomain, getPM_alterRack by done.
    rewrite (getPM_alterPM_proj vmsByPG) by done.
    rewrite (getPM_alterNode_proj vmsByPG) by done.
    by rewrite shift_0.
Qed.

(** ** The memoised typeFit *)

Section Cache.
Context `{StdLib}.

Lemma res_quiet_refl w : res_quiet w w.
Proof. by repeat split. Qed.
Lemma res_quiet_trans a b c : res_quiet a b → res_quiet b c → res_quiet a c.
Proof. unfold res_quiet. intuition congruence. Qed.
Lemma res_quiet_cache k v w : res_quiet w (cacheTypeFit k v w).
Proof. by repeat split. Qed.

#[global] Instance node_quiet_refl : Reflexive node_quiet.
Proof. intros n. split; [apply res_quiet_refl|done]. Qed.
#[global] Instance node_quiet_trans : Transitive node_quiet.
Proof. intros a b c [? ?] [? ?]. split; [by eapply res_quiet_trans|congruence]. Qed.
#[global] Instance pm_quiet_refl : Reflexive pm_quiet.
Proof. intros p. by repeat split. Qed.
#[global] Instance pm_quiet_trans : Transitive pm_quiet.
Proof.
  intros a b c (? & ? & ? & Hk) (? & ? & ? & Hk').
  split; [by eapply res_quiet_trans|]. split; [congruence|].
  split; [by etrans|]. intros k. by rewrite Hk.
Qed.
#[global] Instance rack_quiet_refl : Reflexive rack_quiet.
Proof. intros p. by repeat split. Qed.
#[global] Instance rack_quiet_trans : Transitive rack_quiet.
Proof.
  intros a b c (? & ? & ?) (? & ? & ?).
  split; [by eapply res_quiet_trans|]. split; [congruence|]. by etrans.
Qed.
#[global] Instance dom_quiet_refl : Reflexive dom_quiet.
Proof. intros p. by repeat split. Qed.
#[global] Instance dom_quiet_trans : Transitive dom_quiet.
Proof.
  intros a b c (? & ? & ?) (? & ? & ?).
  split; [by eapply res_quiet_trans|]. split; [congruence|]. by etrans.
Qed.
#[global] Instance topo_quiet_refl : Reflexive topo_quiet.
Proof. intros ds. unfold topo_quiet. done. Qed.
#[global] Instance topo_quiet_trans : Transitive topo_quiet.
Proof. intros a b c ? ?. unfold topo_quiet in *. by etrans. Qed.

(** The uncached values only read the availability. *)
Lemma Node_uncached_quiet t n n' : node_quiet n n' → Node_uncached t n = Node_uncached t n'.
Proof.
  intros [(_ & _ & Hc & Hm) _]. unfold Node_uncached, Node_getTypeFitImpl.
  by rewrite Hc, Hm.
Qed.

Lemma fmap_quiet {A} (R : A → A → Prop) (f : A → Z) l l' :
  (∀ x y, R x y → f x = f y) → Forall2 R l l' → f <$> l = f <$> l'.
Proof. intros Hf. induction 1; simpl; [done|]. f_equal; eauto. Qed.

Lemma PM_uncached_quiet t p p' : pm_quiet p p' → PM_uncached t p = PM_uncached t p'.
Proof.
  intros (_ & _ & Hn & _). unfold PM_uncached.
  by rewrite (fmap_quiet node_quiet _ _ _ (Node_uncached_quiet t) Hn).
Qed.
Lemma Rack_uncached_quiet t r r' : rack_quiet r r' → Rack_uncached t r = Rack_uncached t r'.
Proof.
  intros (_ & _ & Hn). unfold Rack_uncached.
  by rewrite (fmap_quiet pm_quiet _ _ _ (PM_uncached_quiet t) Hn).
Qed.
Lemma Domain_uncached_quiet t d d' :
  dom_quiet d d' → Domain_uncached t d = Domain_uncached t d'.
Proof.
  intros (_ & _ & Hn). unfold Domain_uncached.
  by rewrite (fmap_quiet rack_quiet _ _ _ (Rack_uncached_quiet t) Hn).
Qed.

Lemma memo_ok_insert ts t v w fit fit' :
  types_unique ts → t ∈ ts →
  memo_ok ts w fit → (∀ t', fit t' = fit' t') → v = fit' t →
  memo_ok ts (cacheTypeFit (t_index t) v w) fit'.
Proof.
  intros Hu Ht Hok Hfit Hv t' v' Ht' Hl. simpl in Hl.
  destruct (decide (t_index t = t_index t')) as [E|E].
  - rewrite E, lookup_insert_eq in Hl. injection Hl as <-.
    by rewrite (Hu t t' Ht Ht' E) in Hv.
  - rewrite lookup_insert_ne in Hl by done. rewrite <- Hfit. by eapply Hok.
Qed.

Lemma memo_ok_ext ts w fit fit' :
  memo_ok ts w fit → (∀ t', fit t' = fit' t') → memo_ok ts w fit'.
Proof. intros Hok Hfit t v Ht Hl. rewrite <- Hfit. by eapply Hok. Qed.

Lemma memo_ok_empty ts w fit : typeFits w = ∅ → memo_ok ts w fit.
Proof. intros E t v _. by rewrite E, lookup_empty. Qed.

(** The memoised [getTypeFit] of a node returns the uncached value. *)
Lemma Node_getTypeFit_spec ts t n :
  types_unique ts → t ∈ ts → node_ok ts n →
  (Node_getTypeFit t n).1 = Node_uncached t n
  ∧ node_quiet n (Node_getTypeFit t n).2
  ∧ node_ok ts (Node_getTypeFit t n).2.
Proof.
  intros Hu Ht Hok. unfold Node_getTypeFit.
  destruct (typeFits (node_res n) !! t_index t) as [v|] eqn:E; simpl.
  - split; [by eapply Hok|]. split; [reflexivity|done].
  - split; [done|]. split; [split; [apply res_quiet_cache|done]|].
    eapply memo_ok_insert; eauto.
Qed.

(** [fitAll] of a memoised [getTypeFit] that is right on every element. *)
Lemma fitAll_spec {A} (ok : A → Prop) (quiet : A → A → Prop) (fit : A → Z * A)
    (uncached : A → Z) (l : list A) :
  (∀ x, ok x → (fit x).1 = uncached x ∧ quiet x (fit x).2 ∧ ok (fit x).2) →
  Forall ok l →
  (fitAll fit l).1 = uncached <$> l
  ∧ Forall2 quiet l (fitAll fit l).2
  ∧ Forall ok (fitAll fit l).2.
Proof.
  intros Hfit. induction 1 as [|x l Hx Hl IH]; simpl; [by repeat constructor|].
  destruct (Hfit x Hx) as (E1 & E2 & E3).
  destruct (fit x) as [v x']. destruct (fitAll fit l) as [vs l'']. simpl in *.
  destruct IH as (-> & ? & ?). subst. repeat split; by constructor.
Qed.

Lemma PM_getTypeFit_spec ts t p :
  types_unique ts → t ∈ ts → pm_ok ts p →
  (PM_getTypeFit t p).1 = PM_uncached t p
  ∧ pm_quiet p (PM_getTypeFit t p).2
  ∧ pm_ok ts (PM_getTypeFit t p).2.
Proof.
  intros Hu Ht [Hmemo Hnodes]. unfold PM_getTypeFit.
  destruct (typeFits (pm_res p) !! t_index t) as [v|] eqn:E; simpl.
  - split; [by eapply Hmemo|]. split; [reflexivity|done].
  - unfold PM_getTypeFitImpl.
    destruct (fitAll_spec (node_ok ts) node_quiet (Node_getTypeFit t) (Node_uncached t)
                (pm_nodes p)) as (E1 & E2 & E3); [|done|].
    { intros x Hx. by apply Node_getTypeFit_spec. }
    destruct (fitAll (Node_getTypeFit t) (pm_nodes p)) as [byNode ns]. simpl in *. subst.
    assert (pm_quiet p (set_pm_nodes ns p)) as Hq by (by repeat split).
    split; [done|]. split.
    + by repeat split.
    + split; [|done]. simpl.
      eapply (memo_ok_insert ts t _ _ (λ t, PM_uncached t p)); eauto.
      * intros t'. apply PM_uncached_quiet. by repeat split.
      * by apply PM_uncached_quiet.
Qed.

Lemma Rack_getTypeFit_spec ts t r :
  types_unique ts → t ∈ ts → rack_ok ts r →
  (Rack_getTypeFit t r).1 = Rack_uncached t r
  ∧ rack_quiet r (Rack_getTypeFit t r).2
  ∧ rack_ok ts (Rack_getTypeFit t r).2.
Proof.
  intros Hu Ht [Hmemo Hpms]. unfold Rack_getTypeFit.
  destruct (typeFits (rack_res r) !! t_index t) as [v|] eqn:E; simpl.
  - split; [by eapply Hmemo|]. split; [reflexivity|done].
  - unfold Rack_getTypeFitImpl.
    destruct (fitAll_spec (pm_ok ts) pm_quiet (PM_getTypeFit t) (PM_uncached t)
                (rack_pms r)) as (E1 & E2 & E3); [|done|].
    { intros x Hx. by apply PM_getTypeFit_spec. }
    destruct (fitAll (PM_getTypeFit t) (rack_pms r)) as [vs ps]. simpl in *. subst.
    split; [done|]. split.
    + by repeat split.
    + split; [|done]. simpl.
      eapply (memo_ok_insert ts t _ _ (λ t, Rack_uncached t r)); eauto.
      * intros t'. apply Rack_uncached_quiet. by repeat split.
      * apply Rack_uncached_quiet. by repeat split.
Qed.

Lemma Domain_getTypeFit_spec ts t d :
  types_unique ts → t ∈ ts → dom_ok ts d →
  (Domain_getTypeFit t d).1 = Domain_uncached t d
  ∧ dom_quiet d (Domain_getTypeFit t d).2
  ∧ dom_ok ts (Domain_getTypeFit t d).2.
Proof.
  intros Hu Ht [Hmemo Hrs]. unfold Domain_getTypeFit.
  destruct (typeFits (dom_res d) !! t_index t) as [v|] eqn:E; simpl.
  - split; [by eapply Hmemo|]. split; [reflexivity|done].
  - unfold Domain_getTypeFitImpl.
    destruct (fitAll_spec (rack_ok ts) rack_quiet (Rack_getTypeFit t) (Rack_uncached t)
                (dom_racks d)) as (E1 & E2 & E3); [|done|].
    { intros x Hx. by apply Rack_getTypeFit_spec. }
    destruct (fitAll (Rack_getTypeFit t) (dom_racks d)) as [vs rs]. simpl in *. subst.
    split; [done|]. split.
    + by repeat split.
    + split; [|done]. simpl.
      eapply (memo_ok_insert ts t _ _ (λ t, Domain_uncached t d)); eauto.
      * intros t'. apply Domain_uncached_quiet. by repeat split.
      * apply Domain_uncached_quiet. by repeat split.
Qed.

(** Filling a memo changes no resource. *)
Lemma Node_getTypeFit_quiet t n : node_quiet n (Node_getTypeFit t n).2.
Proof.
  unfold Node_getTypeFit. destruct (typeFits (node_res n) !! t_index t); simpl.
  - reflexivity.
  - split; [apply res_quiet_cache|done].
Qed.

Lemma fitAll_quiet {A} (quiet : A → A → Prop) (fit : A → Z * A) (l : list A) :
  (∀ x, quiet x (fit x).2) → Forall2 quiet l (fitAll fit l).2.
Proof.
  intros Hfit. induction l as [|x l IH]; simpl; [constructor|].
  specialize (Hfit x). destruct (fit x) as [v x']. destruct (fitAll fit l) as [vs l''].
  by constructor.
Qed.

Lemma PM_getTypeFit_quiet t p : pm_quiet p (PM_getTypeFit t p).2.
Proof.
  unfold PM_getTypeFit. destruct (typeFits (pm_res p) !! t_index t); simpl; [reflexivity|].
  unfold PM_getTypeFitImpl.
  pose proof (fitAll_quiet node_quiet (Node_getTypeFit t) (pm_nodes p)
                (Node_getTypeFit_quiet t)) as Hq.
  destruct (fitAll (Node_getTypeFit t) (pm_nodes p)) as [vs ns]. by repeat split.
Qed.

Lemma Rack_getTypeFit_quiet t r : rack_quiet r (Rack_getTypeFit t r).2.
Proof.
  unfold Rack_getTypeFit. destruct (typeFits (rack_res r) !! t_index t); simpl; [reflexivity|].
  unfold Rack_getTypeFitImpl.
  pose proof (fitAll_quiet pm_quiet (PM_getTypeFit t) (rack_pms r)
                (PM_getTypeFit_quiet t)) as Hq.
  destruct (fitAll (PM_getTypeFit t) (rack_pms r)) as [vs ns]. by repeat split.
Qed.

Lemma Domain_getTypeFit_quiet t d : dom_quiet d (Domain_getTypeFit t d).2.
Proof.
  unfold Domain_getTypeFit. destruct (typeFits (dom_res d) !! t_index t); simpl; [reflexivity|].
  unfold Domain_getTypeFitImpl.
  pose proof (fitAll_quiet rack_quiet (Rack_getTypeFit t) (dom_racks d)
                (Rack_getTypeFit_quiet t)) as Hq.
  destruct (fitAll (Rack_getTypeFit t) (dom_racks d)) as [vs ns]. by repeat split.
Qed.

End Cache.

Section Topology.
Context `{StdLib}.

(** ** Quiet changes keep the observations *)

Lemma quiet_getDomain ds ds' d :
  topo_quiet ds ds' → option_Forall2 dom_quiet (getDomain d ds) (getDomain d ds').
Proof. intros Hq. by apply Forall2_lookup. Qed.

Lemma quiet_getRack ds ds' r :
  topo_quiet ds ds' → option_Forall2 rack_quiet (getRack r ds) (getRack r ds').
Proof.
  intros Hq. unfold getRack.
  destruct (quiet_getDomain ds ds' r.1 Hq) as [x y (_ & _ & Hxy)|]; simpl; [|constructor].
  by apply Forall2_lookup.
Qed.

Lemma quiet_getPM ds ds' p :
  topo_quiet ds ds' → option_Forall2 pm_quiet (getPM p ds) (getPM p ds').
Proof.
  intros Hq. unfold getPM.
  destruct (quiet_getRack ds ds' p.1 Hq) as [x y (_ & _ & Hxy)|]; simpl; [|constructor].
  by apply Forall2_lookup.
Qed.

Lemma quiet_getNode ds ds' n :
  topo_quiet ds ds' → option_Forall2 node_quiet (getNode n ds) (getNode n ds').
Proof.
  intros Hq. unfold getNode.
  destruct (quiet_getPM ds ds' n.1 Hq) as [x y (_ & _ & Hxy & _)|]; simpl; [|constructor].
  by apply Forall2_lookup.
Qed.

Lemma res_quiet_availOf w w' : res_quiet w w' → availOf w = availOf w'.
Proof. intros (_ & _ & Hc & Hm). unfold availOf. by rewrite Hc, Hm. Qed.

Lemma quiet_sameAvailability ds ds' : topo_quiet ds ds' → sameAvailability ds ds'.
Proof.
  intros Hq [d|r|p|n|p k]; simpl.
  - destruct (quiet_getDomain ds ds' d Hq) as [x y (Hr & _)|]; simpl; [|done].
    by rewrite (res_quiet_availOf _ _ Hr).
  - destruct (quiet_getRack ds ds' r Hq) as [x y (Hr & _)|]; simpl; [|done].
    by rewrite (res_quiet_availOf _ _ Hr).
  - destruct (quiet_getPM ds ds' p Hq) as [x y (Hr & _)|]; simpl; [|done].
    by rewrite (res_quiet_availOf _ _ Hr).
  - destruct (quiet_getNode ds ds' n Hq) as [x y (Hr & _)|]; simpl; [|done].
    by rewrite (res_quiet_availOf _ _ Hr).
  - destruct (quiet_getPM ds ds' p Hq) as [x y (_ & _ & _ & Hk)|]; simpl; [|done].
    by rewrite Hk.
Qed.

Lemma quiet_alterDomain f d ds :
  (∀ x, getDomain d ds = Some x → dom_quiet x (f x)) →
  topo_quiet ds (alterDomain f d ds).
Proof.
  intros Hf. apply Forall2_alter_r; [reflexivity|].
  intros x y Hx Hy _. rewrite Hx in Hy. injection Hy as <-. by apply Hf.
Qed.

Lemma quiet_alterRack f r ds :
  (∀ x, getRack r ds = Some x → rack_quiet x (f x)) →
  topo_quiet ds (alterRack f r ds).
Proof.
  intros Hf. apply quiet_alterDomain. intros d Hd.
  split; [apply res_quiet_refl|]. split; [done|]. simpl.
  apply Forall2_alter_r; [reflexivity|].
  intros x y Hx Hy _. rewrite Hx in Hy. injection Hy as <-. apply Hf.
  unfold getRack. by rewrite Hd.
Qed.

Lemma quiet_alterPM f p ds :
  (∀ x, getPM p ds = Some x → pm_quiet x (f x)) →
  topo_quiet ds (alterPM f p ds).
Proof.
  intros Hf. apply quiet_alterRack. intros d Hd.
  split; [apply res_quiet_refl|]. split; [done|]. simpl.
  apply Forall2_alter_r; [reflexivity|].
  intros x y Hx Hy _. rewrite Hx in Hy. injection Hy as <-. apply Hf.
  unfold getPM. by rewrite Hd.
Qed.

(** ** Updates that keep the memos right *)

Lemma cache_ok_alterDomain ts f d ds :
  cache_ok ts ds →
  (∀ x, getDomain d ds = Some x → dom_ok ts x → dom_ok ts (f x)) →
  cache_ok ts (alterDomain f d ds).
Proof. intros Hok Hf. by apply Forall_alter. Qed.

Lemma cache_ok_alterRack ts f r ds :
  cache_ok ts ds →
  (∀ x, getRack r ds = Some x → rack_ok ts x →
        rack_ok ts (f x) ∧ ∀ t, Rack_uncached t (f x) = Rack_uncached t x) →
  cache_ok ts (alterRack f r ds).
Proof.
  intros Hok Hf. apply cache_ok_alterDomain; [done|].
  intros d Hd [Hmemo Hracks]. split; simpl.
  - eapply memo_ok_ext; [exact Hmemo|]. intros t. unfold Domain_uncached. simpl.
    f_equal. apply list_eq. intros i. rewrite !list_lookup_fmap.
    rewrite list_lookup_alter. case_decide; [subst|done].
    destruct (dom_racks d !! r.2) as [x|] eqn:E; simpl; [|done].
    f_equal. symmetry. apply Hf.
    + unfold getRack. by rewrite Hd.
    + by eapply Forall_lookup_1 in Hracks.
  - apply Forall_alter; [done|]. intros x Hx Hxok. apply Hf; [|done].
    unfold getRack. by rewrite Hd.
Qed.

Lemma cache_ok_alterPM ts f p ds :
  cache_ok ts ds →
  (∀ x, getPM p ds = Some x → pm_ok ts x →
        pm_ok ts (f x) ∧ ∀ t, PM_uncached t (f x) = PM_uncached t x) →
  cache_ok ts (alterPM f p ds).
Proof.
  intros Hok Hf. apply cache_ok_alterRack; [done|].
  intros r Hr [Hmemo Hpms].
  assert (∀ t, Rack_uncached t (set_rack_pms (alter f p.2 (rack_pms r)) r)
               = Rack_uncached t r) as E.
  { intros t. unfold Rack_uncached. simpl.
    f_equal. apply list_eq. intros i. rewrite !list_lookup_fmap.
    rewrite list_lookup_alter. case_decide; [subst|done].
    destruct (rack_pms r !! p.2) as [x|] eqn:E; simpl; [|done].
    f_equal. apply Hf.
    + unfold getPM. by rewrite Hr.
    + by eapply Forall_lookup_1 in Hpms. }
  split; [|done]. split; simpl.
  - eapply memo_ok_ext; [exact Hmemo|]. intros t. by rewrite E.
  - apply Forall_alter; [done|]. intros x Hx Hxok. apply Hf; [|done].
    unfold getPM. by rewrite Hr.
Qed.

(** [claimResources] and [releaseResources] clear the memo of every level
    they touch, which is every level above the node. *)
Lemma cache_ok_chargePath ts g n ds :
  (∀ w, typeFits (g w) = ∅) →
  cache_ok ts ds → cache_ok ts (chargePath g n ds).
Proof.
  intros Hg Hok. destruct n as [[[d r] p] i].
  unfold chargePath, alterNode, alterPM, alterRack, alterDomain,
    node_rack, node_pm, pm_rack, rack_domain. simpl.
  rewrite !list_alter_alter_eq. apply Forall_alter; [done|].
  intros x _ [_ Hracks]. split; simpl.
  { apply memo_ok_empty. simpl. apply Hg. }
  rewrite !list_alter_alter_eq. apply Forall_alter; [done|].
  intros y _ [_ Hpms]. split; simpl.
  { apply memo_ok_empty. simpl. apply Hg. }
  rewrite !list_alter_alter_eq. apply Forall_alter; [done|].
  intros z _ [_ Hnodes]. split; simpl.
  { apply memo_ok_empty. simpl. apply Hg. }
  apply Forall_alter; [done|].
  intros u _ _. apply memo_ok_empty. simpl. apply Hg.
Qed.

Lemma cache_ok_charges ts g nodes ds :
  (∀ w, typeFits (g w) = ∅) →
  cache_ok ts ds → cache_ok ts (foldl (λ ds n, chargePath g n ds) ds nodes).
Proof.
  intros Hg. revert ds. induction nodes as [|n nodes IH]; intros ds Hok; simpl; [done|].
  apply IH. by apply cache_ok_chargePath.
Qed.

Lemma cache_ok_bumpCount ts k δ p ds :
  cache_ok ts ds → cache_ok ts (alterPM (bumpCount k δ) p ds).
Proof.
  intros Hok. apply cache_ok_alterPM; [done|].
  intros x _ Hx. split; [|done]. exact Hx.
Qed.

(** ** Observations after the updates *)

Lemma observe_bumpCount k δ p ds l :
  observe (alterPM (bumpCount k δ) p ds) l =
  shift (if bool_decide (l = LCount p k) then (δ, 0) else (0, 0)) (observe ds l).
Proof.
  assert (∀ x, pm_res (bumpCount k δ x) = pm_res x) as Hres by done.
  assert (∀ x, pm_nodes (bumpCount k δ x) = pm_nodes x) as Hnodes by done.
  destruct l as [d|r|q|n|q k']; simpl.
  - rewrite getDomain_alterPM_proj by done. by rewrite shift_0.
  - rewrite getRack_alterPM_proj by done. by rewrite shift_0.
  - rewrite getPM_alterPM_proj by done. by rewrite shift_0.
  - rewrite getNode_alterPM by done. by rewrite shift_0.
  - rewrite getPM_alterPM. case_decide as Hq.
    + subst q. destruct (getPM p ds) as [x|]; simpl; [|done].
      unfold countOf at 1. simpl. case_bool_decide as Hk.
      * injection Hk as ->. rewrite lookup_insert_eq. simpl.
        unfold padd. simpl. f_equal. f_equal; lia.
      * rewrite lookup_insert_ne by congruence. by rewrite padd_0_l.
    + rewrite bool_decide_false by congruence. by rewrite shift_0.
Qed.

Lemma res_charge_claim t w :
  availOf (claimResources t w) = padd (- t_cpu t, - t_memory t) (availOf w).
Proof. unfold availOf, padd. simpl. f_equal; lia. Qed.
Lemma res_charge_release t w :
  availOf (releaseResources t w) = padd (t_cpu t, t_memory t) (availOf w).
Proof. unfold availOf, padd. simpl. f_equal; lia. Qed.

Lemma observe_charges g δ nodes ds l :
  (∀ w, availOf (g w) = padd δ (availOf w)) →
  observe (foldl (λ ds n, chargePath g n ds) ds nodes) l =
  shift (pscale (Z.of_nat (length (filter (λ n, onPath n l = true) nodes))) δ)
    (observe ds l).
Proof.
  intros Hg. revert ds. induction nodes as [|n nodes IH]; intros ds; simpl.
  - unfold pscale. simpl. by rewrite shift_0.
  - rewrite IH, (observe_chargePath g δ) by done. rewrite shift_shift. f_equal.
    destruct (onPath n l) eqn:E.
    + rewrite filter_cons_True by done. simpl length.
      unfold pscale, padd. simpl. f_equal; lia.
    + rewrite filter_cons_False by congruence. unfold pscale, padd. simpl. f_equal; lia.
Qed.

End Topology.

(** ** Frames *)

Section Frame.
Context `{StdLib}.

Lemma heldBy_nil t pg l : heldBy t pg [] l = (0, 0).
Proof. by destruct l. Qed.

Lemma debt_insert_out vms B i vm' l :
  i ∉ B → debt (<[i := vm']> vms) B l = debt vms B l.
Proof.
  induction B as [|j B IH]; intros Hi; simpl; [done|].
  rewrite not_elem_of_cons in Hi. destruct Hi as [Hij Hi].
  rewrite lookup_insert_ne by done. by rewrite IH.
Qed.

Lemma debt_insert_in vms B i vm vm' l :
  NoDup B → i ∈ B → vms !! i = Some vm →
  debt (<[i := vm']> vms) B l = padd (debt vms B l) (padd (held vm' l) (pneg (held vm l))).
Proof.
  induction B as [|j B IH]; intros Hnd Hi Hvm; [by apply elem_of_nil in Hi|].
  apply NoDup_cons in Hnd as [Hj Hnd]. simpl.
  destruct (decide (i = j)) as [->|Hij].
  - rewrite lookup_insert_eq, Hvm. simpl. rewrite debt_insert_out by done.
    destruct (held vm' l), (held vm l), (debt vms B l). unfold padd, pneg. simpl.
    f_equal; lia.
  - rewrite lookup_insert_ne by done. apply elem_of_cons in Hi as [?|Hi]; [done|].
    rewrite IH by done.
    destruct (held vm' l), (held vm l), (debt vms B l),
      (from_option (λ vm0, held vm0 l) (0, 0) (vms !! j)).
    unfold padd, pneg. simpl. f_equal; lia.
Qed.

Lemma debt_ext vms vms' B l :
  (∀ i, i ∈ B → vms' !! i = vms !! i) → debt vms' B l = debt vms B l.
Proof.
  induction B as [|j B IH]; intros Hi; simpl; [done|].
  rewrite Hi by (by left). rewrite IH; [done|]. intros i ?. apply Hi. by right.
Qed.

Lemma Frame_refl B S t st : Frame B S t st st.
Proof.
  split; try done. intros l.
  rewrite padd_pneg. by rewrite shift_0.
Qed.

Lemma Frame_trans B S t st1 st2 st3 :
  Frame B S t st1 st2 → Frame B S t st2 st3 → Frame B S t st1 st3.
Proof.
  intros [a1 a3 a4 a5 a6 a7] [b1 b3 b4 b5 b6 b7]. split.
  - congruence.
  - intros k. by rewrite b3.
  - intros i Hi. by rewrite b4, a4.
  - intros i. by rewrite b5.
  - intros l. rewrite b6, a6, shift_shift. f_equal.
    destruct (debt (vmsByIndex st1) B l), (debt (vmsByIndex st2) B l),
      (debt (vmsByIndex st3) B l). unfold padd, pneg. simpl. f_equal; lia.
  - intros Hu Ht Hok. rewrite <- a1. apply b7; rewrite ?a1; auto.
Qed.

Lemma Frame_mono B S S' t st st' :
  (∀ i, i ∈ S → i ∈ S') → Frame B S t st st' → Frame B S' t st st'.
Proof. intros HS [a1 a3 a4 a5 a6 a7]. split; try done. intros i Hi. apply a4. auto. Qed.

(** Changes of the topology that keep every observation. *)
Lemma Frame_quiet B S t st ds' :
  topo_quiet (domains st) ds' →
  (types_unique (types st) → t ∈ types st →
   cache_ok (types st) (domains st) → cache_ok (types st) ds') →
  Frame B S t st (set_domains ds' st).
Proof.
  intros Hq Hc. split; try done. intros l. simpl.
  rewrite padd_pneg, shift_0. symmetry. by apply quiet_sameAvailability.
Qed.

(** Changes of the derived fields of groups. *)
Lemma Frame_pgs B S t st pgs' :
  (∀ k, pg_static <$> pgs' !! k = pg_static <$> pgsByIndex st !! k) →
  Frame B S t st (set_pgs pgs' st).
Proof.
  intros Hp. split; try done. intros l. simpl. by rewrite padd_pneg, shift_0.
Qed.

(** *** [place] and [unplace] *)

Lemma place_inv i nodes st u st' :
  place i nodes st = Some (u, st') →
  ∃ vm n0, vmsByIndex st !! i = Some vm ∧ head nodes = Some n0 ∧
    st' = set_domains
            (alterPM (bumpCount (vm_pg vm) 1) (node_pm n0)
               (foldl (λ ds n, chargePath (claimResources (vm_type vm)) n ds)
                  (domains st) nodes))
            (set_vms (<[i := set_vm_nodes nodes vm]> (vmsByIndex st)) st).
Proof.
  unfold place. intros Hp. minv. eauto.
Qed.

Lemma unplace_inv i st u st' :
  unplace i st = Some (u, st') →
  ∃ vm n0, vmsByIndex st !! i = Some vm ∧ head (vm_nodes vm) = Some n0 ∧
    st' = set_vms (<[i := set_vm_nodes [] vm]> (vmsByIndex st))
            (set_domains
               (alterPM (bumpCount (vm_pg vm) (-1)) (node_pm n0)
                  (foldl (λ ds n, chargePath (releaseResources (vm_type vm)) n ds)
                     (domains st) (vm_nodes vm))) st).
Proof.
  unfold unplace. intros Hp. minv. eauto.
Qed.

Lemma observe_place t pg nodes n0 ds l :
  head nodes = Some n0 →
  observe (alterPM (bumpCount pg 1) (node_pm n0)
             (foldl (λ ds n, chargePath (claimResources t) n ds) ds nodes)) l
  = shift (pneg (heldBy t pg nodes l)) (observe ds l).
Proof.
  intros Hn0. rewrite observe_bumpCount.
  rewrite (observe_charges _ (- t_cpu t, - t_memory t)) by apply res_charge_claim.
  rewrite shift_shift. f_equal.
  destruct nodes as [|n1 nodes]; [done|]. injection Hn0 as ->.
  destruct l as [d|r|p|n|p k]; simpl.
  1-4: unfold padd, pneg, pscale; simpl; f_equal; ring.
  rewrite filter_cons_False by done.
  replace (filter _ nodes) with (@nil NodeRef).
  2:{ symmetry. induction nodes; [done|]. by rewrite filter_cons_False. }
  do 2 case_bool_decide; simplify_eq; try tauto;
    try (destruct_and?; subst; done);
    unfold padd, pneg, pscale; simpl; f_equal; lia.
Qed.

Lemma observe_unplace t pg nodes n0 ds l :
  head nodes = Some n0 →
  observe (alterPM (bumpCount pg (-1)) (node_pm n0)
             (foldl (λ ds n, chargePath (releaseResources t) n ds) ds nodes)) l
  = shift (heldBy t pg nodes l) (observe ds l).
Proof.
  intros Hn0. rewrite observe_bumpCount.
  rewrite (observe_charges _ (t_cpu t, t_memory t)) by apply res_charge_release.
  rewrite shift_shift. f_equal.
  destruct nodes as [|n1 nodes]; [done|]. injection Hn0 as ->.
  destruct l as [d|r|p|n|p k]; simpl.
  1-4: unfold padd, pneg, pscale; simpl; f_equal; ring.
  rewrite filter_cons_False by done.
  replace (filter _ nodes) with (@nil NodeRef).
  2:{ symmetry. induction nodes; [done|]. by rewrite filter_cons_False. }
  do 2 case_bool_decide; simplify_eq; try tauto;
    try (destruct_and?; subst; done);
    unfold padd, pneg, pscale; simpl; f_equal; lia.
Qed.

Lemma claim_clears t w : typeFits (claimResources t w) = ∅.
Proof. done. Qed.
Lemma release_clears t w : typeFits (releaseResources t w) = ∅.
Proof. done. Qed.

Lemma Frame_place B S t i nodes st u st' vm :
  NoDup B → i ∈ S → i ∈ B →
  vmsByIndex st !! i = Some vm → vm_nodes vm = [] →
  place i nodes st = Some (u, st') →
  Frame B S t st st'.
Proof.
  intros Hnd HS HB Hvm Hnil Hp.
  apply place_inv in Hp as (vm' & n0 & Hvm' & Hn0 & ->).
  rewrite Hvm in Hvm'. injection Hvm' as <-.
  split; try done; simpl.
  - intros j Hj. apply lookup_insert_ne. intros ->. done.
  - intros j. destruct (decide (i = j)) as [->|Hij].
    + by rewrite lookup_insert_eq, Hvm.
    + by rewrite lookup_insert_ne.
  - intros l. rewrite observe_place by done. f_equal.
    rewrite (debt_insert_in _ _ _ vm) by done.
    unfold held at 2. rewrite Hnil, heldBy_nil. unfold held. simpl.
    destruct (heldBy _ _ nodes l), (debt (vmsByIndex st) B l).
    unfold padd, pneg. simpl. f_equal; lia.
  - intros _ _ Hok. apply cache_ok_bumpCount, cache_ok_charges; [apply claim_clears|done].
Qed.

Lemma Frame_unplace B S t i st u st' :
  NoDup B → i ∈ S → i ∈ B →
  unplace i st = Some (u, st') →
  Frame B S t st st'.
Proof.
  intros Hnd HS HB Hp.
  apply unplace_inv in Hp as (vm & n0 & Hvm & Hn0 & ->).
  split; try done; simpl.
  - intros j Hj. apply lookup_insert_ne. intros ->. done.
  - intros j. destruct (decide (i = j)) as [->|Hij].
    + by rewrite lookup_insert_eq, Hvm.
    + by rewrite lookup_insert_ne.
  - intros l. rewrite observe_unplace by done. f_equal.
    rewrite (debt_insert_in _ _ _ vm) by done.
    unfold held at 1. simpl. rewrite heldBy_nil. unfold held.
    destruct (heldBy _ _ (vm_nodes vm) l), (debt (vmsByIndex st) B l).
    unfold padd, pneg. simpl. f_equal; lia.
  - intros _ _ Hok. apply cache_ok_bumpCount, cache_ok_charges; [apply release_clears|done].
Qed.

End Frame.

(** ** The steps of a search *)

Section Search.
Context `{StdLib}.

Lemma Frame_nil_vms B t st st' : Frame B [] t st st' → vmsByIndex st' = vmsByIndex st.
Proof. intros F. apply map_eq. intros i. apply (fr_vms_out _ _ _ _ _ F). apply not_elem_of_nil. Qed.

Lemma set_vm_nodes_id vm : vm_nodes vm = [] → set_vm_nodes [] vm = vm.
Proof. destruct vm. simpl. by intros ->. Qed.

Lemma unplaceVMs_spec B S t V st u st' :
  NoDup B → (∀ i, i ∈ V → i ∈ S ∧ i ∈ B) →
  unplaceVMs V st = Some (u, st') →
  Frame B S t st st' ∧ vmsByIndex st' = clearNodes V (vmsByIndex st).
Proof.
  intros Hnd. revert st. induction V as [|i V IH]; intros st HV Hu; simpl in Hu.
  - minv. split; [apply Frame_refl|done].
  - minv. name (vmsByIndex _ !! _ = _) as Ha. destruct (isPlaced a) eqn:Hpl.
    + name (unplace _ _ = _) as Hun.
      pose proof Hun as Hun'. apply unplace_inv in Hun' as (vm & n0 & Hvm & Hn0 & ->).
      destruct (HV i) as [? ?]; [by left|].
      apply (Frame_unplace B S t) in Hun; [|done..].
      apply IH in Hu as [F Hvms]; [|intros; apply HV; by right].
      split; [by apply (Frame_trans _ _ _ _ _ _ Hun)|].
      rewrite Hvms. simpl. f_equal. apply map_eq. intros j.
      destruct (decide (i = j)) as [->|Hij].
      * by rewrite lookup_insert_eq, lookup_alter_eq, Hvm.
      * by rewrite lookup_insert_ne, lookup_alter_ne.
    + minv. apply IH in Hu as [F Hvms]; [|intros; apply HV; by right].
      split; [done|]. rewrite Hvms. simpl. f_equal. apply map_eq. intros j.
      destruct (decide (i = j)) as [->|Hij].
      * rewrite lookup_alter_eq, Ha. simpl. f_equal. symmetry. apply set_vm_nodes_id.
        unfold isPlaced in Hpl. by destruct (vm_nodes a).
      * by rewrite lookup_alter_ne.
Qed.

(** *** Steps that only fill memos or touch counts *)

Lemma rackGetTypeFit_frame B t r st v st' :
  rackGetTypeFit t r st = Some (v, st') → Frame B [] t st st'.
Proof.
  unfold rackGetTypeFit. intros Hr. minv. name (getRack _ _ = _) as E0.
  pose proof (Rack_getTypeFit_quiet t a) as Hq.
  destruct (Rack_getTypeFit t a) as [v' rk'] eqn:Efit. minv. simpl in Hq.
  apply Frame_quiet.
  - apply quiet_alterRack. intros x Hx. rewrite E0 in Hx. by injection Hx as <-.
  - intros Hu Ht Hok. apply cache_ok_alterRack; [done|].
    intros x Hx Hxok. rewrite E0 in Hx. injection Hx as <-.
    destruct (Rack_getTypeFit_spec (types st) t a Hu Ht Hxok) as (_ & _ & Hok').
    rewrite Efit in Hok'. split; [done|].
    intros t'. symmetry. by apply Rack_uncached_quiet.
Qed.

Lemma racksGetTypeFit_frame B t racks st vs st' :
  racksGetTypeFit t racks st = Some (vs, st') → Frame B [] t st st'.
Proof.
  revert st vs. induction racks as [|r racks IH]; intros st vs Hr; simpl in Hr; minv.
  - apply Frame_refl.
  - eapply Frame_trans; [by eapply rackGetTypeFit_frame|]. by eapply IH.
Qed.

Lemma keyed_sort_perm {A K} (lt : A * K → A * K → bool) (l : list A) (ks : list K) :
  length ks = length l → Permutation ((std_sort lt (zip l ks)).*1) l.
Proof.
  intros Hlen. rewrite std_sort_perm. by rewrite fst_zip by lia.
Qed.

Lemma racksGetTypeFit_length t racks st vs st' :
  racksGetTypeFit t racks st = Some (vs, st') → length vs = length racks.
Proof.
  revert st vs. induction racks as [|r racks IH]; intros st vs Hr; simpl in Hr; minv; [done|].
  simpl. f_equal. by eapply IH.
Qed.

Lemma sortRacksByFit_spec B t racks st racks' st' :
  sortRacksByFit t racks st = Some (racks', st') →
  Frame B [] t st st' ∧ Permutation racks' racks.
Proof.
  unfold sortRacksByFit. intros Hs. destruct (length racks <? 2)%nat; minv.
  - split; [apply Frame_refl|done].
  - split; [by eapply racksGetTypeFit_frame|].
    apply keyed_sort_perm. rewrite length_zip, length_fmap.
    name (racksGetTypeFit _ _ _ = _) as E. apply racksGetTypeFit_length in E. lia.
Qed.

Lemma sortNodesByFit_frame B t pr st l st' :
  sortNodesByFit t pr st = Some (l, st') → Frame B [] t st st'.
Proof.
  unfold sortNodesByFit. intros Hs. minv. name (getPM _ _ = _) as E0.
  destruct (length (pm_nodes a) <? 2)%nat; minv; [apply Frame_refl|].
  pose proof (fitAll_quiet node_quiet (Node_getTypeFit t) (pm_nodes a)
                (Node_getTypeFit_quiet t)) as Hq.
  destruct (fitAll (Node_getTypeFit t) (pm_nodes a)) as [fits ns] eqn:Efit. minv.
  simpl in Hq. apply Frame_quiet.
  - apply quiet_alterPM. intros x Hx. rewrite E0 in Hx. injection Hx as <-.
    by repeat split.
  - intros Hu Ht Hok. apply cache_ok_alterPM; [done|].
    intros x Hx [Hmemo Hnodes]. rewrite E0 in Hx. injection Hx as <-.
    assert (pm_quiet a (set_pm_nodes ns a)) as Hpq by (by repeat split).
    split; [split|].
    + eapply memo_ok_ext; [exact Hmemo|]. intros t'. by apply PM_uncached_quiet.
    + simpl.
      destruct (fitAll_spec (node_ok (types st)) node_quiet (Node_getTypeFit t)
                  (Node_uncached t) (pm_nodes a)) as (_ & _ & E3); [|done|].
      { intros y Hy. by apply Node_getTypeFit_spec. }
      by rewrite Efit in E3.
    + intros t'. symmetry. by apply PM_uncached_quiet.
Qed.

Lemma countOf_touch k k' m : countOf k' (<[k := countOf k m + 0]> m) = countOf k' m.
Proof.
  unfold countOf. destruct (decide (k = k')) as [->|Hk].
  - rewrite lookup_insert_eq. simpl. lia.
  - by rewrite lookup_insert_ne.
Qed.

Lemma countAt_frame B t pr k st c st' :
  countAt pr k st = Some (c, st') → Frame B [] t st st'.
Proof.
  unfold countAt. intros Hs. minv. apply Frame_quiet.
  - apply quiet_alterPM. intros x _. repeat split; try done.
    intros k'. simpl. symmetry. apply countOf_touch.
  - intros _ _ Hok. by apply cache_ok_bumpCount.
Qed.

Lemma readVMs_state l st vms st' : readVMs l st = Some (vms, st') → st' = st.
Proof.
  revert st vms. induction l as [|i l IH]; intros st vms E1; simpl in E1; minv; [done|].
  by eapply IH.
Qed.

Lemma pg_static_updateTargets pg vms : pg_static (updateTargets_pg pg vms) = pg_static pg.
Proof. unfold updateTargets_pg. by case_match. Qed.

Lemma updateTargets_frame B t pgi st u st' :
  updateTargets pgi st = Some (u, st') → Frame B [] t st st'.
Proof.
  unfold updateTargets. intros Hs. minv.
  name (readVMs _ _ = _) as E1. name (pgsByIndex _ !! _ = _) as E0.
  apply readVMs_state in E1 as ->.
  apply Frame_pgs. intros k. destruct (decide (pgi = k)) as [->|Hk].
  - rewrite lookup_insert_eq, E0. simpl. by rewrite pg_static_updateTargets.
  - by rewrite lookup_insert_ne.
Qed.

Lemma sumAvailable_state racks st r st' :
  sumAvailable racks st = Some (r, st') → st' = st.
Proof.
  revert st r. induction racks as [|x racks IH]; intros st r Hs; simpl in Hs; minv; [done|].
  by eapply IH.
Qed.

Lemma softPenalty_frame B t pgi vms st p st' :
  softPenalty pgi vms st = Some (p, st') → Frame B [] t st st'.
Proof.
  revert st p. induction vms as [|i vms IH]; intros st p Hs; simpl in Hs; minv.
  - apply Frame_refl.
  - eapply Frame_trans; [by eapply countAt_frame|]. by eapply IH.
Qed.

End Search.

(** ** Placing the VMs of one partition *)

Section Core.
Context `{StdLib}.

Lemma pickNodes_pm t pr cands acc :
  Forall (λ n, node_pm n = pr) acc →
  Forall (λ n, node_pm n = pr) (pickNodes t pr cands acc).
Proof.
  revert acc. induction cands as [|[i node] cands IH]; intros acc Hacc; simpl; [done|].
  destruct (negb (hasResources _ _ _)); [by apply IH|].
  assert (Forall (λ n, node_pm n = pr) (acc ++ [(pr, i)])) as Hacc'.
  { apply Forall_app. split; [done|]. by constructor. }
  destruct (Z.of_nat _ =? _); [done|]. by apply IH.
Qed.

Lemma skip_frame B t (c : bool) pr k soft st b st' :
  (if c then countAt pr k ≫= λ c, mret (soft <=? c) else mret false) st = Some (b, st') →
  Frame B [] t st st'.
Proof.
  destruct c; intros Hs; minv; [|apply Frame_refl].
  name (countAt _ _ _ = _) as Hc. by apply (countAt_frame B t) in Hc.
Qed.

Lemma tryPMs_spec B S V t R I pgi vmi force rack pms plc st res st' vm :
  NoDup B → vmi ∈ S → vmi ∈ B → vmi ∈ V → rack ∈ R → SearchInv V t R I →
  vmsByIndex st !! vmi = Some vm → vm_nodes vm = [] →
  I plc (vmsByIndex st) →
  tryPMs pgi vmi t force rack pms plc st = Some (res, st') →
  Frame B S t st st' ∧
  match res with
  | None => vmsByIndex st' = vmsByIndex st
  | Some plc' => I plc' (vmsByIndex st')
  end.
Proof.
  intros Hnd HS HB HV HR HI. revert st.
  induction pms as [|p pms IH]; intros st Hvm Hnil HIst Hrun; simpl in Hrun; minv.
  { split; [apply Frame_refl|done]. }
  name (getPM _ _ = _) as Hpm.
  destruct (negb (hasResourcesType t (pm_res a))); [by apply IH|].
  minv. name (pgsByIndex _ !! _ = _) as Hpg.
  match goal with
  | Hskip : context [countAt] |- _ => apply (skip_frame B t) in Hskip; rename Hskip into F0
  end.
  pose proof (Frame_nil_vms _ _ _ _ F0) as Hv0.
  apply (Frame_mono _ _ S) in F0; [|by intros ? ?%elem_of_nil].
  destruct a1.
  { destruct (IH s0) as [F1 Hres]; try done; try by rewrite Hv0.
    split; [by eapply Frame_trans|]. destruct res; [done|]. by rewrite Hres. }
  minv. name (sortNodesByFit _ _ _ = _) as Hsort. state_of Hsort as s1.
  apply (sortNodesByFit_frame B) in Hsort.
  pose proof (Frame_nil_vms _ _ _ _ Hsort) as Hv1.
  apply (Frame_mono _ _ S) in Hsort; [|by intros ? ?%elem_of_nil].
  destruct (negb (_ =? _)) eqn:Hlen.
  { destruct (IH s1) as [F1 Hres]; try done; try by rewrite Hv1, Hv0.
    split; [eapply Frame_trans; [exact F0|]; by eapply Frame_trans|].
    destruct res; [done|]. by rewrite Hres, Hv1. }
  minv. name (place _ _ _ = _) as Hplace. name (vmsByIndex s1 !! _ = _) as Hvm1.
  rewrite Hv1, Hv0, Hvm in Hvm1. injection Hvm1 as <-.
  pose proof Hplace as Hplace'.
  apply place_inv in Hplace' as (vm' & n0 & Hvm' & Hn0 & ->).
  rewrite Hv1, Hv0, Hvm in Hvm'. injection Hvm' as <-.
  split.
  - eapply Frame_trans; [exact F0|]. eapply Frame_trans; [exact Hsort|].
    eapply (Frame_place B S t); try done. by rewrite Hv1, Hv0.
  - simpl. rewrite Hv1, Hv0. apply (si_place _ _ _ _ HI); try done.
    apply negb_false_iff, Z.eqb_eq in Hlen.
    split; [by intros E; rewrite E in Hn0|]. split; [done|].
    exists rack, p. split; [done|]. by apply pickNodes_pm.
Qed.

Lemma tryRacks_spec B S V t R I pgi vmi force racks plc st res st' vm :
  NoDup B → vmi ∈ S → vmi ∈ B → vmi ∈ V → (∀ r, r ∈ racks → r ∈ R) → SearchInv V t R I →
  vmsByIndex st !! vmi = Some vm → vm_nodes vm = [] →
  I plc (vmsByIndex st) →
  tryRacks pgi vmi t force racks plc st = Some (res, st') →
  Frame B S t st st' ∧
  match res with
  | None => vmsByIndex st' = vmsByIndex st
  | Some plc' => I plc' (vmsByIndex st')
  end.
Proof.
  intros Hnd HS HB HV HR HI. revert st.
  induction racks as [|r racks IH]; intros st Hvm Hnil HIst Hrun; simpl in Hrun; minv.
  { split; [apply Frame_refl|done]. }
  assert (∀ r, r ∈ racks → r ∈ R) as HR' by (intros; apply HR; by right).
  destruct (negb (hasResourcesType t (rack_res a))); [by apply IH|].
  minv. name (tryPMs _ _ _ _ _ _ _ _ = _) as Hpms. state_of Hpms as s0.
  eapply (tryPMs_spec B S V t R I) in Hpms as [F1 Hres]; try done; [|apply HR; by left].
  destruct a0; minv; [done|].
  destruct (IH HR' s0) as [F2 Hres2]; try done; try by rewrite Hres.
  split; [by eapply Frame_trans|]. destruct res; [done|]. by rewrite Hres2.
Qed.

Lemma tryPlaceInner_spec B S V t R I pgi vms racks plc force st plc' racks' st' :
  NoDup B → (∀ i, i ∈ vms → i ∈ S ∧ i ∈ B ∧ i ∈ V) → (∀ r, r ∈ racks → r ∈ R) →
  SearchInv V t R I →
  I plc (vmsByIndex st) →
  tryPlaceInner pgi vms t racks plc force st = Some ((plc', racks'), st') →
  Frame B S t st st' ∧ I plc' (vmsByIndex st') ∧ Permutation racks' racks.
Proof.
  intros Hnd Hvms HR HI. revert racks plc st HR Hvms.
  induction vms as [|i vms IH]; intros racks plc st HR Hvms HIst Hrun; simpl in Hrun; minv.
  { split; [apply Frame_refl|]. split; [done|reflexivity]. }
  name (vmsByIndex _ !! _ = _) as Hvm.
  assert (∀ j, j ∈ vms → j ∈ S ∧ j ∈ B ∧ j ∈ V) as Hvms' by (intros; apply Hvms; by right).
  destruct (Hvms i) as (HiS & HiB & HiV); [by left|].
  destruct (isPlaced a) eqn:Hpl; [by eapply IH|].
  minv. name (sortRacksByFit _ _ _ = _) as Hsort. name (tryRacks _ _ _ _ _ _ _ = _) as Htry.
  state_of Hsort as sa. state_of Htry as sb.
  apply (sortRacksByFit_spec B) in Hsort as [F0 Hperm].
  pose proof (Frame_nil_vms _ _ _ _ F0) as Hv0.
  apply (Frame_mono _ _ S) in F0; [|by intros ? ?%elem_of_nil].
  assert (∀ r, r ∈ a0 → r ∈ R) as HR0.
  { intros r Hr. apply HR. by rewrite <- Hperm. }
  assert (vmsByIndex sa !! i = Some a) as Hvm' by (by rewrite Hv0).
  assert (vm_nodes a = []) as Hnil by (unfold isPlaced in Hpl; by destruct (vm_nodes a)).
  assert (I plc (vmsByIndex sa)) as HIa by (by rewrite Hv0).
  destruct (tryRacks_spec B S V t R I _ _ _ _ _ _ _ _ a Hnd HiS HiB HiV HR0 HI Hvm' Hnil HIa Htry)
    as [F1 Hres].
  apply IH in Hrun as (F2 & HI2 & Hperm2); try done.
  - split; [eapply Frame_trans; [exact F0|]; by eapply Frame_trans|].
    split; [done|]. by rewrite Hperm2.
  - destruct a1; simpl; [done|]. by rewrite Hres.
Qed.

Lemma tryPlace_spec B S t R I pgi vms racks force st res racks' st' plc0 :
  NoDup B → (∀ i, i ∈ vms → i ∈ S ∧ i ∈ B) → (∀ r, r ∈ racks → r ∈ R) →
  SearchInv vms t R I → I plc0 (vmsByIndex st) →
  tryPlace pgi vms t racks force st = Some ((res, racks'), st') →
  Frame B S t st st' ∧ Permutation racks' racks
  ∧ ∃ plc', I plc' (vmsByIndex st')
      ∧ ∀ p, res = Some p → placements p = plc' ∧ (length vms ≤ size plc')%nat.
Proof.
  intros Hnd Hvms HR HI HI0 Hrun. unfold tryPlace in Hrun.
  mbind Hrun as [] sa Hun.
  apply (unplaceVMs_spec B S t) in Hun as [F0 Hv0]; [|done..].
  mbind Hrun as [cpu mem] s Hsum. apply sumAvailable_state in Hsum as ->.
  assert (I ∅ (vmsByIndex sa)) as HIa.
  { rewrite Hv0. by eapply si_clear. }
  assert (∀ i, i ∈ vms → i ∈ S ∧ i ∈ B ∧ i ∈ vms) as Hvms3.
  { intros i Hi. destruct (Hvms i Hi). done. }
  match type of Hrun with (if ?c then _ else _) _ = _ => destruct c end.
  { minv. split; [done|]. split; [done|]. exists ∅. split; [done|]. by intros p. }
  mbind Hrun as [plc1 racks1] sb Hin1.
  apply (tryPlaceInner_spec B S vms t R I) in Hin1 as (F1 & HI1 & Hp1); try done.
  assert (∀ r, r ∈ racks1 → r ∈ R) as HR1.
  { intros r Hr. apply HR. by rewrite <- Hp1. }
  mbind Hrun as [plc2 racks2] sc Hin2.
  assert (Frame B S t sb sc ∧ I plc2 (vmsByIndex sc) ∧ Permutation racks2 racks1)
    as (F2 & HI2 & Hp2).
  { destruct (force && _); minv.
    - by apply (tryPlaceInner_spec B S vms t R I) in Hin2 as (F2 & HI2 & Hp2).
    - split; [apply Frame_refl|]. done. }
  assert (Frame B S t st sc) as F02.
  { eapply Frame_trans; [exact F0|]. by eapply Frame_trans. }
  assert (Permutation racks2 racks) as Hp02 by (by rewrite Hp2).
  destruct (size plc2 <? length vms)%nat eqn:Hsize.
  { minv. split; [done|]. split; [done|]. exists plc2. split; [done|]. by intros p. }
  mbind Hrun as [] sd Hup. apply (updateTargets_frame B t) in Hup.
  mbind Hrun as pg s Hpg. apply readPG_inv in Hpg as [Hpg ->].
  mbind Hrun as soft se Hsoft. apply mret_inv in Hrun as [[= -> ->] <-].
  assert (Frame B [] t sd st') as F4.
  { destruct (_ && _) in Hsoft; minv; [by eapply softPenalty_frame|apply Frame_refl]. }
  assert (Frame B [] t sc st') as F34 by (by eapply Frame_trans).
  pose proof (Frame_nil_vms _ _ _ _ F34) as Hv.
  apply (Frame_mono _ _ S) in F34; [|by intros ? ?%elem_of_nil].
  split; [by eapply Frame_trans|]. split; [done|].
  exists plc2. rewrite Hv. split; [done|].
  intros p [= <-]. simpl. split; [done|].
  apply Nat.ltb_ge in Hsize. done.
Qed.

Lemma expandRacks_spec B S t R I pgi vms start extra force st res st' plc0 :
  NoDup B → (∀ i, i ∈ vms → i ∈ S ∧ i ∈ B) →
  (∀ r, r ∈ start → r ∈ R) → (∀ r, r ∈ extra → r ∈ R) →
  SearchInv vms t R I → I plc0 (vmsByIndex st) →
  expandRacks pgi vms t start extra force st = Some (res, st') →
  Frame B S t st st'
  ∧ ∃ plc', I plc' (vmsByIndex st')
      ∧ ∀ p, res = Some p → placements p = plc' ∧ (length vms ≤ size plc')%nat.
Proof.
  intros Hnd Hvms Hstart Hextra HI. revert start st plc0 Hstart.
  induction extra as [|e extra IH]; intros start st plc0 Hstart HI0 Hrun;
    simpl in Hrun; mbind Hrun as [placement racks'] sa Htry;
    eapply (tryPlace_spec B S t R I) in Htry as (F & Hp & plc' & HI' & Hres); try done.
  - destruct placement; minv; eauto.
  - destruct placement; minv; [eauto|].
    eapply IH in Hrun as (F' & plc'' & HI'' & Hres'); try done.
    + split; [by eapply Frame_trans|]. eauto.
    + intros; apply Hextra; by right.
    + intros r [Hr|Hr%list_elem_of_singleton]%elem_of_app.
      * apply Hstart. by rewrite <- Hp.
      * subst. apply Hextra. by left.
Qed.

End Core.

(** ** The invariant of a partition *)

Section Partition.
Context `{StdLib}.

Lemma clearNodes_lookup V vms i :
  clearNodes V vms !! i =
  (if decide (i ∈ V) then set_vm_nodes [] else id) <$> vms !! i.
Proof.
  unfold clearNodes. revert vms. induction V as [|j V IH]; intros vms.
  - simpl. by destruct (vms !! i).
  - simpl foldl. rewrite IH. destruct (decide (i = j)) as [->|Hij].
    + rewrite lookup_alter_eq.
      destruct (decide (j ∈ j :: V)) as [_|Hj]; [|by destruct Hj; left].
      destruct (vms !! j); simpl; [|done]. by case_decide.
    + rewrite lookup_alter_ne by done.
      destruct (decide (i ∈ V)) as [Hv|Hv], (decide (i ∈ j :: V)) as [Hc|Hc]; try done.
      * destruct Hc. by right.
      * by apply elem_of_cons in Hc as [?|?].
Qed.

Lemma clearNodes_inv V vms i vm' :
  clearNodes V vms !! i = Some vm' →
  ∃ vm, vms !! i = Some vm ∧ vm_pg vm' = vm_pg vm ∧ vm_partition vm' = vm_partition vm
        ∧ vm_index vm' = vm_index vm ∧ vm_type vm' = vm_type vm
        ∧ (vm_nodes vm' = vm_nodes vm ∨ (i ∈ V ∧ vm_nodes vm' = [])).
Proof.
  rewrite clearNodes_lookup. destruct (vms !! i) as [vm|]; simpl; [|done].
  intros [= <-]. exists vm. split; [done|]. case_decide; simpl; auto 10.
Qed.

Lemma antiAffine_clear V vms : antiAffine vms → antiAffine (clearNodes V vms).
Proof.
  intros Ha i j vi vj n m Hi Hj Hpg Hpi Hpj Hne Hn Hm.
  apply clearNodes_inv in Hi as (vi' & Hi & E1 & E2 & _ & _ & [E3|[_ E3]]);
    [|rewrite E3 in Hn; by apply elem_of_nil in Hn].
  apply clearNodes_inv in Hj as (vj' & Hj & F1 & F2 & _ & _ & [F3|[_ F3]]);
    [|rewrite F3 in Hm; by apply elem_of_nil in Hm].
  rewrite E3 in Hn. rewrite F3 in Hm.
  eapply (Ha i j vi' vj'); eauto; congruence.
Qed.

Lemma colocated_clear V vms : colocated vms → colocated (clearNodes V vms).
Proof.
  intros Ha i vi n m Hi Hn Hm.
  apply clearNodes_inv in Hi as (vi' & Hi & _ & _ & _ & _ & [E3|[_ E3]]);
    [|rewrite E3 in Hn; by apply elem_of_nil in Hn].
  rewrite E3 in Hn, Hm. by eapply Ha.
Qed.

Lemma safeRack_clear V vms pg p r : safeRack vms pg p r → safeRack (clearNodes V vms) pg p r.
Proof.
  intros Ha j vj m Hj Hpg Hp Hm.
  apply clearNodes_inv in Hj as (vj' & Hj & F1 & F2 & _ & _ & [F3|[_ F3]]);
    [|rewrite F3 in Hm; by apply elem_of_nil in Hm].
  rewrite F3 in Hm. eapply (Ha j vj'); eauto; congruence.
Qed.

Lemma batchOf_clear V W pg p vms : batchOf V pg p vms → batchOf V pg p (clearNodes W vms).
Proof.
  intros Hb i Hi. destruct (Hb i Hi) as (vm & Hvm & ? & ? & ?).
  rewrite clearNodes_lookup, Hvm. simpl. eexists. split; [done|].
  by case_decide.
Qed.

Lemma snapshot_clear V t pg p vms : batchOf V pg p vms → snapshot V t ∅ (clearNodes V vms).
Proof.
  intros Hb. split; [intros i nodes; by rewrite lookup_empty|].
  intros i Hi. destruct (Hb i Hi) as (vm & Hvm & _).
  rewrite clearNodes_lookup, Hvm, decide_True by done. simpl.
  eexists. split; [done|]. left. by rewrite lookup_empty.
Qed.

(** The invariant of a partition survives the steps of its search. *)
Lemma partitionInv_search V t R pg p : SearchInv V t R (partitionInv V t R pg p).
Proof.
  split.
  - intros plc vms i vm nodes (Haa & Hco & Hsafe & Hb & [Hdom Hsnap]) Hi Hvm Hnil
      (Hne & Hlen & r & q & Hr & Hnodes).
    destruct (Hb i Hi) as (vm0 & Hvm0 & Hpg & Hp & Hidx).
    rewrite Hvm in Hvm0. injection Hvm0 as <-.
    assert (∀ n, n ∈ nodes → node_rack n = r) as Hrack.
    { intros n Hn. rewrite Forall_forall in Hnodes. unfold node_rack.
      by rewrite (Hnodes n Hn). }
    split; [|split; [|split; [|split]]].
    + intros a b va vb n m Ha Hb' Hpgab Hpa Hpb Hneab Hn Hm.
      destruct (decide (a = i)) as [->|Hai], (decide (b = i)) as [->|Hbi].
      * rewrite lookup_insert_eq in Ha, Hb'. congruence.
      * rewrite lookup_insert_eq in Ha. rewrite lookup_insert_ne in Hb' by done.
        injection Ha as <-. simpl in *. rewrite (Hrack n Hn).
        apply not_eq_sym. eapply (Hsafe ltac:(lia) r Hr b vb m); eauto; congruence.
      * rewrite lookup_insert_eq in Hb'. rewrite lookup_insert_ne in Ha by done.
        injection Hb' as <-. simpl in *. rewrite (Hrack m Hm).
        eapply (Hsafe ltac:(lia) r Hr a va n); eauto; congruence.
      * rewrite lookup_insert_ne in Ha, Hb' by done. by eapply (Haa a b va vb).
    + intros a va n m Ha Hn Hm. destruct (decide (a = i)) as [->|Hai].
      * rewrite lookup_insert_eq in Ha. injection Ha as <-. simpl in *.
        rewrite Forall_forall in Hnodes. by rewrite (Hnodes n Hn), (Hnodes m Hm).
      * rewrite lookup_insert_ne in Ha by done. by eapply Hco.
    + intros Hp0 r' Hr' j vj m Hj Hpgj Hpj Hm. destruct (decide (j = i)) as [->|Hji].
      * rewrite lookup_insert_eq in Hj. injection Hj as <-. simpl in *. done.
      * rewrite lookup_insert_ne in Hj by done. by eapply (Hsafe Hp0 r' Hr' j vj).
    + intros j Hj. destruct (decide (j = i)) as [->|Hji].
      * rewrite lookup_insert_eq. eexists. split; [done|]. done.
      * rewrite lookup_insert_ne by done. by apply Hb.
    + rewrite Hidx. split.
      * intros j ns. destruct (decide (j = i)) as [->|Hji]; [done|].
        rewrite lookup_insert_ne by done. apply Hdom.
      * intros j Hj. destruct (decide (j = i)) as [->|Hji].
        -- rewrite !lookup_insert_eq. eexists. split; [done|]. right. done.
        -- rewrite !lookup_insert_ne by done. by apply Hsnap.
  - intros plc vms (Haa & Hco & Hsafe & Hb & Hsnap).
    split; [by apply antiAffine_clear|]. split; [by apply colocated_clear|].
    split; [intros; by apply safeRack_clear, Hsafe|].
    split; [by apply batchOf_clear|]. by eapply snapshot_clear.
Qed.

End Partition.

(** ** Members and the racks of the partitions *)

Section PerPartition.
Context `{StdLib}.

Lemma snapshot_covers V t plc vms :
  NoDup V → snapshot V t plc vms → (length V ≤ size plc)%nat → covers V t plc vms.
Proof.
  intros Hnd [Hdom Hsnap] Hsize.
  assert (dom plc ≡@{gset Z} list_to_set V) as Hdom'.
  { apply set_subseteq_size_equiv.
    - intros i [nodes Hi]%elem_of_dom. apply elem_of_list_to_set. by eapply Hdom.
    - rewrite size_list_to_set by done. rewrite size_dom. done. }
  intros i Hi. destruct (Hsnap i Hi) as (vm & Hvm & [[_ Hnone]|(Hplc & Hne & Hlen)]).
  - assert (i ∈ dom plc) as [x Hx]%elem_of_dom.
    { rewrite Hdom'. by apply elem_of_list_to_set. }
    congruence.
  - by exists vm.
Qed.

Lemma readVMs_spec l st vms st' :
  readVMs l st = Some (vms, st') →
  st' = st ∧ Forall2 (λ i vm, vmsByIndex st !! i = Some vm) l vms.
Proof.
  revert st vms st'. induction l as [|i l IH]; intros st vms st' Hr; simpl in Hr.
  - minv. split; [done|constructor].
  - mbind Hr as vm s Hvm. apply readVM_inv in Hvm as [Hvm ->].
    mbind Hr as vs s Hvs. apply IH in Hvs as [-> Hvs]. minv.
    split; [done|]. by constructor.
Qed.

(** *** What [updateTargets] records in [partitionRacks] *)

Lemma prInsert_new p r m : ∃ rs, (p, rs) ∈ prInsert p r m ∧ r ∈ rs.
Proof.
  induction m as [|[q rs] m IH]; simpl.
  - exists [r]. split; [by left|by left].
  - destruct (decide (q = p)) as [->|Hq].
    + destruct (decide (r ∈ rs)).
      * exists rs. split; [by left|done].
      * exists (rs ++ [r]). split; [by left|]. apply elem_of_app. right. by left.
    + destruct IH as (rs' & ? & ?). exists rs'. split; [by right|done].
Qed.

Lemma prInsert_old p r m q rs x :
  (q, rs) ∈ m → x ∈ rs → ∃ rs', (q, rs') ∈ prInsert p r m ∧ x ∈ rs'.
Proof.
  induction m as [|[q' rs'] m IH]; simpl; intros Hin Hx; [by apply elem_of_nil in Hin|].
  apply elem_of_cons in Hin as [[= <- <-]|Hin].
  - destruct (decide (q = p)) as [->|Hq].
    + destruct (decide (r ∈ rs)).
      * exists rs. split; [by left|done].
      * exists (rs ++ [r]). split; [by left|]. apply elem_of_app. by left.
    + exists rs. split; [by left|done].
  - destruct (decide (q' = p)).
    + exists rs. split; [by right|done].
    + destruct (IH Hin Hx) as (rs'' & ? & ?). exists rs''. split; [by right|done].
Qed.

Lemma updateTargets_step_old pg a vm q rs x :
  (q, rs) ∈ tg_partitionRacks a → x ∈ rs →
  ∃ rs', (q, rs') ∈ tg_partitionRacks (updateTargets_step pg a vm) ∧ x ∈ rs'.
Proof.
  intros Hin Hx. unfold updateTargets_step.
  destruct (vm_nodes vm) as [|n0 ns]; [eauto|].
  repeat case_match; simpl; eauto using prInsert_old.
Qed.

Lemma updateTargets_fold_old pg a vms q rs x :
  (q, rs) ∈ tg_partitionRacks a → x ∈ rs →
  ∃ rs', (q, rs') ∈ tg_partitionRacks (foldl (updateTargets_step pg) a vms) ∧ x ∈ rs'.
Proof.
  revert a rs. induction vms as [|vm vms IH]; intros a rs Hin Hx; simpl; [eauto|].
  destruct (updateTargets_step_old pg a vm q rs x Hin Hx) as (rs' & ? & ?).
  by eapply IH.
Qed.

Lemma updateTargets_fold_new pg a vms vm n0 ns :
  0 < hardRackAntiAffinityPartitions pg →
  vm ∈ vms → vm_nodes vm = n0 :: ns →
  ∃ rs, (vm_partition vm, rs) ∈ tg_partitionRacks (foldl (updateTargets_step pg) a vms)
        ∧ node_rack n0 ∈ rs.
Proof.
  intros Hhp. revert a. induction vms as [|v vms IH]; intros a Hin Hn;
    [by apply elem_of_nil in Hin|].
  simpl. apply elem_of_cons in Hin as [->|Hin]; [|by apply IH].
  assert (∃ rs, (vm_partition v, rs) ∈ tg_partitionRacks (updateTargets_step pg a v)
                ∧ node_rack n0 ∈ rs) as (rs & Hrs & Hr).
  { unfold updateTargets_step. rewrite Hn.
    apply Z.ltb_lt in Hhp. repeat case_match; simpl; try discriminate; apply prInsert_new. }
  by eapply updateTargets_fold_old.
Qed.

Lemma updateTargets_pg_partitionRacks pg vms vm n0 ns :
  0 < hardRackAntiAffinityPartitions pg →
  vm ∈ vms → vm_nodes vm = n0 :: ns →
  ∃ rs, (vm_partition vm, rs) ∈ partitionRacks (updateTargets_pg pg vms)
        ∧ node_rack n0 ∈ rs.
Proof.
  intros Hhp Hin Hn. unfold updateTargets_pg.
  case_match; simpl; by eapply updateTargets_fold_new.
Qed.

Lemma elem_of_concat {A} (x : A) (ls : list (list A)) :
  x ∈ concat ls ↔ ∃ l, x ∈ l ∧ l ∈ ls.
Proof.
  induction ls as [|l ls IH]; simpl.
  - split; [by intros ?%elem_of_nil|]. by intros (l & _ & ?%elem_of_nil).
  - rewrite elem_of_app, IH. split.
    + intros [Hx|(l' & Hx & Hl')]; [exists l; split; [done|by left]|].
      exists l'. split; [done|by right].
    + intros (l' & Hx & [->|Hl']%elem_of_cons); [by left|]. right. eauto.
Qed.

Lemma invalidRacks_in p m q rs r :
  (q, rs) ∈ m → q ≠ p → r ∈ rs → r ∈ invalidRacks p m.
Proof.
  intros Hin Hq Hr. unfold invalidRacks. apply elem_of_concat.
  exists rs. split; [done|]. apply list_elem_of_fmap. exists (q, rs). split; [done|].
  apply list_elem_of_filter. done.
Qed.

(** A rack outside [invalidRacks], as computed after [updateTargets], holds
    no VM of another partition of the group. *)
Lemma safeRack_valid pgi pg p vms vmsread r :
  0 < hardRackAntiAffinityPartitions pg →
  colocated vms → membersOf pgi pg vms →
  Forall2 (λ i vm, vms !! i = Some vm) (pg_vms pg) vmsread →
  r ∉ invalidRacks p (partitionRacks (updateTargets_pg pg vmsread)) →
  safeRack vms pgi p r.
Proof.
  intros Hhp Hco Hmem Hread Hr j vj m Hj Hpg Hp Hm <-.
  destruct (vm_nodes vj) as [|n0 ns] eqn:Hn; [by apply elem_of_nil in Hm|].
  assert (vj ∈ vmsread) as Hin.
  { pose proof (Hmem j vj Hj Hpg) as Hjin.
    apply list_elem_of_lookup in Hjin as [k Hk].
    destruct (Forall2_lookup_l _ _ _ _ _ Hread Hk) as (v & Hv & Hjv).
    rewrite Hj in Hjv. injection Hjv as <-. by eapply list_elem_of_lookup_2. }
  destruct (updateTargets_pg_partitionRacks pg vmsread vj n0 ns Hhp Hin Hn) as (rs & Hrs & Hr0).
  apply Hr. eapply invalidRacks_in; eauto.
  replace (node_rack m) with (node_rack n0); [done|].
  unfold node_rack. f_equal. eapply Hco; eauto; rewrite Hn; [by left|done].
Qed.

End PerPartition.

(** ** One partition of an attempt *)

Section PlacePartition.
Context `{StdLib}.

Lemma updateTargets_inv pgi st u st' :
  updateTargets pgi st = Some (u, st') →
  ∃ pg vms, pgsByIndex st !! pgi = Some pg
    ∧ Forall2 (λ i vm, vmsByIndex st !! i = Some vm) (pg_vms pg) vms
    ∧ st' = set_pgs (<[pgi := updateTargets_pg pg vms]> (pgsByIndex st)) st.
Proof.
  unfold updateTargets. intros Hu.
  mbind Hu as pg s Hpg. apply readPG_inv in Hpg as [Hpg ->].
  mbind Hu as vms s Hvms. apply readVMs_spec in Hvms as [-> Hvms].
  apply modifyM_inv in Hu. eauto.
Qed.

Lemma chooseRacks_spec B t pgi p racks st choice st' :
  chooseRacks pgi p racks st = Some (choice, st') →
  Frame B [] t st st'
  ∧ ∃ pg, pgsByIndex st !! pgi = Some pg
    ∧ ∀ start extra, choice = Some (start, extra) → 0 < p →
        ∀ r, r ∈ start ++ extra → r ∉ invalidRacks p (partitionRacks pg).
Proof.
  unfold chooseRacks. intros Hc.
  mbind Hc as ds s Hds. apply getsM_inv in Hds as [-> ->].
  mbind Hc as pg s Hpg. apply readPG_inv in Hpg as [Hpg ->].
  destruct (0 <? p) eqn:Hp.
  - destruct (prAt p (partitionRacks pg)) as [own m'].
    mbind Hc as [] s Hmod. apply modifyM_inv in Hmod as ->.
    assert (Frame B [] t st (set_pgs (<[pgi:=set_partitionRacks m' pg]> (pgsByIndex st)) st))
      as F.
    { apply Frame_pgs. intros k. destruct (decide (pgi = k)) as [->|Hk].
      - by rewrite lookup_insert_eq, Hpg.
      - by rewrite lookup_insert_ne. }
    set (invalid := invalidRacks p (partitionRacks pg)) in *.
    set (startRacks := filter (λ r, r ∉ invalid) (hash_order own)) in *.
    set (extraRacks := filter (λ r, (r ∉ invalid) ∧ (r ∉ startRacks)) racks) in *.
    assert (∀ r, r ∈ startRacks → r ∉ invalid) as Hstart.
    { intros r Hr. by apply list_elem_of_filter in Hr as [? _]. }
    assert (∀ r, r ∈ extraRacks → r ∉ invalid) as Hextra.
    { intros r Hr. by apply list_elem_of_filter in Hr as [[? _] _]. }
    destruct startRacks as [|s0 srest] eqn:Es, extraRacks as [|e erest] eqn:Ee; minv;
      (split; [done|]); exists pg; (split; [done|]);
      intros start extra Hch _ r Hr; try discriminate; injection Hch as <- <-.
    + apply Hextra. done.
    + apply elem_of_app in Hr as [Hr|Hr]; [by apply Hstart|by apply elem_of_nil in Hr].
    + apply elem_of_app in Hr as [Hr|Hr]; [by apply Hstart|by apply Hextra].
  - assert (st' = st) as ->.
    { destruct (_ && _) in Hc; [|by minv].
      destruct (targetRack pg); [destruct (bool_decide _)|];
        try destruct (sortByLoad _ _); by minv. }
    split; [apply Frame_refl|]. exists pg. split; [done|].
    intros start extra _ Hp'. apply Z.ltb_ge in Hp. lia.
Qed.

Lemma Frame_pg B S t st st' pgi pg :
  Frame B S t st st' → pgsByIndex st !! pgi = Some pg →
  ∃ pg', pgsByIndex st' !! pgi = Some pg' ∧ pg_static pg' = pg_static pg.
Proof.
  intros F Hpg. pose proof (fr_pgs _ _ _ _ _ F pgi) as E. rewrite Hpg in E.
  destruct (pgsByIndex st' !! pgi) as [pg'|]; [|done]. simpl in E.
  exists pg'. split; [done|]. congruence.
Qed.

Lemma pg_static_vms pg pg' : pg_static pg' = pg_static pg → pg_vms pg' = pg_vms pg.
Proof. unfold pg_static. by intros [= _ _ _ _ _ ?]. Qed.
Lemma pg_static_hp pg pg' :
  pg_static pg' = pg_static pg →
  hardRackAntiAffinityPartitions pg' = hardRackAntiAffinityPartitions pg.
Proof. unfold pg_static. by intros [= _ ? _ _ _ _]. Qed.

Lemma membersOf_clear pgi pg pg' V vms :
  pg_vms pg' = pg_vms pg → membersOf pgi pg vms → membersOf pgi pg' (clearNodes V vms).
Proof.
  intros E Hm j vj Hj Hpg. apply clearNodes_inv in Hj as (vj' & Hj & Hpg' & _).
  rewrite E. eapply Hm; eauto. congruence.
Qed.

(** One partition of an attempt: the registry keeps its shape, and on
    success the VMs of the partition are placed as recorded. *)
Lemma placePartition_spec B S t pgi racks p V cp st res st' pg :
  NoDup B → NoDup V → (∀ i, i ∈ V → i ∈ S ∧ i ∈ B) →
  antiAffine (vmsByIndex st) → colocated (vmsByIndex st) →
  batchOf V pgi p (vmsByIndex st) →
  pgsByIndex st !! pgi = Some pg → membersOf pgi pg (vmsByIndex st) →
  (0 < p → 0 < hardRackAntiAffinityPartitions pg) →
  placePartition pgi t racks p V cp st = Some (res, st') →
  Frame B S t st st' ∧ antiAffine (vmsByIndex st') ∧ colocated (vmsByIndex st')
  ∧ ∀ cp', res = Some cp' →
      ∃ plc, placements cp' = placements cp ∪ plc
        ∧ (∀ i nodes, plc !! i = Some nodes → i ∈ V)
        ∧ covers V t plc (vmsByIndex st').
Proof.
  intros HndB HndV HV Haa Hco Hb Hpg Hmem Hhp Hrun. unfold placePartition in Hrun.
  mbind Hrun as [] sa Hun.
  apply (unplaceVMs_spec B S t) in Hun as [F0 Hv0]; [|done..].
  mbind Hrun as [] sb Hup.
  pose proof (updateTargets_frame B t _ _ _ _ Hup) as F1.
  pose proof (Frame_nil_vms _ _ _ _ F1) as Hv1.
  apply updateTargets_inv in Hup as (pg0 & vmsread & Hpg0 & Hread & Hsb).
  destruct (Frame_pg _ _ _ _ _ _ _ F0 Hpg) as (pg0' & Hpg0' & Hst0).
  rewrite Hpg0 in Hpg0'. injection Hpg0' as <-.
  mbind Hrun as choice sc Hch.
  apply (chooseRacks_spec B t) in Hch as (F2 & pgb & Hpgb & Hvalid).
  pose proof (Frame_nil_vms _ _ _ _ F2) as Hv2.
  assert (pgb = updateTargets_pg pg0 vmsread) as ->.
  { rewrite Hsb in Hpgb. simpl in Hpgb. rewrite lookup_insert_eq in Hpgb. congruence. }
  assert (Frame B S t st sc) as F02.
  { eapply Frame_trans; [exact F0|].
    eapply (Frame_mono _ []); [by intros ? ?%elem_of_nil|]. by eapply Frame_trans. }
  assert (vmsByIndex sc = clearNodes V (vmsByIndex st)) as Hvc by congruence.
  destruct choice as [[startRacks extraRacks]|].
  2:{ minv. split; [done|]. rewrite Hvc.
      split; [by apply antiAffine_clear|]. split; [by apply colocated_clear|]. done. }
  set (R := startRacks ++ extraRacks).
  pose proof (partitionInv_search V t R pgi p) as HI.
  assert (partitionInv V t R pgi p ∅ (vmsByIndex sc)) as HIc.
  { rewrite Hvc. split; [by apply antiAffine_clear|]. split; [by apply colocated_clear|].
    split; [|split; [by apply batchOf_clear|by eapply snapshot_clear]].
    intros Hp r Hr.
    eapply (safeRack_valid pgi pg0 p _ vmsread).
    - rewrite (pg_static_hp _ _ Hst0). auto.
    - by apply colocated_clear.
    - eapply membersOf_clear; [|done]. by apply pg_static_vms.
    - by rewrite <- Hv0.
    - by eapply Hvalid. }
  assert (∀ r, r ∈ startRacks → r ∈ R) as HRs by (intros; apply elem_of_app; by left).
  assert (∀ r, r ∈ extraRacks → r ∈ R) as HRe by (intros; apply elem_of_app; by right).
  assert (∀ plc s, partitionInv V t R pgi p plc (vmsByIndex s) →
            antiAffine (vmsByIndex s) ∧ colocated (vmsByIndex s)) as Hout.
  { intros plc s (? & ? & _). done. }
  assert (∀ plc s q, partitionInv V t R pgi p plc (vmsByIndex s) →
            placements q = plc ∧ (length V ≤ size plc)%nat →
            ∃ plc, placements (addPlacement cp q) = placements cp ∪ plc
              ∧ (∀ i nodes, plc !! i = Some nodes → i ∈ V)
              ∧ covers V t plc (vmsByIndex s)) as Hsucc.
  { intros plc s q (_ & _ & _ & _ & Hsnap) [Hq Hsize]. exists plc. simpl. rewrite Hq.
    split; [done|]. split; [apply Hsnap|]. by apply snapshot_covers. }
  mbind Hrun as r1 sd Hex1.
  eapply (expandRacks_spec B S t R _ pgi V) in Hex1 as (F3 & plc1 & HI1 & Hres1); try done.
  destruct r1 as [p1|].
  { minv. split; [by eapply Frame_trans|]. destruct (Hout _ _ HI1). split; [done|].
    split; [done|]. intros cp' [= <-]. eapply Hsucc; eauto. }
  mbind Hrun as r2 se Hex2.
  eapply (expandRacks_spec B S t R _ pgi V) in Hex2 as (F4 & plc2 & HI2 & Hres2); try done.
  assert (Frame B S t st se) as F04.
  { eapply Frame_trans; [exact F02|]. by eapply Frame_trans. }
  destruct (Hout _ _ HI2).
  destruct r2 as [p2|]; minv; (split; [done|]); (split; [done|]); (split; [done|]).
  - intros cp' [= <-]. eapply Hsucc; eauto.
  - done.
Qed.

End PlacePartition.

(** ** An attempt on a rack group *)

Section Attempt.
Context `{StdLib}.

Lemma Frame_vm B S t st st' i vm' :
  Frame B S t st st' → vmsByIndex st' !! i = Some vm' →
  ∃ vm, vmsByIndex st !! i = Some vm ∧ set_vm_nodes [] vm = set_vm_nodes [] vm'.
Proof.
  intros F Hvm. pose proof (fr_vms_static _ _ _ _ _ F i) as E. rewrite Hvm in E.
  destruct (vmsByIndex st !! i) as [vm|]; [|done]. simpl in E.
  exists vm. split; [done|]. congruence.
Qed.

Lemma Frame_vm_fwd B S t st st' i vm :
  Frame B S t st st' → vmsByIndex st !! i = Some vm →
  ∃ vm', vmsByIndex st' !! i = Some vm' ∧ set_vm_nodes [] vm' = set_vm_nodes [] vm.
Proof.
  intros F Hvm. pose proof (fr_vms_static _ _ _ _ _ F i) as E. rewrite Hvm in E.
  destruct (vmsByIndex st' !! i) as [vm'|]; [|done]. simpl in E.
  exists vm'. split; [done|]. congruence.
Qed.

Lemma static_fields vm vm' :
  set_vm_nodes [] vm = set_vm_nodes [] vm' →
  vm_index vm = vm_index vm' ∧ vm_type vm = vm_type vm' ∧ vm_pg vm = vm_pg vm'
  ∧ vm_partition vm = vm_partition vm'.
Proof. unfold set_vm_nodes. by intros [= ? ? ? ?]. Qed.

Lemma batchOf_frame B S t st st' V pgi p :
  Frame B S t st st' → batchOf V pgi p (vmsByIndex st) → batchOf V pgi p (vmsByIndex st').
Proof.
  intros F Hb i Hi. destruct (Hb i Hi) as (vm & Hvm & ? & ? & ?).
  destruct (Frame_vm_fwd _ _ _ _ _ _ _ F Hvm) as (vm' & Hvm' & (? & ? & ? & ?)%static_fields).
  exists vm'. split; [done|]. repeat split; congruence.
Qed.

Lemma batchReady_frame B' S t st st' B pgi :
  Frame B' S t st st' → batchReady B pgi st → batchReady B pgi st'.
Proof.
  intros F (pg & Hpg & Hmem & Hb).
  destruct (Frame_pg _ _ _ _ _ _ _ F Hpg) as (pg' & Hpg' & Hst).
  exists pg'. split; [done|]. split.
  - intros j vj Hj Hpgj.
    destruct (Frame_vm _ _ _ _ _ _ _ F Hj) as (vj0 & Hj0 & (? & ? & ? & ?)%static_fields).
    rewrite (pg_static_vms _ _ Hst). eapply Hmem; eauto. congruence.
  - intros i Hi. destruct (Hb i Hi) as (vm & Hvm & ? & ? & Hhp).
    destruct (Frame_vm_fwd _ _ _ _ _ _ _ F Hvm) as (vm' & Hvm' & (? & ? & ? & Hp)%static_fields).
    exists vm'. split; [done|]. rewrite (pg_static_hp _ _ Hst).
    repeat split; try congruence. intros. apply Hhp. congruence.
Qed.

Lemma hpPositive_frame B S t st st' pgi :
  Frame B S t st st' → hpPositive pgi st → hpPositive pgi st'.
Proof.
  intros F (pg & Hpg & Hhp).
  destruct (Frame_pg _ _ _ _ _ _ _ F Hpg) as (pg' & Hpg' & Hst).
  exists pg'. split; [done|]. by rewrite (pg_static_hp _ _ Hst).
Qed.

Lemma covers_out V t plc vms vms' :
  (∀ i, i ∈ V → vms' !! i = vms !! i) → covers V t plc vms → covers V t plc vms'.
Proof. intros E Hc i Hi. rewrite E by done. by apply Hc. Qed.

Lemma placePartitions_spec B t pgi racks parts cp st res st' Dn :
  NoDup B → NoDup (Dn ++ concat parts.*2) → (∀ i, i ∈ concat parts.*2 → i ∈ B) →
  (∀ p V, (p, V) ∈ parts → batchOf V pgi p (vmsByIndex st)) →
  (∀ p V, (p, V) ∈ parts → 0 < p → hpPositive pgi st) →
  batchReady (concat parts.*2) pgi st →
  antiAffine (vmsByIndex st) → colocated (vmsByIndex st) →
  covers Dn t (placements cp) (vmsByIndex st) →
  (∀ i nodes, placements cp !! i = Some nodes → i ∈ Dn) →
  placePartitions pgi t racks parts cp st = Some (res, st') →
  Frame B (concat parts.*2) t st st'
  ∧ antiAffine (vmsByIndex st') ∧ colocated (vmsByIndex st')
  ∧ ∀ cp', res = Some cp' → covers (Dn ++ concat parts.*2) t (placements cp') (vmsByIndex st').
Proof.
  intros HndB. revert cp st Dn.
  induction parts as [|[p V] parts IH];
    intros cp st Dn Hnd HB Hparts Hhps Hready Haa Hco Hcov Hdom Hrun; simpl in Hrun.
  { minv. split; [apply Frame_refl|]. split; [done|]. split; [done|].
    intros cp' [= <-]. simpl. by rewrite app_nil_r. }
  simpl in *.
  mbind Hrun as r sa Hpart.
  destruct Hready as (pg & Hpg & Hmem & Hbatch).
  assert (NoDup V ∧ NoDup (Dn ++ V) ∧ NoDup ((Dn ++ V) ++ concat parts.*2)
          ∧ (∀ i, i ∈ V → i ∉ Dn) ∧ (∀ i, i ∈ V → i ∉ concat parts.*2)) as (HndV & HndDV & Hnd' & HVD & HVrest).
  { rewrite app_assoc in Hnd. split; [|split; [|split; [done|]]].
    - apply NoDup_app in Hnd as [Hnd _]. by apply NoDup_app in Hnd as (_ & _ & ?).
    - by apply NoDup_app in Hnd as [Hnd _].
    - split.
      + intros i Hi HD. apply NoDup_app in Hnd as [Hnd _].
        apply NoDup_app in Hnd as (_ & Hnd & _). by eapply Hnd.
      + intros i Hi Hr. apply NoDup_app in Hnd as (_ & Hnd & _).
        eapply Hnd; [|done]. apply elem_of_app. by right. }
  assert (batchOf V pgi p (vmsByIndex st)) as HbV by (apply Hparts; by left).
  eapply (placePartition_spec B V t pgi racks p V cp st r sa pg) in Hpart
    as (F0 & Haa0 & Hco0 & Hres0); try done.
  2:{ intros i Hi. split; [done|]. apply HB. apply elem_of_app. by left. }
  2:{ intros Hp. destruct (Hhps p V) as (pg' & Hpg' & Hhp); [by left|done|]. congruence. }
  destruct r as [cp0|].
  2:{ minv. split; [|done].
      eapply Frame_mono; [|exact F0]. intros i Hi. apply elem_of_app. by left. }
  destruct (Hres0 cp0 eq_refl) as (plc & Hcp0 & Hplc & Hcov0).
  eapply (IH cp0 sa (Dn ++ V)) in Hrun as (F1 & Haa1 & Hco1 & Hres1); try done.
  - split.
    { eapply Frame_trans.
      - eapply Frame_mono; [|exact F0]. intros i Hi. apply elem_of_app. by left.
      - eapply Frame_mono; [|exact F1]. intros i Hi. apply elem_of_app. by right. }
    split; [done|]. split; [done|].
    intros cp' Hcp'. rewrite app_assoc. by apply Hres1.
  - intros i Hi. apply HB. apply elem_of_app. by right.
  - intros q W HW. eapply batchOf_frame; [exact F0|]. apply Hparts. by right.
  - intros q W HW Hq. eapply hpPositive_frame; [exact F0|]. eapply Hhps; [by right|done].
  - eapply batchReady_frame; [exact F0|]. exists pg. split; [done|]. split; [done|].
    intros i Hi. apply Hbatch. apply elem_of_app. by right.
  - intros i [Hi|Hi]%elem_of_app.
    + destruct (Hcov i Hi) as (vm & Hvm & Hplci & Hne & Hlen).
      exists vm. rewrite (fr_vms_out _ _ _ _ _ F0) by (intros ?; by eapply HVD).
      split; [done|]. rewrite Hcp0. split; [|done].
      by apply lookup_union_Some_l.
    + destruct (Hcov0 i Hi) as (vm & Hvm & Hplci & Hne & Hlen).
      exists vm. split; [done|]. rewrite Hcp0. split; [|done].
      rewrite lookup_union_r; [done|].
      destruct (placements cp !! i) as [x|] eqn:E; [|done].
      apply Hdom in E. by apply HVD in Hi.
  - intros i nodes. rewrite Hcp0. intros [Hi|[_ Hi]]%lookup_union_Some_raw.
    + apply elem_of_app. left. by eapply Hdom.
    + apply elem_of_app. right. by eapply Hplc.
Qed.

(** *** The grouping of the batch by partition *)

Lemma vbpInsert_perm p i m : concat (vbpInsert p i m).*2 ≡ₚ i :: concat m.*2.
Proof.
  induction m as [|[q l] m IH]; simpl; [done|].
  destruct (decide (q = p)); simpl.
  - rewrite <- app_assoc. simpl. symmetry. apply Permutation_middle.
  - rewrite IH. symmetry. apply Permutation_middle.
Qed.

Lemma vbpInsert_in p i m q V :
  (q, V) ∈ vbpInsert p i m →
  (q, V) ∈ m ∨ (q = p ∧ ∃ V0, V = V0 ++ [i] ∧ ((p, V0) ∈ m ∨ V0 = [])).
Proof.
  induction m as [|[q' l] m IH]; simpl.
  - intros [= -> ->]%list_elem_of_singleton. right. split; [done|]. exists []. auto.
  - destruct (decide (q' = p)) as [->|Hq].
    + intros [[= -> ->]|Hin]%elem_of_cons.
      * right. split; [done|]. exists l. split; [done|]. left. by left.
      * left. by right.
    + intros [[= -> ->]|Hin]%elem_of_cons.
      * left. by left.
      * destruct (IH Hin) as [?|(-> & V0 & -> & [? | ->])].
        -- left. by right.
        -- right. split; [done|]. exists V0. split; [done|]. left. by right.
        -- right. split; [done|]. exists []. auto.
Qed.

Lemma vbp_fold (vms : gmap Z VM) (l : list (Z * VM)) (m : list (Z * list Z)) :
  (∀ i vm, (i, vm) ∈ l → vms !! i = Some vm) →
  (∀ q V, (q, V) ∈ m → V ≠ [] ∧ ∀ j, j ∈ V → vm_partition <$> vms !! j = Some q) →
  let m' := foldl (λ m vm, vbpInsert (vm_partition vm.2) vm.1 m) m l in
  concat m'.*2 ≡ₚ concat m.*2 ++ l.*1
  ∧ ∀ q V, (q, V) ∈ m' → V ≠ [] ∧ ∀ j, j ∈ V → vm_partition <$> vms !! j = Some q.
Proof.
  revert m. induction l as [|[i vm] l IH]; intros m Hl Hm; simpl.
  { split; [by rewrite app_nil_r|done]. }
  destruct (IH (vbpInsert (vm_partition vm) i m)) as [Hperm HP].
  - intros j v Hj. apply Hl. by right.
  - intros q V [Hin|(-> & V0 & -> & HV0)]%vbpInsert_in; [by apply Hm|].
    split; [by destruct V0|].
    intros j [Hj | ->%list_elem_of_singleton]%elem_of_app.
    + destruct HV0 as [HV0 | ->]; [by eapply Hm|by apply elem_of_nil in Hj].
    + rewrite (Hl i vm) by (by left). done.
  - split; [|done]. rewrite Hperm, vbpInsert_perm. simpl.
    by rewrite Permutation_middle.
Qed.

Lemma Forall2_zip_in {A C} (P : A → C → Prop) l k x y :
  Forall2 P l k → (x, y) ∈ zip l k → P x y.
Proof.
  induction 1 as [|a b l k Hab Hlk IH]; simpl; [by intros ?%elem_of_nil|].
  intros [[= -> ->]|Hin]%elem_of_cons; auto.
Qed.

(** One attempt on a rack group: on success every VM of the batch is placed
    as the returned plan says. *)
Lemma getBestPlacement_spec B t pgi racks st res st' :
  NoDup B →
  batchReady B pgi st →
  antiAffine (vmsByIndex st) → colocated (vmsByIndex st) →
  getBestPlacement pgi B t racks st = Some (res, st') →
  Frame B B t st st' ∧ antiAffine (vmsByIndex st') ∧ colocated (vmsByIndex st')
  ∧ ∀ p, res = Some p → covers B t (placements p) (vmsByIndex st').
Proof.
  intros Hnd Hready Haa Hco Hrun. unfold getBestPlacement in Hrun.
  mbind Hrun as vms s Hvms. apply readVMs_spec in Hvms as [-> Hvms].
  set (parts := hash_order _) in Hrun.
  mbind Hrun as r sa Hparts.
  assert (fst <$> zip B vms = B) as Hfst.
  { apply fst_zip. apply Forall2_length in Hvms. lia. }
  destruct (vbp_fold (vmsByIndex st) (zip B vms) []) as [Hperm0 HP0].
  { intros i vm Hin. by eapply (Forall2_zip_in _ _ _ _ _ Hvms). }
  { by intros q V ?%elem_of_nil. }
  simpl in Hperm0. rewrite Hfst in Hperm0.
  assert (concat parts.*2 ≡ₚ B) as Hperm.
  { unfold parts. by rewrite hash_order_perm. }
  assert (∀ q V, (q, V) ∈ parts →
            V ≠ [] ∧ ∀ j, j ∈ V → vm_partition <$> vmsByIndex st !! j = Some q) as HP.
  { intros q V Hin. apply HP0. unfold parts in Hin. by rewrite hash_order_perm in Hin. }
  assert (∀ q V j, (q, V) ∈ parts → j ∈ V → j ∈ B) as HinB.
  { intros q V j Hin Hj. rewrite <- Hperm. apply elem_of_concat. exists V. split; [done|].
    apply list_elem_of_fmap. by exists (q, V). }
  destruct Hready as (pg & Hpg & Hmem & Hbatch).
  eapply (placePartitions_spec B t pgi racks parts _ st r sa []) in Hparts
    as (F & Haa' & Hco' & Hres); try done.
  - assert (Frame B B t st sa) as F'.
    { eapply Frame_mono; [|exact F]. intros i Hi. by rewrite <- Hperm. }
    destruct r as [cp|]; minv.
    + split; [done|]. split; [done|]. split; [done|].
      intros p [= <-]. simpl. intros i Hi. apply (Hres cp eq_refl i).
      simpl. by rewrite Hperm.
    + done.
  - simpl. by rewrite Hperm.
  - intros i Hi. by rewrite <- Hperm.
  - intros q V Hin j Hj. destruct (HP q V Hin) as [_ Hq].
    destruct (Hbatch j) as (vm & Hvm & ? & ? & ?); [by eapply HinB|].
    specialize (Hq j Hj). rewrite Hvm in Hq. injection Hq as Hq.
    by exists vm.
  - intros q V Hin Hq. destruct (HP q V Hin) as [Hne Hpart].
    destruct V as [|j V]; [done|].
    destruct (Hbatch j) as (vm & Hvm & _ & _ & Hhp); [eapply HinB; [done|by left]|].
    specialize (Hpart j ltac:(by left)). rewrite Hvm in Hpart. injection Hpart as Hpart.
    exists pg. split; [done|]. apply Hhp. by rewrite Hpart.
  - exists pg. split; [done|]. split; [done|]. intros i Hi. apply Hbatch. by rewrite <- Hperm.
  - by intros i ?%elem_of_nil.
Qed.

End Attempt.

(** ** The search over the rack groups *)

Section SearchAll.
Context `{StdLib}.

Lemma getRackGroups_frame B t pgi st groups st' :
  getRackGroups pgi st = Some (groups, st') → Frame B [] t st st'.
Proof.
  unfold getRackGroups. intros Hg.
  mbind Hg as [] sa Hup. apply (updateTargets_frame B t) in Hup.
  mbind Hg as pg s Hpg. apply readPG_inv in Hpg as [Hpg ->].
  mbind Hg as ds s Hds. apply getsM_inv in Hds as [-> ->].
  assert (st' = sa) as ->; [|done].
  repeat case_match; by minv.
Qed.

Lemma fittingRacks_frame B t racks st l st' :
  fittingRacks t racks st = Some (l, st') → Frame B [] t st st'.
Proof.
  revert st l st'. induction racks as [|r racks IH]; intros st l st' Hf; simpl in Hf.
  - minv. apply Frame_refl.
  - mbind Hf as v sa Hv. apply (rackGetTypeFit_frame B) in Hv.
    mbind Hf as l' sb Hl. apply IH in Hl. minv. by eapply Frame_trans.
Qed.

Lemma fittingDomains_frame B t n doms st l st' :
  fittingDomains t n doms st = Some (l, st') → Frame B [] t st st'.
Proof.
  revert st l st'. induction doms as [|d doms IH]; intros st l st' Hf; simpl in Hf.
  - minv. apply Frame_refl.
  - mbind Hf as ds s Hds. apply getsM_inv in Hds as [-> ->].
    mbind Hf as fits sa Hv. apply (racksGetTypeFit_frame B) in Hv.
    mbind Hf as l' sb Hl. apply IH in Hl. minv. by eapply Frame_trans.
Qed.

Lemma getRackGroups2_frame B vmsToPlace st groups st' vm0 vm :
  head vmsToPlace = Some vm0 → vmsByIndex st !! vm0 = Some vm →
  getRackGroups2 vmsToPlace st = Some (groups, st') → Frame B [] (vm_type vm) st st'.
Proof.
  unfold getRackGroups2. intros Hhd Hvm Hg.
  mbind Hg as v0 s Hv0. apply orCrash_inv in Hv0 as [Hv0 ->].
  rewrite Hhd in Hv0. injection Hv0 as <-.
  mbind Hg as vm' s Hvm'. apply readVM_inv in Hvm' as [Hvm' ->].
  rewrite Hvm in Hvm'. injection Hvm' as <-.
  mbind Hg as [] sa Hup. apply (updateTargets_frame B (vm_type vm)) in Hup.
  mbind Hg as groups0 sb Hgr. apply (getRackGroups_frame B (vm_type vm)) in Hgr.
  mbind Hg as pg s Hpg. apply readPG_inv in Hpg as [Hpg ->].
  mbind Hg as ds s Hds. apply getsM_inv in Hds as [-> ->].
  assert (Frame B [] (vm_type vm) sb st') as F.
  2:{ eapply Frame_trans; [exact Hup|]. eapply Frame_trans; [exact Hgr|]. exact F. }
  repeat case_match; simplify_eq; minv; try apply Frame_refl;
    repeat match goal with
    | Hx : fittingRacks _ _ _ = Some _ |- _ => apply (fittingRacks_frame B) in Hx
    | Hx : fittingDomains _ _ _ _ = Some _ |- _ => apply (fittingDomains_frame B) in Hx
    end; try done.
Qed.

Lemma planOK_of_state B t vms0 st p :
  antiAffine (vmsByIndex st) → colocated (vmsByIndex st) →
  (∀ i, i ∉ B → vmsByIndex st !! i = vms0 !! i) →
  (∀ i, set_vm_nodes [] <$> vmsByIndex st !! i = set_vm_nodes [] <$> vms0 !! i) →
  covers B t (placements p) (vmsByIndex st) →
  planOK B t vms0 p.
Proof. intros. by exists (vmsByIndex st). Qed.

(** The loop over the rack groups keeps a plan that one of the attempts
    reached. *)
Lemma tryGroups_spec B t pgi groups best st res st' vms0 :
  NoDup B → batchReady B pgi st →
  antiAffine (vmsByIndex st) → colocated (vmsByIndex st) →
  (∀ i, i ∉ B → vmsByIndex st !! i = vms0 !! i) →
  (∀ i, set_vm_nodes [] <$> vmsByIndex st !! i = set_vm_nodes [] <$> vms0 !! i) →
  (∀ b, best = Some b → planOK B t vms0 b) →
  tryGroups pgi B t groups best st = Some (res, st') →
  Frame B B t st st' ∧ antiAffine (vmsByIndex st') ∧ colocated (vmsByIndex st')
  ∧ ∀ b, res = Some b → planOK B t vms0 b.
Proof.
  intros Hnd. revert best st.
  induction groups as [|racks groups IH]; intros best st Hready Haa Hco Hout Hstat Hbest Hrun;
    simpl in Hrun.
  { minv. split; [apply Frame_refl|]. done. }
  mbind Hrun as placement sa Hget.
  apply (getBestPlacement_spec B t) in Hget as (F & Haa' & Hco' & Hcov); try done.
  assert (∀ i, i ∉ B → vmsByIndex sa !! i = vms0 !! i) as Hout'.
  { intros i Hi. rewrite (fr_vms_out _ _ _ _ _ F) by done. by apply Hout. }
  assert (∀ i, set_vm_nodes [] <$> vmsByIndex sa !! i = set_vm_nodes [] <$> vms0 !! i)
    as Hstat'.
  { intros i. rewrite (fr_vms_static _ _ _ _ _ F). apply Hstat. }
  apply IH in Hrun as (F' & Haa'' & Hco'' & Hres); try done.
  - split; [by eapply Frame_trans|]. done.
  - by eapply batchReady_frame.
  - intros b Hb. destruct placement as [p|]; [|by apply Hbest].
    assert (planOK B t vms0 p) as Hp.
    { eapply planOK_of_state; eauto. }
    destruct best as [b0|]; [|by injection Hb as <-].
    destruct (dlt (penalty p) (penalty b0)); injection Hb as <-; [done|by apply Hbest].
Qed.

Lemma clearNodes_unplaced V vms i vm :
  i ∈ V → clearNodes V vms !! i = Some vm → vm_nodes vm = [].
Proof.
  intros Hi. rewrite clearNodes_lookup, decide_True by done.
  destruct (vms !! i); simpl; [|done]. by intros [= <-].
Qed.

(** The search of [createVMs]: every VM of the batch is unplaced again when
    it returns. *)
Lemma searchPlacement_spec B pgi st res st' vm0 vm :
  NoDup B → head B = Some vm0 → vmsByIndex st !! vm0 = Some vm →
  batchReady B pgi st →
  antiAffine (vmsByIndex st) → colocated (vmsByIndex st) →
  searchPlacement pgi B (vm_type vm) st = Some (res, st') →
  Frame B B (vm_type vm) st st'
  ∧ (∀ i vm', i ∈ B → vmsByIndex st' !! i = Some vm' → vm_nodes vm' = [])
  ∧ antiAffine (vmsByIndex st') ∧ colocated (vmsByIndex st')
  ∧ ∀ b, res = Some b → planOK B (vm_type vm) (vmsByIndex st) b.
Proof.
  intros Hnd Hhd Hvm Hready Haa Hco Hrun. unfold searchPlacement in Hrun.
  mbind Hrun as groups sa Hgr.
  eapply (getRackGroups2_frame B) in Hgr; [|done..].
  pose proof (Frame_nil_vms _ _ _ _ Hgr) as Hv.
  mbind Hrun as best sb Htry.
  apply (tryGroups_spec B _ _ _ _ _ _ _ (vmsByIndex st)) in Htry
    as (F & Haa' & Hco' & Hres); try done; try (by rewrite Hv).
  2:{ by eapply batchReady_frame. }
  mbind Hrun as [] sc Hun.
  apply (unplaceVMs_spec B B (vm_type vm)) in Hun as [F' Hv']; [|done..].
  minv. split.
  { eapply Frame_trans; [|exact F'].
    eapply Frame_trans; [|exact F]. eapply Frame_mono; [|exact Hgr]. by intros ? ?%elem_of_nil. }
  split; [|split; [|split; [|done]]].
  - intros i vm' Hi. rewrite Hv'. by apply clearNodes_unplaced.
  - rewrite Hv'. by apply antiAffine_clear.
  - rewrite Hv'. by apply colocated_clear.
Qed.

End SearchAll.

(** ** Registration and commit *)

Section Requests.
Context `{StdLib}.

Lemma Balance_refl B st : Balance B st st.
Proof. intros l. by rewrite padd_pneg, shift_0. Qed.

Lemma Balance_trans B st1 st2 st3 : Balance B st1 st2 → Balance B st2 st3 → Balance B st1 st3.
Proof.
  intros a6 b6 l. rewrite b6, a6, shift_shift. f_equal.
  destruct (debt (vmsByIndex st1) B l), (debt (vmsByIndex st2) B l),
    (debt (vmsByIndex st3) B l). unfold padd, pneg. simpl. f_equal; lia.
Qed.

Lemma Frame_Balance B S t st st' : Frame B S t st st' → Balance B st st'.
Proof. intros F l. apply (fr_balance _ _ _ _ _ F). Qed.

Lemma debt_zero vms B l :
  (∀ i vm, i ∈ B → vms !! i = Some vm → vm_nodes vm = []) → debt vms B l = (0, 0).
Proof.
  induction B as [|i B IH]; intros Hun; simpl; [done|].
  rewrite IH by (intros; eapply Hun; [by right|done]).
  destruct (vms !! i) as [vm|] eqn:E; simpl; [|done].
  unfold held. rewrite (Hun i vm) by (by left || done). by rewrite heldBy_nil.
Qed.

Lemma Balance_same B st st' :
  (∀ i vm, i ∈ B → vmsByIndex st !! i = Some vm → vm_nodes vm = []) →
  (∀ i vm, i ∈ B → vmsByIndex st' !! i = Some vm → vm_nodes vm = []) →
  Balance B st st' → sameAvailability (domains st) (domains st').
Proof.
  intros Hun Hun' Hb l. rewrite (Hb l), !debt_zero by done. simpl. by rewrite shift_0.
Qed.

(** *** Registration of the batch *)

Lemma push_vm_static i pg :
  pg_static (push_vm i pg) =
  (pg_index pg, hardRackAntiAffinityPartitions pg, softPMAntiAffinity pg,
   domainAffinity pg, rackAffinity pg, pg_vms pg ++ [i]).
Proof. done. Qed.

Lemma registerVMs_spec t pgi part i0 idxs st u st' pg :
  NoDup idxs → (∀ i, i ∈ idxs → vmsByIndex st !! i = None) →
  pgsByIndex st !! pgi = Some pg →
  registerVMs t pgi part i0 idxs st = Some (u, st') →
  types st' = types st ∧ domains st' = domains st ∧ stdout st' = stdout st
  ∧ (∀ i, i ∉ idxs → vmsByIndex st' !! i = vmsByIndex st !! i)
  ∧ (∀ i, i ∈ idxs → ∃ vm, vmsByIndex st' !! i = Some vm ∧ vm_index vm = i ∧ vm_type vm = t
        ∧ vm_pg vm = pgi ∧ vm_nodes vm = [] ∧ (0 < vm_partition vm → part ≠ 0))
  ∧ (∀ k, k ≠ pgi → pgsByIndex st' !! k = pgsByIndex st !! k)
  ∧ ∃ pg', pgsByIndex st' !! pgi = Some pg'
      ∧ pg_vms pg' = pg_vms pg ++ idxs
      ∧ hardRackAntiAffinityPartitions pg' = hardRackAntiAffinityPartitions pg.
Proof.
  revert i0 st pg. induction idxs as [|i idxs IH]; intros i0 st pg Hnd Hfresh Hpg Hrun;
    simpl in Hrun.
  { minv. do 4 (split; [done|]). split; [by intros i ?%elem_of_nil|].
    split; [done|]. exists pg. by rewrite app_nil_r. }
  apply NoDup_cons in Hnd as [Hi Hnd].
  mbind Hrun as [] sa Hins. apply modifyM_inv in Hins as ->.
  rewrite (Hfresh i) in Hrun by (by left).
  mbind Hrun as vm s Hvm. apply readVM_inv in Hvm as [Hvm ->].
  simpl in Hvm. rewrite lookup_insert_eq in Hvm. injection Hvm as <-.
  mbind Hrun as [] sb Hpush. apply modifyM_inv in Hpush as ->.
  eapply (IH _ _ (push_vm i pg)) in Hrun as (E1 & E2 & E3 & Hout & Hin & Hpgs & pg' & Hpg' & Hvms & Hhp);
    try done.
  - simpl in *. do 3 (split; [done|]). split; [|split; [|split]].
    + intros j Hj. apply not_elem_of_cons in Hj as [Hji Hj].
      rewrite Hout by done. by rewrite lookup_insert_ne.
    + intros j [->|Hj]%elem_of_cons; [|by apply Hin].
      rewrite Hout by done. rewrite lookup_insert_eq. eexists. split; [done|].
      simpl. do 4 (split; [done|]). intros Hp ->. simpl in Hp. lia.
    + intros k Hk. rewrite Hpgs by done. by rewrite lookup_alter_ne.
    + exists pg'. split; [done|]. rewrite Hvms. simpl. by rewrite <- app_assoc.
  - intros j Hj. simpl. rewrite lookup_insert_ne; [apply Hfresh; by right|].
    intros ->. done.
  - simpl. by rewrite lookup_alter_eq, Hpg.
Qed.

(** *** Commit of the chosen plan *)

Lemma Frame_print B S t st line : Frame B S t st (print line st).
Proof. split; try done. intros l. simpl. by rewrite padd_pneg, shift_0. Qed.

Lemma nodeIndices_state nodes st l st' : nodeIndices nodes st = Some (l, st') → st' = st.
Proof.
  revert st l st'. induction nodes as [|n nodes IH]; intros st l st' Hn; simpl in Hn.
  - by minv.
  - mbind Hn as node s Hnode. apply readNode_inv in Hnode as [_ ->].
    mbind Hn as l' s Hl. apply IH in Hl as ->. by minv.
Qed.

Lemma commitVMs_spec B t best V st u st' :
  NoDup B → NoDup V → (∀ i, i ∈ V → i ∈ B) →
  (∀ i, i ∈ V → ∃ vm, vmsByIndex st !! i = Some vm ∧ vm_nodes vm = [] ∧ vm_index vm = i) →
  commitVMs best V st = Some (u, st') →
  Frame B B t st st'
  ∧ (∀ i, i ∉ V → vmsByIndex st' !! i = vmsByIndex st !! i)
  ∧ ∀ i, i ∈ V → ∃ vm nodes, vmsByIndex st !! i = Some vm
      ∧ nodes = default [] (placements best !! i) ∧ nodes ≠ []
      ∧ vmsByIndex st' !! i = Some (set_vm_nodes nodes vm).
Proof.
  intros HndB. revert st. induction V as [|i V IH]; intros st HndV HVB Hpre Hrun;
    simpl in Hrun.
  { minv. split; [apply Frame_refl|]. split; [done|]. by intros i ?%elem_of_nil. }
  apply NoDup_cons in HndV as [HiV HndV].
  destruct (Hpre i) as (vm & Hvm & Hnil & Hidx); [by left|].
  mbind Hrun as vm' s Hvm'. apply readVM_inv in Hvm' as [Hvm' ->].
  rewrite Hvm in Hvm'. injection Hvm' as <-. rewrite Hidx in Hrun.
  mbind Hrun as n0 s Hn0. apply orCrash_inv in Hn0 as [Hn0 ->].
  mbind Hrun as [] sa Hplace.
  pose proof Hplace as Hplace'.
  apply place_inv in Hplace' as (vm' & n0' & Hvm' & _ & Hsa).
  rewrite Hvm in Hvm'. injection Hvm' as <-.
  assert (i ∈ B) as HiB by (apply HVB; by left).
  apply (Frame_place B B t _ _ _ _ _ vm HndB HiB HiB Hvm Hnil) in Hplace.
  mbind Hrun as pm s Hpm. apply readPM_inv in Hpm as [_ ->].
  mbind Hrun as rack s Hrack. apply readRack_inv in Hrack as [_ ->].
  mbind Hrun as dom s Hdom. apply readDomain_inv in Hdom as [_ ->].
  mbind Hrun as idx s Hidxs. apply nodeIndices_state in Hidxs as ->.
  mbind Hrun as [] sb Hprint. apply modifyM_inv in Hprint as ->.
  apply IH in Hrun as (F & Hout & Hin); try done.
  - split.
    { eapply Frame_trans; [exact Hplace|]. eapply Frame_trans; [apply Frame_print|exact F]. }
    split.
    + intros j Hj. apply not_elem_of_cons in Hj as [Hji Hj]. rewrite Hout by done.
      rewrite Hsa. simpl. by rewrite lookup_insert_ne.
    + intros j [->|Hj]%elem_of_cons.
      * exists vm, (default [] (placements best !! i)). split; [done|]. split; [done|].
        split; [by intros E; rewrite E in Hn0|].
        rewrite Hout by done. rewrite Hsa. simpl. by rewrite lookup_insert_eq.
      * destruct (Hin j Hj) as (vmj & nodes & Hvmj & ? & ? & ?).
        exists vmj, nodes. split; [|done].
        rewrite Hsa in Hvmj. simpl in Hvmj. rewrite lookup_insert_ne in Hvmj; [done|].
        intros ->. done.
  - intros j Hj. apply HVB. by right.
  - intros j Hj. destruct (Hpre j) as (vmj & Hvmj & ? & ?); [by right|].
    exists vmj. split; [|done]. rewrite Hsa. simpl. rewrite lookup_insert_ne; [done|].
    intros ->. done.
Qed.

End Requests.

(** ** The invariant of the session *)

Section Invariant.
Context `{StdLib}.

Lemma Frame_pg_back B S t st st' k pg' :
  Frame B S t st st' → pgsByIndex st' !! k = Some pg' →
  ∃ pg, pgsByIndex st !! k = Some pg ∧ pg_static pg' = pg_static pg.
Proof.
  intros F Hpg. pose proof (fr_pgs _ _ _ _ _ F k) as E. rewrite Hpg in E.
  destruct (pgsByIndex st !! k) as [pg|]; [|done]. simpl in E.
  exists pg. split; [done|]. congruence.
Qed.

Lemma Inv_frame B t st st' :
  Frame B B t st st' → t ∈ types st → Inv B st →
  antiAffine (vmsByIndex st') → colocated (vmsByIndex st') → Inv B st'.
Proof.
  intros F Ht [i1 i2 i3 i4 i5 i6 i7 i8 iL i9] Haa Hco.
  pose proof (fr_types _ _ _ _ _ F) as Ety.
  split; rewrite ?Ety; try done.
  - by apply (fr_cache _ _ _ _ _ F).
  - intros i vm Hi Hvm. rewrite (fr_vms_out _ _ _ _ _ F) in Hvm by done. by eapply i6.
  - intros i vm Hvm.
    destruct (Frame_vm _ _ _ _ _ _ _ F Hvm) as (vm0 & Hvm0 & (_ & E & _)%static_fields).
    rewrite <- E. by eapply i7.
  - intros j vj Hj.
    destruct (Frame_vm _ _ _ _ _ _ _ F Hj) as (vj0 & Hj0 & (_ & _ & E & _)%static_fields).
    destruct (i8 j vj0 Hj0) as (pg & Hpg & Hin).
    destruct (Frame_pg _ _ _ _ _ _ _ F Hpg) as (pg' & Hpg' & Hst).
    exists pg'. rewrite <- E. split; [done|]. by rewrite (pg_static_vms _ _ Hst).
  - intros k pg' j Hpg' Hj.
    destruct (Frame_pg_back _ _ _ _ _ _ _ F Hpg') as (pg & Hpg & Hst).
    rewrite (pg_static_vms _ _ Hst) in Hj.
    destruct (iL k pg j Hpg Hj) as (vj & Hvj & Hk).
    destruct (Frame_vm_fwd _ _ _ _ _ _ _ F Hvj) as (vj' & Hvj' & (_ & _ & E & _)%static_fields).
    exists vj'. split; [done|]. congruence.
  - intros k pg' Hpg'.
    destruct (Frame_pg_back _ _ _ _ _ _ _ F Hpg') as (pg & Hpg & Hst).
    rewrite (pg_static_hp _ _ Hst). by eapply i9.
Qed.

Lemma Inv_weaken X Y st : (∀ i, i ∈ X → i ∈ Y) → Inv X st → Inv Y st.
Proof. intros HXY [i1 i2 i3 i4 i5 i6 i7 i8 iL i9]. split; try done. intros i vm Hi. apply i6. auto. Qed.

(** *** The steps of [createVMs] *)

Lemma createVMs_inv elapsed idxs ty pgi part st ok st' :
  duration_cast_seconds elapsed < 14 →
  createVMs elapsed idxs ty pgi part st = Some (ok, st') →
  ∃ t pg st0 best st1,
    t ∈ types st ∧ pgsByIndex st !! pgi = Some pg
    ∧ registerVMs t pgi (if hardRackAntiAffinityPartitions pg =? 0 then 0 else part) 0 idxs st
      = Some (tt, st0)
    ∧ searchPlacement pgi idxs t st0 = Some (best, st1)
    ∧ match best with
      | None => ok = false ∧ st' = print [-1] st1
      | Some b => ok = true
          ∧ ∃ st2, commitVMs b idxs st1 = Some (tt, st2) ∧ updateTargets pgi st2 = Some (tt, st')
      end.
Proof.
  intros Hgate Hrun. unfold createVMs in Hrun.
  destruct (14 <=? duration_cast_seconds elapsed) eqn:Hg; [apply Z.leb_le in Hg; lia|].
  mbind Hrun as ts s Hts. apply getsM_inv in Hts as [-> ->].
  mbind Hrun as t s Ht.
  assert (t ∈ types st ∧ s = st) as [Htin ->].
  { destruct (0 <=? ty - 1); [|done]. apply orCrash_inv in Ht as [Ht ->].
    split; [|done]. by eapply list_elem_of_lookup_2. }
  mbind Hrun as pg s Hpg. apply readPG_inv in Hpg as [Hpg ->].
  mbind Hrun as [] st0 Hreg.
  mbind Hrun as best st1 Hsearch.
  exists t, pg, st0, best, st1. do 4 (split; [done|]).
  destruct best as [b|].
  - mbind Hrun as [] st2 Hcommit. mbind Hrun as [] st3 Hup.
    apply mret_inv in Hrun as [-> ->]. split; [done|]. eauto.
  - mbind Hrun as [] st2 Hp. apply modifyM_inv in Hp as ->.
    by apply mret_inv in Hrun as [-> ->].
Qed.

(** The state in which the search of a creation request starts. *)
Lemma register_ready t pgi part idxs st st0 pg :
  Inv [] st → t ∈ types st →
  NoDup idxs → (∀ i, i ∈ idxs → vmsByIndex st !! i = None) →
  pgsByIndex st !! pgi = Some pg →
  registerVMs t pgi (if hardRackAntiAffinityPartitions pg =? 0 then 0 else part) 0 idxs st
    = Some (tt, st0) →
  Inv idxs st0 ∧ batchReady idxs pgi st0 ∧ domains st0 = domains st
  ∧ stdout st0 = stdout st
  ∧ (∀ i, i ∉ idxs → vmsByIndex st0 !! i = vmsByIndex st !! i)
  ∧ ∀ i, i ∈ idxs → ∃ vm, vmsByIndex st0 !! i = Some vm ∧ vm_index vm = i ∧ vm_type vm = t
        ∧ vm_nodes vm = [].
Proof.
  intros [i1 i2 i3 i4 i5 i6 i7 i8 iL i9] Ht Hnd Hfresh Hpg Hreg.
  eapply registerVMs_spec in Hreg
    as (E1 & E2 & E3 & Hout & Hin & Hpgs & pg' & Hpg' & Hvms & Hhp); try done.
  assert (∀ i vm, vmsByIndex st0 !! i = Some vm → i ∉ idxs → vmsByIndex st !! i = Some vm)
    as Hold.
  { intros i vm Hvm Hi. by rewrite <- Hout. }
  assert (∀ i vm, vmsByIndex st0 !! i = Some vm → i ∈ idxs → vm_nodes vm = []) as Hnew.
  { intros i vm Hvm Hi. destruct (Hin i Hi) as (vm' & Hvm' & _ & _ & _ & Hnil & _). congruence. }
  split; [|split; [|split; [done|split; [done|split; [done|]]]]].
  - split; rewrite ?E1, ?E2; try done.
    + intros a b va vb n m Ha Hb Hpgab Hpa Hpb Hne Hn Hm.
      destruct (decide (a ∈ idxs)) as [Hai|Hai].
      { rewrite (Hnew a va Ha Hai) in Hn. by apply elem_of_nil in Hn. }
      destruct (decide (b ∈ idxs)) as [Hbi|Hbi].
      { rewrite (Hnew b vb Hb Hbi) in Hm. by apply elem_of_nil in Hm. }
      eapply (i4 a b va vb); eauto.
    + intros a va n m Ha Hn Hm. destruct (decide (a ∈ idxs)) as [Hai|Hai].
      { rewrite (Hnew a va Ha Hai) in Hn. by apply elem_of_nil in Hn. }
      eapply (i5 a va); eauto.
    + intros i vm Hi Hvm. eapply i6; [|by apply Hold]. apply not_elem_of_nil.
    + intros i vm Hvm. destruct (decide (i ∈ idxs)) as [Hi|Hi].
      * destruct (Hin i Hi) as (vm' & Hvm' & _ & Hty & _). congruence.
      * eapply i7. by apply Hold.
    + intros j vj Hj. destruct (decide (j ∈ idxs)) as [Hji|Hji].
      * destruct (Hin j Hji) as (vm' & Hvm' & _ & _ & Hpgj & _).
        assert (vm' = vj) as -> by congruence. rewrite Hpgj.
        exists pg'. split; [done|]. rewrite Hvms. apply elem_of_app. by right.
      * destruct (i8 j vj (Hold _ _ Hj Hji)) as (pgx & Hpgx & Hjx).
        destruct (decide (vm_pg vj = pgi)) as [E|E].
        -- rewrite E in *. exists pg'. split; [done|]. rewrite Hvms. apply elem_of_app. left.
           congruence.
        -- exists pgx. split; [|done]. by rewrite Hpgs.
    + intros k pgk j Hk Hj.
      assert (j ∈ idxs → ∃ vj, vmsByIndex st0 !! j = Some vj ∧ vm_pg vj = pgi) as Hnewj.
      { intros Hji. destruct (Hin j Hji) as (vm' & Hvm' & _ & _ & Hpgj & _). eauto. }
      assert (∀ k pgk, pgsByIndex st !! k = Some pgk → j ∈ pg_vms pgk →
                ∃ vj, vmsByIndex st0 !! j = Some vj ∧ vm_pg vj = k) as Holdj.
      { intros k' pgk' Hk' Hj'. destruct (iL k' pgk' j Hk' Hj') as (vj & Hvj & E).
        exists vj. split; [|done]. rewrite Hout; [done|].
        intros Hji. specialize (Hfresh j Hji). congruence. }
      destruct (decide (k = pgi)) as [->|Hkp].
      * assert (pgk = pg') as -> by congruence. rewrite Hvms in Hj.
        apply elem_of_app in Hj as [Hj|Hj]; [by eapply Holdj|by apply Hnewj].
      * rewrite Hpgs in Hk by done. by eapply Holdj.
    + intros k pgk Hk. destruct (decide (k = pgi)) as [->|Hkp].
      * assert (pgk = pg') as -> by congruence. rewrite Hhp. by eapply i9.
      * rewrite Hpgs in Hk by done. by eapply i9.
  - exists pg'. split; [done|]. split.
    + intros j vj Hj Hpgj. rewrite Hvms. apply elem_of_app.
      destruct (decide (j ∈ idxs)) as [Hji|Hji]; [by right|left].
      destruct (i8 j vj (Hold _ _ Hj Hji)) as (pgx & Hpgx & Hjx). congruence.
    + intros i Hi. destruct (Hin i Hi) as (vm & Hvm & Hidx & _ & Hpgv & _ & Hpart).
      exists vm. do 3 (split; [done|]). intros Hp. specialize (Hpart Hp).
      rewrite Hhp. destruct (i9 pgi pg Hpg) as [E|E]; [|lia].
      rewrite E in Hpart. done.
  - intros i Hi. destruct (Hin i Hi) as (vm & Hvm & Hidx & Hty & _ & Hnil & _).
    by exists vm.
Qed.

Lemma set_vm_nodes_static ns vm vm' :
  set_vm_nodes [] vm = set_vm_nodes [] vm' → set_vm_nodes ns vm = set_vm_nodes ns vm'.
Proof. unfold set_vm_nodes. intros [= -> -> -> ->]. done. Qed.

Lemma set_vm_nodes_self vm : set_vm_nodes (vm_nodes vm) vm = vm.
Proof. by destruct vm. Qed.

(** A successful creation request keeps the invariant. *)
Lemma createVMs_Inv elapsed idxs ty pgi part st st' :
  Inv [] st → NoDup idxs → (∀ i, i ∈ idxs → vmsByIndex st !! i = None) →
  createVMs elapsed idxs ty pgi part st = Some (true, st') →
  Inv [] st'.
Proof.
  intros HInv Hnd Hfresh Hrun.
  destruct (Z.lt_ge_cases (duration_cast_seconds elapsed) 14) as [Hg|Hg].
  2:{ unfold createVMs in Hrun. apply Z.leb_le in Hg. rewrite Hg in Hrun. by minv. }
  apply createVMs_inv in Hrun as (t & pg & st0 & best & st1 & Ht & Hpg & Hreg & Hsearch & Hrest);
    [|done].
  destruct best as [b|]; [|by destruct Hrest].
  destruct Hrest as (_ & st2 & Hcommit & Hup).
  destruct (register_ready _ _ _ _ _ _ _ HInv Ht Hnd Hfresh Hpg Hreg)
    as (HInv0 & Hready & Hdom & _ & Hout0 & Hin0).
  assert (∃ vm0 vm, head idxs = Some vm0 ∧ vmsByIndex st0 !! vm0 = Some vm ∧ vm_type vm = t)
    as (vm0 & vm & Hhd & Hvm0 & Hty).
  { destruct idxs as [|i idxs].
    - unfold searchPlacement, getRackGroups2 in Hsearch. by minv.
    - destruct (Hin0 i) as (vm & ? & ? & ? & ?); [by left|]. by exists i, vm. }
  subst t.
  eapply searchPlacement_spec in Hsearch as (F01 & Hun1 & Haa1 & Hco1 & Hplan);
    try done; [|apply HInv0..].
  destruct (Hplan b eq_refl) as (vmsg & Haag & Hcog & Houtg & Hstatg & Hcovg).
  eapply (commitVMs_spec idxs (vm_type vm)) in Hcommit as (F12 & Hout2 & Hin2); try done.
  2:{ intros i Hi. destruct (Hin0 i Hi) as (vmi & Hvmi & Hidx & _).
      destruct (Frame_vm_fwd _ _ _ _ _ _ _ F01 Hvmi) as (vm1 & Hvm1 & (E & _)%static_fields).
      exists vm1. split; [done|]. split; [by eapply Hun1|congruence]. }
  pose proof (updateTargets_frame idxs (vm_type vm) _ _ _ _ Hup) as F23.
  pose proof (Frame_nil_vms _ _ _ _ F23) as Hv3.
  assert (Frame idxs idxs (vm_type vm) st0 st') as F.
  { eapply Frame_trans; [exact F01|]. eapply Frame_trans; [exact F12|].
    eapply Frame_mono; [|exact F23]. by intros ? ?%elem_of_nil. }
  assert (vmsByIndex st' = vmsg) as Hfinal.
  { rewrite Hv3. apply map_eq. intros i. destruct (decide (i ∈ idxs)) as [Hi|Hi].
    - destruct (Hin2 i Hi) as (vm1 & nodes & Hvm1 & -> & _ & ->).
      destruct (Hcovg i Hi) as (vmg & Hvmg & Hplc & _). rewrite Hvmg, Hplc. simpl. f_equal.
      rewrite <- (set_vm_nodes_self vmg) at 2. apply set_vm_nodes_static.
      pose proof (fr_vms_static _ _ _ _ _ F01 i) as E1. pose proof (Hstatg i) as E2.
      rewrite Hvm1 in E1. rewrite Hvmg in E2. rewrite <- E2 in E1. simpl in E1. congruence.
    - rewrite Hout2 by done. rewrite (fr_vms_out _ _ _ _ _ F01) by done. by rewrite Houtg. }
  assert (Inv idxs st') as HInv'.
  { eapply Inv_frame; [exact F| |exact HInv0|..]; rewrite ?Hfinal; try done.
    rewrite (inv_vmtype _ _ HInv0 vm0 vm Hvm0) || eapply (inv_vmtype _ _ HInv0); eauto. }
  destruct HInv' as [i1 i2 i3 i4 i5 i6 i7 i8 iL i9]. split; try done.
  intros i vmi _ Hvmi. destruct (decide (i ∈ idxs)) as [Hi|Hi]; [|by eapply i6].
  rewrite Hfinal in Hvmi. destruct (Hcovg i Hi) as (vmg & Hvmg & _ & Hne & Hlen).
  assert (vmg = vmi) as -> by congruence. split; [done|]. rewrite Hlen. f_equal. f_equal.
  destruct (Hin0 i Hi) as (vmr & Hvmr & _ & Htyr & _).
  pose proof (Hstatg i) as E. rewrite Hvmg, Hvmr in E.
  assert (set_vm_nodes [] vmi = set_vm_nodes [] vmr) as E' by (simpl in E; congruence).
  apply static_fields in E' as (_ & E' & _). congruence.
Qed.

End Invariant.

(** ** Deletion, groups and reachable states *)

Section Session.
Context `{StdLib}.

(** *** Deletion *)

Lemma unplace_total i vm n0 st :
  vmsByIndex st !! i = Some vm → head (vm_nodes vm) = Some n0 →
  ∃ st', unplace i st = Some (tt, st').
Proof.
  intros Hvm Hn0. unfold unplace, readVM, orCrash, mbind, M_bind, modifyM. simpl.
  rewrite Hvm. simpl. rewrite Hn0. simpl. eauto.
Qed.

Lemma deleteVMs_cons i V st u st' :
  deleteVMs (i :: V) st = Some (u, st') →
  ∃ vm n0 st1, vmsByIndex st !! i = Some vm ∧ head (vm_nodes vm) = Some n0
    ∧ unplace i st = Some (tt, st1)
    ∧ deleteVMs V (set_vms (delete i (vmsByIndex st1))
                     (set_pgs (alter (remove_vm i) (vm_pg vm) (pgsByIndex st1)) st1))
      = Some (u, st').
Proof.
  intros Hd. simpl in Hd.
  mbind Hd as vm s Hvm. apply readVM_inv in Hvm as [Hvm ->].
  mbind Hd as [] st1 Hun.
  mbind Hd as [] s2 E2. apply modifyM_inv in E2 as ->.
  mbind Hd as [] s3 E3. apply modifyM_inv in E3 as ->.
  pose proof Hun as Hun'. apply unplace_inv in Hun' as (vm' & n0 & Hvm' & Hn0 & _).
  assert (vm' = vm) as -> by congruence.
  exists vm, n0, st1. done.
Qed.

Lemma delete_step_Inv i vm st st1 :
  Inv [] st → vmsByIndex st !! i = Some vm → unplace i st = Some (tt, st1) →
  Inv [] (set_vms (delete i (vmsByIndex st1))
            (set_pgs (alter (remove_vm i) (vm_pg vm) (pgsByIndex st1)) st1)).
Proof.
  intros [i1 i2 i3 i4 i5 i6 i7 i8 iL i9] Hvm Hun.
  apply unplace_inv in Hun as (vm' & n0 & Hvm' & Hn0 & ->).
  assert (vm' = vm) as -> by congruence.
  assert (∀ j vj, delete i (<[i := set_vm_nodes [] vm]> (vmsByIndex st)) !! j = Some vj →
                  j ≠ i ∧ vmsByIndex st !! j = Some vj) as Hold.
  { intros j vj Hj. apply lookup_delete_Some in Hj as [Hji Hj].
    rewrite lookup_insert_ne in Hj by done. done. }
  split; simpl; try done.
  - apply cache_ok_bumpCount. apply cache_ok_charges; [done|done].
  - intros a b va vb n m [_ Ha]%Hold [_ Hb]%Hold. by eapply i4.
  - intros a va n m [_ Ha]%Hold. by eapply i5.
  - intros j vj Hj [_ Hvj]%Hold. by eapply i6.
  - intros j vj [_ Hvj]%Hold. by eapply i7.
  - intros j vj [Hji Hvj]%Hold. destruct (i8 j vj Hvj) as (pg & Hpg & Hin).
    destruct (decide (vm_pg vj = vm_pg vm)) as [E|E].
    + exists (remove_vm i pg). rewrite E, lookup_alter_eq, <- E, Hpg. split; [done|].
      simpl. apply list_elem_of_filter. done.
    + exists pg. by rewrite lookup_alter_ne.
  - intros k pg j Hk Hj.
    assert (∀ pg0, pgsByIndex st !! k = Some pg0 → j ∈ pg_vms pg0 → j ≠ i →
      ∃ vj, delete i (<[i := set_vm_nodes [] vm]> (vmsByIndex st)) !! j = Some vj
            ∧ vm_pg vj = k) as Hkeep.
    { intros pg0 Hpg0 Hj0 Hji. destruct (iL k pg0 j Hpg0 Hj0) as (vj & Hvj & E).
      exists vj. split; [|done]. rewrite lookup_delete_ne by done.
      by rewrite lookup_insert_ne. }
    destruct (decide (k = vm_pg vm)) as [->|Hne].
    + rewrite lookup_alter_eq in Hk. destruct (pgsByIndex st !! vm_pg vm) as [pg0|] eqn:E; [|done].
      injection Hk as <-. simpl in Hj. apply list_elem_of_filter in Hj as [Hji Hj].
      by eapply Hkeep.
    + rewrite lookup_alter_ne in Hk by done. eapply Hkeep; [done..|].
      intros ->. destruct (iL k pg i Hk Hj) as (vj & Hvj & E). congruence.
  - intros k pg Hk. destruct (decide (k = vm_pg vm)) as [->|Hne].
    + rewrite lookup_alter_eq in Hk. destruct (pgsByIndex st !! vm_pg vm) as [pg0|] eqn:E; [|done].
      injection Hk as <-. simpl. by eapply i9.
    + rewrite lookup_alter_ne in Hk by done. by eapply i9.
Qed.

Lemma deleteVMs_Inv V st u st' :
  Inv [] st → deleteVMs V st = Some (u, st') → Inv [] st'.
Proof.
  revert st. induction V as [|i V IH]; intros st HInv Hd.
  - simpl in Hd. by minv.
  - apply deleteVMs_cons in Hd as (vm & n0 & st1 & Hvm & Hn0 & Hun & Hd).
    eapply IH; [|exact Hd]. by eapply delete_step_Inv.
Qed.

(** A deletion request over distinct registered VMs runs to its end. *)
Lemma deleteVMs_total V st :
  Inv [] st → NoDup V → (∀ i, i ∈ V → is_Some (vmsByIndex st !! i)) →
  ∃ st', deleteVMs V st = Some (tt, st').
Proof.
  revert st. induction V as [|i V IH]; intros st HInv Hnd Hlive.
  - by exists st.
  - apply NoDup_cons in Hnd as [Hi Hnd].
    destruct (Hlive i) as [vm Hvm]; [by left|].
    destruct (inv_placed _ _ HInv i vm) as [Hne _]; [apply not_elem_of_nil|done|].
    destruct (vm_nodes vm) as [|n0 ns] eqn:Hns; [done|].
    destruct (unplace_total i vm n0 st) as [st1 Hun]; [done|by rewrite Hns|].
    pose proof (delete_step_Inv _ _ _ _ HInv Hvm Hun) as HInv1.
    apply IH in HInv1 as [st' Hd]; [|done|].
    + exists st'. simpl.
      rewrite (bind_Some _ _ st vm st) by (unfold readVM; by rewrite Hvm).
      rewrite (bind_Some _ _ st tt st1) by done.
      erewrite bind_Some by reflexivity. erewrite bind_Some by reflexivity. exact Hd.
    + intros j Hj. simpl. rewrite lookup_delete_ne by (intros ->; done).
      apply unplace_inv in Hun as (vm' & n0' & _ & _ & ->). simpl.
      rewrite lookup_insert_ne by (intros ->; done). apply Hlive. by right.
Qed.

(** Deleting gives back what the deleted VMs hold. *)
Lemma deleteVMs_observe V st u st' l :
  NoDup V → deleteVMs V st = Some (u, st') →
  observe (domains st') l = shift (debt (vmsByIndex st) V l) (observe (domains st) l).
Proof.
  revert st. induction V as [|i V IH]; intros st Hnd Hd.
  - simpl in Hd. minv. simpl. by rewrite shift_0.
  - apply NoDup_cons in Hnd as [Hi Hnd].
    apply deleteVMs_cons in Hd as (vm & n0 & st1 & Hvm & Hn0 & Hun & Hd).
    apply unplace_inv in Hun as (vm' & n0' & Hvm' & Hn0' & ->).
    assert (vm' = vm) as -> by congruence.
    apply IH in Hd; [|done]. rewrite Hd. simpl.
    rewrite observe_unplace by done. rewrite shift_shift. f_equal.
    rewrite Hvm. simpl. rewrite padd_comm. f_equal.
    apply debt_ext. intros j Hj. rewrite lookup_delete_ne by (intros ->; done).
    rewrite lookup_insert_ne by (intros ->; done). done.
Qed.

(** *** Groups and the first state *)

Lemma createPG_Inv index hp soft domA rackA st u st' :
  Inv [] st → createPG index hp soft domA rackA st = Some (u, st') → Inv [] st'.
Proof.
  intros [i1 i2 i3 i4 i5 i6 i7 i8 iL i9] Hc. unfold createPG in Hc.
  apply modifyM_inv in Hc as ->.
  destruct (pgsByIndex st !! index) as [pg0|] eqn:E; [done|].
  split; simpl; try done.
  - intros j vj Hj. destruct (i8 j vj Hj) as (pg & Hpg & Hin). exists pg. split; [|done].
    rewrite lookup_insert_ne; [done|]. intros ->. congruence.
  - intros k pg j Hk Hj. destruct (decide (k = index)) as [->|Hne].
    + rewrite lookup_insert_eq in Hk. injection Hk as <-. simpl in Hj.
      by apply elem_of_nil in Hj.
    + rewrite lookup_insert_ne in Hk by done. by eapply iL.
  - intros k pg Hk. destruct (decide (k = index)) as [->|Hne].
    + rewrite lookup_insert_eq in Hk. injection Hk as <-. simpl.
      destruct (hp <=? 1) eqn:Hhp; [by left|right]. apply Z.leb_gt in Hhp. lia.
    + rewrite lookup_insert_ne in Hk by done. by eapply i9.
Qed.

Lemma initial_Inv h : wf_header h → Inv [] (initial h).
Proof.
  intros Hwf. unfold initial, mkManager. split; simpl.
  - intros t t' Ht Ht' E.
    apply list_elem_of_lookup in Ht as [a Ha]. apply list_elem_of_lookup in Ht' as [b Hb].
    rewrite list_lookup_imap in Ha, Hb.
    destruct (h_types h !! a) as [x|] eqn:Ea; [|done].
    destruct (h_types h !! b) as [y|] eqn:Eb; [|done].
    simpl in Ha, Hb. injection Ha as <-. injection Hb as <-. simpl in E.
    assert (a = b) as -> by lia. congruence.
  - intros t Ht. apply list_elem_of_lookup in Ht as [a Ha].
    rewrite list_lookup_imap in Ha. destruct (h_types h !! a) as [x|] eqn:Ea; [|done].
    simpl in Ha. injection Ha as <-.
    eapply Forall_lookup_1 in Hwf; [|exact Ea]. exact Hwf.
  - apply Forall_fmap, Forall_forall. intros d _. split; [by apply memo_ok_empty|].
    apply Forall_fmap, Forall_forall. intros r _. split; [by apply memo_ok_empty|].
    apply Forall_fmap, Forall_forall. intros p _. split; [by apply memo_ok_empty|].
    simpl. apply Forall_forall. intros n Hn. apply memo_ok_empty.
    apply list_elem_of_lookup in Hn as [a Ha]. rewrite list_lookup_imap in Ha.
    destruct (zip _ _ !! a); [|done]. simpl in Ha. by injection Ha as <-.
  - intros i j vi vj n m Hi. by rewrite lookup_empty in Hi.
  - intros i vi n m Hi. by rewrite lookup_empty in Hi.
  - intros i vm _ Hi. by rewrite lookup_empty in Hi.
  - intros i vm Hi. by rewrite lookup_empty in Hi.
  - intros i vm Hi. by rewrite lookup_empty in Hi.
  - intros k pg j Hk. by rewrite lookup_empty in Hk.
  - intros i vm Hi. by rewrite lookup_empty in Hi.
Qed.

Lemma handle_Inv elapsed req st st' :
  Inv [] st → wf_request st req → handle elapsed req st = Some (false, st') → Inv [] st'.
Proof.
  intros HInv Hwf Hh. destruct req as [index hp soft domA rackA|idxs ty pgi part|idxs|];
    simpl in Hh.
  - mbind Hh as [] s Hc. apply mret_inv in Hh as [_ ->]. by eapply createPG_Inv.
  - mbind Hh as ok s Hc. apply mret_inv in Hh as [Hok ->]. destruct ok; [|done].
    destruct Hwf as [Hnd Hfresh]. by eapply createVMs_Inv.
  - mbind Hh as [] s Hc. apply mret_inv in Hh as [_ ->]. by eapply deleteVMs_Inv.
  - by apply mret_inv in Hh as [? _].
Qed.

Lemma reachable_Inv st : reachable st → Inv [] st.
Proof.
  induction 1 as [h Hwf|st elapsed req st' _ IH Hwf Hh].
  - by apply initial_Inv.
  - by eapply handle_Inv.
Qed.

Lemma to_size_t_id t : wf_type t → to_size_t (t_nodes t) = t_nodes t.
Proof. intros [[? ?] _]. unfold to_size_t. apply Z.mod_small. lia. Qed.

End Session.

(** ** Example sessions *)

Lemma steps_reachable `{StdLib} clock requestId reqs st st' :
  reachable st → steps clock requestId reqs st = Some st' → reachable st'.
Proof.
  revert requestId st. induction reqs as [|req reqs IH]; intros requestId st Hst Hrun; simpl in Hrun.
  - by injection Hrun as <-.
  - case_bool_decide as Hwf; [|done].
    destruct (handle (clock requestId) req st) as [[[] st1]|] eqn:Hh; try done.
    eapply IH; [|exact Hrun]. by eapply reachable_step.
Qed.

(** *** Runs of the program

    The lines these sessions write are those the compiled program writes on
    the same input. *)

Example run_two_nodes :
  main {| h_domains := 1; h_racks := 1; h_pms := 1; h_nodes := [(4, 8); (4, 8)];
          h_types := [(1, 2, 4)] |} clock0
    [CreatePG 1 0 0 NONE NONE; CreateVMs [1] 1 1 (-1); CreateVMs [2] 1 1 (-1);
     CreateVMs [3] 1 1 (-1); CreateVMs [4] 1 1 (-1); CreateVMs [5] 1 1 (-1); Terminate]
  = Some [[1; 1; 1; 1]; [1; 1; 1; 2]; [1; 1; 1; 1]; [1; 1; 1; 2]; [-1]].
Proof. vm_compute. reflexivity. Qed.

Example run_partitions :
  main {| h_domains := 2; h_racks := 2; h_pms := 1; h_nodes := [(8, 8)];
          h_types := [(1, 1, 1)] |} clock0
    [CreatePG 1 2 0 NONE NONE; CreateVMs [1; 2] 1 1 (-1); Terminate]
  = Some [[1; 2; 1; 1]; [1; 1; 1; 1]].
Proof. vm_compute. reflexivity. Qed.

Example run_create_delete_create :
  main {| h_domains := 1; h_racks := 1; h_pms := 1; h_nodes := [(4, 8); (4, 8)];
          h_types := [(1, 2, 4)] |} clock0
    [CreatePG 1 0 0 NONE NONE; CreateVMs [1] 1 1 (-1); DeleteVMs [1];
     CreateVMs [2] 1 1 (-1); Terminate]
  = Some [[1; 1; 1; 1]; [1; 1; 1; 1]].
Proof. vm_compute. reflexivity. Qed.

Lemma wf_fleet12 : wf_header fleet12.
Proof. repeat constructor; simpl; lia. Qed.
Lemma wf_fleet11 : wf_header fleet11.
Proof. repeat constructor; simpl; lia. Qed.

Lemma after_reachable h reqs st :
  wf_header h → steps clock0 1 reqs (initial h) = Some st → reachable (after h reqs).
Proof.
  intros Hwf Hs. unfold after. rewrite Hs. simpl.
  eapply steps_reachable; [|exact Hs]. by apply reachable_initial.
Qed.

Lemma reachable_spread : reachable spread.
Proof. eapply after_reachable; [apply wf_fleet12|]. vm_compute. reflexivity. Qed.
Lemma reachable_mixed : reachable mixed.
Proof. eapply after_reachable; [apply wf_fleet11|]. vm_compute. reflexivity. Qed.

Lemma reachable_grouped : reachable grouped.
Proof. eapply after_reachable; [apply wf_fleet12|]. vm_compute. reflexivity. Qed.

Lemma reachable_plain : reachable plain.
Proof. eapply after_reachable; [apply wf_fleet11|]. vm_compute. reflexivity. Qed.
Lemma reachable_plain2 : reachable plain2.
Proof. eapply after_reachable; [apply wf_fleet12|]. vm_compute. reflexivity. Qed.

Lemma wf_fleet21 : wf_header fleet21.
Proof. repeat constructor; simpl; lia. Qed.
Lemma reachable_softdom : reachable softdom.
Proof. eapply after_reachable; [apply wf_fleet21|]. vm_compute. reflexivity. Qed.

(** ** The rack groups of a group without affinities *)

Lemma strictWeakOnb_spec {A} (lt : A → A → bool) l :
  strictWeakOnb lt l = true → StrictWeakOn lt l.
Proof.
  unfold strictWeakOnb. intros Hb.
  assert (∀ a b, a ∈ l → b ∈ l →
    implb (lt a b) (negb (lt b a)) = true
    ∧ ∀ c, c ∈ l → implb (negb (lt b a) && negb (lt c b)) (negb (lt c a)) = true) as Hall.
  { intros a b Ha Hb'. rewrite forallb_forall in Hb.
    specialize (Hb a (proj1 (list_elem_of_In _ _) Ha)). rewrite forallb_forall in Hb.
    specialize (Hb b (proj1 (list_elem_of_In _ _) Hb')). apply andb_true_iff in Hb as [H1 H2].
    split; [done|]. intros c Hc. rewrite forallb_forall in H2.
    apply H2. by apply list_elem_of_In. }
  split.
  - intros a b Ha Hb' Hab. destruct (Hall a b Ha Hb') as [H1 _].
    rewrite Hab in H1. simpl in H1. by apply negb_true_iff.
  - intros a b c Ha Hb' Hc Hba Hcb. destruct (Hall a b Ha Hb') as [_ H2].
    specialize (H2 c Hc). rewrite Hba, Hcb in H2. simpl in H2. by apply negb_true_iff.
Qed.

Section Groups.
Context `{StdLib}.

Lemma readVMs_total l st :
  (∀ j, j ∈ l → is_Some (vmsByIndex st !! j)) → ∃ vms, readVMs l st = Some (vms, st).
Proof.
  induction l as [|i l IH]; intros Hl; simpl.
  - by exists [].
  - destruct (Hl i) as [vm Hvm]; [by left|].
    destruct IH as [vms Hvms]; [intros; apply Hl; by right|].
    exists (vm :: vms).
    rewrite (bind_Some _ _ st vm st) by (unfold readVM; by rewrite Hvm).
    by rewrite (bind_Some _ _ st vms st).
Qed.

Lemma updateTargets_total pgi pg st :
  pgsByIndex st !! pgi = Some pg →
  (∀ j, j ∈ pg_vms pg → is_Some (vmsByIndex st !! j)) →
  ∃ pg', updateTargets pgi st = Some (tt, set_pgs (<[pgi := pg']> (pgsByIndex st)) st)
    ∧ pg_static pg' = pg_static pg.
Proof.
  intros Hpg Hlive. destruct (readVMs_total _ _ Hlive) as [vms Hvms].
  exists (updateTargets_pg pg vms). split; [|apply pg_static_updateTargets].
  unfold updateTargets.
  rewrite (bind_Some _ _ st pg st) by (unfold readPG; by rewrite Hpg).
  by rewrite (bind_Some _ _ st vms st).
Qed.

(** [sortByLoad] returns the racks in ascending order of load, when the
    comparison of their loads is a strict weak ordering, which it is unless
    a load is not a number. *)
Lemma sortByLoad_sorted ds racks :
  Permutation (sortByLoad ds racks) racks
  ∧ (StrictWeakOn (λ a b, dlt (rackLoad ds a) (rackLoad ds b)) racks →
     StronglySorted (λ a b, dlt (rackLoad ds b) (rackLoad ds a) = false)
       (sortByLoad ds racks)).
Proof. split; [apply std_sort_perm|]. intros Hsw. by apply std_sort_sorted. Qed.

Lemma getRackGroups2_no_affinity idxs st vm0 vm pg :
  head idxs = Some vm0 → vmsByIndex st !! vm0 = Some vm →
  pgsByIndex st !! vm_pg vm = Some pg →
  (∀ j, j ∈ pg_vms pg → is_Some (vmsByIndex st !! j)) →
  rackAffinity pg = NONE → domainAffinity pg = NONE →
  ∃ st', getRackGroups2 idxs st
    = Some ((racksOf (domains st) <$> domainRefs (domains st))
            ++ [allRacks (domains st); sortByLoad (domains st) (allRacks (domains st))], st').
Proof.
  intros Hhd Hvm Hpg Hlive Hra Hda.
  destruct (updateTargets_total _ _ _ Hpg Hlive) as (pg1 & Hup1 & Hst1).
  set (s1 := set_pgs (<[vm_pg vm := pg1]> (pgsByIndex st)) st) in *.
  assert (pgsByIndex s1 !! vm_pg vm = Some pg1) as Hpg1 by (simpl; by rewrite lookup_insert_eq).
  destruct (updateTargets_total (vm_pg vm) pg1 s1 Hpg1) as (pg2 & Hup2 & Hst2).
  { rewrite (pg_static_vms _ _ Hst1). exact Hlive. }
  set (s2 := set_pgs (<[vm_pg vm := pg2]> (pgsByIndex s1)) s1) in *.
  assert (pgsByIndex s2 !! vm_pg vm = Some pg2) as Hpg2 by (simpl; by rewrite lookup_insert_eq).
  assert (rackAffinity pg2 = NONE ∧ domainAffinity pg2 = NONE) as [Hra2 Hda2].
  { unfold pg_static in Hst1, Hst2. split; congruence. }
  exists s2. unfold getRackGroups2.
  rewrite (bind_Some _ _ st vm0 st) by (unfold orCrash; by rewrite Hhd).
  rewrite (bind_Some _ _ st vm st) by (unfold readVM; by rewrite Hvm).
  rewrite (bind_Some _ _ st tt s1) by done.
  assert (getRackGroups (vm_pg vm) s1
          = Some ((racksOf (domains st) <$> domainRefs (domains st))
                  ++ [allRacks (domains st)], s2)) as Hg.
  { unfold getRackGroups. rewrite (bind_Some _ _ s1 tt s2) by done.
    rewrite (bind_Some _ _ s2 pg2 s2) by (unfold readPG; by rewrite Hpg2).
    rewrite (bind_Some _ _ s2 (domains st) s2) by done.
    rewrite Hra2, Hda2. simpl. done. }
  rewrite (bind_Some _ _ s1 _ s2 Hg).
  rewrite (bind_Some _ _ s2 pg2 s2) by (unfold readPG; by rewrite Hpg2).
  rewrite (bind_Some _ _ s2 (domains st) s2) by done.
  rewrite Hra2, Hda2. simpl. by rewrite <- app_assoc.
Qed.

Lemma registerVMs_affinity t pgi part i0 idxs st u st' pg pg' :
  registerVMs t pgi part i0 idxs st = Some (u, st') →
  pgsByIndex st !! pgi = Some pg → pgsByIndex st' !! pgi = Some pg' →
  rackAffinity pg' = rackAffinity pg ∧ domainAffinity pg' = domainAffinity pg.
Proof.
  revert i0 st pg. induction idxs as [|i idxs IH]; intros i0 st pg Hrun Hpg Hpg';
    simpl in Hrun.
  { minv. split; congruence. }
  mbind Hrun as [] sa Hins. apply modifyM_inv in Hins as ->.
  mbind Hrun as vm s Hvm. apply readVM_inv in Hvm as [Hvm ->].
  mbind Hrun as [] sb Hpush. apply modifyM_inv in Hpush as ->.
  eapply (IH _ _ (push_vm i pg)) in Hrun; [exact Hrun| |exact Hpg'].
  simpl. rewrite lookup_alter_eq.
  destruct (vmsByIndex st !! i); simpl; by rewrite Hpg.
Qed.

End Groups.

(** ** The penalty of an attempt *)

Section Penalty.
Context `{StdLib}.

Lemma countAt_spec pr k st c st' :
  countAt pr k st = Some (c, st') →
  c = countSeen (domains st) pr k
  ∧ pgsByIndex st' = pgsByIndex st ∧ vmsByIndex st' = vmsByIndex st
  ∧ ∀ p' k', countSeen (domains st') p' k' = countSeen (domains st) p' k'.
Proof.
  unfold countAt. intros Hc.
  mbind Hc as pm s Hpm. apply readPM_inv in Hpm as [Hpm ->].
  mbind Hc as [] s E. apply modifyM_inv in E as ->.
  apply mret_inv in Hc as [-> ->]. split.
  { unfold countSeen. simpl. by rewrite Hpm. }
  do 2 (split; [done|]). intros p' k'. unfold countSeen. simpl domains.
  rewrite observe_bumpCount. destruct (bool_decide _); by rewrite shift_0.
Qed.

Lemma softCount_ext pg vms ds ds' V :
  (∀ p k, countSeen ds' p k = countSeen ds p k) → softCount pg vms ds' V = softCount pg vms ds V.
Proof.
  intros Hc. induction V as [|i V IH]; simpl; [done|]. rewrite IH.
  destruct (vms !! i ≫= _); [|done]. by rewrite Hc.
Qed.

Lemma softPenalty_spec pgi V st z st' pg :
  pgsByIndex st !! pgi = Some pg →
  softPenalty pgi V st = Some (z, st') →
  z = softCount pg (vmsByIndex st') (domains st') V
  ∧ pgsByIndex st' = pgsByIndex st ∧ vmsByIndex st' = vmsByIndex st
  ∧ ∀ p k, countSeen (domains st') p k = countSeen (domains st) p k.
Proof.
  revert st z. induction V as [|i V IH]; intros st z Hpg Hs; simpl in Hs.
  - apply mret_inv in Hs as [-> ->]. done.
  - mbind Hs as vm s Hvm. apply readVM_inv in Hvm as [Hvm ->].
    mbind Hs as n0 s Hn0. apply orCrash_inv in Hn0 as [Hn0 ->].
    mbind Hs as pg' s Hpg'. apply readPG_inv in Hpg' as [Hpg' ->].
    assert (pg' = pg) as -> by congruence.
    mbind Hs as c s1 Hc. apply countAt_spec in Hc as (-> & Epg & Evm & Ec).
    mbind Hs as z' s2 Hz. apply mret_inv in Hs as [-> ->].
    apply IH in Hz as (-> & Epg2 & Evm2 & Ec2); [|congruence].
    split; [|split; [congruence|split; [congruence|]]].
    + simpl. rewrite Evm2, Evm, Hvm. simpl. rewrite Hn0. by rewrite Ec2, Ec.
    + intros p k. by rewrite Ec2, Ec.
Qed.

(** The penalty of a successful [tryPlace]. *)
Lemma tryPlace_penalty pgi V t racks force st p racks' st' :
  tryPlace pgi V t racks force st = Some ((Some p, racks'), st') →
  penalty p = to_double (partPenalty pgi V st').
Proof.
  unfold tryPlace. intros Hp.
  mbind Hp as [] s1 Hun. mbind Hp as [c m] s2 Hsum.
  destruct (_ || _); [by apply mret_inv in Hp as [[=] _]|].
  mbind Hp as [plc racks1] s3 H1. mbind Hp as [plc2 racks2] s4 H2.
  destruct (size plc2 <? length V)%nat; [by apply mret_inv in Hp as [[=] _]|].
  mbind Hp as [] s5 Hup. mbind Hp as pg s6 Hpg. apply readPG_inv in Hpg as [Hpg ->].
  mbind Hp as soft s7 Hsoft. apply mret_inv in Hp as [[= -> ->] ->]. simpl. f_equal.
  unfold partPenalty.
  destruct ((0 <? softPMAntiAffinity pg) && softPMAntiAffinityPossible pg) eqn:Hc.
  - apply (softPenalty_spec _ _ _ _ _ pg Hpg) in Hsoft as (-> & Epg & _).
    by rewrite Epg, Hpg, Hc.
  - apply mret_inv in Hsoft as [-> ->]. by rewrite Hpg, Hc.
Qed.

Lemma expandRacks_placedBy pgi V t start extra force st p st' :
  expandRacks pgi V t start extra force st = Some (Some p, st') → placedBy pgi t V p st'.
Proof.
  revert start st. induction extra as [|e extra IH]; intros start st He; simpl in He.
  - mbind He as [r racks'] s Ht. destruct r as [q|].
    + apply mret_inv in He as [[= <-] ->]. by exists start, force, st, racks'.
    + by apply mret_inv in He as [[=] _].
  - mbind He as [r racks'] s Ht. destruct r as [q|].
    + apply mret_inv in He as [[= <-] ->]. by exists start, force, st, racks'.
    + by eapply IH.
Qed.

Lemma placePartition_placedBy pgi t racks partition V cp st cp' st' :
  placePartition pgi t racks partition V cp st = Some (Some cp', st') →
  ∃ p, placedBy pgi t V p st' ∧ cp' = addPlacement cp p.
Proof.
  unfold placePartition. intros Hp.
  mbind Hp as [] s1 Hun. mbind Hp as [] s2 Hup. mbind Hp as choice s3 Hch.
  destruct choice as [[start extra]|]; [|by apply mret_inv in Hp as [[=] _]].
  mbind Hp as r s4 H1. destruct r as [p|].
  - apply mret_inv in Hp as [[= ->] ->]. exists p. split; [|done].
    by eapply expandRacks_placedBy.
  - mbind Hp as r s5 H2. destruct r as [p|]; [|by apply mret_inv in Hp as [[=] _]].
    apply mret_inv in Hp as [[= ->] ->]. exists p. split; [|done].
    by eapply expandRacks_placedBy.
Qed.

Lemma placePartitions_placedBy pgi t racks parts cp st cp' st' :
  placePartitions pgi t racks parts cp st = Some (Some cp', st') →
  ∃ trials : list (Placement * Manager),
    Forall2 (λ part trial, placedBy pgi t part.2 trial.1 trial.2) parts trials
    ∧ penalty cp' = foldl (λ a trial, PrimFloat.add a (penalty trial.1)) (penalty cp) trials.
Proof.
  revert cp st. induction parts as [|[k V] parts IH]; intros cp st Hp; simpl in Hp.
  - apply mret_inv in Hp as [[= <-] ->]. exists []. split; [constructor|done].
  - mbind Hp as r s1 H1. destruct r as [cp1|]; [|by apply mret_inv in Hp as [[=] _]].
    apply placePartition_placedBy in H1 as (p & Hby & ->).
    apply IH in Hp as (trials & Hall & Hpen).
    exists ((p, s1) :: trials). split; [by constructor|]. by rewrite Hpen.
Qed.

End Penalty.

(** ** Simulation up to the number of partitions *)

Abbreviation Sim m := (SimG id m m).

Section Simulation.
Context `{StdLib}.

Lemma SimG_ret {A B} (g : A → B) a : SimG g (mret a) (mret (g a)).
Proof. done. Qed.

Lemma Sim_ret {A} (a : A) : Sim (mret a).
Proof. done. Qed.

Lemma SimG_crash {A B} (g : A → B) : SimG g crash crash.
Proof. done. Qed.

Lemma SimG_bind {A A' B B'} (g : A → A') (h : B → B') m m' f f' :
  SimG g m m' → (∀ a, SimG h (f a) (f' (g a))) → SimG h (m ≫= f) (m' ≫= f').
Proof.
  intros Hm Hf s. unfold mbind, M_bind. rewrite Hm.
  destruct (m s) as [[a s1]|]; simpl; [|done]. apply Hf.
Qed.

Lemma Sim_getsM {A} (f : Manager → A) : (∀ s, f (normS s) = f s) → Sim (getsM f).
Proof. intros Hf s. unfold getsM. simpl. by rewrite Hf. Qed.

Lemma Sim_modifyM f f' : (∀ s, f' (normS s) = normS (f s)) → SimG id (modifyM f) (modifyM f').
Proof. intros Hf s. unfold modifyM. simpl. by rewrite Hf. Qed.

Lemma Sim_orCrash {A} (o : option A) : Sim (orCrash o).
Proof. by destruct o. Qed.

Lemma Sim_readVM i : Sim (readVM i).
Proof. intros s. unfold readVM. simpl. by destruct (vmsByIndex s !! i). Qed.
Lemma Sim_readDomain d : Sim (readDomain d).
Proof. intros s. unfold readDomain. simpl. by destruct (getDomain d (domains s)). Qed.
Lemma Sim_readRack r : Sim (readRack r).
Proof. intros s. unfold readRack. simpl. by destruct (getRack r (domains s)). Qed.
Lemma Sim_readPM p : Sim (readPM p).
Proof. intros s. unfold readPM. simpl. by destruct (getPM p (domains s)). Qed.
Lemma Sim_readNode n : Sim (readNode n).
Proof. intros s. unfold readNode. simpl. by destruct (getNode n (domains s)). Qed.

Lemma Sim_readPG k : SimG normPG (readPG k) (readPG k).
Proof.
  intros s. unfold readPG. simpl. rewrite lookup_fmap.
  by destruct (pgsByIndex s !! k).
Qed.

Lemma normHP_pos x : (0 <? normHP x) = (0 <? x).
Proof. unfold normHP. destruct (1 <? x) eqn:E; [|done]. apply Z.ltb_lt in E. symmetry. apply Z.ltb_lt. lia. Qed.

Lemma normHP_zero x : (normHP x =? 0) = (x =? 0).
Proof. unfold normHP. destruct (1 <? x) eqn:E; [|done]. apply Z.ltb_lt in E. symmetry. apply Z.eqb_neq. lia. Qed.

Lemma normS_set_domains ds s : set_domains ds (normS s) = normS (set_domains ds s).
Proof. done. Qed.
Lemma normS_set_vms m s : set_vms m (normS s) = normS (set_vms m s).
Proof. done. Qed.
Lemma normS_print l s : print l (normS s) = normS (print l s).
Proof. done. Qed.

End Simulation.

Create HintDb sim discriminated.
#[global] Hint Resolve Sim_ret SimG_crash Sim_orCrash Sim_readVM Sim_readDomain Sim_readRack
  Sim_readPM Sim_readNode : sim.
#[global] Hint Extern 1 (SimG _ (getsM _) (getsM _)) => apply Sim_getsM; done : sim.
#[global] Hint Extern 1 (SimG _ (modifyM _) (modifyM _)) => apply Sim_modifyM; done : sim.

Ltac sim_norm :=
  cbn [normPG pg_index hardRackAntiAffinityPartitions softPMAntiAffinity domainAffinity
       rackAffinity pg_vms targetDomain domainAffinityPossible targetRack rackAffinityPossible
       softPMAntiAffinityPossible partitionRacks];
  rewrite ?normHP_pos, ?normHP_zero.

Ltac sim_step :=
  lazymatch goal with
  | |- SimG _ (mret _) (mret _) => first [apply Sim_ret | apply SimG_ret]
  | |- SimG _ crash crash => apply SimG_crash
  | |- SimG _ (readPG _ ≫= _) _ =>
      eapply (SimG_bind normPG); [apply Sim_readPG | intros ?; sim_norm]
  | |- SimG _ (_ ≫= _) (_ ≫= _) =>
      eapply (SimG_bind id); [ | intros ?; cbn [id]]
  | |- SimG _ (if ?c then _ else _) (if ?c then _ else _) => destruct c
  | |- SimG _ (match ?x with _ => _ end) (match ?x with _ => _ end) => destruct x
  | |- SimG _ (let '(_, _) := ?x in _) (let '(_, _) := ?x in _) => destruct x
  | |- _ => solve [eauto 2 with sim]
  end.

Ltac sim := repeat sim_step.

Section SimFunctions.
Context `{StdLib}.

Lemma Sim_place i nodes : Sim (place i nodes).
Proof. unfold place. sim. Qed.
Hint Resolve Sim_place : sim.

Lemma Sim_unplace i : Sim (unplace i).
Proof. unfold unplace. sim. Qed.
Hint Resolve Sim_unplace : sim.

Lemma Sim_unplaceVMs V : Sim (unplaceVMs V).
Proof. induction V as [|i V IH]; simpl; sim. Qed.
Hint Resolve Sim_unplaceVMs : sim.

Lemma Sim_readVMs V : Sim (readVMs V).
Proof. induction V as [|i V IH]; simpl; sim. Qed.
Hint Resolve Sim_readVMs : sim.

Lemma normPG_updateTargets_pg pg vms :
  normPG (updateTargets_pg pg vms) = updateTargets_pg (normPG pg) vms.
Proof.
  unfold updateTargets_pg.
  assert (∀ a, foldl (updateTargets_step (normPG pg)) a vms = foldl (updateTargets_step pg) a vms)
    as ->.
  { induction vms as [|vm vms IH]; intros a; simpl; [done|]. rewrite IH. f_equal.
    unfold updateTargets_step. sim_norm. done. }
  sim_norm. by case_match.
Qed.

Lemma Sim_updateTargets pgi : Sim (updateTargets pgi).
Proof.
  unfold updateTargets. sim. apply Sim_modifyM. intros s. unfold normS. simpl.
  by rewrite fmap_insert, normPG_updateTargets_pg.
Qed.
Hint Resolve Sim_updateTargets : sim.

Lemma Sim_rackGetTypeFit t r : Sim (rackGetTypeFit t r).
Proof. unfold rackGetTypeFit. sim. Qed.
Hint Resolve Sim_rackGetTypeFit : sim.

Lemma Sim_racksGetTypeFit t racks : Sim (racksGetTypeFit t racks).
Proof. induction racks as [|r racks IH]; simpl; sim. Qed.
Hint Resolve Sim_racksGetTypeFit : sim.

Lemma Sim_sortRacksByFit t racks : Sim (sortRacksByFit t racks).
Proof. unfold sortRacksByFit. sim. Qed.
Hint Resolve Sim_sortRacksByFit : sim.

Lemma Sim_sortNodesByFit t pr : Sim (sortNodesByFit t pr).
Proof. unfold sortNodesByFit. sim. Qed.
Hint Resolve Sim_sortNodesByFit : sim.

Lemma Sim_countAt pr k : Sim (countAt pr k).
Proof. unfold countAt. sim. Qed.
Hint Resolve Sim_countAt : sim.

Lemma Sim_tryPMs pgi vmi t force rack pms plc : Sim (tryPMs pgi vmi t force rack pms plc).
Proof. induction pms as [|p pms IH]; simpl; sim. Qed.
Hint Resolve Sim_tryPMs : sim.

Lemma Sim_tryRacks pgi vmi t force racks plc : Sim (tryRacks pgi vmi t force racks plc).
Proof. induction racks as [|r racks IH]; simpl; sim. Qed.
Hint Resolve Sim_tryRacks : sim.

Lemma Sim_tryPlaceInner pgi V t racks plc force : Sim (tryPlaceInner pgi V t racks plc force).
Proof. revert racks plc. induction V as [|i V IH]; intros racks plc; simpl; sim. Qed.
Hint Resolve Sim_tryPlaceInner : sim.

Lemma Sim_sumAvailable racks : Sim (sumAvailable racks).
Proof. induction racks as [|r racks IH]; simpl; sim. Qed.
Hint Resolve Sim_sumAvailable : sim.

Lemma Sim_softPenalty pgi V : Sim (softPenalty pgi V).
Proof. induction V as [|i V IH]; simpl; sim. Qed.
Hint Resolve Sim_softPenalty : sim.

Lemma Sim_tryPlace pgi V t racks force : Sim (tryPlace pgi V t racks force).
Proof. unfold tryPlace. sim. Qed.
Hint Resolve Sim_tryPlace : sim.

Lemma Sim_chooseRacks pgi partition racks : Sim (chooseRacks pgi partition racks).
Proof.
  unfold chooseRacks. sim.
  all: try (apply Sim_modifyM; intros s; unfold normS; simpl; by rewrite fmap_insert).
Qed.
Hint Resolve Sim_chooseRacks : sim.

Lemma Sim_expandRacks pgi V t start extra force : Sim (expandRacks pgi V t start extra force).
Proof. revert start. induction extra as [|e extra IH]; intros start; simpl; sim. Qed.
Hint Resolve Sim_expandRacks : sim.

Lemma Sim_placePartition pgi t racks partition V cp :
  Sim (placePartition pgi t racks partition V cp).
Proof. unfold placePartition. sim. Qed.
Hint Resolve Sim_placePartition : sim.

Lemma Sim_placePartitions pgi t racks parts cp : Sim (placePartitions pgi t racks parts cp).
Proof. revert cp. induction parts as [|[k V] parts IH]; intros cp; simpl; sim. Qed.
Hint Resolve Sim_placePartitions : sim.

Lemma Sim_getBestPlacement pgi V t racks : Sim (getBestPlacement pgi V t racks).
Proof. unfold getBestPlacement. sim. Qed.
Hint Resolve Sim_getBestPlacement : sim.

Lemma Sim_getRackGroups pgi : Sim (getRackGroups pgi).
Proof. unfold getRackGroups. sim. Qed.
Hint Resolve Sim_getRackGroups : sim.

Lemma Sim_fittingRacks t racks : Sim (fittingRacks t racks).
Proof. induction racks as [|r racks IH]; simpl; sim. Qed.
Hint Resolve Sim_fittingRacks : sim.

Lemma Sim_fittingDomains t n doms : Sim (fittingDomains t n doms).
Proof. induction doms as [|d doms IH]; simpl; sim. Qed.
Hint Resolve Sim_fittingDomains : sim.

Lemma Sim_getRackGroups2 V : Sim (getRackGroups2 V).
Proof. unfold getRackGroups2. sim. Qed.
Hint Resolve Sim_getRackGroups2 : sim.

Lemma Sim_registerVMs t pgi partition i V : Sim (registerVMs t pgi partition i V).
Proof.
  revert i. induction V as [|index V IH]; intros i; simpl; sim.
  - apply Sim_modifyM. intros s. simpl. by destruct (vmsByIndex s !! index).
  - apply Sim_modifyM. intros s. unfold normS, set_pgs. simpl. f_equal.
    apply map_eq. intros k. rewrite lookup_fmap.
    destruct (decide (k = pgi)) as [->|Hk].
    + rewrite !lookup_alter_eq, lookup_fmap. by destruct (pgsByIndex s !! pgi).
    + rewrite !lookup_alter_ne by done. by rewrite lookup_fmap.
Qed.
Hint Resolve Sim_registerVMs : sim.

Lemma Sim_tryGroups pgi V t groups best : Sim (tryGroups pgi V t groups best).
Proof. revert best. induction groups as [|g groups IH]; intros best; simpl; sim. Qed.
Hint Resolve Sim_tryGroups : sim.

Lemma Sim_nodeIndices nodes : Sim (nodeIndices nodes).
Proof. induction nodes as [|n nodes IH]; simpl; sim. Qed.
Hint Resolve Sim_nodeIndices : sim.

Lemma Sim_commitVMs best V : Sim (commitVMs best V).
Proof. induction V as [|i V IH]; simpl; sim. Qed.
Hint Resolve Sim_commitVMs : sim.

Lemma Sim_searchPlacement pgi V t : Sim (searchPlacement pgi V t).
Proof. unfold searchPlacement. sim. Qed.
Hint Resolve Sim_searchPlacement : sim.

Lemma Sim_createVMs e V ty pgi partition : Sim (createVMs e V ty pgi partition).
Proof. unfold createVMs. sim. Qed.
Hint Resolve Sim_createVMs : sim.

Lemma Sim_deleteVMs V : Sim (deleteVMs V).
Proof.
  induction V as [|index V IH]; simpl; sim.
  apply Sim_modifyM. intros s. unfold normS, set_pgs. simpl. f_equal.
  apply map_eq. intros k. rewrite lookup_fmap.
  destruct (decide (k = vm_pg a)) as [->|Hk].
  - rewrite !lookup_alter_eq, lookup_fmap. by destruct (pgsByIndex s !! vm_pg a).
  - rewrite !lookup_alter_ne by done. by rewrite lookup_fmap.
Qed.
Hint Resolve Sim_deleteVMs : sim.

Lemma normS_inv s s' :
  normS s = normS s' →
  types s = types s' ∧ domains s = domains s' ∧ vmsByIndex s = vmsByIndex s'
  ∧ stdout s = stdout s' ∧ normPG <$> pgsByIndex s = normPG <$> pgsByIndex s'.
Proof. unfold normS, set_pgs. by intros [= ? ? ? ? ?]. Qed.

Lemma createPG_related index hp hp' softPM domA rackA s s' :
  (1 <? hp) = (1 <? hp') → normS s = normS s' →
  prod_map id normS <$> createPG index hp softPM domA rackA s
  = prod_map id normS <$> createPG index hp' softPM domA rackA s'.
Proof.
  intros Hside HR. pose proof (normS_inv _ _ HR) as (E1 & E2 & E3 & E4 & E5).
  unfold createPG, modifyM. simpl. do 2 f_equal.
  assert (pgsByIndex s !! index = None ↔ pgsByIndex s' !! index = None) as Hnone.
  { rewrite <- (fmap_None normPG (pgsByIndex s !! index)).
    rewrite <- (fmap_None normPG (pgsByIndex s' !! index)).
    by rewrite <- !lookup_fmap, E5. }
  destruct (pgsByIndex s !! index) as [pg|] eqn:Ea, (pgsByIndex s' !! index) as [pg'|] eqn:Eb;
    try done.
  - destruct Hnone as [_ Hn]. by specialize (Hn eq_refl).
  - destruct Hnone as [Hn _]. by specialize (Hn eq_refl).
  - unfold normS, set_pgs. simpl. rewrite E1, E2, E3, E4. f_equal.
    rewrite !fmap_insert, E5. f_equal.
    unfold normPG, mkPG. simpl. f_equal. unfold normHP.
    destruct (hp <=? 1) eqn:F1, (hp' <=? 1) eqn:F2, (1 <? hp) eqn:F3, (1 <? hp') eqn:F4;
      try done; lia.
Qed.

Lemma Sim_related {A} (m : M A) s s' :
  Sim m → normS s = normS s' → prod_map id normS <$> m s = prod_map id normS <$> m s'.
Proof. intros Hm HR. by rewrite <- !Hm, HR. Qed.

Lemma handle_related e req req' s s' :
  sameSide req req' → normS s = normS s' →
  prod_map id normS <$> handle e req s = prod_map id normS <$> handle e req' s'.
Proof.
  assert (∀ index hp hp' softPM domA rackA, (1 <? hp) = (1 <? hp') →
    normS s = normS s' →
    prod_map id normS <$> handle e (CreatePG index hp softPM domA rackA) s
    = prod_map id normS <$> handle e (CreatePG index hp' softPM domA rackA) s') as Hpg.
  { intros index hp hp' softPM domA rackA Hside HR.
    pose proof (createPG_related index hp hp' softPM domA rackA s s' Hside HR) as Hc.
    simpl. unfold mbind, M_bind, createPG, modifyM in *. simpl in *. congruence. }
  intros [index hp hp' softPM domA rackA Hside|r] HR; [by apply Hpg|].
  destruct r as [index hp softPM domA rackA|idxs ty pgi part|idxs|]; [by apply Hpg|..];
    apply Sim_related; try done; simpl; sim.
Qed.

Lemma run_related clock requestId reqs reqs' s s' :
  Forall2 sameSide reqs reqs' → normS s = normS s' →
  prod_map id normS <$> run clock requestId reqs s
  = prod_map id normS <$> run clock requestId reqs' s'.
Proof.
  intros Hreqs. revert requestId s s'.
  induction Hreqs as [|req req' reqs reqs' Hreq _ IH]; intros requestId s s' HR; simpl.
  - by rewrite HR.
  - pose proof (handle_related (clock requestId) req req' s s' Hreq HR) as Hh.
    unfold mbind, M_bind.
    destruct (handle (clock requestId) req s) as [[b s1]|],
             (handle (clock requestId) req' s') as [[b' s1']|]; simpl in Hh; try done.
    assert (b = b' ∧ normS s1 = normS s1') as [-> HR1] by (split; congruence).
    destruct b'; [exact (f_equal (λ x, Some (tt, x)) HR1)|by apply IH].
Qed.

End SimFunctions.

(** ** The memos in the states of a session *)

Section Memo.
Context `{StdLib}.

Lemma touched_cache st :
  touched st → types_unique (types st) ∧ cache_ok (types st) (domains st).
Proof.
  induction 1 as [st Hr|st vms pgs _ IH|st i nodes u st' _ [IHu IHc] Hp
                 |st i u st' _ [IHu IHc] Hp|st t r v st' _ [IHu IHc] Ht Hf
                 |st t pr l st' _ [IHu IHc] Ht Hf|st pr k c st' _ [IHu IHc] Hc].
  - apply reachable_Inv in Hr. split; [apply (inv_types _ _ Hr)|apply (inv_cache _ _ Hr)].
  - exact IH.
  - apply place_inv in Hp as (vm & n0 & _ & _ & ->). simpl. split; [done|].
    apply cache_ok_bumpCount, cache_ok_charges; [apply claim_clears|done].
  - apply unplace_inv in Hp as (vm & n0 & _ & _ & ->). simpl. split; [done|].
    apply cache_ok_bumpCount, cache_ok_charges; [apply release_clears|done].
  - apply (rackGetTypeFit_frame [] t) in Hf. rewrite (fr_types _ _ _ _ _ Hf).
    split; [done|]. by apply (fr_cache _ _ _ _ _ Hf).
  - apply (sortNodesByFit_frame [] t) in Hf. rewrite (fr_types _ _ _ _ _ Hf).
    split; [done|]. by apply (fr_cache _ _ _ _ _ Hf).
  - unfold countAt in Hc. mbind Hc as pm s Hpm. apply readPM_inv in Hpm as [Hpm ->].
    mbind Hc as [] s E. apply modifyM_inv in E as ->. apply mret_inv in Hc as [-> ->].
    simpl. split; [done|]. by apply cache_ok_bumpCount.
Qed.

(** [getTypeFitImpl], which reads the memos of the level below, computes
    the uncached value. *)
Lemma PM_getTypeFitImpl_value ts t p :
  types_unique ts → t ∈ ts → pm_ok ts p → (PM_getTypeFitImpl t p).1 = PM_uncached t p.
Proof.
  intros Hu Ht [_ Hnodes]. unfold PM_getTypeFitImpl.
  destruct (fitAll_spec (node_ok ts) node_quiet (Node_getTypeFit t) (Node_uncached t)
              (pm_nodes p)) as (E1 & _); [|done|].
  { intros x Hx. by apply Node_getTypeFit_spec. }
  destruct (fitAll (Node_getTypeFit t) (pm_nodes p)) as [byNode ns]. simpl in *. by subst.
Qed.

Lemma Rack_getTypeFitImpl_value ts t r :
  types_unique ts → t ∈ ts → rack_ok ts r → (Rack_getTypeFitImpl t r).1 = Rack_uncached t r.
Proof.
  intros Hu Ht [_ Hpms]. unfold Rack_getTypeFitImpl.
  destruct (fitAll_spec (pm_ok ts) pm_quiet (PM_getTypeFit t) (PM_uncached t)
              (rack_pms r)) as (E1 & _); [|done|].
  { intros x Hx. by apply PM_getTypeFit_spec. }
  destruct (fitAll (PM_getTypeFit t) (rack_pms r)) as [vs ps]. simpl in *. by subst.
Qed.

Lemma Domain_getTypeFitImpl_value ts t d :
  types_unique ts → t ∈ ts → dom_ok ts d → (Domain_getTypeFitImpl t d).1 = Domain_uncached t d.
Proof.
  intros Hu Ht [_ Hracks]. unfold Domain_getTypeFitImpl.
  destruct (fitAll_spec (rack_ok ts) rack_quiet (Rack_getTypeFit t) (Rack_uncached t)
              (dom_racks d)) as (E1 & _); [|done|].
  { intros x Hx. by apply Rack_getTypeFit_spec. }
  destruct (fitAll (Rack_getTypeFit t) (dom_racks d)) as [vs rs]. simpl in *. by subst.
Qed.

End Memo.

(** ** Properties kept by every step *)

Section KeepsRules.
Context (P : Manager → Prop).

Lemma Keeps_ret {A} (a : A) : Keeps P (mret a).
Proof. intros s b s' HP [_ ->]%mret_inv. done. Qed.

Lemma Keeps_crash {A} : Keeps P (crash (A := A)).
Proof. by intros s b s' HP. Qed.

Lemma Keeps_bind {A B} (m : M A) (f : A → M B) :
  Keeps P m → (∀ a, Keeps P (f a)) → Keeps P (m ≫= f).
Proof.
  intros Hm Hf s b s' HP Hrun. apply bind_inv in Hrun as (a & s1 & E & Hrun).
  eapply Hf; [|exact Hrun]. by eapply Hm.
Qed.

Lemma Keeps_getsM {A} (f : Manager → A) : Keeps P (getsM f).
Proof. intros s b s' HP [_ ->]%getsM_inv. done. Qed.

Lemma Keeps_orCrash {A} (o : option A) : Keeps P (orCrash o).
Proof. intros s b s' HP [_ ->]%orCrash_inv. done. Qed.

Lemma Keeps_readVM i : Keeps P (readVM i).
Proof. intros s b s' HP [_ ->]%readVM_inv. done. Qed.
Lemma Keeps_readPG i : Keeps P (readPG i).
Proof. intros s b s' HP [_ ->]%readPG_inv. done. Qed.
Lemma Keeps_readDomain i : Keeps P (readDomain i).
Proof. intros s b s' HP [_ ->]%readDomain_inv. done. Qed.
Lemma Keeps_readRack i : Keeps P (readRack i).
Proof. intros s b s' HP [_ ->]%readRack_inv. done. Qed.
Lemma Keeps_readPM i : Keeps P (readPM i).
Proof. intros s b s' HP [_ ->]%readPM_inv. done. Qed.
Lemma Keeps_readNode i : Keeps P (readNode i).
Proof. intros s b s' HP [_ ->]%readNode_inv. done. Qed.

Lemma Keeps_modifyM f : (∀ s, P s → P (f s)) → Keeps P (modifyM f).
Proof. intros Hf s b s' HP ->%modifyM_inv. by apply Hf. Qed.

End KeepsRules.

Create HintDb keeps discriminated.
#[global] Hint Resolve Keeps_ret Keeps_crash Keeps_getsM Keeps_orCrash Keeps_readVM Keeps_readPG
  Keeps_readDomain Keeps_readRack Keeps_readPM Keeps_readNode : keeps.
#[global] Hint Resolve list_elem_of_here list_elem_of_further : keeps.

Ltac keeps_step :=
  lazymatch goal with
  | |- Keeps _ (mret _) => apply Keeps_ret
  | |- Keeps _ crash => apply Keeps_crash
  | |- Keeps _ (_ ≫= _) => apply Keeps_bind; [|intros ?]
  | |- Keeps _ (if ?c then _ else _) => destruct c
  | |- Keeps _ (match ?x with _ => _ end) => destruct x
  | |- Keeps _ (let '(_, _) := ?x in _) => destruct x
  | |- _ => solve [eauto 4 with keeps]
  end.

Ltac keeps := repeat keeps_step.

(** *** The search, for a property its steps keep *)

Section Search.
Context `{StdLib}.
Variable P : Manager → Prop.
Variable V0 : list Z.
Variable T : VMType.
Hypothesis P_pgs : ∀ s m, P s → P (set_pgs m s).
Hypothesis P_rackFit : ∀ t r, Keeps P (rackGetTypeFit t r).
Hypothesis P_nodesFit : ∀ t pr, Keeps P (sortNodesByFit t pr).
Hypothesis P_count : ∀ pr k, Keeps P (countAt pr k).
Hypothesis P_unplace : ∀ i, Keeps P (unplace i).
Hypothesis P_tryPMs : ∀ pgi vmi force rack pms plc,
  vmi ∈ V0 → Keeps P (tryPMs pgi vmi T force rack pms plc).

Hint Resolve P_rackFit P_nodesFit P_count P_unplace P_tryPMs : keeps.

Lemma Keeps_set_pgs f : Keeps P (modifyM (λ s, set_pgs (f s) s)).
Proof. apply Keeps_modifyM. intros s. apply P_pgs. Qed.
Hint Resolve Keeps_set_pgs : keeps.

Lemma Keeps_unplaceVMs V : Keeps P (unplaceVMs V).
Proof. induction V as [|i V IH]; simpl; keeps. Qed.
Hint Resolve Keeps_unplaceVMs : keeps.

Lemma Keeps_readVMs V : Keeps P (readVMs V).
Proof. induction V as [|i V IH]; simpl; keeps. Qed.
Hint Resolve Keeps_readVMs : keeps.

Lemma Keeps_updateTargets pgi : Keeps P (updateTargets pgi).
Proof. unfold updateTargets. keeps. Qed.
Hint Resolve Keeps_updateTargets : keeps.

Lemma Keeps_racksGetTypeFit t racks : Keeps P (racksGetTypeFit t racks).
Proof. induction racks as [|r racks IH]; simpl; keeps. Qed.
Hint Resolve Keeps_racksGetTypeFit : keeps.

Lemma Keeps_sortRacksByFit t racks : Keeps P (sortRacksByFit t racks).
Proof. unfold sortRacksByFit. keeps. Qed.
Hint Resolve Keeps_sortRacksByFit : keeps.

Lemma Keeps_tryRacks pgi vmi force racks plc :
  vmi ∈ V0 → Keeps P (tryRacks pgi vmi T force racks plc).
Proof. intros Hi. induction racks as [|r racks IH]; simpl; keeps. Qed.
Hint Resolve Keeps_tryRacks : keeps.

Lemma Keeps_tryPlaceInner pgi V racks plc force :
  (∀ i, i ∈ V → i ∈ V0) → Keeps P (tryPlaceInner pgi V T racks plc force).
Proof.
  revert racks plc. induction V as [|i V IH]; intros racks plc HV; simpl; keeps.
Qed.
Hint Resolve Keeps_tryPlaceInner : keeps.

Lemma Keeps_sumAvailable racks : Keeps P (sumAvailable racks).
Proof. induction racks as [|r racks IH]; simpl; keeps. Qed.
Hint Resolve Keeps_sumAvailable : keeps.

Lemma Keeps_softPenalty pgi V : Keeps P (softPenalty pgi V).
Proof. induction V as [|i V IH]; simpl; keeps. Qed.
Hint Resolve Keeps_softPenalty : keeps.

Lemma Keeps_tryPlace pgi V racks force :
  (∀ i, i ∈ V → i ∈ V0) → Keeps P (tryPlace pgi V T racks force).
Proof. intros HV. unfold tryPlace. keeps. Qed.
Hint Resolve Keeps_tryPlace : keeps.

Lemma Keeps_chooseRacks pgi partition racks : Keeps P (chooseRacks pgi partition racks).
Proof. unfold chooseRacks. keeps. Qed.
Hint Resolve Keeps_chooseRacks : keeps.

Lemma Keeps_expandRacks pgi V start extra force :
  (∀ i, i ∈ V → i ∈ V0) → Keeps P (expandRacks pgi V T start extra force).
Proof.
  intros HV. revert start. induction extra as [|e extra IH]; intros start; simpl; keeps.
Qed.
Hint Resolve Keeps_expandRacks : keeps.

Lemma Keeps_placePartition pgi racks partition V cp :
  (∀ i, i ∈ V → i ∈ V0) → Keeps P (placePartition pgi T racks partition V cp).
Proof. intros HV. unfold placePartition. keeps. Qed.
Hint Resolve Keeps_placePartition : keeps.

Lemma Keeps_placePartitions pgi racks parts cp :
  (∀ i, i ∈ concat parts.*2 → i ∈ V0) → Keeps P (placePartitions pgi T racks parts cp).
Proof.
  revert cp. induction parts as [|[p V] parts IH]; intros cp HV; simpl; keeps.
  - apply Keeps_placePartition. intros i Hi. apply HV. simpl. apply elem_of_app. by left.
  - apply IH. intros i Hi. apply HV. simpl. apply elem_of_app. by right.
Qed.

Lemma vbp_fold_in (l : list (Z * VM)) (m : list (Z * list Z)) i :
  i ∈ concat (foldl (λ m vm, vbpInsert (vm_partition vm.2) vm.1 m) m l).*2 →
  i ∈ l.*1 ∨ i ∈ concat m.*2.
Proof.
  revert m. induction l as [|[j vm] l IH]; intros m Hi; simpl in *; [by right|].
  apply IH in Hi as [Hi|Hi]; [left; by right|].
  rewrite vbpInsert_perm in Hi. apply elem_of_cons in Hi as [->|Hi]; [left; by left|by right].
Qed.

Lemma Keeps_getBestPlacement pgi racks : Keeps P (getBestPlacement pgi V0 T racks).
Proof.
  unfold getBestPlacement. apply Keeps_bind; [keeps|]. intros vms.
  apply Keeps_bind; [|intros ?; keeps].
  apply Keeps_placePartitions. intros i Hi.
  rewrite hash_order_perm in Hi. apply vbp_fold_in in Hi as [Hi|Hi].
  - apply list_elem_of_fmap in Hi as ([j vm] & -> & Hin). simpl.
    by apply elem_of_zip_l in Hin.
  - by apply elem_of_nil in Hi.
Qed.
Hint Resolve Keeps_getBestPlacement : keeps.

Lemma Keeps_getRackGroups pgi : Keeps P (getRackGroups pgi).
Proof. unfold getRackGroups. keeps. Qed.
Hint Resolve Keeps_getRackGroups : keeps.

Lemma Keeps_fittingRacks t racks : Keeps P (fittingRacks t racks).
Proof. induction racks as [|r racks IH]; simpl; keeps. Qed.
Hint Resolve Keeps_fittingRacks : keeps.

Lemma Keeps_fittingDomains t n doms : Keeps P (fittingDomains t n doms).
Proof. induction doms as [|d doms IH]; simpl; keeps. Qed.
Hint Resolve Keeps_fittingDomains : keeps.

Lemma Keeps_getRackGroups2 V : Keeps P (getRackGroups2 V).
Proof. unfold getRackGroups2. keeps. Qed.
Hint Resolve Keeps_getRackGroups2 : keeps.

Lemma Keeps_tryGroups pgi groups best : Keeps P (tryGroups pgi V0 T groups best).
Proof. revert best. induction groups as [|g groups IH]; intros best; simpl; keeps. Qed.
Hint Resolve Keeps_tryGroups : keeps.

Lemma Keeps_searchPlacement pgi : Keeps P (searchPlacement pgi V0 T).
Proof. unfold searchPlacement. keeps. Qed.

End Search.

(** ** The layout of the fleet *)

Section Layout.
Context `{StdLib}.

Lemma fmap_alter_same {A B} (g : A → B) (f : A → A) i (l : list A) :
  (∀ x, l !! i = Some x → g (f x) = g x) → g <$> alter f i l = g <$> l.
Proof.
  intros Hf. apply list_eq. intros j. rewrite !list_lookup_fmap.
  destruct (decide (j = i)) as [->|Hj].
  - rewrite list_lookup_alter_eq. destruct (l !! i) as [x|] eqn:E; simpl; [|done].
    f_equal. by apply Hf.
  - by rewrite list_lookup_alter_ne.
Qed.

Lemma layout_alterDomain f d ds :
  (∀ x, getDomain d ds = Some x → dom_layout (f x) = dom_layout x) →
  layout (alterDomain f d ds) = layout ds.
Proof. intros Hf. by apply fmap_alter_same. Qed.

Lemma layout_alterRack f r ds :
  (∀ x, getRack r ds = Some x → rack_layout (f x) = rack_layout x) →
  layout (alterRack f r ds) = layout ds.
Proof.
  intros Hf. apply layout_alterDomain. intros d Hd. unfold dom_layout. simpl. f_equal.
  apply fmap_alter_same. intros x Hx. apply Hf. unfold getRack. rewrite Hd. done.
Qed.

Lemma layout_alterPM f p ds :
  (∀ x, getPM p ds = Some x → pm_layout (f x) = pm_layout x) →
  layout (alterPM f p ds) = layout ds.
Proof.
  intros Hf. apply layout_alterRack. intros r Hr. unfold rack_layout. simpl. f_equal.
  apply fmap_alter_same. intros x Hx. apply Hf. unfold getPM. rewrite Hr. done.
Qed.

Lemma layout_alterNode f n ds :
  (∀ x, getNode n ds = Some x → node_layout (f x) = node_layout x) →
  layout (alterNode f n ds) = layout ds.
Proof.
  intros Hf. apply layout_alterPM. intros p Hp. unfold pm_layout. simpl. f_equal.
  apply fmap_alter_same. intros x Hx. apply Hf. unfold getNode. rewrite Hp. done.
Qed.

Lemma layout_chargePath g n ds :
  (∀ w, capOf (g w) = capOf w) → layout (chargePath g n ds) = layout ds.
Proof.
  intros Hg. unfold chargePath.
  rewrite layout_alterDomain, layout_alterRack, layout_alterPM, layout_alterNode; try done.
  - intros x _. unfold node_layout. simpl. by rewrite Hg.
  - intros x _. unfold pm_layout. simpl. by rewrite Hg.
  - intros x _. unfold rack_layout. simpl. by rewrite Hg.
  - intros x _. unfold dom_layout. simpl. by rewrite Hg.
Qed.

Lemma layout_charges g nodes ds :
  (∀ w, capOf (g w) = capOf w) →
  layout (foldl (λ ds n, chargePath g n ds) ds nodes) = layout ds.
Proof.
  intros Hg. revert ds. induction nodes as [|n nodes IH]; intros ds; simpl; [done|].
  by rewrite IH, layout_chargePath.
Qed.

Lemma layout_bumpCount k δ p ds : layout (alterPM (bumpCount k δ) p ds) = layout ds.
Proof. by apply layout_alterPM. Qed.

Lemma res_quiet_capOf w w' : res_quiet w w' → capOf w = capOf w'.
Proof. intros (Hc & Hm & _). unfold capOf. by rewrite Hc, Hm. Qed.

Lemma fmap_Forall2 {A B} (R : A → A → Prop) (f : A → B) l l' :
  (∀ x y, R x y → f x = f y) → Forall2 R l l' → f <$> l = f <$> l'.
Proof. intros Hf. induction 1; simpl; [done|]. f_equal; auto. Qed.

Lemma node_quiet_layout n n' : node_quiet n n' → node_layout n = node_layout n'.
Proof. intros [Hr Hi]. unfold node_layout. by rewrite (res_quiet_capOf _ _ Hr), Hi. Qed.

Lemma pm_quiet_layout p p' : pm_quiet p p' → pm_layout p = pm_layout p'.
Proof.
  intros (Hr & Hi & Hn & _). unfold pm_layout.
  by rewrite (res_quiet_capOf _ _ Hr), Hi, (fmap_Forall2 _ _ _ _ node_quiet_layout Hn).
Qed.

Lemma rack_quiet_layout r r' : rack_quiet r r' → rack_layout r = rack_layout r'.
Proof.
  intros (Hr & Hi & Hn). unfold rack_layout.
  by rewrite (res_quiet_capOf _ _ Hr), Hi, (fmap_Forall2 _ _ _ _ pm_quiet_layout Hn).
Qed.

Lemma dom_quiet_layout d d' : dom_quiet d d' → dom_layout d = dom_layout d'.
Proof.
  intros (Hr & Hi & Hn). unfold dom_layout.
  by rewrite (res_quiet_capOf _ _ Hr), Hi, (fmap_Forall2 _ _ _ _ rack_quiet_layout Hn).
Qed.

Lemma topo_quiet_layout ds ds' : topo_quiet ds ds' → layout ds = layout ds'.
Proof. apply fmap_Forall2, dom_quiet_layout. Qed.

(** What a layout says about the places of the topology. *)
Lemma layout_getDomain ds ds' d :
  layout ds = layout ds' → dom_layout <$> getDomain d ds = dom_layout <$> getDomain d ds'.
Proof. intros E. unfold getDomain. rewrite <- !list_lookup_fmap. by fold (layout ds); rewrite E. Qed.

Lemma layout_getRack ds ds' r :
  layout ds = layout ds' → rack_layout <$> getRack r ds = rack_layout <$> getRack r ds'.
Proof.
  intros E. pose proof (layout_getDomain _ _ r.1 E) as Hd. unfold getRack.
  destruct (getDomain r.1 ds) as [x|], (getDomain r.1 ds') as [y|]; simpl in *; try done.
  assert (rack_layout <$> dom_racks x = rack_layout <$> dom_racks y) as Hl
    by (unfold dom_layout in Hd; congruence).
  rewrite <- !list_lookup_fmap. by rewrite Hl.
Qed.

Lemma layout_getPM ds ds' p :
  layout ds = layout ds' → pm_layout <$> getPM p ds = pm_layout <$> getPM p ds'.
Proof.
  intros E. pose proof (layout_getRack _ _ p.1 E) as Hd. unfold getPM.
  destruct (getRack p.1 ds) as [x|], (getRack p.1 ds') as [y|]; simpl in *; try done.
  assert (pm_layout <$> rack_pms x = pm_layout <$> rack_pms y) as Hl
    by (unfold rack_layout in Hd; congruence).
  rewrite <- !list_lookup_fmap. by rewrite Hl.
Qed.

Lemma layout_getNode ds ds' n :
  layout ds = layout ds' → node_layout <$> getNode n ds = node_layout <$> getNode n ds'.
Proof.
  intros E. pose proof (layout_getPM _ _ n.1 E) as Hd. unfold getNode.
  destruct (getPM n.1 ds) as [x|], (getPM n.1 ds') as [y|]; simpl in *; try done.
  assert (node_layout <$> pm_nodes x = node_layout <$> pm_nodes y) as Hl
    by (unfold pm_layout in Hd; congruence).
  rewrite <- !list_lookup_fmap. by rewrite Hl.
Qed.

End Layout.

(** *** Properties of the state that depend on the layout at most *)

Section Steps.
Context `{StdLib}.
Variable P : Manager → Prop.
Hypothesis P_domains : ∀ s ds', P s → layout ds' = layout (domains s) → P (set_domains ds' s).
Hypothesis P_pgs : ∀ s m, P s → P (set_pgs m s).
Hypothesis P_vms : ∀ s m, P s → P (set_vms m s).

Lemma Keeps_set_vms f : Keeps P (modifyM (λ s, set_vms (f s) s)).
Proof. apply Keeps_modifyM. intros s. apply P_vms. Qed.

Lemma Keeps_pgs f : Keeps P (modifyM (λ s, set_pgs (f s) s)).
Proof. apply Keeps_modifyM. intros s. apply P_pgs. Qed.

Lemma Keeps_charges g nodes :
  (∀ w, capOf (g w) = capOf w) →
  Keeps P (modifyM (λ s, set_domains (foldl (λ ds n, chargePath g n ds) (domains s) nodes) s)).
Proof. intros Hg. apply Keeps_modifyM. intros s HP. apply P_domains; [done|]. by apply layout_charges. Qed.

Lemma Keeps_bumpCount k δ p :
  Keeps P (modifyM (λ s, set_domains (alterPM (bumpCount k δ) p (domains s)) s)).
Proof. apply Keeps_modifyM. intros s HP. apply P_domains; [done|]. apply layout_bumpCount. Qed.

Hint Resolve Keeps_set_vms Keeps_pgs Keeps_bumpCount : keeps.

Lemma Keeps_place i nodes : Keeps P (place i nodes).
Proof. unfold place. keeps. by apply Keeps_charges. Qed.

Lemma Keeps_unplace i : Keeps P (unplace i).
Proof. unfold unplace. keeps. by apply Keeps_charges. Qed.

Lemma Keeps_rackGetTypeFit t r : Keeps P (rackGetTypeFit t r).
Proof.
  intros s v s' HP Hrun. unfold rackGetTypeFit in Hrun.
  mbind Hrun as rk s1 Hrk. apply readRack_inv in Hrk as [Hrk ->].
  pose proof (Rack_getTypeFit_quiet t rk) as Hq.
  destruct (Rack_getTypeFit t rk) as [v' rk']. minv.
  apply P_domains; [done|]. apply layout_alterRack. intros x Hx.
  assert (x = rk) as -> by congruence. symmetry. by apply rack_quiet_layout.
Qed.

Lemma Keeps_sortNodesByFit t pr : Keeps P (sortNodesByFit t pr).
Proof.
  intros s v s' HP Hrun. unfold sortNodesByFit in Hrun.
  mbind Hrun as pm s1 Hpm. apply readPM_inv in Hpm as [Hpm ->].
  destruct (_ <? _)%nat; [by minv|].
  pose proof (fitAll_quiet node_quiet (Node_getTypeFit t) (pm_nodes pm)
                (Node_getTypeFit_quiet t)) as Hq.
  destruct (fitAll _ _) as [fits ns]. minv.
  apply P_domains; [done|]. apply layout_alterPM. intros x Hx.
  assert (x = pm) as -> by congruence. unfold pm_layout. simpl. f_equal. symmetry.
  apply (fmap_Forall2 node_quiet); [apply node_quiet_layout|]. apply Hq.
Qed.

Lemma Keeps_countAt pr k : Keeps P (countAt pr k).
Proof. unfold countAt. keeps. Qed.

Hint Resolve Keeps_place Keeps_unplace Keeps_rackGetTypeFit Keeps_sortNodesByFit
  Keeps_countAt : keeps.

Lemma Keeps_tryPMs pgi vmi t force rack pms plc : Keeps P (tryPMs pgi vmi t force rack pms plc).
Proof. induction pms as [|p pms IH]; simpl; keeps. Qed.

Lemma Keeps_search pgi V t : Keeps P (searchPlacement pgi V t).
Proof.
  apply Keeps_searchPlacement; auto using Keeps_rackGetTypeFit, Keeps_sortNodesByFit,
    Keeps_countAt, Keeps_unplace, Keeps_tryPMs.
Qed.

Lemma Keeps_registerVMs t pgi partition i V : Keeps P (registerVMs t pgi partition i V).
Proof.
  revert i. induction V as [|j V IH]; intros i; simpl; keeps.
  apply Keeps_modifyM. intros s HP. destruct (vmsByIndex s !! j); [done|]. by apply P_vms.
Qed.

Lemma Keeps_deleteVMs V : Keeps P (deleteVMs V).
Proof. induction V as [|j V IH]; simpl; keeps. Qed.

Lemma Keeps_createPG index hp soft domA rackA : Keeps P (createPG index hp soft domA rackA).
Proof.
  unfold createPG. apply Keeps_modifyM. intros s HP.
  destruct (pgsByIndex s !! index); [done|]. by apply P_pgs.
Qed.

Lemma Keeps_nodeIndices nodes : Keeps P (nodeIndices nodes).
Proof. induction nodes as [|n nodes IH]; simpl; keeps. Qed.

Lemma Keeps_updateTargets' pgi : Keeps P (updateTargets pgi).
Proof. apply Keeps_updateTargets. apply P_pgs. Qed.

(** With the lines written as well. *)
Hypothesis P_print : ∀ s line, P s → P (print line s).

Lemma Keeps_print line : Keeps P (modifyM (print line)).
Proof. apply Keeps_modifyM. intros s. apply P_print. Qed.

Hint Resolve Keeps_print Keeps_nodeIndices Keeps_updateTargets' Keeps_search Keeps_registerVMs
  Keeps_deleteVMs Keeps_createPG : keeps.

Lemma Keeps_commitVMs best V : Keeps P (commitVMs best V).
Proof. induction V as [|j V IH]; simpl; keeps. Qed.
Hint Resolve Keeps_commitVMs : keeps.

Lemma Keeps_createVMs e V ty pgi partition : Keeps P (createVMs e V ty pgi partition).
Proof. unfold createVMs. keeps. Qed.
Hint Resolve Keeps_createVMs : keeps.

Lemma Keeps_handle e req : Keeps P (handle e req).
Proof. destruct req; simpl; keeps. Qed.
Hint Resolve Keeps_handle : keeps.

Lemma Keeps_run clock n reqs : Keeps P (run clock n reqs).
Proof. revert n. induction reqs as [|req reqs IH]; intros n; simpl; keeps. Qed.

End Steps.

(** ** The attempt behind a plan *)

Section Reached.
Context `{StdLib}.

(** The plan the loop over the rack groups returns is the result of one of
    its calls of [getBestPlacement]. *)
Lemma tryGroups_call (J : Manager → Prop) pgi B t groups best st res st' :
  (∀ racks, Keeps J (getBestPlacement pgi B t racks)) →
  J st → tryGroups pgi B t groups best st = Some (res, st') →
  J st' ∧ ∀ b, res = Some b →
    best = Some b
    ∨ ∃ racks s_in sg, racks ∈ groups ∧ J s_in
        ∧ getBestPlacement pgi B t racks s_in = Some (Some b, sg).
Proof.
  intros HJ. revert best st. induction groups as [|g groups IH]; intros best st HJst Hrun;
    simpl in Hrun.
  { apply mret_inv in Hrun as [-> ->]. split; [done|]. intros b ->. by left. }
  mbind Hrun as placement sa Hget.
  pose proof (HJ g _ _ _ HJst Hget) as HJa.
  apply IH in Hrun as [HJ' Hres]; [|done]. split; [done|].
  intros b Hb. destruct (Hres b Hb) as [Hbest|(racks & s_in & sg & Hin & HJin & Hcall)].
  - destruct placement as [p|]; [|by left].
    assert (Some b = Some p ∨ best = Some b) as [[= ->]|Hold].
    { destruct best as [b0|]; [|by left]. destruct (dlt _ _); [by left|by right]. }
    + right. exists g, st, sa. split; [by left|]. done.
    + by left.
  - right. exists racks, s_in, sg. split; [by right|]. done.
Qed.

Lemma searching_getBestPlacement B pgi t st0 racks :
  NoDup B → Keeps (searching B pgi t st0) (getBestPlacement pgi B t racks).
Proof.
  intros Hnd s r s' (F & Hready & Haa & Hco) Hrun.
  apply (getBestPlacement_spec B t) in Hrun as (F' & Haa' & Hco' & _); try done.
  split; [by eapply Frame_trans|]. split; [by eapply batchReady_frame|]. done.
Qed.

(** A successful search returns the plan of an attempt on one of the rack
    groups, which ended with the whole batch placed as the plan says. *)
Lemma searchPlacement_call (J : Manager → Prop) B pgi st b st' vm0 vm :
  NoDup B → head B = Some vm0 → vmsByIndex st !! vm0 = Some vm →
  batchReady B pgi st → antiAffine (vmsByIndex st) → colocated (vmsByIndex st) →
  Keeps J (getRackGroups2 B) →
  (∀ racks, Keeps J (getBestPlacement pgi B (vm_type vm) racks)) →
  J st →
  searchPlacement pgi B (vm_type vm) st = Some (Some b, st') →
  ∃ groups s1 racks s_in sg,
    getRackGroups2 B st = Some (groups, s1) ∧ racks ∈ groups
    ∧ searching B pgi (vm_type vm) st s_in ∧ J s_in
    ∧ getBestPlacement pgi B (vm_type vm) racks s_in = Some (Some b, sg)
    ∧ searching B pgi (vm_type vm) st sg ∧ J sg
    ∧ covers B (vm_type vm) (placements b) (vmsByIndex sg).
Proof.
  intros Hnd Hhd Hvm Hready Haa Hco HJg HJb HJst Hrun. unfold searchPlacement in Hrun.
  mbind Hrun as groups sa Hgr.
  pose proof (HJg _ _ _ HJst Hgr) as HJa.
  pose proof Hgr as Fgr. eapply (getRackGroups2_frame B) in Fgr; [|done..].
  pose proof (Frame_nil_vms _ _ _ _ Fgr) as Hv.
  mbind Hrun as best sb Htry.
  mbind Hrun as [] sc Hun. apply mret_inv in Hrun as [Hb ->]. symmetry in Hb.
  apply (tryGroups_call (λ s, searching B pgi (vm_type vm) st s ∧ J s)) in Htry
    as [_ Hres].
  - destruct (Hres b Hb) as [?|(racks & s_in & sg & Hin & [Hs HJin] & Hcall)]; [done|].
    exists groups, sa, racks, s_in, sg. do 4 (split; [done|]). split; [done|].
    split; [by eapply searching_getBestPlacement|]. split; [by eapply HJb|].
    destruct Hs as (F & Hready' & Haa' & Hco').
    apply (getBestPlacement_spec B (vm_type vm)) in Hcall as (_ & _ & _ & Hcov); try done.
    by apply Hcov.
  - intros racks s r s' [Hs HJs] Hcall. split; [by eapply searching_getBestPlacement|].
    by eapply HJb.
  - split; [|done]. split; [|split; [by eapply batchReady_frame|by rewrite Hv]].
    eapply Frame_mono; [|exact Fgr]. by intros ? ?%elem_of_nil.
Qed.

(** The steps of a creation request within the budget. *)
Lemma createVMs_steps elapsed idxs ty pgi part st ok st' :
  duration_cast_seconds elapsed < 14 →
  createVMs elapsed idxs ty pgi part st = Some (ok, st') →
  ∃ t pg st0 best st1,
    1 ≤ ty ∧ types st !! Z.to_nat (ty - 1) = Some t ∧ pgsByIndex st !! pgi = Some pg
    ∧ registerVMs t pgi (if hardRackAntiAffinityPartitions pg =? 0 then 0 else part) 0 idxs st
      = Some (tt, st0)
    ∧ searchPlacement pgi idxs t st0 = Some (best, st1)
    ∧ match best with
      | None => ok = false ∧ st' = print [-1] st1
      | Some b => ok = true
          ∧ ∃ st2, commitVMs b idxs st1 = Some (tt, st2) ∧ updateTargets pgi st2 = Some (tt, st')
      end.
Proof.
  intros Hgate Hrun. unfold createVMs in Hrun.
  destruct (14 <=? duration_cast_seconds elapsed) eqn:Hg; [apply Z.leb_le in Hg; lia|].
  mbind Hrun as ts s Hts. apply getsM_inv in Hts as [-> ->].
  mbind Hrun as t s Ht.
  assert (1 ≤ ty ∧ types st !! Z.to_nat (ty - 1) = Some t ∧ s = st) as (Hty & Htin & ->).
  { destruct (0 <=? ty - 1) eqn:Hpos; [|done]. apply orCrash_inv in Ht as [Ht ->].
    apply Z.leb_le in Hpos. split; [lia|done]. }
  mbind Hrun as pg s Hpg. apply readPG_inv in Hpg as [Hpg ->].
  mbind Hrun as [] st0 Hreg.
  mbind Hrun as best st1 Hsearch.
  exists t, pg, st0, best, st1. do 5 (split; [done|]).
  destruct best as [b|].
  - mbind Hrun as [] st2 Hcommit. mbind Hrun as [] st3 Hup.
    apply mret_inv in Hrun as [-> ->]. split; [done|]. eauto.
  - mbind Hrun as [] st2 Hp. apply modifyM_inv in Hp as ->.
    by apply mret_inv in Hrun as [-> ->].
Qed.

(** A successful creation request leaves the registry and the availability
    as the attempt behind its plan left them. *)
Lemma createVMs_reached (J : VMType → Manager → Prop) elapsed idxs ty pgi part st st' :
  Inv [] st → NoDup idxs → (∀ i, i ∈ idxs → vmsByIndex st !! i = None) →
  createVMs elapsed idxs ty pgi part st = Some (true, st') →
  ∃ t pg st0,
    t ∈ types st ∧ pgsByIndex st !! pgi = Some pg
    ∧ 1 ≤ ty ∧ types st !! Z.to_nat (ty - 1) = Some t
    ∧ registerVMs t pgi (if hardRackAntiAffinityPartitions pg =? 0 then 0 else part) 0 idxs st
      = Some (tt, st0)
    ∧ Inv idxs st0 ∧ Frame idxs idxs t st0 st'
    ∧ stdout st0 = stdout st
    ∧ ((Keeps (J t) (getRackGroups2 idxs)
        ∧ (∀ racks, Keeps (J t) (getBestPlacement pgi idxs t racks))
        ∧ J t st0) →
       ∃ groups s1 racks s_in sg b,
         getRackGroups2 idxs st0 = Some (groups, s1) ∧ racks ∈ groups
         ∧ searching idxs pgi t st0 s_in ∧ J t s_in
         ∧ getBestPlacement pgi idxs t racks s_in = Some (Some b, sg)
         ∧ searching idxs pgi t st0 sg ∧ J t sg
         ∧ covers idxs t (placements b) (vmsByIndex sg)
         ∧ vmsByIndex st' = vmsByIndex sg
         ∧ sameAvailability (domains sg) (domains st')).
Proof.
  intros HInv Hnd Hfresh Hrun.
  destruct (Z.lt_ge_cases (duration_cast_seconds elapsed) 14) as [Hg|Hg].
  2:{ unfold createVMs in Hrun. apply Z.leb_le in Hg. rewrite Hg in Hrun. by minv. }
  apply createVMs_steps in Hrun
    as (t & pg & st0 & best & st1 & Hty0 & Ht0 & Hpg & Hreg & Hsearch & Hrest); [|done].
  assert (t ∈ types st) as Ht by (by eapply list_elem_of_lookup_2).
  exists t, pg, st0. do 4 (split; [done|]). split; [done|].
  destruct best as [b|]; [|by destruct Hrest].
  destruct Hrest as (_ & st2 & Hcommit & Hup).
  destruct (register_ready _ _ _ _ _ _ _ HInv Ht Hnd Hfresh Hpg Hreg)
    as (HInv0 & Hready & Hdom & Hout & Hout0 & Hin0).
  assert (∃ vm0 vm, head idxs = Some vm0 ∧ vmsByIndex st0 !! vm0 = Some vm ∧ vm_type vm = t)
    as (vm0 & vm & Hhd & Hvm0 & Hty).
  { destruct idxs as [|i idxs].
    - unfold searchPlacement, getRackGroups2 in Hsearch. by minv.
    - destruct (Hin0 i) as (vm & ? & ? & ? & ?); [by left|]. by exists i, vm. }
  subst t.
  pose proof Hsearch as Hsearch'.
  eapply searchPlacement_spec in Hsearch' as (F01 & Hun1 & Haa1 & Hco1 & Hplan);
    try done; [|apply HInv0..].
  pose proof Hcommit as Hcommit'.
  eapply (commitVMs_spec idxs (vm_type vm)) in Hcommit' as (F12 & Hout2 & Hin2); try done.
  2:{ intros i Hi. destruct (Hin0 i Hi) as (vmi & Hvmi & Hidx & _).
      destruct (Frame_vm_fwd _ _ _ _ _ _ _ F01 Hvmi) as (vm1 & Hvm1 & (E & _)%static_fields).
      exists vm1. split; [done|]. split; [by eapply Hun1|congruence]. }
  pose proof (updateTargets_frame idxs (vm_type vm) _ _ _ _ Hup) as F23.
  pose proof (Frame_nil_vms _ _ _ _ F23) as Hv3.
  assert (Frame idxs idxs (vm_type vm) st0 st') as F.
  { eapply Frame_trans; [exact F01|]. eapply Frame_trans; [exact F12|].
    eapply Frame_mono; [|exact F23]. by intros ? ?%elem_of_nil. }
  do 3 (split; [done|]).
  intros (HJg & HJb & HJ0).
  eapply (searchPlacement_call (J (vm_type vm))) in Hsearch
    as (groups & s1 & racks & s_in & sg & Hgr & Hin & Hs_in & HJin & Hcall & Hsg & HJsg & Hcov);
    try done; [|apply HInv0..].
  exists groups, s1, racks, s_in, sg, b. do 8 (split; [done|]).
  destruct Hsg as (Fg & _).
  assert (vmsByIndex st' = vmsByIndex sg) as Hfinal.
  { rewrite Hv3. apply map_eq. intros i. destruct (decide (i ∈ idxs)) as [Hi|Hi].
    - destruct (Hin2 i Hi) as (vm1 & nodes & Hvm1 & -> & _ & ->).
      destruct (Hcov i Hi) as (vmg & Hvmg & Hplc & _). rewrite Hvmg, Hplc. simpl. f_equal.
      rewrite <- (set_vm_nodes_self vmg) at 2. apply set_vm_nodes_static.
      pose proof (fr_vms_static _ _ _ _ _ F01 i) as E1.
      pose proof (fr_vms_static _ _ _ _ _ Fg i) as E2.
      rewrite Hvm1 in E1. rewrite Hvmg in E2. rewrite <- E2 in E1. simpl in E1. congruence.
    - rewrite Hout2 by done. rewrite (fr_vms_out _ _ _ _ _ F01) by done.
      by rewrite (fr_vms_out _ _ _ _ _ Fg). }
  split; [done|].
  intros l. rewrite (fr_balance _ _ _ _ _ F l), (fr_balance _ _ _ _ _ Fg l). by rewrite Hfinal.
Qed.

End Reached.

(** ** Conservation of the resources *)

Section Conservation.
Context `{StdLib}.

Lemma debt_app vms A B l : debt vms (A ++ B) l = padd (debt vms A l) (debt vms B l).
Proof.
  induction A as [|i A IH]; simpl; [by rewrite padd_0_l|]. by rewrite IH, padd_assoc.
Qed.

Lemma debt_perm vms A B l : A ≡ₚ B → debt vms A l = debt vms B l.
Proof.
  induction 1 as [|i A B _ IH|i j A|A B C _ IH1 _ IH2]; simpl; try congruence.
  rewrite !padd_assoc. f_equal. apply padd_comm.
Qed.

Lemma registered_spec vms i : i ∈ registered vms ↔ is_Some (vms !! i).
Proof.
  unfold registered. rewrite list_elem_of_fmap. split.
  - intros ([j vm] & -> & Hin). apply elem_of_map_to_list in Hin. by exists vm.
  - intros [vm Hvm]. exists (i, vm). split; [done|]. by apply elem_of_map_to_list.
Qed.

Lemma registered_NoDup vms : NoDup (registered vms).
Proof. apply NoDup_fst_map_to_list. Qed.

Lemma registered_grow vms vms' B :
  NoDup B → (∀ i, i ∈ B → vms !! i = None ∧ is_Some (vms' !! i)) →
  (∀ i, i ∉ B → vms' !! i = vms !! i) →
  registered vms' ≡ₚ B ++ registered vms.
Proof.
  intros Hnd HB Hout. apply NoDup_Permutation.
  - apply registered_NoDup.
  - apply NoDup_app. split; [done|]. split; [|apply registered_NoDup].
    intros i Hi [vm Hvm]%registered_spec. destruct (HB i Hi) as [E _]. congruence.
  - intros i. rewrite elem_of_app, !registered_spec. split.
    + intros Hi. destruct (decide (i ∈ B)); [by left|right]. by rewrite <- Hout.
    + intros [Hi|Hi]; [by apply HB|].
      destruct (decide (i ∈ B)) as [HiB|HiB]; [by apply HB|]. by rewrite Hout.
Qed.

Lemma capacity_layout ds ds' l : layout ds = layout ds' → capacity ds l = capacity ds' l.
Proof.
  intros E. destruct l as [d|r|p|n|p k]; simpl.
  - pose proof (layout_getDomain _ _ d E) as Hl.
    destruct (getDomain d ds), (getDomain d ds'); simpl in *; try done.
    unfold dom_layout in Hl. f_equal. congruence.
  - pose proof (layout_getRack _ _ r E) as Hl.
    destruct (getRack r ds), (getRack r ds'); simpl in *; try done.
    unfold rack_layout in Hl. f_equal. congruence.
  - pose proof (layout_getPM _ _ p E) as Hl.
    destruct (getPM p ds), (getPM p ds'); simpl in *; try done.
    unfold pm_layout in Hl. f_equal. congruence.
  - pose proof (layout_getNode _ _ n E) as Hl.
    destruct (getNode n ds), (getNode n ds'); simpl in *; try done.
    unfold node_layout in Hl. f_equal. congruence.
  - pose proof (layout_getPM _ _ p E) as Hl.
    destruct (getPM p ds), (getPM p ds'); simpl in *; done.
Qed.

(** Every request keeps the types and the layout. *)
Lemma handle_layout e req st b st' :
  handle e req st = Some (b, st') →
  types st' = types st ∧ layout (domains st') = layout (domains st).
Proof.
  intros Hh.
  eapply (Keeps_handle (λ s, types s = types st ∧ layout (domains s) = layout (domains st)))
    in Hh; try done.
  - intros s ds' [? ?] E. split; [done|]. simpl. congruence.
Qed.

Lemma run_layout clock n reqs st u st' :
  run clock n reqs st = Some (u, st') →
  types st' = types st ∧ layout (domains st') = layout (domains st).
Proof.
  intros Hh.
  eapply (Keeps_run (λ s, types s = types st ∧ layout (domains s) = layout (domains st)))
    in Hh; try done.
  - intros s ds' [? ?] E. split; [done|]. simpl. congruence.
Qed.

(** The fleet as the constructor leaves it. *)
Lemma initial_full h l : observe (domains (initial h)) l = capacity (domains (initial h)) l.
Proof.
  assert (∀ d x, getDomain d (domains (initial h)) = Some x →
            availOf (dom_res x) = capOf (dom_res x)
            ∧ ∀ r y, dom_racks x !! r = Some y →
                availOf (rack_res y) = capOf (rack_res y)
                ∧ ∀ p z, rack_pms y !! p = Some z →
                    availOf (pm_res z) = capOf (pm_res z) ∧ vmsByPG z = ∅
                    ∧ ∀ n w, pm_nodes z !! n = Some w →
                        availOf (node_res w) = capOf (node_res w)) as Hall.
  { intros d x Hx. unfold initial, mkManager, getDomain in Hx. simpl in Hx.
    rewrite list_lookup_fmap in Hx. apply fmap_Some in Hx as (i & _ & ->).
    split; [done|]. intros r y Hy. simpl in Hy.
    rewrite list_lookup_fmap in Hy. apply fmap_Some in Hy as (j & _ & ->).
    split; [done|]. intros p z Hz. simpl in Hz.
    rewrite list_lookup_fmap in Hz. apply fmap_Some in Hz as (k & _ & ->).
    split; [done|]. split; [done|]. intros n w Hw. simpl in Hw.
    rewrite list_lookup_imap in Hw. apply fmap_Some in Hw as (cm & _ & ->). done. }
  destruct l as [d|r|p|n|p k]; simpl.
  - destruct (getDomain d _) as [x|] eqn:Ex; simpl; [|done]. f_equal. by apply (Hall d).
  - unfold getRack. destruct (getDomain r.1 _) as [x|] eqn:Ex; simpl; [|done].
    destruct (dom_racks x !! r.2) as [y|] eqn:Ey; simpl; [|done]. f_equal.
    destruct (Hall _ _ Ex) as [_ Hx]. by apply (Hx _ _ Ey).
  - unfold getPM, getRack. destruct (getDomain p.1.1 _) as [x|] eqn:Ex; simpl; [|done].
    destruct (dom_racks x !! p.1.2) as [y|] eqn:Ey; simpl; [|done].
    destruct (rack_pms y !! p.2) as [z|] eqn:Ez; simpl; [|done]. f_equal.
    destruct (Hall _ _ Ex) as [_ Hx]. destruct (Hx _ _ Ey) as [_ Hy].
    by destruct (Hy _ _ Ez) as [? _].
  - unfold getNode, getPM, getRack.
    destruct (getDomain n.1.1.1 _) as [x|] eqn:Ex; simpl; [|done].
    destruct (dom_racks x !! n.1.1.2) as [y|] eqn:Ey; simpl; [|done].
    destruct (rack_pms y !! n.1.2) as [z|] eqn:Ez; simpl; [|done].
    destruct (pm_nodes z !! n.2) as [w|] eqn:Ew; simpl; [|done]. f_equal.
    destruct (Hall _ _ Ex) as [_ Hx]. destruct (Hx _ _ Ey) as [_ Hy].
    destruct (Hy _ _ Ez) as (_ & _ & Hz). by apply (Hz _ _ Ew).
  - unfold getPM, getRack. destruct (getDomain p.1.1 _) as [x|] eqn:Ex; simpl; [|done].
    destruct (dom_racks x !! p.1.2) as [y|] eqn:Ey; simpl; [|done].
    destruct (rack_pms y !! p.2) as [z|] eqn:Ez; simpl; [|done]. f_equal.
    destruct (Hall _ _ Ex) as [_ Hx]. destruct (Hx _ _ Ey) as [_ Hy].
    destruct (Hy _ _ Ez) as (_ & -> & _). done.
Qed.

Lemma pneg_padd a b : pneg (padd a b) = padd (pneg a) (pneg b).
Proof. unfold pneg, padd. simpl. f_equal; lia. Qed.

Lemma padd_0_r a : padd a (0, 0) = a.
Proof. by rewrite padd_comm, padd_0_l. Qed.

(** What a successful creation request charges. *)
Lemma createVMs_charge e idxs ty pgi part st st' l :
  Inv [] st → NoDup idxs → (∀ i, i ∈ idxs → vmsByIndex st !! i = None) →
  createVMs e idxs ty pgi part st = Some (true, st') →
  (∀ i, i ∉ idxs → vmsByIndex st' !! i = vmsByIndex st !! i)
  ∧ (∀ i, i ∈ idxs → is_Some (vmsByIndex st' !! i))
  ∧ observe (domains st') l = shift (pneg (debt (vmsByIndex st') idxs l)) (observe (domains st) l).
Proof.
  intros HInv Hnd Hfresh Hrun.
  pose proof Hrun as Hrun'.
  apply (createVMs_reached (λ _ _, True)) in Hrun'
    as (t & pg & st0 & Ht & Hpg & _ & _ & Hreg & HInv0 & F & _); try done.
  destruct (register_ready _ _ _ _ _ _ _ HInv Ht Hnd Hfresh Hpg Hreg)
    as (_ & _ & Hdom & _ & Hout0 & Hin0).
  split; [|split].
  - intros i Hi. rewrite (fr_vms_out _ _ _ _ _ F) by done. by apply Hout0.
  - intros i Hi. destruct (Hin0 i Hi) as (vm & Hvm & _).
    destruct (Frame_vm_fwd _ _ _ _ _ _ _ F Hvm) as (vm' & -> & _). done.
  - rewrite (fr_balance _ _ _ _ _ F l), Hdom. f_equal.
    rewrite debt_zero; [by rewrite padd_0_l|].
    intros i vm Hi Hvm. destruct (Hin0 i Hi) as (vm' & Hvm' & _ & _ & Hnil). congruence.
Qed.

Lemma deleteVMs_in V st u st' :
  deleteVMs V st = Some (u, st') →
  NoDup V ∧ (∀ i, i ∈ V → is_Some (vmsByIndex st !! i) ∧ vmsByIndex st' !! i = None)
  ∧ (∀ i, i ∉ V → vmsByIndex st' !! i = vmsByIndex st !! i)
  ∧ stdout st' = stdout st ∧ types st' = types st.
Proof.
  revert st. induction V as [|i V IH]; intros st Hd.
  { simpl in Hd. apply mret_inv in Hd as [_ ->]. split; [constructor|].
    split; [by intros i ?%elem_of_nil|]. done. }
  apply deleteVMs_cons in Hd as (vm & n0 & st1 & Hvm & Hn0 & Hun & Hd).
  apply unplace_inv in Hun as (vm' & n0' & Hvm' & _ & ->).
  apply IH in Hd as (Hnd & Hin & Hout & Hstd & Hty). simpl in *.
  assert (i ∉ V) as HiV.
  { intros Hi. destruct (Hin i Hi) as [[x Hx] _]. by rewrite lookup_delete_eq in Hx. }
  split; [by constructor|]. split; [|split; [|done]].
  - intros j [->|Hj]%elem_of_cons.
    + split; [done|]. rewrite Hout by done. by rewrite lookup_delete_eq.
    + destruct (Hin j Hj) as [Hs Hn]. split; [|done].
      destruct (decide (j = i)) as [->|Hji]; [done|].
      by rewrite lookup_delete_ne, lookup_insert_ne in Hs.
  - intros j Hj. apply not_elem_of_cons in Hj as [Hji Hj].
    rewrite Hout by done. by rewrite lookup_delete_ne, lookup_insert_ne.
Qed.

Lemma handle_conserved e req st st' :
  Inv [] st → wf_request st req → conserved st →
  handle e req st = Some (false, st') → conserved st'.
Proof.
  intros HInv Hwf Hc Hh l.
  pose proof (handle_layout _ _ _ _ _ Hh) as [_ Hlay].
  rewrite (capacity_layout _ _ l Hlay).
  destruct req as [index hp soft domA rackA|idxs ty pgi part|idxs|]; simpl in Hh.
  - mbind Hh as [] s Hc'. apply mret_inv in Hh as [_ ->]. unfold createPG in Hc'.
    apply modifyM_inv in Hc' as ->. destruct (pgsByIndex st !! index); apply Hc.
  - mbind Hh as ok s Hc'. apply mret_inv in Hh as [Hok ->]. destruct ok; [|done].
    destruct Hwf as [Hnd Hfresh].
    destruct (createVMs_charge _ _ _ _ _ _ _ l HInv Hnd Hfresh Hc') as (Hout & Hin & ->).
    rewrite (Hc l), shift_shift. f_equal. rewrite <- pneg_padd. f_equal.
    rewrite (debt_perm _ (registered (vmsByIndex s)) (idxs ++ registered (vmsByIndex st))).
    2:{ apply registered_grow; [done| |done]. intros i Hi. split; [by apply Hfresh|by apply Hin]. }
    rewrite debt_app. f_equal. apply debt_ext. intros i [vm Hvm]%registered_spec.
    symmetry. apply Hout. intros Hi. specialize (Hfresh i Hi). congruence.
  - mbind Hh as [] s Hd. apply mret_inv in Hh as [_ ->].
    pose proof (deleteVMs_in _ _ _ _ Hd) as (Hnd & Hin & Hout & _).
    rewrite (deleteVMs_observe _ _ _ _ l Hnd Hd), (Hc l), shift_shift. f_equal.
    rewrite (debt_perm _ (registered (vmsByIndex st)) (idxs ++ registered (vmsByIndex s))).
    2:{ apply registered_grow; [done| |].
        - intros i Hi. destruct (Hin i Hi). done.
        - intros i Hi. symmetry. by apply Hout. }
    rewrite debt_app, pneg_padd.
    rewrite (debt_ext (vmsByIndex st) (vmsByIndex s) (registered (vmsByIndex s))).
    2:{ intros i [vm Hvm]%registered_spec. apply Hout. intros Hi.
        destruct (Hin i Hi) as [_ E]. congruence. }
    destruct (debt (vmsByIndex st) idxs l), (debt (vmsByIndex st) (registered (vmsByIndex s)) l).
    unfold padd, pneg. simpl. f_equal; lia.
  - by apply mret_inv in Hh as [[=] _].
Qed.

End Conservation.

(** ** Nodes within their capacity *)

Section Sound.
Context `{StdLib}.
Variable C : Prop.

Lemma observe_node ds n : observe ds (LNode n) = availOf <$> (node_res <$> getNode n ds).
Proof. done. Qed.

Lemma nodesNonneg_observe ds :
  nodesNonneg ds ↔ ∀ n a, observe ds (LNode n) = Some a → 0 ≤ a.1 ∧ 0 ≤ a.2.
Proof.
  split.
  - intros Hn n a Ha. simpl in Ha. destruct (getNode n ds) as [x|] eqn:E; [|done].
    injection Ha as <-. by apply (Hn n x).
  - intros Hn n x Hx. apply (Hn n (availOf (node_res x))). simpl. by rewrite Hx.
Qed.

Lemma valid_observe ds n : is_Some (getNode n ds) ↔ is_Some (observe ds (LNode n)).
Proof. simpl. destruct (getNode n ds); simpl; split; intros [? ?]; done. Qed.

Lemma sound_same V t s s' :
  vmsByIndex s' = vmsByIndex s → sameAvailability (domains s) (domains s') →
  sound C V t s → sound C V t s'.
Proof.
  intros Hv Hs (Hn & Hd & Hty & HV). unfold sound. rewrite Hv.
  split; [|split; [|done]].
  - intros HC. specialize (Hn HC).
    apply nodesNonneg_observe. intros n a. rewrite <- Hs. by apply nodesNonneg_observe.
  - intros i vm Hvm. destruct (Hd i vm Hvm) as [Hnd Hval]. split; [done|].
    intros n Hin. apply valid_observe. rewrite <- Hs. apply valid_observe. by apply Hval.
Qed.

Lemma Frame_same B t s s' :
  Frame B [] t s s' → vmsByIndex s' = vmsByIndex s ∧ sameAvailability (domains s) (domains s').
Proof.
  intros F. pose proof (Frame_nil_vms _ _ _ _ F) as Hv. split; [done|].
  intros l. rewrite (fr_balance _ _ _ _ _ F l), Hv, padd_pneg. by rewrite shift_0.
Qed.

Lemma sound_frame V t B t' s s' : Frame B [] t' s s' → sound C V t s → sound C V t s'.
Proof. intros [Hv Hs]%Frame_same. by apply sound_same. Qed.

Lemma sound_pgs V t s m : sound C V t s → sound C V t (set_pgs m s).
Proof. done. Qed.

Lemma sound_rackFit V t t' r : Keeps (sound C V t) (rackGetTypeFit t' r).
Proof. intros s v s' Hs Hrun. apply (rackGetTypeFit_frame [] t') in Hrun. by eapply sound_frame. Qed.

Lemma sound_nodesFit V t t' pr : Keeps (sound C V t) (sortNodesByFit t' pr).
Proof. intros s v s' Hs Hrun. apply (sortNodesByFit_frame [] t') in Hrun. by eapply sound_frame. Qed.

Lemma sound_count V t pr k : Keeps (sound C V t) (countAt pr k).
Proof. intros s v s' Hs Hrun. apply (countAt_frame [] t) in Hrun. by eapply sound_frame. Qed.

Lemma filter_none {A} (P : A → Prop) `{∀ x, Decision (P x)} (l : list A) :
  (∀ y, y ∈ l → ¬ P y) → filter P l = [].
Proof.
  induction l as [|x l IH]; intros Hl; [done|].
  rewrite filter_cons_False by (apply Hl; by left). apply IH. intros y Hy. apply Hl. by right.
Qed.

Lemma filter_eq_NoDup {A} `{EqDecision A} (l : list A) n :
  NoDup l → (length (filter (λ m, m = n) l) ≤ 1)%nat.
Proof.
  induction 1 as [|x l Hx _ IH]; simpl; [lia|].
  rewrite filter_cons. destruct (decide (x = n)) as [->|]; [|lia]. simpl.
  rewrite filter_none; [simpl; lia|]. by intros y Hy ->.
Qed.

Lemma heldBy_node t pg nodes n :
  heldBy t pg nodes (LNode n)
  = (Z.of_nat (length (filter (λ m, m = n) nodes)) * t_cpu t,
     Z.of_nat (length (filter (λ m, m = n) nodes)) * t_memory t).
Proof.
  unfold heldBy.
  assert (filter (λ m, onPath m (LNode n) = true) nodes = filter (λ m, m = n) nodes) as ->.
  { apply list_filter_iff. intros m. simpl. rewrite bool_decide_eq_true. split; congruence. }
  done.
Qed.

Lemma sound_unplace V t i : Keeps (sound C V t) (unplace i).
Proof.
  intros s u s' (Hn & Hd & Hty & HV) Hrun.
  apply unplace_inv in Hrun as (vm & n0 & Hvm & Hn0 & ->).
  destruct (Hty i vm Hvm) as [Hc Hm].
  split; [|split; [|split]]; simpl.
  - intros HC. specialize (Hn HC). apply nodesNonneg_observe. intros n a Ha.
    rewrite (observe_unplace _ _ _ n0), heldBy_node in Ha by done.
    destruct (observe (domains s) (LNode n)) as [b|] eqn:Eb; [|done].
    apply (proj1 (nodesNonneg_observe _) Hn) in Eb. simpl in Ha. injection Ha as <-.
    unfold padd. simpl. split; nia.
  - intros j vj Hj. destruct (decide (j = i)) as [->|Hji].
    + rewrite lookup_insert_eq in Hj. injection Hj as <-. simpl. split; [constructor|].
      by intros n ?%elem_of_nil.
    + rewrite lookup_insert_ne in Hj by done. destruct (Hd j vj Hj) as [Hnd Hval].
      split; [done|]. intros n Hin. apply valid_observe.
      rewrite (observe_unplace _ _ _ n0) by done.
      destruct (proj1 (valid_observe _ _) (Hval n Hin)) as [b ->]. done.
  - intros j vj Hj. destruct (decide (j = i)) as [->|Hji].
    + rewrite lookup_insert_eq in Hj. injection Hj as <-. simpl. done.
    + rewrite lookup_insert_ne in Hj by done. by eapply Hty.
  - intros j vj HjV Hj. destruct (decide (j = i)) as [->|Hji].
    + rewrite lookup_insert_eq in Hj. injection Hj as <-. simpl. by eapply HV.
    + rewrite lookup_insert_ne in Hj by done. by eapply HV.
Qed.

(** The nodes [sortNodesByFit] returns are the nodes of the PM, each once. *)
Lemma sortNodesByFit_nodes t pr st l st' :
  sortNodesByFit t pr st = Some (l, st') →
  NoDup l.*1 ∧ ∀ i node, (i, node) ∈ l → getNode (pr, i) (domains st') = Some node.
Proof.
  unfold sortNodesByFit. intros Hs.
  mbind Hs as pm s Hpm. apply readPM_inv in Hpm as [Hpm ->].
  assert (∀ ns : list Node, NoDup (imap pair ns).*1
            ∧ ∀ i node, (i, node) ∈ imap pair ns → ns !! i = Some node) as Himap.
  { intros ns. split.
    - assert ((imap pair ns).*1 = seq 0 (length ns)) as ->; [|apply NoDup_seq].
      apply list_eq. intros i. rewrite list_lookup_fmap, list_lookup_imap.
      destruct (ns !! i) as [x|] eqn:E; simpl.
      + symmetry. apply lookup_seq. split; [done|]. by eapply lookup_lt_Some.
      + symmetry. apply lookup_seq_ge. by apply lookup_ge_None.
    - intros i node Hin. apply list_elem_of_lookup in Hin as [j Hj].
      rewrite list_lookup_imap in Hj. destruct (ns !! j) eqn:E; simpl in Hj; [|done].
      by injection Hj as <- <-. }
  destruct (length (pm_nodes pm) <? 2)%nat.
  - apply mret_inv in Hs as [-> ->]. destruct (Himap (pm_nodes pm)) as [Hnd Hin].
    split; [done|]. intros i node Hi. unfold getNode. simpl. rewrite Hpm. simpl. by apply Hin.
  - pose proof (fitAll_quiet node_quiet (Node_getTypeFit t) (pm_nodes pm)
                  (Node_getTypeFit_quiet t)) as Hq.
    assert (length (fitAll (Node_getTypeFit t) (pm_nodes pm)).1
            = length (fitAll (Node_getTypeFit t) (pm_nodes pm)).2) as Hlen.
    { generalize (pm_nodes pm). intros xs. induction xs as [|x xs IH]; simpl; [done|].
      destruct (Node_getTypeFit t x), (fitAll (Node_getTypeFit t) xs). simpl in *. lia. }
    destruct (fitAll _ _) as [fits ns]. simpl in *.
    mbind Hs as [] s Hmod. apply modifyM_inv in Hmod as ->.
    apply mret_inv in Hs as [-> ->]. simpl.
    destruct (Himap ns) as [Hnd Hin].
    assert ((std_sort (λ a b, b.2 <? a.2) (zip (imap pair ns) fits)).*1 ≡ₚ imap pair ns) as Hp.
    { rewrite std_sort_perm. rewrite fst_zip; [done|]. rewrite length_imap. lia. }
    split; [by rewrite Hp|]. intros i node Hi. rewrite Hp in Hi. apply Hin in Hi.
    unfold getNode. simpl. rewrite getPM_alterPM, decide_True by done. rewrite Hpm. simpl. done.
Qed.

Lemma pickNodes_in t pr cands acc n :
  n ∈ pickNodes t pr cands acc →
  n ∈ acc ∨ ∃ i node, n = (pr, i) ∧ (i, node) ∈ cands
                     ∧ hasResources (t_cpu t) (t_memory t) (node_res node) = true.
Proof.
  revert acc. induction cands as [|[i node] cands IH]; intros acc Hn; simpl in Hn; [by left|].
  destruct (hasResources _ _ _) eqn:Hres; simpl in Hn.
  - assert (n ∈ acc ++ [(pr, i)] → n ∈ acc ∨ ∃ i0 node0, n = (pr, i0)
              ∧ (i0, node0) ∈ (i, node) :: cands
              ∧ hasResources (t_cpu t) (t_memory t) (node_res node0) = true) as Hhere.
    { intros [Ha|Hb%list_elem_of_singleton]%elem_of_app; [by left|right].
      exists i, node. split; [done|]. split; [by left|done]. }
    destruct (_ =? _); [by apply Hhere|].
    apply IH in Hn as [Hn|(j & nd & -> & Hin & Hr)]; [by apply Hhere|].
    right. exists j, nd. split; [done|]. split; [by right|done].
  - apply IH in Hn as [Hn|(j & nd & -> & Hin & Hr)]; [by left|].
    right. exists j, nd. split; [done|]. split; [by right|done].
Qed.

Lemma pickNodes_NoDup t pr cands acc :
  NoDup (acc ++ ((λ c, (pr, c.1)) <$> cands)) → NoDup (pickNodes t pr cands acc).
Proof.
  revert acc. induction cands as [|[i node] cands IH]; intros acc Hnd; simpl in *.
  { by rewrite app_nil_r in Hnd. }
  assert (NoDup ((acc ++ [(pr, i)]) ++ ((λ c, (pr, c.1)) <$> cands))) as Hnd'.
  { by rewrite <- app_assoc. }
  assert (NoDup (acc ++ ((λ c, (pr, c.1)) <$> cands))) as Hnd''.
  { apply NoDup_app in Hnd as (Ha & Hdis & Hc). apply NoDup_cons in Hc as [_ Hc].
    apply NoDup_app. split; [done|]. split; [|done].
    intros x Hx Hin. apply (Hdis x Hx). by right. }
  destruct (negb _); [by apply IH|].
  destruct (_ =? _); [|by apply IH].
  by apply NoDup_app in Hnd' as (? & _).
Qed.

Lemma sound_tryPMs V t pgi vmi force rack pms plc :
  vmi ∈ V → Keeps (sound C V t) (tryPMs pgi vmi t force rack pms plc).
Proof.
  intros HiV. induction pms as [|p pms IH]; simpl; [apply Keeps_ret|].
  apply Keeps_bind; [apply Keeps_readPM|]. intros pm.
  destruct (negb (hasResourcesType t (pm_res pm))); [done|].
  apply Keeps_bind; [apply Keeps_readPG|]. intros pg.
  apply Keeps_bind.
  { destruct (_ && _); [|apply Keeps_ret].
    apply Keeps_bind; [apply sound_count|]. intros ?. apply Keeps_ret. }
  intros [|]; [done|].
  intros s res s' Hs Hrun.
  mbind Hrun as pmNodes s1 Hsort.
  pose proof (sound_nodesFit V t _ _ _ _ _ Hs Hsort) as Hs1.
  apply sortNodesByFit_nodes in Hsort as [Hnd Hnodes].
  destruct (negb (_ =? _)); [by eapply IH|].
  mbind Hrun as vm s2 Hvm. apply readVM_inv in Hvm as [Hvm ->].
  mbind Hrun as [] s2 Hplace. apply mret_inv in Hrun as [_ ->].
  apply place_inv in Hplace as (vm' & n0 & Hvm' & Hn0 & ->).
  assert (vm' = vm) as -> by congruence.
  destruct Hs1 as (Hn & Hd & Hty & HV).
  pose proof (HV vmi vm HiV Hvm) as Htype.
  destruct (Hty vmi vm Hvm) as [Hc Hm].
  set (vmNodes := pickNodes t (rack, p) pmNodes []) in *.
  assert (NoDup vmNodes) as HndN.
  { apply pickNodes_NoDup. simpl.
    apply (NoDup_fmap_2_strong (λ c : nat * Node, ((rack, p), c.1) : NodeRef)).
    - intros [i x] [j y] Hi Hj [= E]. simpl in E. subst j. f_equal.
      apply Hnodes in Hi, Hj. congruence.
    - apply NoDup_fmap_1 with (f := fst). done. }
  assert (∀ n, n ∈ vmNodes → ∃ node, getNode n (domains s1) = Some node
            ∧ hasResources (t_cpu t) (t_memory t) (node_res node) = true) as Hpick.
  { intros n Hin. apply pickNodes_in in Hin as [Hin|(i & node & -> & Hin & Hr)].
    - by apply elem_of_nil in Hin.
    - exists node. split; [by apply Hnodes|done]. }
  split; [|split; [|split]]; simpl.
  - intros HC. specialize (Hn HC). apply nodesNonneg_observe. intros n a Ha.
    rewrite (observe_place _ _ _ n0), heldBy_node in Ha by done.
    destruct (observe (domains s1) (LNode n)) as [b|] eqn:Eb; [|done].
    pose proof (proj1 (nodesNonneg_observe _) Hn _ _ Eb) as Hb.
    simpl in Ha. injection Ha as <-. unfold padd, pneg. simpl.
    destruct (decide (n ∈ vmNodes)) as [Hin|Hout].
    + destruct (Hpick n Hin) as (node & Hnode & Hres).
      simpl in Eb. rewrite Hnode in Eb. injection Eb as <-.
      pose proof (filter_eq_NoDup vmNodes n HndN) as Hle.
      unfold hasResources in Hres. apply andb_true_iff in Hres as [Hr1 Hr2].
      apply Z.leb_le in Hr1, Hr2. rewrite Htype. rewrite Htype in Hc, Hm. simpl in Hb.
      destruct (length (filter (λ m, m = n) vmNodes)) as [|[|k]]; simpl; lia.
    + rewrite filter_none by (by intros y Hy ->).
      simpl. split; lia.
  - intros j vj Hj. destruct (decide (j = vmi)) as [->|Hji].
    + rewrite lookup_insert_eq in Hj. injection Hj as <-. simpl. split; [done|].
      intros n Hin. apply valid_observe. rewrite (observe_place _ _ _ n0) by done.
      destruct (Hpick n Hin) as (node & Hnode & _).
      simpl. rewrite Hnode. done.
    + rewrite lookup_insert_ne in Hj by done. destruct (Hd j vj Hj) as [Hnd' Hval].
      split; [done|]. intros n Hin. apply valid_observe.
      rewrite (observe_place _ _ _ n0) by done.
      destruct (proj1 (valid_observe _ _) (Hval n Hin)) as [b ->]. done.
  - intros j vj Hj. destruct (decide (j = vmi)) as [->|Hji].
    + rewrite lookup_insert_eq in Hj. injection Hj as <-. simpl. done.
    + rewrite lookup_insert_ne in Hj by done. by eapply Hty.
  - intros j vj HjV Hj. destruct (decide (j = vmi)) as [->|Hji].
    + rewrite lookup_insert_eq in Hj. injection Hj as <-. simpl. done.
    + rewrite lookup_insert_ne in Hj by done. by eapply HV.
Qed.

Lemma sound_getBestPlacement V t pgi racks : Keeps (sound C V t) (getBestPlacement pgi V t racks).
Proof.
  apply Keeps_getBestPlacement; auto using sound_pgs, sound_rackFit, sound_nodesFit,
    sound_count, sound_unplace, sound_tryPMs.
Qed.

Lemma sound_getRackGroups2 V t B : Keeps (sound C V t) (getRackGroups2 B).
Proof.
  apply Keeps_getRackGroups2; auto using sound_pgs, sound_rackFit, sound_nodesFit,
    sound_count, sound_unplace, sound_tryPMs.
Qed.

Lemma Inv_types_nonneg X st i vm :
  Inv X st → vmsByIndex st !! i = Some vm → 0 ≤ t_cpu (vm_type vm) ∧ 0 ≤ t_memory (vm_type vm).
Proof.
  intros HInv Hvm. pose proof (inv_vmtype _ _ HInv _ _ Hvm) as Hty.
  destruct (inv_wf _ _ HInv _ Hty) as (_ & ? & ?). lia.
Qed.

Lemma createVMs_sound e idxs ty pgi part st st' :
  Inv [] st → NoDup idxs → (∀ i, i ∈ idxs → vmsByIndex st !! i = None) →
  (C → nodesNonneg (domains st)) → nodesDistinct (domains st) (vmsByIndex st) →
  createVMs e idxs ty pgi part st = Some (true, st') →
  (C → nodesNonneg (domains st')) ∧ nodesDistinct (domains st') (vmsByIndex st').
Proof.
  intros HInv Hnd Hfresh Hn Hd Hrun.
  apply (createVMs_reached (sound C idxs)) in Hrun
    as (t & pg & st0 & Ht & Hpg & _ & _ & Hreg & HInv0 & F & _ & Hreach); try done.
  destruct (register_ready _ _ _ _ _ _ _ HInv Ht Hnd Hfresh Hpg Hreg)
    as (_ & _ & Hdom & _ & Hout0 & Hin0).
  destruct Hreach as (groups & s1 & racks & s_in & sg & b & _ & _ & _ & _ & _ & _ & Hsg & _
                      & Hv & Hsame).
  - split; [apply sound_getRackGroups2|]. split; [intros; apply sound_getBestPlacement|].
    rewrite <- Hdom in Hn, Hd. split; [done|]. split; [|split].
    + intros i vm Hvm. destruct (decide (i ∈ idxs)) as [Hi|Hi].
      * destruct (Hin0 i Hi) as (vm' & Hvm' & _ & _ & Hnil).
        assert (vm' = vm) as -> by congruence. rewrite Hnil. split; [constructor|].
        by intros n ?%elem_of_nil.
      * rewrite Hout0 in Hvm by done. by apply (Hd i vm).
    + intros i vm Hvm. exact (Inv_types_nonneg _ _ _ _ HInv0 Hvm).
    + intros i vm Hi Hvm. destruct (Hin0 i Hi) as (vm' & Hvm' & _ & Hty' & _). congruence.
  - apply (sound_same idxs t sg st') in Hsg; [|done..].
    by destruct Hsg as (? & ? & _).
Qed.

Lemma deleteVMs_sound V st u st' :
  Inv [] st →
  (C → nodesNonneg (domains st)) → nodesDistinct (domains st) (vmsByIndex st) →
  deleteVMs V st = Some (u, st') →
  (C → nodesNonneg (domains st')) ∧ nodesDistinct (domains st') (vmsByIndex st').
Proof.
  revert st. induction V as [|i V IH]; intros st HInv Hn Hd Hrun.
  { simpl in Hrun. by apply mret_inv in Hrun as [_ ->]. }
  apply deleteVMs_cons in Hrun as (vm & n0 & st1 & Hvm & Hn0 & Hun & Hrun).
  pose proof (delete_step_Inv _ _ _ _ HInv Hvm Hun) as HInv1.
  assert (sound C [] (vm_type vm) st) as Hs.
  { split; [done|]. split; [done|]. split; [|by intros j vj ?%elem_of_nil].
    intros j vj Hj. exact (Inv_types_nonneg _ _ _ _ HInv Hj). }
  apply (sound_unplace [] (vm_type vm) i _ _ _ Hs) in Hun as (Hn1 & Hd1 & _).
  eapply IH in Hrun; [exact Hrun|exact HInv1|exact Hn1|].
  simpl. intros j vj Hj. destruct (decide (j = i)) as [->|Hji].
  - by rewrite lookup_delete_eq in Hj.
  - rewrite lookup_delete_ne in Hj by done. by apply (Hd1 j).
Qed.

Lemma handle_sound e req st st' :
  Inv [] st → wf_request st req →
  (C → nodesNonneg (domains st)) → nodesDistinct (domains st) (vmsByIndex st) →
  handle e req st = Some (false, st') →
  (C → nodesNonneg (domains st')) ∧ nodesDistinct (domains st') (vmsByIndex st').
Proof.
  intros HInv Hwf Hn Hd Hh.
  destruct req as [index hp soft domA rackA|idxs ty pgi part|idxs|]; simpl in Hh.
  - mbind Hh as [] s Hc'. apply mret_inv in Hh as [_ ->]. unfold createPG in Hc'.
    apply modifyM_inv in Hc' as ->. by destruct (pgsByIndex st !! index).
  - mbind Hh as ok s Hc'. apply mret_inv in Hh as [Hok ->]. destruct ok; [|done].
    destruct Hwf as [Hnd Hfresh]. by eapply createVMs_sound.
  - mbind Hh as [] s Hd'. apply mret_inv in Hh as [_ ->]. by eapply deleteVMs_sound.
  - by apply mret_inv in Hh as [[=] _].
Qed.

End Sound.

Section Safe.
Context `{StdLib}.

Lemma capacityNonneg_layout ds ds' :
  layout ds = layout ds' → capacityNonneg ds → capacityNonneg ds'.
Proof.
  intros E Hc n x Hx. pose proof (layout_getNode _ _ n E) as Hl. rewrite Hx in Hl.
  destruct (getNode n ds) as [y|] eqn:Ey; [|done]. simpl in Hl.
  destruct (Hc n y Ey) as [? ?]. unfold node_layout, capOf in Hl.
  assert (totalCPU (node_res y) = totalCPU (node_res x)) by congruence.
  assert (totalMemory (node_res y) = totalMemory (node_res x)) by congruence. lia.
Qed.

Lemma reachable_layout st :
  reachable st → ∃ h, wf_header h ∧ types st = types (initial h)
    ∧ layout (domains st) = layout (domains (initial h)).
Proof.
  induction 1 as [h Hwf|st e req st' Hr (h & Hwf & Ety & Elay) Hwfr Hh].
  - by exists h.
  - apply handle_layout in Hh as [Ety' Elay']. exists h. split; [done|]. split; congruence.
Qed.

Lemma reachable_sound (C : Prop) st :
  reachable st → (C → capacityNonneg (domains st)) →
  (C → nodesNonneg (domains st)) ∧ nodesDistinct (domains st) (vmsByIndex st).
Proof.
  induction 1 as [h Hwf|st e req st' Hr IH Hwfr Hh]; intros HC.
  - split.
    + intros Hc n x Hx. specialize (HC Hc n x Hx).
      pose proof (initial_full h (LNode n)) as Hf. unfold observe, capacity in Hf.
      rewrite Hx in Hf. simpl in Hf.
      unfold availOf, capOf in Hf. injection Hf as -> ->. done.
    + by intros i vm Hvm.
  - pose proof (handle_layout _ _ _ _ _ Hh) as [_ Hlay].
    destruct IH as [Hn Hd].
    { intros Hc. eapply capacityNonneg_layout; [exact Hlay|by apply HC]. }
    eapply handle_sound; eauto. by apply reachable_Inv.
Qed.

End Safe.

(** ** Hard affinities *)

Section Targets.
Context `{StdLib}.

(** *** What [updateTargets] derives *)

Lemma prInsert_from p r m q rs x :
  (q, rs) ∈ prInsert p r m → x ∈ rs →
  (∃ rs', (q, rs') ∈ m ∧ x ∈ rs') ∨ (q = p ∧ x = r).
Proof.
  induction m as [|[q' rs'] m IH]; simpl.
  - intros [= -> ->]%list_elem_of_singleton [= ->]%list_elem_of_singleton. by right.
  - destruct (decide (q' = p)) as [->|Hq].
    + intros [[= -> ->]|Hin]%elem_of_cons Hx.
      * destruct (decide (r ∈ rs')).
        -- left. exists rs'. split; [by left|done].
        -- apply elem_of_app in Hx as [Hx|Hx%list_elem_of_singleton]; [|by right].
           left. exists rs'. split; [by left|done].
      * left. exists rs. split; [by right|done].
    + intros [[= -> ->]|Hin]%elem_of_cons Hx.
      * left. exists rs'. split; [by left|done].
      * destruct (IH Hin Hx) as [(rs0 & ? & ?)|?]; [|by right].
        left. exists rs0. split; [by right|done].
Qed.

(** One step of the loop of [updateTargets]. *)
Lemma step_rack pg a vm :
  tg_rack (updateTargets_step pg a vm) =
  match vm_nodes vm with
  | [] => tg_rack a
  | n0 :: _ =>
      if bool_decide (rackAffinity pg ≠ NONE) && tg_rackPossible a
      then Some (default (node_rack n0) (tg_rack a)) else tg_rack a
  end.
Proof. unfold updateTargets_step. repeat case_match; simplify_eq; done. Qed.

Lemma step_domain pg a vm :
  tg_domain (updateTargets_step pg a vm) =
  match vm_nodes vm with
  | [] => tg_domain a
  | n0 :: _ =>
      if bool_decide (domainAffinity pg ≠ NONE) && tg_domainPossible a
      then Some (default (rack_domain (node_rack n0)) (tg_domain a)) else tg_domain a
  end.
Proof. unfold updateTargets_step. repeat case_match; simplify_eq; done. Qed.

Lemma step_partitionRacks pg a vm :
  tg_partitionRacks (updateTargets_step pg a vm) =
  match vm_nodes vm with
  | [] => tg_partitionRacks a
  | n0 :: _ =>
      if 0 <? hardRackAntiAffinityPartitions pg
      then prInsert (vm_partition vm) (node_rack n0) (tg_partitionRacks a)
      else tg_partitionRacks a
  end.
Proof. unfold updateTargets_step. repeat case_match; simplify_eq; done. Qed.

Lemma step_rackPossible pg a vm :
  tg_rack (updateTargets_step pg a vm) = None → tg_rackPossible (updateTargets_step pg a vm) = tg_rackPossible a.
Proof. unfold updateTargets_step. repeat case_match; simplify_eq; done. Qed.

Lemma step_domainPossible pg a vm :
  tg_domain (updateTargets_step pg a vm) = None →
  tg_domainPossible (updateTargets_step pg a vm) = tg_domainPossible a.
Proof. unfold updateTargets_step. repeat case_match; simplify_eq; done. Qed.

Lemma fold_rack_some pg b vms :
  tg_rack b ≠ None → tg_rack (foldl (updateTargets_step pg) b vms) ≠ None.
Proof.
  revert b. induction vms as [|v vms IH]; intros b Hb; [done|]. simpl. apply IH.
  rewrite step_rack. destruct (vm_nodes v); [done|]. by destruct (_ && _).
Qed.

Lemma fold_domain_some pg b vms :
  tg_domain b ≠ None → tg_domain (foldl (updateTargets_step pg) b vms) ≠ None.
Proof.
  revert b. induction vms as [|v vms IH]; intros b Hb; [done|]. simpl. apply IH.
  rewrite step_domain. destruct (vm_nodes v); [done|]. by destruct (_ && _).
Qed.

(** The targets after the loop of [updateTargets] over [vms], from [a]. *)
Lemma updateTargets_fold pg a vms :
  let a' := foldl (updateTargets_step pg) a vms in
  (∀ tr, tg_rack a' = Some tr →
     tg_rack a = Some tr
     ∨ ∃ vm n0, vm ∈ vms ∧ head (vm_nodes vm) = Some n0 ∧ node_rack n0 = tr)
  ∧ (∀ td, tg_domain a' = Some td →
       tg_domain a = Some td
       ∨ ∃ vm n0, vm ∈ vms ∧ head (vm_nodes vm) = Some n0
                  ∧ rack_domain (node_rack n0) = td)
  ∧ (rackAffinity pg ≠ NONE → (tg_rack a = None → tg_rackPossible a = true) →
     tg_rack a' = None → ∀ vm, vm ∈ vms → vm_nodes vm = [])
  ∧ (domainAffinity pg ≠ NONE → (tg_domain a = None → tg_domainPossible a = true) →
     tg_domain a' = None → ∀ vm, vm ∈ vms → vm_nodes vm = [])
  ∧ (∀ q rs x, (q, rs) ∈ tg_partitionRacks a' → x ∈ rs →
       (∃ rs', (q, rs') ∈ tg_partitionRacks a ∧ x ∈ rs')
       ∨ ∃ vm n0, vm ∈ vms ∧ head (vm_nodes vm) = Some n0 ∧ vm_partition vm = q
                  ∧ node_rack n0 = x).
Proof.
  revert a. induction vms as [|vm vms IH]; intros a; simpl.
  { split; [by left|]. split; [by left|]. split; [by intros _ _ _ vm ?%elem_of_nil|].
    split; [by intros _ _ _ vm ?%elem_of_nil|]. intros q rs x ? ?. left. eauto. }
  destruct (IH (updateTargets_step pg a vm)) as (Hr & Hd & Hrn & Hdn & Hp).
  split; [|split; [|split; [|split]]].
  - intros tr E. destruct (Hr tr E) as [E'|(v & n & ? & ? & ?)].
    2:{ right. exists v, n. split; [by right|done]. }
    rewrite step_rack in E'. destruct (vm_nodes vm) as [|n0 ns] eqn:En; [by left|].
    destruct (_ && _); [|by left]. destruct (tg_rack a) as [r|]; simpl in E'; [by left|].
    injection E' as <-. right. exists vm, n0. split; [by left|]. by rewrite En.
  - intros td E. destruct (Hd td E) as [E'|(v & n & ? & ? & ?)].
    2:{ right. exists v, n. split; [by right|done]. }
    rewrite step_domain in E'. destruct (vm_nodes vm) as [|n0 ns] eqn:En; [by left|].
    destruct (_ && _); [|by left]. destruct (tg_domain a) as [r|]; simpl in E'; [by left|].
    injection E' as <-. right. exists vm, n0. split; [by left|]. by rewrite En.
  - intros Hne Hpos E.
    destruct (tg_rack (updateTargets_step pg a vm)) as [r|] eqn:E1.
    { exfalso. revert E. apply fold_rack_some. by rewrite E1. }
    intros v [->|Hv]%elem_of_cons.
    + rewrite step_rack in E1. destruct (vm_nodes vm) as [|n0 ns]; [done|].
      rewrite bool_decide_true in E1 by done. simpl in E1.
      destruct (tg_rack a) as [r|] eqn:Er.
      * by destruct (tg_rackPossible a).
      * by rewrite Hpos in E1.
    + apply Hrn; try done. intros _. rewrite step_rackPossible by done. apply Hpos.
      rewrite step_rack in E1. destruct (vm_nodes vm); [done|].
      destruct (_ && _); [done|done].
  - intros Hne Hpos E.
    destruct (tg_domain (updateTargets_step pg a vm)) as [r|] eqn:E1.
    { exfalso. revert E. apply fold_domain_some. by rewrite E1. }
    intros v [->|Hv]%elem_of_cons.
    + rewrite step_domain in E1. destruct (vm_nodes vm) as [|n0 ns]; [done|].
      rewrite bool_decide_true in E1 by done. simpl in E1.
      destruct (tg_domain a) as [r|] eqn:Er.
      * by destruct (tg_domainPossible a).
      * by rewrite Hpos in E1.
    + apply Hdn; try done. intros _. rewrite step_domainPossible by done. apply Hpos.
      rewrite step_domain in E1. destruct (vm_nodes vm); [done|].
      destruct (_ && _); [done|done].
  - intros q rs x Hin Hx.
    destruct (Hp q rs x Hin Hx) as [(rs' & Hin' & Hx')|(v & n & ? & ? & ? & ?)].
    2:{ right. exists v, n. split; [by right|done]. }
    rewrite step_partitionRacks in Hin'. destruct (vm_nodes vm) as [|n0 ns] eqn:En; [left; eauto|].
    destruct (0 <? _); [|left; eauto].
    destruct (prInsert_from _ _ _ _ _ _ Hin' Hx') as [?|[-> ->]]; [by left|].
    right. exists vm, n0. split; [by left|]. by rewrite En.
Qed.

(** What [updateTargets] sets in the group. *)
Lemma updateTargets_pg_facts pg vms :
  let pg' := updateTargets_pg pg vms in
  pg_static pg' = pg_static pg
  ∧ (∀ tr, targetRack pg' = Some tr →
       ∃ vm n0, vm ∈ vms ∧ head (vm_nodes vm) = Some n0 ∧ node_rack n0 = tr)
  ∧ (∀ td, targetDomain pg' = Some td →
       ∃ vm n0, vm ∈ vms ∧ head (vm_nodes vm) = Some n0 ∧ rack_domain (node_rack n0) = td)
  ∧ (rackAffinity pg ≠ NONE → targetRack pg' = None → ∀ vm, vm ∈ vms → vm_nodes vm = [])
  ∧ (domainAffinity pg ≠ NONE → targetDomain pg' = None → ∀ vm, vm ∈ vms → vm_nodes vm = [])
  ∧ (∀ q rs x, (q, rs) ∈ partitionRacks pg' → x ∈ rs →
       ∃ vm n0, vm ∈ vms ∧ head (vm_nodes vm) = Some n0 ∧ vm_partition vm = q
                ∧ node_rack n0 = x).
Proof.
  simpl. split; [apply pg_static_updateTargets|].
  unfold updateTargets_pg.
  set (init := {| tg_domain := None; tg_domainPossible := true; tg_rack := None;
                  tg_rackPossible := true; tg_partitionRacks := [] |}).
  destruct (updateTargets_fold pg init vms) as (Hr & Hd & Hrn & Hdn & Hp).
  assert (∀ P : PG → Prop,
    (∀ soft a, tg_rack a = tg_rack (foldl (updateTargets_step pg) init vms) →
               tg_domain a = tg_domain (foldl (updateTargets_step pg) init vms) →
               tg_partitionRacks a = tg_partitionRacks (foldl (updateTargets_step pg) init vms) →
               P (set_targets a soft pg)) →
    P (if (bool_decide (domainAffinity pg = SOFT)
             && negb (tg_domainPossible (foldl (updateTargets_step pg) init vms)))
          || (bool_decide (rackAffinity pg = SOFT)
              && negb (tg_rackPossible (foldl (updateTargets_step pg) init vms)))
       then set_targets {| tg_domain := tg_domain (foldl (updateTargets_step pg) init vms);
                           tg_domainPossible := false;
                           tg_rack := tg_rack (foldl (updateTargets_step pg) init vms);
                           tg_rackPossible := false;
                           tg_partitionRacks :=
                             tg_partitionRacks (foldl (updateTargets_step pg) init vms) |}
              false pg
       else set_targets (foldl (updateTargets_step pg) init vms)
              (0 <? softPMAntiAffinity pg) pg)) as Hcase.
  { intros P HP. destruct (_ || _); apply HP; done. }
  apply Hcase. intros soft a Er Ed Ep. simpl. rewrite Er, Ed, Ep.
  split; [|split; [|split; [|split]]].
  - intros tr E. by destruct (Hr tr E) as [?|?].
  - intros td E. by destruct (Hd td E) as [?|?].
  - intros Hne. by apply Hrn.
  - intros Hne. by apply Hdn.
  - intros q rs x Hin Hx. destruct (Hp q rs x Hin Hx) as [(rs' & Hin' & _)|?]; [|done].
    by apply elem_of_nil in Hin'.
Qed.

End Targets.

Section Within.
Context `{StdLib}.

(** *** The racks of an attempt *)

Lemma prAt_own p m r : r ∈ (prAt p m).1 → (p, (prAt p m).1) ∈ m.
Proof.
  induction m as [|[q rs] m IH]; simpl; [by intros ?%elem_of_nil|].
  destruct (decide (q = p)) as [->|Hq]; simpl; [by left|].
  destruct (prAt p m) as [found m'] eqn:E. simpl in *. intros Hr. right. by apply IH.
Qed.

(** The racks [chooseRacks] gives are racks of the group, or racks of the
    partition. *)
Lemma chooseRacks_within pgi p racks st start extra st' :
  chooseRacks pgi p racks st = Some (Some (start, extra), st') →
  ∃ pg, pgsByIndex st !! pgi = Some pg
    ∧ ∀ r, r ∈ start ++ extra →
        r ∈ racks ∨ (0 < p ∧ ∃ rs, (p, rs) ∈ partitionRacks pg ∧ r ∈ rs).
Proof.
  unfold chooseRacks. intros Hc.
  mbind Hc as ds s Hds. apply getsM_inv in Hds as [-> ->].
  mbind Hc as pg s Hpg. apply readPG_inv in Hpg as [Hpg ->].
  exists pg. split; [done|].
  assert (∀ r, r ∈ sortByLoad (domains st) racks → r ∈ racks) as Hsorted.
  { intros r Hr. unfold sortByLoad in Hr. by rewrite std_sort_perm in Hr. }
  destruct (0 <? p) eqn:Hp.
  - apply Z.ltb_lt in Hp.
    pose proof (prAt_own p (partitionRacks pg)) as Hown.
    destruct (prAt p (partitionRacks pg)) as [own m']. simpl in Hown.
    mbind Hc as [] s Hmod. apply modifyM_inv in Hmod as ->.
    set (invalid := invalidRacks p (partitionRacks pg)) in *.
    set (startRacks := filter (λ r, r ∉ invalid) (hash_order own)) in *.
    set (extraRacks := filter (λ r, (r ∉ invalid) ∧ (r ∉ startRacks)) racks) in *.
    assert (∀ r, r ∈ startRacks → 0 < p ∧ ∃ rs, (p, rs) ∈ partitionRacks pg ∧ r ∈ rs) as Hstart.
    { intros r Hr. apply list_elem_of_filter in Hr as [_ Hr]. rewrite hash_order_perm in Hr.
      split; [done|]. exists own. split; [by apply (Hown r)|done]. }
    assert (∀ r, r ∈ extraRacks → r ∈ racks) as Hextra.
    { intros r Hr. by apply list_elem_of_filter in Hr as [_ ?]. }
    destruct startRacks as [|s0 srest] eqn:Es, extraRacks as [|e erest] eqn:Ee;
      apply mret_inv in Hc as [[=] _]; subst; intros r Hr.
    + left. apply Hextra. done.
    + right. apply Hstart. apply elem_of_app in Hr as [Hr|Hr]; [done|by apply elem_of_nil in Hr].
    + apply elem_of_app in Hr as [Hr|Hr]; [right; by apply Hstart|left; by apply Hextra].
  - intros r Hr. left.
    destruct (_ && _) in Hc.
    + destruct (targetRack pg) as [tr|].
      * destruct (bool_decide (tr ∈ racks)) eqn:Htr.
        -- apply bool_decide_eq_true in Htr. apply mret_inv in Hc as [[= -> ->] _].
           apply elem_of_cons in Hr as [->|Hr]; [done|].
           apply list_elem_of_filter in Hr as [_ Hr]. by apply Hsorted.
        -- destruct (sortByLoad (domains st) racks) as [|r0 rest] eqn:Es; [done|].
           apply mret_inv in Hc as [[= -> ->] _]. by apply Hsorted.
      * destruct (sortByLoad (domains st) racks) as [|r0 rest] eqn:Es; [done|].
        apply mret_inv in Hc as [[= -> ->] _]. by apply Hsorted.
    + apply mret_inv in Hc as [[= -> ->] _]. rewrite app_nil_r in Hr. by apply Hsorted.
Qed.

Lemma onRacks_search V t R : SearchInv V t R (onRacks V R).
Proof.
  split.
  - intros plc vms i vm nodes HI Hi Hvm Hnil (_ & _ & r & p & Hr & Hall) j vj n Hj Hvj Hn.
    destruct (decide (j = i)) as [->|Hji].
    + rewrite lookup_insert_eq in Hvj. injection Hvj as <-. simpl in Hn.
      rewrite Forall_forall in Hall. specialize (Hall n Hn).
      unfold node_rack. rewrite Hall. done.
    + rewrite lookup_insert_ne in Hvj by done. by eapply HI.
  - intros plc vms HI j vj n Hj Hvj Hn.
    apply (clearNodes_unplaced V vms j vj Hj) in Hvj. rewrite Hvj in Hn.
    by apply elem_of_nil in Hn.
Qed.

Lemma Forall2_lookup_in {A C} (P : A → C → Prop) l k y :
  Forall2 P l k → y ∈ k → ∃ x, x ∈ l ∧ P x y.
Proof.
  induction 1 as [|a b l k Hab _ IH]; [by intros ?%elem_of_nil|].
  intros [->|Hy]%elem_of_cons.
  - exists a. split; [by left|done].
  - destruct (IH Hy) as (x & ? & ?). exists x. split; [by right|done].
Qed.

(** The VMs of a partition end on racks of the group or on racks that hold
    members of the group outside the batch. *)
Lemma placePartition_within B t pgi racks p V cp st cp' st' pg :
  NoDup B → NoDup V → (∀ i, i ∈ V → i ∈ B) →
  pgsByIndex st !! pgi = Some pg →
  (∀ j vj, j ∈ B → vmsByIndex st !! j = Some vj → vm_partition vj = p → j ∈ V) →
  placePartition pgi t racks p V cp st = Some (Some cp', st') →
  within B (pg_vms pg) racks V (vmsByIndex st').
Proof.
  intros HndB HndV HVB Hpg Hcomplete Hrun. unfold placePartition in Hrun.
  assert (∀ i, i ∈ V → i ∈ V ∧ i ∈ B) as HV by (intros; split; auto).
  mbind Hrun as [] sa Hun.
  apply (unplaceVMs_spec B V t) in Hun as [F0 Hv0]; [|done..].
  mbind Hrun as [] sb Hup.
  pose proof (updateTargets_frame B t _ _ _ _ Hup) as F1.
  pose proof (Frame_nil_vms _ _ _ _ F1) as Hv1.
  apply updateTargets_inv in Hup as (pg0 & vmsread & Hpg0 & Hread & Hsb).
  destruct (Frame_pg _ _ _ _ _ _ _ F0 Hpg) as (pg0' & Hpg0' & Hst0).
  rewrite Hpg0 in Hpg0'. injection Hpg0' as <-.
  mbind Hrun as choice sc Hch.
  pose proof Hch as Hch'.
  apply (chooseRacks_spec B t) in Hch' as (F2 & _).
  pose proof (Frame_nil_vms _ _ _ _ F2) as Hv2.
  destruct choice as [[startRacks extraRacks]|]; [|by apply mret_inv in Hrun as [[=] _]].
  apply chooseRacks_within in Hch as (pgb & Hpgb & Hnear).
  assert (pgb = updateTargets_pg pg0 vmsread) as ->.
  { rewrite Hsb in Hpgb. simpl in Hpgb. rewrite lookup_insert_eq in Hpgb. congruence. }
  assert (vmsByIndex sc = clearNodes V (vmsByIndex st)) as Hvc by congruence.
  set (R := startRacks ++ extraRacks) in *.
  pose proof (onRacks_search V t R) as HI.
  assert (onRacks V R ∅ (vmsByIndex sc)) as HIc.
  { rewrite Hvc. intros j vj n Hj Hvj Hn.
    apply (clearNodes_unplaced V _ j vj Hj) in Hvj. rewrite Hvj in Hn.
    by apply elem_of_nil in Hn. }
  assert (∀ r, r ∈ startRacks → r ∈ R) as HRs by (intros; apply elem_of_app; by left).
  assert (∀ r, r ∈ extraRacks → r ∈ R) as HRe by (intros; apply elem_of_app; by right).
  assert (∀ s plc, Frame B V t sc s → onRacks V R plc (vmsByIndex s) →
            within B (pg_vms pg) racks V (vmsByIndex s)) as Hfin.
  { intros s plc F HIs i vm n Hi Hvm Hn.
    destruct (Hnear _ (HIs i vm n Hi Hvm Hn)) as [Hr|(Hp & rs & Hin & Hr)]; [by left|].
    right.
    destruct (updateTargets_pg_facts pg0 vmsread) as (_ & _ & _ & _ & _ & Hparts).
    destruct (Hparts _ _ _ Hin Hr) as (vm' & n0 & Hvm' & Hn0 & Hpart & Hrack).
    destruct (Forall2_lookup_in _ _ _ _ Hread Hvm') as (j & Hj & Hvj).
    assert (n0 ∈ vm_nodes vm') as Hn0in.
    { destruct (vm_nodes vm') as [|x xs]; [done|]. injection Hn0 as ->. by left. }
    assert (j ∉ V) as HjV.
    { intros HjV. rewrite Hv0 in Hvj. apply (clearNodes_unplaced V _ j vm' HjV) in Hvj.
      rewrite Hvj in Hn0in. by apply elem_of_nil in Hn0in. }
    assert (j ∉ B) as HjB.
    { intros HjB. apply HjV. rewrite Hv0 in Hvj.
      apply clearNodes_inv in Hvj as (vj & Hvj & _ & Epart & _).
      eapply Hcomplete; [done|exact Hvj|]. congruence. }
    exists j, vm', n0. split.
    { rewrite (fr_vms_out _ _ _ _ _ F) by done. by rewrite Hv2, Hv1. }
    split; [by rewrite <- (pg_static_vms _ _ Hst0)|]. done. }
  mbind Hrun as r1 sd Hex1.
  eapply (expandRacks_spec B V t R _ pgi V) in Hex1 as (F3 & plc1 & HI1 & Hres1); try done.
  destruct r1 as [p1|].
  { apply mret_inv in Hrun as [_ ->]. by eapply Hfin. }
  mbind Hrun as r2 se Hex2.
  eapply (expandRacks_spec B V t R _ pgi V) in Hex2 as (F4 & plc2 & HI2 & Hres2); try done.
  assert (st' = se) as ->.
  { destruct r2; by apply mret_inv in Hrun as [_ ->]. }
  eapply Hfin; [|done]. by eapply Frame_trans.
Qed.

Lemma within_frame B S t members racks D st st' :
  Frame B S t st st' → (∀ i, i ∈ S → i ∈ B) → (∀ i, i ∈ D → i ∉ S) →
  within B members racks D (vmsByIndex st) → within B members racks D (vmsByIndex st').
Proof.
  intros F HSB HD Hw i vm n Hi Hvm Hn.
  rewrite (fr_vms_out _ _ _ _ _ F) in Hvm by (by apply HD).
  destruct (Hw i vm n Hi Hvm Hn) as [?|(j & vj & m & Hvj & Hj & HjB & Hm & Hr)]; [by left|].
  right. exists j, vj, m. split; [|done].
  rewrite (fr_vms_out _ _ _ _ _ F); [done|]. intros HjS. by apply HjB, HSB.
Qed.

Lemma placePartitions_within B t pgi racks parts cp st cp' st' Dn pg :
  NoDup B → NoDup (Dn ++ concat parts.*2) → (∀ i, i ∈ concat parts.*2 → i ∈ B) →
  (∀ p V, (p, V) ∈ parts → batchOf V pgi p (vmsByIndex st)) →
  (∀ p V, (p, V) ∈ parts → 0 < p → hpPositive pgi st) →
  batchReady (concat parts.*2) pgi st →
  antiAffine (vmsByIndex st) → colocated (vmsByIndex st) →
  pgsByIndex st !! pgi = Some pg →
  (∀ j vj q V, j ∈ B → vmsByIndex st !! j = Some vj → (q, V) ∈ parts →
     vm_partition vj = q → j ∈ V) →
  within B (pg_vms pg) racks Dn (vmsByIndex st) →
  placePartitions pgi t racks parts cp st = Some (Some cp', st') →
  within B (pg_vms pg) racks (Dn ++ concat parts.*2) (vmsByIndex st').
Proof.
  intros HndB. revert cp st Dn pg.
  induction parts as [|[p V] parts IH];
    intros cp st Dn pg Hnd HB Hparts Hhps Hready Haa Hco Hpg Hcomplete Hw Hrun; simpl in Hrun.
  { apply mret_inv in Hrun as [_ ->]. simpl. by rewrite app_nil_r. }
  simpl in *.
  mbind Hrun as r sa Hpart.
  destruct Hready as (pg1 & Hpg1 & Hmem & Hbatch).
  assert (pg1 = pg) as -> by congruence.
  assert (NoDup V ∧ NoDup (Dn ++ V) ∧ NoDup ((Dn ++ V) ++ concat parts.*2)
          ∧ (∀ i, i ∈ V → i ∉ Dn) ∧ (∀ i, i ∈ V → i ∉ concat parts.*2))
    as (HndV & HndDV & Hnd' & HVD & HVrest).
  { rewrite app_assoc in Hnd. split; [|split; [|split; [done|]]].
    - apply NoDup_app in Hnd as [Hnd _]. by apply NoDup_app in Hnd as (_ & _ & ?).
    - by apply NoDup_app in Hnd as [Hnd _].
    - split.
      + intros i Hi HD. apply NoDup_app in Hnd as [Hnd _].
        apply NoDup_app in Hnd as (_ & Hnd & _). by eapply Hnd.
      + intros i Hi Hr. apply NoDup_app in Hnd as (_ & Hnd & _).
        eapply Hnd; [|done]. apply elem_of_app. by right. }
  assert (batchOf V pgi p (vmsByIndex st)) as HbV by (apply Hparts; by left).
  assert (∀ i, i ∈ V → i ∈ B) as HVB.
  { intros i Hi. apply HB. apply elem_of_app. by left. }
  destruct r as [cp0|]; [|by apply mret_inv in Hrun as [[=] _]].
  pose proof Hpart as Hpart'.
  eapply (placePartition_spec B V t pgi racks p V cp st _ sa pg) in Hpart'
    as (F0 & Haa0 & Hco0 & _); try done.
  2:{ intros i Hi. split; [done|]. by apply HVB. }
  2:{ intros Hp. destruct (Hhps p V) as (pg' & Hpg' & Hhp); [by left|done|]. congruence. }
  eapply (placePartition_within B t pgi racks p V cp st cp0 sa pg) in Hpart; try done.
  2:{ intros j vj Hj Hvj Hq. eapply Hcomplete; eauto. by left. }
  destruct (Frame_pg _ _ _ _ _ _ _ F0 Hpg) as (pga & Hpga & Hsta).
  rewrite <- (pg_static_vms _ _ Hsta).
  rewrite app_assoc.
  eapply (IH cp0 sa (Dn ++ V) pga) in Hrun; try done.
  - intros i Hi. apply HB. apply elem_of_app. by right.
  - intros q W HW. eapply batchOf_frame; [exact F0|]. apply Hparts. by right.
  - intros q W HW Hq. eapply hpPositive_frame; [exact F0|]. eapply Hhps; [by right|done].
  - eapply batchReady_frame; [exact F0|]. exists pg. split; [done|]. split; [done|].
    intros i Hi. apply Hbatch. apply elem_of_app. by right.
  - intros j vj q W Hj Hvj HW Hq.
    destruct (Frame_vm _ _ _ _ _ _ _ F0 Hvj) as (vj0 & Hvj0 & (_ & _ & _ & Ep)%static_fields).
    eapply Hcomplete; [done|exact Hvj0|by right|congruence].
  - rewrite (pg_static_vms _ _ Hsta).
    intros i vm n [Hi|Hi]%elem_of_app Hvm Hn.
    + eapply (within_frame B V t _ _ Dn st sa); eauto. intros k Hk HkV. by eapply HVD.
    + by eapply Hpart.
Qed.

Lemma vbpInsert_keys p i m : NoDup m.*1 → NoDup (vbpInsert p i m).*1.
Proof.
  induction m as [|[q l] m IH]; simpl; intros Hnd.
  - apply NoDup_singleton.
  - apply NoDup_cons in Hnd as [Hq Hnd]. destruct (decide (q = p)) as [->|Hqp]; simpl.
    + by apply NoDup_cons.
    + apply NoDup_cons. split; [|by apply IH].
      intros Hin. apply list_elem_of_fmap in Hin as ([q' l'] & -> & Hin). simpl in *.
      apply vbpInsert_in in Hin as [Hin|[-> _]]; [|done].
      apply Hq. apply list_elem_of_fmap. by exists (q', l').
Qed.

Lemma vbp_fold_keys (l : list (Z * VM)) (m : list (Z * list Z)) :
  NoDup m.*1 → NoDup (foldl (λ m vm, vbpInsert (vm_partition vm.2) vm.1 m) m l).*1.
Proof.
  revert m. induction l as [|[i vm] l IH]; intros m Hnd; simpl; [done|].
  apply IH. by apply vbpInsert_keys.
Qed.

Lemma NoDup_fst_unique {A C} (l : list (A * C)) k x y :
  NoDup l.*1 → (k, x) ∈ l → (k, y) ∈ l → x = y.
Proof.
  induction l as [|[k' z] l IH]; simpl; [by intros _ ?%elem_of_nil|].
  intros [Hk Hnd]%NoDup_cons Hx Hy.
  apply elem_of_cons in Hx as [Hx|Hx], Hy as [Hy|Hy].
  - congruence.
  - exfalso. apply Hk. apply list_elem_of_fmap. exists (k, y). split; [|done].
    simpl. congruence.
  - exfalso. apply Hk. apply list_elem_of_fmap. exists (k, x). split; [|done].
    simpl. congruence.
  - by apply IH.
Qed.

(** After a successful attempt on the rack group [racks], every VM of the
    batch is on a rack of the group or on a rack that holds a member of
    the group outside the batch. *)
Lemma getBestPlacement_within B t pgi racks st b sg pg :
  NoDup B → batchReady B pgi st →
  antiAffine (vmsByIndex st) → colocated (vmsByIndex st) →
  pgsByIndex st !! pgi = Some pg →
  getBestPlacement pgi B t racks st = Some (Some b, sg) →
  within B (pg_vms pg) racks B (vmsByIndex sg).
Proof.
  intros Hnd Hready Haa Hco Hpg Hrun. unfold getBestPlacement in Hrun.
  mbind Hrun as vms s Hvms. apply readVMs_spec in Hvms as [-> Hvms].
  set (parts := hash_order _) in Hrun.
  mbind Hrun as r sa Hparts.
  assert (fst <$> zip B vms = B) as Hfst.
  { apply fst_zip. apply Forall2_length in Hvms. lia. }
  destruct (vbp_fold (vmsByIndex st) (zip B vms) []) as [Hperm0 HP0].
  { intros i vm Hin. by eapply (Forall2_zip_in _ _ _ _ _ Hvms). }
  { by intros q V ?%elem_of_nil. }
  simpl in Hperm0. rewrite Hfst in Hperm0.
  assert (concat parts.*2 ≡ₚ B) as Hperm.
  { unfold parts. by rewrite hash_order_perm. }
  assert (NoDup parts.*1) as Hkeys.
  { unfold parts. rewrite hash_order_perm. apply vbp_fold_keys. constructor. }
  assert (∀ q V, (q, V) ∈ parts →
            V ≠ [] ∧ ∀ j, j ∈ V → vm_partition <$> vmsByIndex st !! j = Some q) as HP.
  { intros q V Hin. apply HP0. unfold parts in Hin. by rewrite hash_order_perm in Hin. }
  assert (∀ q V j, (q, V) ∈ parts → j ∈ V → j ∈ B) as HinB.
  { intros q V j Hin Hj. rewrite <- Hperm. apply elem_of_concat. exists V. split; [done|].
    apply list_elem_of_fmap. by exists (q, V). }
  destruct r as [cp|]; [|by apply mret_inv in Hrun as [[=] _]].
  mbind Hrun as ds s Hds. apply getsM_inv in Hds as [-> ->].
  apply mret_inv in Hrun as [_ ->].
  destruct Hready as (pg1 & Hpg1 & Hmem & Hbatch).
  assert (pg1 = pg) as -> by congruence.
  eapply (placePartitions_within B t pgi racks parts _ st cp sa [] pg) in Hparts; try done.
  - intros i vm n Hi. apply Hparts. simpl. by rewrite Hperm.
  - simpl. by rewrite Hperm.
  - intros i Hi. by rewrite <- Hperm.
  - intros q V Hin j Hj. destruct (HP q V Hin) as [_ Hq].
    destruct (Hbatch j) as (vm & Hvm & ? & ? & ?); [by eapply HinB|].
    specialize (Hq j Hj). rewrite Hvm in Hq. injection Hq as Hq.
    by exists vm.
  - intros q V Hin Hq. destruct (HP q V Hin) as [Hne Hpart].
    destruct V as [|j V]; [done|].
    destruct (Hbatch j) as (vm & Hvm & _ & _ & Hhp); [eapply HinB; [done|by left]|].
    specialize (Hpart j ltac:(by left)). rewrite Hvm in Hpart. injection Hpart as Hpart.
    exists pg. split; [done|]. apply Hhp. by rewrite Hpart.
  - exists pg. split; [done|]. split; [done|]. intros i Hi. apply Hbatch. by rewrite <- Hperm.
  - intros j vj q V Hj Hvj Hin Hq.
    rewrite <- Hperm in Hj. apply elem_of_concat in Hj as (V' & HjV' & HV').
    apply list_elem_of_fmap in HV' as ([q' V''] & -> & Hin'). simpl in *.
    destruct (HP q' V'' Hin') as [_ Hq'].
    specialize (Hq' j HjV'). rewrite Hvj in Hq'. injection Hq' as Hq'.
    assert (q' = q) as -> by congruence.
    by rewrite (NoDup_fst_unique _ _ _ _ Hkeys Hin Hin').
  - by intros i vm n ?%elem_of_nil.
Qed.

End Within.

Section Groups.
Context `{StdLib}.

(** *** The rack groups under a hard affinity *)

Lemma sortGroupsFrom_in ds k l g : g ∈ sortGroupsFrom ds k l → g ∈ l.
Proof.
  unfold sortGroupsFrom. intros [Hg|Hg]%elem_of_app.
  - rewrite <- (take_drop k l). apply elem_of_app. by left.
  - rewrite std_sort_perm in Hg. rewrite <- (take_drop k l). apply elem_of_app. by right.
Qed.

Lemma racksOf_domain ds d r : r ∈ racksOf ds d → rack_domain r = d.
Proof.
  unfold racksOf. destruct (ds !! d); [|by intros ?%elem_of_nil].
  intros (i & -> & _)%list_elem_of_fmap. done.
Qed.

Lemma sortByLoad_in ds racks r : r ∈ sortByLoad ds racks → r ∈ racks.
Proof. unfold sortByLoad. by rewrite std_sort_perm. Qed.

Lemma fittingRacks_single t racks st l st' :
  fittingRacks t racks st = Some (l, st') → ∀ g, g ∈ l → ∃ r, g = [r].
Proof.
  revert st l st'. induction racks as [|r racks IH]; intros st l st' Hf g Hg; simpl in Hf.
  - apply mret_inv in Hf as [-> _]. by apply elem_of_nil in Hg.
  - mbind Hf as v sa Hv. mbind Hf as l' sb Hl. apply mret_inv in Hf as [-> ->].
    destruct (v =? 0); [by eapply IH|].
    apply elem_of_cons in Hg as [->|Hg]; [by exists r|by eapply IH].
Qed.

Lemma fittingDomains_domain t n doms st l st' :
  fittingDomains t n doms st = Some (l, st') →
  ∀ g, g ∈ l → ∃ d, ∀ r, r ∈ g → rack_domain r = d.
Proof.
  revert st l st'. induction doms as [|d doms IH]; intros st l st' Hf g Hg; simpl in Hf.
  - apply mret_inv in Hf as [-> _]. by apply elem_of_nil in Hg.
  - mbind Hf as ds s Hds. apply getsM_inv in Hds as [-> ->].
    mbind Hf as fits sa Hv. mbind Hf as l' sb Hl. apply mret_inv in Hf as [-> ->].
    destruct (_ <? _); [by eapply IH|].
    apply elem_of_cons in Hg as [->|Hg]; [|by eapply IH].
    exists d. intros r Hr%sortByLoad_in. by eapply racksOf_domain.
Qed.

Lemma getRackGroups2_hard B st groups s1 vm0 vm pg :
  head B = Some vm0 → vmsByIndex st !! vm0 = Some vm →
  pgsByIndex st !! vm_pg vm = Some pg →
  getRackGroups2 B st = Some (groups, s1) →
  (rackAffinity pg = HARD → membersTogether id (pg_vms pg) (vmsByIndex st) →
     ∀ g, g ∈ groups → groupFits id (pg_vms pg) (vmsByIndex st) g)
  ∧ (domainAffinity pg = HARD → membersTogether rack_domain (pg_vms pg) (vmsByIndex st) →
       ∀ g, g ∈ groups → groupFits rack_domain (pg_vms pg) (vmsByIndex st) g).
Proof.
  intros Hhd Hvm Hpg Hrun. unfold getRackGroups2 in Hrun.
  mbind Hrun as v0 s Hv0. apply orCrash_inv in Hv0 as [Hv0 ->].
  rewrite Hhd in Hv0. injection Hv0 as <-.
  mbind Hrun as vm' s Hvm'. apply readVM_inv in Hvm' as [Hvm' ->].
  rewrite Hvm in Hvm'. injection Hvm' as <-.
  mbind Hrun as [] sA HupA.
  apply updateTargets_inv in HupA as (pg0 & vmsreadA & Hpg0 & HreadA & ->).
  assert (pg0 = pg) as -> by congruence.
  mbind Hrun as groups0 sB Hgr. unfold getRackGroups in Hgr.
  mbind Hgr as [] sB' HupB.
  apply updateTargets_inv in HupB as (pgA & vmsread & HpgA & Hread & ->).
  simpl in HpgA, Hread. rewrite lookup_insert_eq in HpgA. injection HpgA as <-.
  mbind Hgr as pgB s HpgB. apply readPG_inv in HpgB as [HpgB ->].
  simpl in HpgB. rewrite lookup_insert_eq in HpgB. injection HpgB as <-.
  mbind Hgr as ds s Hds. apply getsM_inv in Hds as [-> ->]. simpl in Hgr.
  mbind Hrun as pgB s HpgB.
  set (pgA := updateTargets_pg pg vmsreadA) in *.
  set (pgB0 := updateTargets_pg pgA vmsread) in *.
  destruct (updateTargets_pg_facts pgA vmsread) as (HstB & Htr & Htd & Hrn & Hdn & _).
  destruct (updateTargets_pg_facts pg vmsreadA) as (HstA & _).
  fold pgA in HstA. fold pgB0 in HstB, Htr, Htd, Hrn, Hdn.
  assert (pg_static pgB0 = pg_static pg) as Hst by congruence.
  assert (rackAffinity pgB0 = rackAffinity pg ∧ domainAffinity pgB0 = domainAffinity pg
          ∧ pg_vms pgA = pg_vms pg ∧ rackAffinity pgA = rackAffinity pg
          ∧ domainAffinity pgA = domainAffinity pg) as (Era & Eda & Evms & EraA & EdaA).
  { unfold pg_static in Hst, HstA. repeat split; congruence. }
  rewrite Evms in Hread. rewrite EraA in Hrn. rewrite EdaA in Hdn.
  assert (∀ v, v ∈ vmsread → ∃ j, j ∈ pg_vms pg ∧ vmsByIndex st !! j = Some v) as Hmem.
  { intros v Hv. by apply (Forall2_lookup_in _ _ _ _ Hread). }
  assert (∀ j vj m, j ∈ pg_vms pg → vmsByIndex st !! j = Some vj → m ∈ vm_nodes vj →
            ∃ v, v ∈ vmsread ∧ vm_nodes v ≠ []) as Hplaced.
  { intros j vj m Hj Hvj Hm. apply list_elem_of_lookup in Hj as [k Hk].
    destruct (Forall2_lookup_l _ _ _ _ _ Hread Hk) as (v & Hv & Hjv).
    exists v. split; [by eapply list_elem_of_lookup_2|].
    assert (v = vj) as -> by congruence. intros E. rewrite E in Hm. by apply elem_of_nil in Hm. }
  assert (∀ {X} (key : RackRef → X) v n0 g x,
            membersTogether key (pg_vms pg) (vmsByIndex st) →
            v ∈ vmsread → head (vm_nodes v) = Some n0 → x = key (node_rack n0) →
            (∀ r, r ∈ g → key r = x) →
            groupFits key (pg_vms pg) (vmsByIndex st) g) as Hwit.
  { intros X key v n0 g x Htog Hv Hn0 -> Hg. exists (key (node_rack n0)). split; [done|].
    intros j vj m Hj Hvj Hm. destruct (Hmem v Hv) as (j' & Hj' & Hvj').
    eapply (Htog j j' vj v m n0); eauto.
    destruct (vm_nodes v) as [|y ys]; [done|]. injection Hn0 as ->. by left. }
  assert (∀ {X} (key : RackRef → X) g x,
            (∀ v, v ∈ vmsread → vm_nodes v = []) → (∀ r, r ∈ g → key r = x) →
            groupFits key (pg_vms pg) (vmsByIndex st) g) as Hnone.
  { intros X key g x Hun Hg. exists x. split; [done|]. intros j vj m Hj Hvj Hm.
    destruct (Hplaced j vj m Hj Hvj Hm) as (v & Hv & Hne). by rewrite Hun in Hne. }
  apply readPG_inv in HpgB as [HpgB ->].
  assert (pgB = pgB0) as ->.
  { assert (pgsByIndex sB !! vm_pg vm = Some pgB0) as E.
    { destruct (bool_decide (rackAffinity pgB0 = HARD));
        [|destruct (bool_decide (domainAffinity pgB0 = HARD))];
        apply mret_inv in Hgr as [_ ->]; simpl; by rewrite lookup_insert_eq. }
    congruence. }
  assert (domains sB = domains st ∧ ∀ g, g ∈ groups0 →
            (rackAffinity pg = HARD →
               match targetRack pgB0 with Some tr => g = [tr] | None => ∃ r, g = [r] end)
            ∧ (rackAffinity pg ≠ HARD → domainAffinity pg = HARD →
               match targetDomain pgB0 with
               | Some td => ∀ r, r ∈ g → rack_domain r = td
               | None => ∃ d, ∀ r, r ∈ g → rack_domain r = d
               end)) as [Hdom Hg0].
  { rewrite Era, Eda in Hgr.
    destruct (bool_decide (rackAffinity pg = HARD)) eqn:Hra.
    - apply bool_decide_eq_true in Hra. apply mret_inv in Hgr as [-> ->]. split; [done|].
      intros g Hg. split; [|done]. intros _.
      destruct (targetRack pgB0) as [tr|].
      + by apply list_elem_of_singleton in Hg.
      + apply list_elem_of_fmap in Hg as (r & -> & _). by exists r.
    - apply bool_decide_eq_false in Hra.
      destruct (bool_decide (domainAffinity pg = HARD)) eqn:Hda.
      + apply mret_inv in Hgr as [-> ->]. split; [done|].
        intros g Hg. split; [done|]. intros _ _.
        destruct (targetDomain pgB0) as [td|].
        * apply list_elem_of_singleton in Hg as ->. intros r. apply racksOf_domain.
        * apply list_elem_of_fmap in Hg as (d & -> & _). exists d. intros r.
          apply racksOf_domain.
      + apply bool_decide_eq_false in Hda. apply mret_inv in Hgr as [-> ->]. split; [done|].
        intros g Hg. split; done. }
  mbind Hrun as ds s Hds. apply getsM_inv in Hds as [-> ->].
  rewrite Era, Eda in Hrun.
  split.
  - (* a hard rack affinity *)
    intros Hhard Htog g Hg. rewrite Hhard in Hrun, Hrn.
    rewrite bool_decide_true in Hrun by done.
    destruct (targetRack pgB0) as [tr|] eqn:Etr.
    + apply mret_inv in Hrun as [-> _].
      assert (g = [tr]) as ->.
      { apply elem_of_app in Hg as [Hg|Hg%list_elem_of_singleton]; [|done].
        by destruct (Hg0 g Hg) as [Hr _]; apply Hr. }
      destruct (Htr tr eq_refl) as (v & n0 & Hv & Hn0 & Hr).
      eapply (Hwit _ id v n0 [tr] tr); eauto.
      by intros r ->%list_elem_of_singleton.
    + mbind Hrun as l sC Hfit. apply mret_inv in Hrun as [-> _].
      apply sortGroupsFrom_in in Hg.
      assert (∃ r, g = [r]) as [r ->].
      { apply elem_of_app in Hg as [Hg|Hg].
        - by destruct (Hg0 g Hg) as [Hr _]; apply Hr.
        - by eapply fittingRacks_single. }
      apply (Hnone _ id [r] r); [by apply Hrn|]. by intros ? ->%list_elem_of_singleton.
  - (* a hard domain affinity *)
    intros Hhard Htog g Hg. rewrite Hhard in Hrun, Hdn.
    assert (∀ tr, targetRack pgB0 = Some tr →
              groupFits rack_domain (pg_vms pg) (vmsByIndex st) [tr]) as Hsingle.
    { intros tr Etr. destruct (Htr tr Etr) as (v & n0 & Hv & Hn0 & Hr).
      eapply (Hwit _ rack_domain v n0 [tr] (rack_domain tr)); eauto; [by rewrite Hr|].
      by intros r ->%list_elem_of_singleton. }
    assert (∀ d, (∀ r, r ∈ g → rack_domain r = d) →
              match targetDomain pgB0 with Some td => d = td | None => True end →
              groupFits rack_domain (pg_vms pg) (vmsByIndex st) g) as Hdomain.
    { intros d Hd Htarget. destruct (targetDomain pgB0) as [td|] eqn:Etd.
      - subst d. destruct (Htd td eq_refl) as (v & n0 & Hv & Hn0 & Hr).
        eapply (Hwit _ rack_domain v n0 g td); eauto.
      - apply (Hnone _ rack_domain g d); [|done]. by apply Hdn. }
    destruct (bool_decide (rackAffinity pg = HARD)) eqn:Hra.
    { apply bool_decide_eq_true in Hra. rewrite Hra in Hrn.
      destruct (targetRack pgB0) as [tr|] eqn:Etr.
      - apply mret_inv in Hrun as [-> _].
        assert (g = [tr]) as ->.
        { apply elem_of_app in Hg as [Hg|Hg%list_elem_of_singleton]; [|done].
          by destruct (Hg0 g Hg) as [Hr _]; apply Hr. }
        by apply Hsingle.
      - mbind Hrun as l sC Hfit. apply mret_inv in Hrun as [-> _].
        apply sortGroupsFrom_in in Hg.
        assert (∃ r, g = [r]) as [r ->].
        { apply elem_of_app in Hg as [Hg|Hg].
          - by destruct (Hg0 g Hg) as [Hr _]; apply Hr.
          - by eapply fittingRacks_single. }
        apply (Hnone _ rack_domain [r] (rack_domain r)); [by apply Hrn|].
        by intros ? ->%list_elem_of_singleton. }
    apply bool_decide_eq_false in Hra.
    assert (∀ g, g ∈ groups0 → groupFits rack_domain (pg_vms pg) (vmsByIndex st) g) as Hg0'.
    { intros g' Hg'. destruct (Hg0 g' Hg') as [_ Hd]. specialize (Hd Hra Hhard).
      destruct (targetDomain pgB0) as [td|] eqn:Etd.
      - destruct (Htd td eq_refl) as (v & n0 & Hv & Hn0 & Hr).
        eapply (Hwit _ rack_domain v n0 g' td); eauto.
      - destruct Hd as [d Hd]. apply (Hnone _ rack_domain g' d); [|done]. by apply Hdn. }
    assert (∀ td, targetDomain pgB0 = Some td →
              groupFits rack_domain (pg_vms pg) (vmsByIndex st)
                (sortByLoad (domains st) (racksOf (domains st) td))) as Htarget.
    { intros td Etd. destruct (Htd td Etd) as (v & n0 & Hv & Hn0 & Hr).
      eapply (Hwit _ rack_domain v n0 _ td); eauto.
      intros r Hr'%sortByLoad_in. by eapply racksOf_domain. }
    assert (∀ t n doms s l s', targetDomain pgB0 = None →
              fittingDomains t n doms s = Some (l, s') →
              ∀ g, g ∈ l → groupFits rack_domain (pg_vms pg) (vmsByIndex st) g) as Hfitting.
    { intros t n doms s l s' Etd Hf g' Hg'.
      destruct (fittingDomains_domain _ _ _ _ _ _ Hf g' Hg') as [d Hd].
      apply (Hnone _ rack_domain g' d); [|done]. by apply Hdn. }
    rewrite bool_decide_true in Hrun by done. simpl in Hrun. rewrite Hdom in Hrun.
    destruct (bool_decide (rackAffinity pg = NONE) || negb (rackAffinityPossible pgB0)) eqn:Hfail.
    { destruct (targetDomain pgB0) as [td|] eqn:Etd.
      - apply mret_inv in Hrun as [-> _].
        apply elem_of_app in Hg as [Hg|Hg%list_elem_of_singleton]; [by apply Hg0'|].
        subst g. by apply Htarget.
      - mbind Hrun as l sC Hfit. apply mret_inv in Hrun as [-> _].
        apply sortGroupsFrom_in in Hg. apply elem_of_app in Hg as [Hg|Hg]; [by apply Hg0'|].
        by eapply Hfitting. }
    apply orb_false_iff in Hfail as [Hnone' Hposs].
    apply bool_decide_eq_false in Hnone'. apply negb_false_iff in Hposs.
    assert (rackAffinity pg = SOFT) as Hsoft by (by destruct (rackAffinity pg)).
    rewrite Hsoft, Hposs in Hrun. rewrite bool_decide_true in Hrun by done. simpl in Hrun.
    destruct (targetRack pgB0) as [tr|] eqn:Etr; simpl in Hrun.
    + mbind Hrun as l sC Hfit. apply mret_inv in Hrun as [-> _].
      apply sortGroupsFrom_in in Hg.
      apply elem_of_app in Hg as [[Hg|Hg%list_elem_of_singleton]%elem_of_app|Hg].
      * by apply Hg0'.
      * subst g. by apply Hsingle.
      * destruct (targetDomain pgB0) as [td|] eqn:Etd.
        -- apply mret_inv in Hfit as [-> _]. apply list_elem_of_singleton in Hg as ->.
           by apply Htarget.
        -- by eapply Hfitting.
    + mbind Hrun as l sC Hfit. apply mret_inv in Hrun as [-> _].
      apply sortGroupsFrom_in in Hg.
      apply elem_of_app in Hg as [Hg|Hg]; [by apply Hg0'|].
      destruct (targetDomain pgB0) as [td|] eqn:Etd.
      * apply mret_inv in Hfit as [-> _]. apply list_elem_of_singleton in Hg as ->.
        by apply Htarget.
      * by eapply Hfitting.
Qed.

End Groups.

Section Affine.
Context `{StdLib}.

(** *** The hard affinities through the session *)

Lemma registerVMs_affine t pgi part i0 idxs st u st' k :
  registerVMs t pgi part i0 idxs st = Some (u, st') →
  (λ pg, (rackAffinity pg, domainAffinity pg)) <$> pgsByIndex st' !! k
  = (λ pg, (rackAffinity pg, domainAffinity pg)) <$> pgsByIndex st !! k.
Proof.
  revert i0 st. induction idxs as [|i idxs IH]; intros i0 st Hrun; simpl in Hrun.
  { by apply mret_inv in Hrun as [_ ->]. }
  mbind Hrun as [] sa Hins. apply modifyM_inv in Hins as ->.
  mbind Hrun as vm s Hvm. apply readVM_inv in Hvm as [_ ->].
  mbind Hrun as [] sb Hpush. apply modifyM_inv in Hpush as ->.
  apply IH in Hrun. rewrite Hrun. simpl.
  assert (pgsByIndex (match vmsByIndex st !! i with
                      | Some _ => st
                      | None => set_vms (<[i:=_]> (vmsByIndex st)) st
                      end) = pgsByIndex st) as -> by (by destruct (vmsByIndex st !! i)).
  destruct (decide (k = pgi)) as [->|Hk].
  - rewrite lookup_alter_eq. by destruct (pgsByIndex st !! pgi).
  - by rewrite lookup_alter_ne.
Qed.

Lemma deleteVMs_affinity V st u st' k :
  deleteVMs V st = Some (u, st') →
  (λ pg, (rackAffinity pg, domainAffinity pg)) <$> pgsByIndex st' !! k
  = (λ pg, (rackAffinity pg, domainAffinity pg)) <$> pgsByIndex st !! k.
Proof.
  revert st. induction V as [|i V IH]; intros st Hrun.
  { simpl in Hrun. by apply mret_inv in Hrun as [_ ->]. }
  apply deleteVMs_cons in Hrun as (vm & n0 & st1 & Hvm & Hn0 & Hun & Hrun).
  apply unplace_inv in Hun as (vm' & n0' & _ & _ & ->).
  apply IH in Hrun. rewrite Hrun. simpl.
  destruct (decide (k = vm_pg vm)) as [->|Hk].
  - rewrite lookup_alter_eq. by destruct (pgsByIndex st !! vm_pg vm).
  - by rewrite lookup_alter_ne.
Qed.

Lemma Frame_affinity B S t st st' k :
  Frame B S t st st' →
  (λ pg, (rackAffinity pg, domainAffinity pg)) <$> pgsByIndex st' !! k
  = (λ pg, (rackAffinity pg, domainAffinity pg)) <$> pgsByIndex st !! k.
Proof.
  intros F. pose proof (fr_pgs _ _ _ _ _ F k) as E.
  destruct (pgsByIndex st' !! k) as [pg'|], (pgsByIndex st !! k) as [pg|]; simpl in *; try done.
  unfold pg_static in E. f_equal. congruence.
Qed.

(** The batch joins its group where the members of the group are. *)
Lemma attempt_together {X} (key : RackRef → X) idxs pgi t st0 s_in sg racks b pg :
  NoDup idxs → Inv idxs st0 → pgsByIndex st0 !! pgi = Some pg →
  searching idxs pgi t st0 s_in →
  getBestPlacement pgi idxs t racks s_in = Some (Some b, sg) →
  groupFits key (pg_vms pg) (vmsByIndex st0) racks →
  together key pgi (vmsByIndex sg).
Proof.
  intros Hnd HInv Hpg (Fin & Hready & Haa & Hco) Hcall (x & Hracks & Hmem).
  destruct (Frame_pg _ _ _ _ _ _ _ Fin Hpg) as (pg_in & Hpg_in & Hst_in).
  pose proof Hcall as Hcall'.
  apply (getBestPlacement_spec idxs t) in Hcall' as (Fg & _); try done.
  apply (getBestPlacement_within idxs t pgi racks s_in b sg pg_in) in Hcall; try done.
  rewrite (pg_static_vms _ _ Hst_in) in Hcall.
  assert (Frame idxs idxs t st0 sg) as F by (by eapply Frame_trans).
  assert (∀ i vi n, vmsByIndex sg !! i = Some vi → vm_pg vi = pgi → n ∈ vm_nodes vi →
            key (node_rack n) = x) as Hall.
  { intros i vi n Hvi Hpgi Hn.
    assert (∀ j vj m, j ∉ idxs → j ∈ pg_vms pg → vmsByIndex sg !! j = Some vj →
              m ∈ vm_nodes vj → key (node_rack m) = x) as Hold.
    { intros j vj m Hj Hjm Hvj Hm. rewrite (fr_vms_out _ _ _ _ _ F) in Hvj by done.
      by eapply Hmem. }
    destruct (decide (i ∈ idxs)) as [Hi|Hi].
    - destruct (Hcall i vi n Hi Hvi Hn) as [Hr|(j & vj & m & Hvj & Hj & HjB & Hm & Hr)].
      + by apply Hracks.
      + rewrite <- Hr. by eapply Hold.
    - eapply Hold; eauto.
      pose proof Hvi as Hvi0. rewrite (fr_vms_out _ _ _ _ _ F) in Hvi0 by done.
      destruct (inv_members _ _ HInv _ _ Hvi0) as (pgx & Hpgx & Hin).
      rewrite Hpgi in Hpgx. congruence. }
  intros i j vi vj n m Hvi Hvj Hpi Hpj Hn Hm.
  rewrite (Hall i vi n), (Hall j vj m); done.
Qed.

Lemma createVMs_affine e idxs ty pgi part st st' :
  Inv [] st → affine st → NoDup idxs → (∀ i, i ∈ idxs → vmsByIndex st !! i = None) →
  createVMs e idxs ty pgi part st = Some (true, st') → affine st'.
Proof.
  intros HInv Haff Hnd Hfresh Hrun.
  apply (createVMs_reached (λ _ _, True)) in Hrun
    as (t & pg & st0 & Ht & Hpg & _ & _ & Hreg & HInv0 & F & _ & Hreach); try done.
  destruct Hreach as (groups & s1 & racks & s_in & sg & b & Hgr & Hracks & Hs_in & _ & Hcall
                      & Hsg & _ & _ & Hv & _); [done|].
  pose proof Hreg as Hreg'.
  eapply registerVMs_spec in Hreg' as (_ & _ & _ & Hout0 & Hin0 & Hpgs0 & pg0 & Hpg0 & Hvms0 & _);
    try done.
  assert (∀ k, (λ pg, (rackAffinity pg, domainAffinity pg)) <$> pgsByIndex st' !! k
               = (λ pg, (rackAffinity pg, domainAffinity pg)) <$> pgsByIndex st !! k) as Haffy.
  { intros k. rewrite (Frame_affinity _ _ _ _ _ k F). by eapply registerVMs_affine. }
  assert (∃ vm0 vm, head idxs = Some vm0 ∧ vmsByIndex st0 !! vm0 = Some vm ∧ vm_pg vm = pgi)
    as (vm0 & vm & Hhd & Hvm0 & Hpg_vm).
  { destruct idxs as [|i idxs].
    - unfold getRackGroups2 in Hgr. by minv.
    - destruct (Hin0 i) as (vm & ? & ? & ? & ? & ?); [by left|]. by exists i, vm. }
  assert (∀ {X} (key : RackRef → X), together key pgi (vmsByIndex st) →
            membersTogether key (pg_vms pg0) (vmsByIndex st0)) as Hmembers.
  { intros X key Htog j j' vj vj' n m Hj Hj' Hvj Hvj' Hn Hm.
    assert (∀ a va x, a ∈ pg_vms pg0 → vmsByIndex st0 !! a = Some va → x ∈ vm_nodes va →
              vmsByIndex st !! a = Some va ∧ vm_pg va = pgi) as Hold.
    { intros a va x Ha Hva Hx.
      destruct (inv_live _ _ HInv0 _ _ _ Hpg0 Ha) as (va' & Hva' & Hpga).
      assert (va' = va) as -> by congruence. split; [|done].
      rewrite <- Hout0; [done|]. intros Hai.
      destruct (Hin0 a Hai) as (w & Hw & _ & _ & _ & Hnil & _).
      assert (w = va) as -> by congruence. rewrite Hnil in Hx. by apply elem_of_nil in Hx. }
    destruct (Hold j vj n Hj Hvj Hn) as [Hs1 Hp1].
    destruct (Hold j' vj' m Hj' Hvj' Hm) as [Hs2 Hp2].
    eapply (Htog j j' vj vj'); eauto. }
  pose proof (getRackGroups2_hard idxs st0 groups s1 vm0 vm pg0 Hhd Hvm0) as Hgroups.
  rewrite Hpg_vm in Hgroups. destruct (Hgroups Hpg0 Hgr) as [Hgrack Hgdom].
  assert (rackAffinity pg0 = rackAffinity pg ∧ domainAffinity pg0 = domainAffinity pg)
    as [Era0 Eda0].
  { pose proof (registerVMs_affine _ _ _ _ _ _ _ _ pgi Hreg) as E.
    rewrite Hpg0, Hpg in E. simpl in E. by injection E as -> ->. }
  assert (∀ k, k ≠ pgi → ∀ {X} (key : RackRef → X),
            together key k (vmsByIndex st) → together key k (vmsByIndex st')) as Hother.
  { intros k Hk X key Htog i j vi vj n m Hvi Hvj Hpi Hpj Hn Hm.
    assert (∀ a va, vmsByIndex st' !! a = Some va → vm_pg va = k →
              vmsByIndex st !! a = Some va) as Hsame.
    { intros a va Hva Hpa. destruct (decide (a ∈ idxs)) as [Ha|Ha].
      - destruct (Hin0 a Ha) as (v & Hva0 & _ & _ & Hpgv & _).
        destruct (Frame_vm _ _ _ _ _ _ _ F Hva) as (v0 & Hv0 & (_ & _ & Epg & _)%static_fields).
        congruence.
      - rewrite (fr_vms_out _ _ _ _ _ F) in Hva by done. by rewrite Hout0 in Hva. }
    eapply (Htog i j vi vj); eauto. }
  intros k pgk Hpgk.
  pose proof (Haffy k) as Ek. rewrite Hpgk in Ek.
  destruct (pgsByIndex st !! k) as [pgk0|] eqn:Hpgk0; [|done].
  simpl in Ek. injection Ek as Er Ed.
  destruct (Haff k pgk0 Hpgk0) as [Hrack Hdom].
  destruct (decide (k = pgi)) as [->|Hk].
  - assert (pgk0 = pg) as -> by congruence. rewrite Hv. split.
    + intros Hhard. rewrite Er in Hhard.
      eapply (attempt_together id idxs pgi t st0 s_in sg racks b pg0); try done.
      apply Hgrack; [congruence| |done]. by apply Hmembers, Hrack.
    + intros Hhard. rewrite Ed in Hhard.
      eapply (attempt_together rack_domain idxs pgi t st0 s_in sg racks b pg0); try done.
      apply Hgdom; [congruence| |done]. by apply Hmembers, Hdom.
  - split.
    + intros Hhard. apply Hother; [done|]. apply Hrack. congruence.
    + intros Hhard. apply Hother; [done|]. apply Hdom. congruence.
Qed.

Lemma handle_affine e req st st' :
  Inv [] st → wf_request st req → affine st →
  handle e req st = Some (false, st') → affine st'.
Proof.
  intros HInv Hwf Haff Hh.
  destruct req as [index hp soft domA rackA|idxs ty pgi part|idxs|]; simpl in Hh.
  - mbind Hh as [] s Hc'. apply mret_inv in Hh as [_ ->]. unfold createPG in Hc'.
    apply modifyM_inv in Hc' as ->.
    destruct (pgsByIndex st !! index) as [pg0|] eqn:E; [done|].
    intros k pgk Hpgk. simpl in *. destruct (decide (k = index)) as [->|Hk].
    + assert (∀ {X} (key : RackRef → X), together key index (vmsByIndex st)) as Hnone.
      { intros X key i j vi vj n m Hvi _ Hpi. 
        destruct (inv_members _ _ HInv _ _ Hvi) as (pgx & Hpgx & _). congruence. }
      split; intros _; apply Hnone.
    + rewrite lookup_insert_ne in Hpgk by done. by apply Haff.
  - mbind Hh as ok s Hc'. apply mret_inv in Hh as [Hok ->]. destruct ok; [|done].
    destruct Hwf as [Hnd Hfresh]. by eapply createVMs_affine.
  - mbind Hh as [] s Hd'. apply mret_inv in Hh as [_ ->].
    pose proof (deleteVMs_in _ _ _ _ Hd') as (_ & Hin & Hout & _).
    assert (∀ a va, vmsByIndex s !! a = Some va → vmsByIndex st !! a = Some va) as Hsub.
    { intros a va Hva. destruct (decide (a ∈ idxs)) as [Ha|Ha].
      - destruct (Hin a Ha) as [_ E]. congruence.
      - by rewrite <- Hout. }
    intros k pgk Hpgk.
    pose proof (deleteVMs_affinity _ _ _ _ k Hd') as Ek. rewrite Hpgk in Ek.
    destruct (pgsByIndex st !! k) as [pgk0|] eqn:Hpgk0; [|done].
    simpl in Ek. injection Ek as Er Ed.
    destruct (Haff k pgk0 Hpgk0) as [Hrack Hdom].
    split; intros Hhard i j vi vj n m Hvi Hvj; [eapply Hrack|eapply Hdom]; eauto; congruence.
  - by apply mret_inv in Hh as [[=] _].
Qed.

Lemma reachable_affine st : reachable st → affine st.
Proof.
  induction 1 as [h Hwf|st e req st' Hr IH Hwfr Hh].
  - by intros k pg Hk.
  - eapply handle_affine; eauto. by apply reachable_Inv.
Qed.

End Affine.

(** ** The lines written *)

Section Output.
Context `{StdLib}.

Lemma indexed_layout ds ds' : layout ds = layout ds' → indexed ds → indexed ds'.
Proof.
  intros E (Hd & Hr & Hp & Hn). split; [|split; [|split]].
  - intros d x Hx. pose proof (layout_getDomain _ _ d E) as Hl. rewrite Hx in Hl.
    destruct (getDomain d ds) as [y|] eqn:Ey; [|done]. simpl in Hl.
    rewrite <- (Hd d y Ey). unfold dom_layout in Hl. congruence.
  - intros r x Hx. pose proof (layout_getRack _ _ r E) as Hl. rewrite Hx in Hl.
    destruct (getRack r ds) as [y|] eqn:Ey; [|done]. simpl in Hl.
    rewrite <- (Hr r y Ey). unfold rack_layout in Hl. congruence.
  - intros p x Hx. pose proof (layout_getPM _ _ p E) as Hl. rewrite Hx in Hl.
    destruct (getPM p ds) as [y|] eqn:Ey; [|done]. simpl in Hl.
    rewrite <- (Hp p y Ey). unfold pm_layout in Hl. congruence.
  - intros n x Hx. pose proof (layout_getNode _ _ n E) as Hl. rewrite Hx in Hl.
    destruct (getNode n ds) as [y|] eqn:Ey; [|done]. simpl in Hl.
    rewrite <- (Hn n y Ey). unfold node_layout in Hl. congruence.
Qed.

Lemma lookup_fmap_seq {A} (f : nat → A) n i x :
  (f <$> seq 0 n) !! i = Some x → x = f i.
Proof.
  rewrite list_lookup_fmap. intros (j & Hj & ->)%fmap_Some.
  apply lookup_seq in Hj as [-> _]. done.
Qed.

Lemma initial_indexed h : indexed (domains (initial h)).
Proof.
  assert (∀ d x, getDomain d (domains (initial h)) = Some x →
            dom_index x = Z.of_nat d + 1
            ∧ ∀ r y, dom_racks x !! r = Some y →
                rack_index y = Z.of_nat r + 1
                ∧ ∀ p z, rack_pms y !! p = Some z →
                    pm_index z = Z.of_nat p + 1
                    ∧ ∀ n w, pm_nodes z !! n = Some w → node_index w = Z.of_nat n + 1) as Hall.
  { intros d x Hx. unfold initial, mkManager, getDomain in Hx. simpl in Hx.
    apply lookup_fmap_seq in Hx as ->. split; [done|]. intros r y Hy. simpl in Hy.
    apply lookup_fmap_seq in Hy as ->. split; [done|]. intros p z Hz. simpl in Hz.
    apply lookup_fmap_seq in Hz as ->. split; [done|]. intros n w Hw. simpl in Hw.
    rewrite list_lookup_imap in Hw. apply fmap_Some in Hw as (cm & _ & ->). done. }
  split; [|split; [|split]].
  - intros d x Hx. by apply Hall.
  - intros r x. unfold getRack. destruct (getDomain r.1 _) as [y|] eqn:Ey; simpl; [|done].
    intros Hx. destruct (Hall _ _ Ey) as [_ Hy]. by apply (Hy _ _ Hx).
  - intros p x. unfold getPM, getRack.
    destruct (getDomain p.1.1 _) as [y|] eqn:Ey; simpl; [|done].
    destruct (dom_racks y !! p.1.2) as [z|] eqn:Ez; simpl; [|done].
    intros Hx. destruct (Hall _ _ Ey) as [_ Hy]. destruct (Hy _ _ Ez) as [_ Hz].
    by apply (Hz _ _ Hx).
  - intros n x. unfold getNode, getPM, getRack.
    destruct (getDomain n.1.1.1 _) as [y|] eqn:Ey; simpl; [|done].
    destruct (dom_racks y !! n.1.1.2) as [z|] eqn:Ez; simpl; [|done].
    destruct (rack_pms z !! n.1.2) as [w|] eqn:Ew; simpl; [|done].
    intros Hx. destruct (Hall _ _ Ey) as [_ Hy]. destruct (Hy _ _ Ez) as [_ Hz].
    destruct (Hz _ _ Ew) as [_ Hw]. by apply (Hw _ _ Hx).
Qed.

Lemma reachable_indexed st : reachable st → indexed (domains st).
Proof.
  intros (h & _ & _ & E)%reachable_layout.
  eapply indexed_layout; [symmetry; exact E|apply initial_indexed].
Qed.

(** What leaves the lines alone. *)
Lemma search_stdout pgi V t st r st' :
  searchPlacement pgi V t st = Some (r, st') → stdout st' = stdout st.
Proof.
  intros Hrun. by eapply (Keeps_search (λ s, stdout s = stdout st)) in Hrun.
Qed.

Lemma updateTargets_stdout pgi st r st' :
  updateTargets pgi st = Some (r, st') → stdout st' = stdout st.
Proof.
  intros Hrun. by eapply (Keeps_updateTargets' (λ s, stdout s = stdout st)) in Hrun.
Qed.

Lemma place_state i nodes st u st' :
  place i nodes st = Some (u, st') →
  stdout st' = stdout st ∧ layout (domains st') = layout (domains st).
Proof.
  intros Hrun. split.
  - by eapply (Keeps_place (λ s, stdout s = stdout st)) in Hrun.
  - eapply (Keeps_place (λ s, layout (domains s) = layout (domains st))) in Hrun; try done.
    intros s ds' E1 E2. simpl. congruence.
Qed.

Lemma nodeIndices_spec nodes st l st' :
  indexed (domains st) → nodeIndices nodes st = Some (l, st') →
  l = (λ n : NodeRef, Z.of_nat n.2 + 1) <$> nodes.
Proof.
  intros (_ & _ & _ & Hn). revert l st'.
  induction nodes as [|n nodes IH]; intros l st' Hrun; simpl in Hrun.
  - by apply mret_inv in Hrun as [-> _].
  - mbind Hrun as node s Hnode. apply readNode_inv in Hnode as [Hnode ->].
    mbind Hrun as l' s Hl. pose proof (nodeIndices_state _ _ _ _ Hl) as ->.
    apply mret_inv in Hrun as [-> _]. simpl. f_equal; [by apply Hn|by eapply IH].
Qed.

(** The lines of the commit. *)
Lemma commitVMs_stdout best V st u st' :
  indexed (domains st) →
  (∀ i, i ∈ V → ∃ vm, vmsByIndex st !! i = Some vm ∧ vm_index vm = i) →
  NoDup V →
  commitVMs best V st = Some (u, st') →
  stdout st' = stdout st ++ ((λ i, outputLine (default [] (placements best !! i))) <$> V).
Proof.
  revert st. induction V as [|i V IH]; intros st Hidx Hpre Hnd Hrun; simpl in Hrun.
  { apply mret_inv in Hrun as [_ ->]. simpl. by rewrite app_nil_r. }
  apply NoDup_cons in Hnd as [HiV Hnd].
  destruct (Hpre i) as (vm & Hvm & Hi); [by left|].
  mbind Hrun as vm' s Hvm'. apply readVM_inv in Hvm' as [Hvm' ->].
  assert (vm' = vm) as -> by congruence. rewrite Hi in Hrun.
  mbind Hrun as n0 s Hn0. apply orCrash_inv in Hn0 as [Hn0 ->].
  mbind Hrun as [] sa Hplace.
  pose proof (place_state _ _ _ _ _ Hplace) as [Hout Hlay].
  pose proof (indexed_layout _ _ (eq_sym Hlay) Hidx) as Hidxa.
  mbind Hrun as pm s Hpm. apply readPM_inv in Hpm as [Hpm ->].
  mbind Hrun as rack s Hrack. apply readRack_inv in Hrack as [Hrack ->].
  mbind Hrun as domain s Hdomain. apply readDomain_inv in Hdomain as [Hdomain ->].
  mbind Hrun as idx s Hnodes. pose proof (nodeIndices_state _ _ _ _ Hnodes) as ->.
  apply (nodeIndices_spec _ _ _ _ Hidxa) in Hnodes as ->.
  mbind Hrun as [] sb Hprint. apply modifyM_inv in Hprint as ->.
  apply place_inv in Hplace as (vm' & n0' & Hvm'' & _ & Esa).
  apply IH in Hrun; [| |subst sa; simpl|done].
  - rewrite Hrun. simpl. rewrite Hout, <- app_assoc. f_equal. simpl. f_equal.
    destruct Hidxa as (Hd & Hr & Hp & _).
    rewrite (Hd _ _ Hdomain), (Hr _ _ Hrack), (Hp _ _ Hpm).
    unfold outputLine. destruct (default [] (placements best !! i)) as [|x xs]; [done|].
    by injection Hn0 as ->.
  - done.
  - intros j Hj. destruct (Hpre j) as (vj & Hvj & Hjx); [by right|].
    exists vj. split; [|done]. rewrite lookup_insert_ne; [done|]. by intros ->.
Qed.

End Output.

(** ** What the requests change in the registries *)

Section Registries.
Context `{StdLib}.

Lemma filter_all {A} (P : A → Prop) `{∀ x, Decision (P x)} (l : list A) :
  (∀ y, y ∈ l → P y) → filter P l = l.
Proof.
  induction l as [|x l IH]; intros Hl; [done|].
  rewrite filter_cons_True by (apply Hl; by left). f_equal. apply IH. intros y Hy.
  apply Hl. by right.
Qed.

Lemma registerVMs_partition t pgi part i0 idxs st u st' k i :
  NoDup idxs → (∀ i, i ∈ idxs → vmsByIndex st !! i = None) →
  registerVMs t pgi part i0 idxs st = Some (u, st') →
  idxs !! k = Some i →
  vm_partition <$> vmsByIndex st' !! i
  = Some (if 0 <=? part then part else i0 + Z.of_nat k + 1).
Proof.
  revert i0 st k. induction idxs as [|j idxs IH]; intros i0 st k Hnd Hfresh Hrun Hk;
    simpl in Hrun; [done|].
  apply NoDup_cons in Hnd as [Hj Hnd].
  mbind Hrun as [] sa Hins. apply modifyM_inv in Hins as ->.
  rewrite (Hfresh j) in Hrun by (by left).
  mbind Hrun as vm s Hvm. apply readVM_inv in Hvm as [Hvm ->].
  mbind Hrun as [] sb Hpush. apply modifyM_inv in Hpush as ->.
  destruct k as [|k]; simpl in Hk.
  - injection Hk as ->.
    assert (pgsByIndex st !! pgi = pgsByIndex st !! pgi) as _ by done.
    assert (∀ i0 st, vmsByIndex st !! i = Some vm → i ∉ idxs →
              ∀ u st', registerVMs t pgi part i0 idxs st = Some (u, st') →
              vmsByIndex st' !! i = Some vm) as Hkeep.
    { clear. induction idxs as [|j idxs IH]; intros i0 st Hvm Hi u st' Hrun; simpl in Hrun.
      - by apply mret_inv in Hrun as [_ ->].
      - apply not_elem_of_cons in Hi as [Hij Hi].
        mbind Hrun as [] sa Hins. apply modifyM_inv in Hins as ->.
        mbind Hrun as vm' s Hvm'. apply readVM_inv in Hvm' as [_ ->].
        mbind Hrun as [] sb Hpush. apply modifyM_inv in Hpush as ->.
        eapply IH in Hrun; [done| |done]. simpl.
        destruct (vmsByIndex st !! j); [done|]. simpl. by rewrite lookup_insert_ne. }
    erewrite Hkeep; [| |done|exact Hrun]; [|exact Hvm].
    simpl in Hvm. rewrite lookup_insert_eq in Hvm. injection Hvm as <-. simpl.
    f_equal. destruct (0 <=? part); lia.
  - eapply IH in Hrun; [| done | | exact Hk].
    + rewrite Hrun. f_equal. destruct (0 <=? part); lia.
    + intros x Hx. simpl. rewrite lookup_insert_ne; [apply Hfresh; by right|].
      intros ->. done.
Qed.

Lemma Frame_constraints B S t st st' k :
  Frame B S t st st' →
  pg_constraints <$> pgsByIndex st' !! k = pg_constraints <$> pgsByIndex st !! k.
Proof.
  intros F. pose proof (fr_pgs _ _ _ _ _ F k) as E.
  destruct (pgsByIndex st' !! k) as [pg'|], (pgsByIndex st !! k) as [pg|]; simpl in *; try done.
  unfold pg_static in E. unfold pg_constraints. f_equal. congruence.
Qed.

Lemma registerVMs_constraints t pgi part i0 idxs st u st' k :
  registerVMs t pgi part i0 idxs st = Some (u, st') →
  pg_constraints <$> pgsByIndex st' !! k = pg_constraints <$> pgsByIndex st !! k.
Proof.
  revert i0 st. induction idxs as [|i idxs IH]; intros i0 st Hrun; simpl in Hrun.
  { by apply mret_inv in Hrun as [_ ->]. }
  mbind Hrun as [] sa Hins. apply modifyM_inv in Hins as ->.
  mbind Hrun as vm s Hvm. apply readVM_inv in Hvm as [_ ->].
  mbind Hrun as [] sb Hpush. apply modifyM_inv in Hpush as ->.
  apply IH in Hrun. rewrite Hrun. simpl.
  assert (pgsByIndex (match vmsByIndex st !! i with
                      | Some _ => st
                      | None => set_vms (<[i:=_]> (vmsByIndex st)) st
                      end) = pgsByIndex st) as -> by (by destruct (vmsByIndex st !! i)).
  destruct (decide (k = pgi)) as [->|Hk].
  - rewrite lookup_alter_eq. by destruct (pgsByIndex st !! pgi).
  - by rewrite lookup_alter_ne.
Qed.

(** What a deletion leaves of the groups. *)
Lemma deleteVMs_groups V st u st' k :
  Inv [] st → deleteVMs V st = Some (u, st') →
  pg_constraints <$> pgsByIndex st' !! k = pg_constraints <$> pgsByIndex st !! k
  ∧ pg_vms <$> pgsByIndex st' !! k
    = (λ pg, filter (λ j, j ∉ V) (pg_vms pg)) <$> pgsByIndex st !! k.
Proof.
  revert st. induction V as [|i V IH]; intros st HInv Hrun.
  { simpl in Hrun. apply mret_inv in Hrun as [_ ->]. split; [done|].
    destruct (pgsByIndex st !! k) as [pg|]; simpl; [|done]. f_equal.
    symmetry. apply filter_all. intros j _. apply not_elem_of_nil. }
  apply deleteVMs_cons in Hrun as (vm & n0 & st1 & Hvm & Hn0 & Hun & Hrun).
  pose proof (delete_step_Inv _ _ _ _ HInv Hvm Hun) as HInv1.
  apply unplace_inv in Hun as (vm' & n0' & _ & _ & ->).
  apply (IH _ HInv1) in Hrun as [Hc Hm]. rewrite Hc, Hm. simpl.
  assert (∀ l : list Z, filter (λ j, j ∉ V) (filter (λ j, j ≠ i) l)
                        = filter (λ j, j ∉ i :: V) l) as Hfilter.
  { intros l. induction l as [|x l IHl]; [done|].
    rewrite (filter_cons (λ j, j ≠ i)), (filter_cons (λ j, j ∉ i :: V)).
    destruct (decide (x ≠ i)) as [Hx|Hx].
    - rewrite filter_cons. destruct (decide (x ∉ V)) as [HxV|HxV].
      + rewrite decide_True by (by apply not_elem_of_cons). by rewrite IHl.
      + rewrite decide_False; [done|]. intros [_ ?]%not_elem_of_cons. done.
    - rewrite decide_False; [done|]. intros [? _]%not_elem_of_cons. done. }
  destruct (decide (k = vm_pg vm)) as [->|Hk].
  - rewrite lookup_alter_eq. destruct (pgsByIndex st !! vm_pg vm) as [pg|]; simpl; [|done].
    split; [done|]. f_equal. apply Hfilter.
  - rewrite lookup_alter_ne by done. split; [done|].
    destruct (pgsByIndex st !! k) as [pg|] eqn:Hpg; simpl; [|done]. f_equal.
    rewrite <- Hfilter. f_equal. symmetry. apply filter_all. intros j Hj ->.
    destruct (inv_live _ _ HInv _ _ _ Hpg Hj) as (vi & Hvi & Hpgi). congruence.
Qed.

(** What a creation request within the budget does, whether it finds a
    plan or not. *)
Lemma search_layout pgi V t st r st' :
  searchPlacement pgi V t st = Some (r, st') → layout (domains st') = layout (domains st).
Proof.
  intros Hrun.
  eapply (Keeps_search (λ s, layout (domains s) = layout (domains st))) in Hrun; try done.
  intros s ds' E1 E2. simpl. congruence.
Qed.

Lemma createVMs_frame e idxs ty pgi part st ok st' :
  Inv [] st → indexed (domains st) →
  NoDup idxs → (∀ i, i ∈ idxs → vmsByIndex st !! i = None) →
  duration_cast_seconds e < 14 →
  createVMs e idxs ty pgi part st = Some (ok, st') →
  ∃ t pg st0,
    1 ≤ ty ∧ types st !! Z.to_nat (ty - 1) = Some t ∧ pgsByIndex st !! pgi = Some pg
    ∧ registerVMs t pgi (if hardRackAntiAffinityPartitions pg =? 0 then 0 else part) 0 idxs st
      = Some (tt, st0)
    ∧ Frame idxs idxs t st0 st'
    ∧ stdout st' = stdout st ++ (if ok : bool
        then (λ i, outputLine (from_option vm_nodes [] (vmsByIndex st' !! i))) <$> idxs
        else [[-1]])
    ∧ (ok = false → ∀ i vm, i ∈ idxs → vmsByIndex st' !! i = Some vm → vm_nodes vm = []).
Proof.
  intros HInv Hidx Hnd Hfresh Hgate Hrun.
  apply createVMs_steps in Hrun
    as (t & pg & st0 & best & st1 & Hty & Ht & Hpg & Hreg & Hsearch & Hrest); [|done].
  assert (t ∈ types st) as Htin by (by eapply list_elem_of_lookup_2).
  exists t, pg, st0. do 4 (split; [done|]).
  destruct (register_ready _ _ _ _ _ _ _ HInv Htin Hnd Hfresh Hpg Hreg)
    as (HInv0 & Hready & Hdom & Hout & Hout0 & Hin0).
  assert (∃ vm0 vm, head idxs = Some vm0 ∧ vmsByIndex st0 !! vm0 = Some vm ∧ vm_type vm = t)
    as (vm0 & vm & Hhd & Hvm0 & Htyv).
  { destruct idxs as [|i idxs].
    - unfold searchPlacement, getRackGroups2 in Hsearch. by minv.
    - destruct (Hin0 i) as (vm & ? & ? & ? & ?); [by left|]. by exists i, vm. }
  subst t.
  pose proof (search_stdout _ _ _ _ _ _ Hsearch) as Hout1.
  pose proof (search_layout _ _ _ _ _ _ Hsearch) as Hlay1.
  eapply searchPlacement_spec in Hsearch as (F01 & Hun1 & Haa1 & Hco1 & Hplan);
    try done; [|apply HInv0..].
  destruct best as [b|].
  - destruct Hrest as (-> & st2 & Hcommit & Hup).
    pose proof Hcommit as Hcommit'.
    eapply (commitVMs_spec idxs (vm_type vm)) in Hcommit' as (F12 & Hout2 & Hin2); try done.
    2:{ intros i Hi. destruct (Hin0 i Hi) as (vmi & Hvmi & Hix & _).
        destruct (Frame_vm_fwd _ _ _ _ _ _ _ F01 Hvmi) as (vm1 & Hvm1 & (E & _)%static_fields).
        exists vm1. split; [done|]. split; [by eapply Hun1|congruence]. }
    pose proof (updateTargets_frame idxs (vm_type vm) _ _ _ _ Hup) as F23.
    pose proof (Frame_nil_vms _ _ _ _ F23) as Hv3.
    split.
    { eapply Frame_trans; [exact F01|]. eapply Frame_trans; [exact F12|].
      eapply Frame_mono; [|exact F23]. by intros ? ?%elem_of_nil. }
    split; [|done].
    assert (indexed (domains st1)) as Hidx1.
    { eapply indexed_layout; [|exact Hidx]. rewrite Hlay1. by rewrite Hdom. }
    assert (∀ i, i ∈ idxs → ∃ vm, vmsByIndex st1 !! i = Some vm ∧ vm_index vm = i) as Hpre1.
    { intros i Hi. destruct (Hin0 i Hi) as (vmi & Hvmi & Hix & _).
      destruct (Frame_vm_fwd _ _ _ _ _ _ _ F01 Hvmi) as (vm1 & Hvm1 & (E & _)%static_fields).
      exists vm1. split; [done|]. congruence. }
    rewrite (updateTargets_stdout _ _ _ _ Hup).
    rewrite (commitVMs_stdout b idxs st1 _ st2 Hidx1 Hpre1 Hnd Hcommit), Hout1, Hout.
    f_equal. apply list_fmap_ext. intros k i Hk. apply list_elem_of_lookup_2 in Hk.
    destruct (Hin2 i Hk) as (vm1 & nodes & Hvm1 & -> & _ & Hvm2).
    by rewrite Hv3, Hvm2.
  - destruct Hrest as [-> ->]. split; [by apply (Frame_trans _ _ _ _ _ _ F01), Frame_print|].
    split; [simpl; congruence|]. intros _ i vmi Hi Hvmi. by eapply Hun1.
Qed.

End Registries.

(** ** The penalty of a plan, replayed *)

Section Replay.
Context `{StdLib}.

Lemma agree_refl pgi s : agree pgi s s.
Proof. done. Qed.

Lemma partPenalty_agree pgi V s r : agree pgi s r → partPenalty pgi V s = partPenalty pgi V r.
Proof.
  intros (Ev & Ep & Ea). unfold partPenalty. rewrite <- Ep, <- Ev.
  destruct (pgsByIndex s !! pgi) as [pg|]; [|done].
  rewrite (softCount_ext pg (vmsByIndex s) (domains s) (domains r) V); [done|].
  intros p k. unfold countSeen. by rewrite (Ea (LCount p k)).
Qed.

Lemma updateTargets_pg_static pg pg' vms :
  pg_static pg = pg_static pg' → updateTargets_pg pg vms = updateTargets_pg pg' vms.
Proof.
  destruct pg, pg'. unfold pg_static. simpl. intros [= -> -> -> -> -> ->]. reflexivity.
Qed.

(** A successful [tryPlace] leaves the group as [updateTargets] derives it
    from the members in the state it returns in. *)
Lemma tryPlace_targets pgi V t racks force st p racks' st' :
  tryPlace pgi V t racks force st = Some ((Some p, racks'), st') →
  ∃ pg vms, pgsByIndex st' !! pgi = Some (updateTargets_pg pg vms)
    ∧ Forall2 (λ i vm, vmsByIndex st' !! i = Some vm) (pg_vms pg) vms.
Proof.
  unfold tryPlace. intros Hp.
  mbind Hp as [] s1 Hun. mbind Hp as [c m] s2 Hsum.
  destruct (_ || _); [by apply mret_inv in Hp as [[=] _]|].
  mbind Hp as [plc racks1] s3 H1. mbind Hp as [plc2 racks2] s4 H2.
  destruct (size plc2 <? length V)%nat; [by apply mret_inv in Hp as [[=] _]|].
  mbind Hp as [] s5 Hup. mbind Hp as pg s6 Hpg. apply readPG_inv in Hpg as [Hpg ->].
  mbind Hp as soft s7 Hsoft. apply mret_inv in Hp as [_ ->].
  apply updateTargets_inv in Hup as (pg0 & vms & Hpg0 & Hvms & ->).
  simpl in Hpg. rewrite lookup_insert_eq in Hpg. injection Hpg as <-.
  exists pg0, vms.
  assert (pgsByIndex s7 = <[pgi := updateTargets_pg pg0 vms]> (pgsByIndex s4)
          ∧ vmsByIndex s7 = vmsByIndex s4) as [Ep Ev].
  { destruct ((0 <? softPMAntiAffinity (updateTargets_pg pg0 vms))
              && softPMAntiAffinityPossible (updateTargets_pg pg0 vms)).
    - eapply softPenalty_spec in Hsoft as (_ & Ep & Ev & _); [done|].
      simpl. by rewrite lookup_insert_eq.
    - by apply mret_inv in Hsoft as [_ ->]. }
  rewrite Ep, Ev, lookup_insert_eq. done.
Qed.

Lemma tryPlace_penalty_by pgi t V p s :
  placedBy pgi t V p s → penalty p = to_double (partPenalty pgi V s).
Proof. intros (racks & force & s_in & racks' & Ht). by eapply tryPlace_penalty. Qed.

Lemma placedBy_targets pgi t V p s :
  placedBy pgi t V p s →
  ∃ pg vms, pgsByIndex s !! pgi = Some (updateTargets_pg pg vms)
    ∧ Forall2 (λ i vm, vmsByIndex s !! i = Some vm) (pg_vms pg) vms.
Proof. intros (racks & force & s_in & racks' & Ht). by eapply tryPlace_targets. Qed.

Lemma unplaceVMs_total V st :
  (∀ i, i ∈ V → is_Some (vmsByIndex st !! i)) → ∃ st', unplaceVMs V st = Some (tt, st').
Proof.
  revert st. induction V as [|i V IH]; intros st Hreg; simpl; [by eexists|].
  destruct (Hreg i) as [vm Hvm]; [by left|].
  assert (readVM i st = Some (vm, st)) as Er.
  { unfold readVM, orCrash. by rewrite Hvm. }
  rewrite (bind_Some _ _ _ _ _ Er).
  assert (∃ s1, (if isPlaced vm then unplace i else mret tt) st = Some (tt, s1)
                ∧ ∀ j, is_Some (vmsByIndex st !! j) → is_Some (vmsByIndex s1 !! j))
    as (s1 & E1 & Hkeep).
  { unfold isPlaced. destruct (vm_nodes vm) as [|n0 ns] eqn:En.
    - exists st. done.
    - destruct (unplace_total i vm n0 st Hvm) as [s1 E1]; [by rewrite En|].
      exists s1. split; [done|]. intros j Hj.
      apply unplace_inv in E1 as (vm1 & n1 & _ & _ & ->). simpl.
      destruct (decide (j = i)) as [->|Hji]; [by rewrite lookup_insert_eq|].
      by rewrite lookup_insert_ne. }
  rewrite (bind_Some _ _ _ _ _ E1). apply IH. intros j Hj. apply Hkeep, Hreg. by right.
Qed.

Lemma place_total i nodes n0 vm st :
  vmsByIndex st !! i = Some vm → head nodes = Some n0 →
  ∃ st', place i nodes st = Some (tt, st')
    ∧ vmsByIndex st' = <[i := set_vm_nodes nodes vm]> (vmsByIndex st)
    ∧ pgsByIndex st' = pgsByIndex st.
Proof.
  intros Hvm Hhd. eexists. split.
  - unfold place, readVM, orCrash, mbind, M_bind, modifyM. rewrite Hvm. simpl.
    rewrite Hhd. reflexivity.
  - done.
Qed.

(** Placing unplaced VMs where a plan has them. *)
Lemma placeAs_spec B t plc V st :
  NoDup B → NoDup V → (∀ i, i ∈ V → i ∈ B) →
  (∀ i, i ∈ V → ∃ vm nodes, vmsByIndex st !! i = Some vm ∧ vm_nodes vm = []
                  ∧ plc !! i = Some nodes ∧ nodes ≠ []) →
  ∃ st', placeAs plc V st = Some (tt, st')
    ∧ Frame B V t st st'
    ∧ pgsByIndex st' = pgsByIndex st
    ∧ ∀ i, vmsByIndex st' !! i
           = (if decide (i ∈ V) then set_vm_nodes (default [] (plc !! i)) else id)
               <$> vmsByIndex st !! i.
Proof.
  intros HndB. revert st. induction V as [|i V IH]; intros st HndV HB Hplan; simpl.
  { exists st. split; [done|]. split; [apply Frame_refl|]. split; [done|].
    intros i. by rewrite option_fmap_id. }
  apply NoDup_cons in HndV as [Hi HndV].
  destruct (Hplan i) as (vm & nodes & Hvm & Hnil & Hplc & Hne); [by left|].
  rewrite Hplc. simpl.
  assert (∃ n0, head nodes = Some n0) as [n0 Hhd] by (destruct nodes; [done|eauto]).
  destruct (place_total i nodes n0 vm st Hvm Hhd) as (s1 & E1 & Ev1 & Ep1).
  rewrite (bind_Some _ _ _ _ _ E1).
  assert (Frame B (i :: V) t st s1) as F1.
  { eapply (Frame_place B (i :: V) t i nodes st tt s1 vm); try done; [by left|].
    apply HB. by left. }
  destruct (IH s1) as (s2 & E2 & F2 & Ep2 & Ev2); try done.
  { intros j Hj. apply HB. by right. }
  { intros j Hj. destruct (Hplan j) as (vmj & nj & Hvmj & ? & ? & ?); [by right|].
    exists vmj, nj. rewrite Ev1, lookup_insert_ne; [done|]. intros ->. done. }
  exists s2. split; [done|]. split.
  { eapply Frame_trans; [exact F1|]. eapply Frame_mono; [|exact F2].
    intros j Hj. by right. }
  split; [congruence|]. intros j. rewrite Ev2, Ev1.
  destruct (decide (j = i)) as [->|Hji].
  - rewrite decide_False by done. rewrite decide_True by (by left).
    rewrite lookup_insert_eq, Hvm, Hplc. simpl. done.
  - rewrite lookup_insert_ne by done.
    destruct (decide (j ∈ V)) as [Hj|Hj].
    + rewrite decide_True by (by right). done.
    + rewrite decide_False; [done|]. by intros [?|?]%elem_of_cons.
Qed.

Lemma placePartitions_grows pgi t racks parts cp st cp' st' :
  placePartitions pgi t racks parts cp st = Some (Some cp', st') →
  placements cp ⊆ placements cp'.
Proof.
  revert cp st. induction parts as [|[k V] parts IH]; intros cp st Hp; simpl in Hp.
  - by apply mret_inv in Hp as [[= <-] ->].
  - mbind Hp as r s1 H1. destruct r as [cp1|]; [|by apply mret_inv in Hp as [[=] _]].
    apply placePartition_placedBy in H1 as (p & Hby & ->).
    apply IH in Hp. etrans; [|exact Hp]. simpl. apply map_union_subseteq_l.
Qed.

(** Two frames from states that agree, to states with the same VMs, end
    with the same amounts and counts. *)
Lemma Frame_agree B S t pgi s s' r r' :
  agree pgi s r → Frame B S t s s' → Frame B S t r r' →
  vmsByIndex s' = vmsByIndex r' → sameAvailability (domains s') (domains r').
Proof.
  intros (Ev & _ & Ea) Fs Fr Ev' l.
  rewrite (fr_balance _ _ _ _ _ Fs l), (fr_balance _ _ _ _ _ Fr l).
  by rewrite Ev, Ev', (Ea l).
Qed.

(** The replay of one partition ends as the attempt on it ended. *)
Lemma placePartition_replay B t pgi racks q V cp st cp0 sa r plcF pg :
  NoDup B → NoDup V → (∀ i, i ∈ V → i ∈ B) →
  antiAffine (vmsByIndex st) → colocated (vmsByIndex st) →
  batchOf V pgi q (vmsByIndex st) →
  pgsByIndex st !! pgi = Some pg → membersOf pgi pg (vmsByIndex st) →
  (0 < q → 0 < hardRackAntiAffinityPartitions pg) →
  (∀ i, i ∈ V → placements cp !! i = None) →
  placePartition pgi t racks q V cp st = Some (Some cp0, sa) →
  placements cp0 ⊆ plcF → agree pgi st r →
  ∃ p0 r',
    placedBy pgi t V p0 sa ∧ cp0 = addPlacement cp p0
    ∧ (unplaceVMs V;; placeAs plcF V;; updateTargets pgi) r = Some (tt, r')
    ∧ agree pgi sa r'.
Proof.
  intros HndB HndV HB Haa Hco HbV Hpg Hmem Hhp Hfresh Hpart Hsub Hag.
  pose proof Hpart as Hpart'.
  eapply (placePartition_spec B V t pgi racks q V cp st _ sa pg) in Hpart'
    as (F0 & _ & _ & Hres0); try done.
  2:{ intros i Hi. split; [done|]. by apply HB. }
  destruct (Hres0 cp0 eq_refl) as (plc & Hcp0 & Hplc & Hcov0).
  apply placePartition_placedBy in Hpart as (p0 & Hby & Ecp0).
  exists p0. destruct Hag as (Ev & Ep & Ea).
  (* the replay runs *)
  destruct (unplaceVMs_total V r) as [r1 E1].
  { intros i Hi. rewrite <- Ev. destruct (HbV i Hi) as (vm & Hvm & _). by exists vm. }
  pose proof (unplaceVMs_spec B V t V r tt r1 HndB) as Hun.
  destruct Hun as [F1 Ev1]; [by intros i Hi; split; [|apply HB]|done|].
  assert (pgsByIndex r1 = pgsByIndex r) as Ep1.
  { clear -E1. revert r E1. induction V as [|i V IH]; intros r E1; simpl in E1.
    - by apply mret_inv in E1 as [_ ->].
    - mbind E1 as vm s Hvm. apply readVM_inv in Hvm as [Hvm ->].
      mbind E1 as [] s1 Hu. apply IH in E1. rewrite E1.
      destruct (isPlaced vm).
      + by apply unplace_inv in Hu as (? & ? & _ & _ & ->).
      + by apply mret_inv in Hu as [_ ->]. }
  assert (∀ i, i ∈ V → ∃ vm', vmsByIndex sa !! i = Some vm'
            ∧ plcF !! i = Some (vm_nodes vm') ∧ vm_nodes vm' ≠ []) as Hplan.
  { intros i Hi. destruct (Hcov0 i Hi) as (vm' & Hvm' & Hpi & Hne & _).
    exists vm'. split; [done|]. split; [|done].
    eapply lookup_weaken; [|exact Hsub]. rewrite Hcp0.
    rewrite lookup_union_r; [done|]. by apply Hfresh. }
  destruct (placeAs_spec B t plcF V r1 HndB HndV HB) as (r2 & E2 & F2 & Ep2 & Ev2).
  { intros i Hi. destruct (Hplan i Hi) as (vm' & Hvm' & Hpi & Hne).
    destruct (HbV i Hi) as (vm & Hvm & _).
    exists (set_vm_nodes [] vm), (vm_nodes vm'). rewrite Ev1, clearNodes_lookup.
    rewrite decide_True by done. rewrite <- Ev, Hvm. done. }
  assert (vmsByIndex sa = vmsByIndex r2) as Ev_sa.
  { apply map_eq. intros i. rewrite Ev2, Ev1, clearNodes_lookup, <- Ev.
    destruct (decide (i ∈ V)) as [Hi|Hi].
    - destruct (Hplan i Hi) as (vm' & Hvm' & Hpi & Hne). rewrite Hvm', Hpi. simpl.
      destruct (Frame_vm _ _ _ _ _ _ _ F0 Hvm') as (vm & Hvm & Est).
      rewrite Hvm. simpl. f_equal.
      rewrite <- (set_vm_nodes_self vm') at 1.
      destruct vm, vm'. unfold set_vm_nodes in *. simpl in *. congruence.
    - rewrite (fr_vms_out _ _ _ _ _ F0) by done.
      destruct (vmsByIndex st !! i); done. }
  destruct (placedBy_targets _ _ _ _ _ Hby) as (pg_in & vms_in & Hpg_sa & Hvms_in).
  destruct (Frame_pg _ _ _ _ _ _ _ F0 Hpg) as (pg_sa & Hpg_sa' & Hst_sa).
  assert (pg_sa = updateTargets_pg pg_in vms_in) as Epg_sa by congruence.
  assert (pg_static pg_in = pg_static pg) as Hst_in.
  { rewrite <- Hst_sa, Epg_sa. symmetry. apply pg_static_updateTargets. }
  assert (pgsByIndex r2 !! pgi = Some pg) as Hpg_r2 by (rewrite Ep2, Ep1, <- Ep; done).
  destruct (updateTargets_total pgi pg r2 Hpg_r2) as (pg' & E3 & _).
  { intros j Hj. rewrite <- Ev_sa.
    rewrite <- (pg_static_vms _ _ Hst_in) in Hj.
    apply list_elem_of_lookup in Hj as [n Hn].
    destruct (Forall2_lookup_l _ _ _ _ _ Hvms_in Hn) as (vm & _ & Hvm). eauto. }
  set (r3 := set_pgs (<[pgi := pg']> (pgsByIndex r2)) r2) in *.
  exists r3. split; [done|]. split; [done|]. split.
  { rewrite (bind_Some _ _ _ _ _ E1), (bind_Some _ _ _ _ _ E2). exact E3. }
  pose proof E3 as E3'.
  apply updateTargets_inv in E3' as (pg_r & vms_r & Hpg_r & Hvms_r & E3').
  assert (pg_r = pg) as -> by congruence.
  assert (vms_r = vms_in) as ->.
  { rewrite <- (pg_static_vms _ _ Hst_in) in Hvms_r. rewrite <- Ev_sa in Hvms_r.
    clear -Hvms_r Hvms_in. revert vms_r Hvms_r.
    induction Hvms_in as [|j vm l vms Hj _ IH]; intros vms_r Hr.
    - by apply Forall2_nil_inv_l in Hr.
    - apply Forall2_cons_inv_l in Hr as (vm' & vms'' & Hj' & Hr & ->).
      f_equal; [congruence|by apply IH]. }
  split; [|split].
  - rewrite E3'. simpl. exact Ev_sa.
  - rewrite E3'. simpl. rewrite lookup_insert_eq, Hpg_sa. f_equal.
    by apply updateTargets_pg_static.
  - eapply (Frame_agree B V t pgi st sa r r3); [done|exact F0| |].
    + eapply Frame_trans; [exact F1|]. eapply Frame_trans; [exact F2|].
      eapply Frame_mono; [|exact (updateTargets_frame B t pgi r2 tt r3 E3)].
      by intros ? ?%elem_of_nil.
    + unfold r3. simpl. exact Ev_sa.
Qed.

(** The replay of the partitions an attempt placed: it runs, ends as the
    attempt ended, and is charged what the attempt was charged. *)
Lemma placePartitions_replay B t pgi racks parts cp st cp' st' Dn r plcF :
  NoDup B → NoDup (Dn ++ concat parts.*2) → (∀ i, i ∈ concat parts.*2 → i ∈ B) →
  (∀ p V, (p, V) ∈ parts → batchOf V pgi p (vmsByIndex st)) →
  (∀ p V, (p, V) ∈ parts → 0 < p → hpPositive pgi st) →
  batchReady (concat parts.*2) pgi st →
  antiAffine (vmsByIndex st) → colocated (vmsByIndex st) →
  covers Dn t (placements cp) (vmsByIndex st) →
  (∀ i nodes, placements cp !! i = Some nodes → i ∈ Dn) →
  placePartitions pgi t racks parts cp st = Some (Some cp', st') →
  placements cp' ⊆ plcF → agree pgi st r →
  ∃ trials r',
    Forall2 (λ part trial, placedBy pgi t part.2 trial.1 trial.2
               ∧ penalty trial.1 = to_double (partPenalty pgi part.2 trial.2))
      parts trials
    ∧ replay pgi plcF parts r
      = Some ((λ pt, partPenalty pgi pt.1.2 pt.2.2) <$> zip parts trials, r')
    ∧ agree pgi st' r'
    ∧ penalty cp'
      = foldl (λ a c, PrimFloat.add a (to_double c)) (penalty cp)
          ((λ pt, partPenalty pgi pt.1.2 pt.2.2) <$> zip parts trials).
Proof.
  intros HndB. revert cp st Dn r.
  induction parts as [|[p V] parts IH];
    intros cp st Dn r Hnd HB Hparts Hhps Hready Haa Hco Hcov Hdom Hrun Hsub Hag;
    simpl in Hrun.
  { apply mret_inv in Hrun as [[= <-] ->]. exists [], r. split; [constructor|]. done. }
  simpl in *.
  mbind Hrun as res sa Hpart. destruct res as [cp0|]; [|by apply mret_inv in Hrun as [[=] _]].
  destruct Hready as (pg & Hpg & Hmem & Hbatch).
  assert (NoDup V ∧ NoDup (Dn ++ V) ∧ NoDup ((Dn ++ V) ++ concat parts.*2)
          ∧ (∀ i, i ∈ V → i ∉ Dn) ∧ (∀ i, i ∈ V → i ∉ concat parts.*2))
    as (HndV & HndDV & Hnd' & HVD & HVrest).
  { rewrite app_assoc in Hnd. split; [|split; [|split; [done|]]].
    - apply NoDup_app in Hnd as [Hnd _]. by apply NoDup_app in Hnd as (_ & _ & ?).
    - by apply NoDup_app in Hnd as [Hnd _].
    - split.
      + intros i Hi HD. apply NoDup_app in Hnd as [Hnd _].
        apply NoDup_app in Hnd as (_ & Hnd & _). by eapply Hnd.
      + intros i Hi Hr. apply NoDup_app in Hnd as (_ & Hnd & _).
        eapply Hnd; [|done]. apply elem_of_app. by right. }
  assert (batchOf V pgi p (vmsByIndex st)) as HbV by (apply Hparts; by left).
  assert (∀ i, i ∈ V → i ∈ B) as HVB.
  { intros i Hi. apply HB. apply elem_of_app. by left. }
  assert (0 < p → 0 < hardRackAntiAffinityPartitions pg) as Hhp.
  { intros Hp. destruct (Hhps p V) as (pg' & Hpg' & Hhp); [by left|done|]. congruence. }
  pose proof Hpart as Hpart'.
  eapply (placePartition_spec B V t pgi racks p V cp st _ sa pg) in Hpart'
    as (F0 & Haa0 & Hco0 & Hres0); try done.
  2:{ intros i Hi. split; [done|]. by apply HVB. }
  destruct (Hres0 cp0 eq_refl) as (plc & Hcp0 & Hplc & Hcov0).
  pose proof (placePartitions_grows _ _ _ _ _ _ _ _ Hrun) as Hgrow.
  destruct (placePartition_replay B t pgi racks p V cp st cp0 sa r plcF pg)
    as (p0 & r1 & Hby & Ecp0 & Erep & Hag1); try done.
  { intros i Hi. destruct (placements cp !! i) as [x|] eqn:E; [|done].
    apply Hdom in E. by apply HVD in Hi. }
  { etrans; [exact Hgrow|exact Hsub]. }
  eapply (IH cp0 sa (Dn ++ V) r1) in Hrun as (trials & r' & Hall & Hrep & Hag' & Hpen);
    try done.
  - pose proof (tryPlace_penalty_by _ _ _ _ _ Hby) as Hp0.
    exists ((p0, sa) :: trials), r'. split; [by constructor|]. simpl.
    split; [|split; [done|]].
    + unfold mbind, M_bind in Erep |- *.
      destruct (unplaceVMs V r) as [[[] x1]|]; [|done].
      destruct (placeAs plcF V x1) as [[[] x2]|]; [|done].
      rewrite Erep. unfold getsM. simpl.
      rewrite <- (partPenalty_agree pgi V sa r1 Hag1).
      unfold mbind, M_bind in Hrep. rewrite Hrep. done.
    + rewrite Hpen. subst cp0. simpl. by rewrite Hp0.
  - intros i Hi. apply HB. apply elem_of_app. by right.
  - intros q W HW. eapply batchOf_frame; [exact F0|]. apply Hparts. by right.
  - intros q W HW Hq. eapply hpPositive_frame; [exact F0|]. eapply Hhps; [by right|done].
  - eapply batchReady_frame; [exact F0|]. exists pg. split; [done|]. split; [done|].
    intros i Hi. apply Hbatch. apply elem_of_app. by right.
  - intros i [Hi|Hi]%elem_of_app.
    + destruct (Hcov i Hi) as (vm & Hvm & Hplci & Hne & Hlen).
      exists vm. rewrite (fr_vms_out _ _ _ _ _ F0) by (intros ?; by eapply HVD).
      split; [done|]. rewrite Hcp0. split; [|done].
      by apply lookup_union_Some_l.
    + destruct (Hcov0 i Hi) as (vm & Hvm & Hplci & Hne & Hlen).
      exists vm. split; [done|]. rewrite Hcp0. split; [|done].
      rewrite lookup_union_r; [done|].
      destruct (placements cp !! i) as [x|] eqn:E; [|done].
      apply Hdom in E. by apply HVD in Hi.
  - intros i nodes. rewrite Hcp0. intros [Hi|[_ Hi]]%lookup_union_Some_raw.
    + apply elem_of_app. left. by eapply Hdom.
    + apply elem_of_app. right. by eapply Hplc.
Qed.

End Replay.

(** ** The properties *)

Lemma wf_twins : wf_header twins.
Proof. repeat constructor; simpl; lia. Qed.
Lemma wf_roomy : wf_header roomy.
Proof. repeat constructor; simpl; lia. Qed.
Lemma reachable_once : reachable once.
Proof. eapply after_reachable; [apply wf_fleet12|]. vm_compute. reflexivity. Qed.
Lemma reachable_single : reachable single.
Proof. eapply after_reachable; [apply wf_twins|]. vm_compute. reflexivity. Qed.
Lemma reachable_warm : reachable warm.
Proof. eapply after_reachable; [apply wf_roomy|]. vm_compute. reflexivity. Qed.







(** C3 (amended): a successful creation request whose indices are
    distinct and not in the registry, followed by a deletion request over
    the same indices: the deletion runs to its end, and the available CPU
    and memory of every node, PM, rack and domain, and the count of every
    group on every PM, are what they were before the creation. *)
Theorem create_delete_roundtrip `{StdLib} st e e' idxs ty pgi part st1 :
  reachable st → wf_request st (CreateVMs idxs ty pgi part) →
  handle e (CreateVMs idxs ty pgi part) st = Some (false, st1) →
  ∃ st2, handle e' (DeleteVMs idxs) st1 = Some (false, st2)
    ∧ sameAvailability (domains st) (domains st2).
Proof.
  intros Hr [Hnd Hfresh] Hh. pose proof (reachable_Inv _ Hr) as HInv.
  assert (Inv [] st1) as HInv1.
  { eapply handle_Inv; [exact HInv| |exact Hh]. done. }
  simpl in Hh. mbind Hh as ok s Hc. apply mret_inv in Hh as [Hok E]. subst s.
  destruct ok; [|done].
  destruct (Z.lt_ge_cases (duration_cast_seconds e) 14) as [Hg|Hg].
  2:{ unfold createVMs in Hc. apply Z.leb_le in Hg. rewrite Hg in Hc. by minv. }
  apply createVMs_inv in Hc as (t & pg & st0 & best & s1 & Ht & Hpg & Hreg & Hsearch & Hrest);
    [|done].
  destruct best as [b|]; [|by destruct Hrest].
  destruct Hrest as (_ & s2 & Hcommit & Hup).
  destruct (register_ready _ _ _ _ _ _ _ HInv Ht Hnd Hfresh Hpg Hreg)
    as (HInv0 & Hready & Hdom & _ & Hout0 & Hin0).
  assert (∃ vm0 vm, head idxs = Some vm0 ∧ vmsByIndex st0 !! vm0 = Some vm ∧ vm_type vm = t)
    as (vm0 & vm & Hhd & Hvm0 & Hty).
  { destruct idxs as [|i idxs].
    - unfold searchPlacement, getRackGroups2 in Hsearch. by minv.
    - destruct (Hin0 i) as (vm & ? & ? & ? & ?); [by left|]. by exists i, vm. }
  subst t.
  eapply searchPlacement_spec in Hsearch as (F01 & Hun1 & _); try done; [|apply HInv0..].
  eapply (commitVMs_spec idxs (vm_type vm)) in Hcommit as (F12 & _ & _); try done.
  2:{ intros i Hi. destruct (Hin0 i Hi) as (vmi & Hvmi & Hidx & _).
      destruct (Frame_vm_fwd _ _ _ _ _ _ _ F01 Hvmi) as (vm1 & Hvm1 & (E & _)%static_fields).
      exists vm1. split; [done|]. split; [by eapply Hun1|congruence]. }
  pose proof (updateTargets_frame idxs (vm_type vm) _ _ _ _ Hup) as F23.
  assert (Frame idxs idxs (vm_type vm) st0 st1) as F.
  { eapply Frame_trans; [exact F01|]. eapply Frame_trans; [exact F12|].
    eapply Frame_mono; [|exact F23]. by intros ? ?%elem_of_nil. }
  destruct (deleteVMs_total idxs st1 HInv1 Hnd) as [st2 Hdel].
  { intros i Hi. destruct (Hin0 i Hi) as (vmi & Hvmi & _).
    destruct (Frame_vm_fwd _ _ _ _ _ _ _ F Hvmi) as (vm1 & Hvm1 & _). by exists vm1. }
  exists st2. split.
  { simpl. by rewrite (bind_Some _ _ st1 tt st2). }
  intros l. rewrite (deleteVMs_observe _ _ _ _ l Hnd Hdel).
  rewrite (fr_balance _ _ _ _ _ F l), shift_shift, Hdom.
  rewrite (debt_zero (vmsByIndex st0)).
  2:{ intros i vmi Hi Hvmi. destruct (Hin0 i Hi) as (vmi' & Hvmi' & _ & _ & Hnil). congruence. }
  rewrite padd_0_l, padd_pneg. by rewrite shift_0.
Qed.

Lemma create_delete_roundtrip_witness :
  ∃ st2, handle 0 (DeleteVMs [1; 2]) spread = Some (false, st2)
    ∧ sameAvailability (domains grouped) (domains st2).
Proof.
  apply (create_delete_roundtrip grouped 0 0 [1; 2] 1 1 (-1) spread reachable_grouped).
  - apply (bool_decide_unpack _). vm_compute. reflexivity.
  - vm_compute. reflexivity.
Defined.

(** A creation request that names a VM of the registry succeeds, keeps that
    VM and places it again; the deletion that follows leaves more
    available than there was before the creation. *)
Lemma recreated_VM_breaks_roundtrip :
  reachable once
  ∧ vmsByIndex once !! 1 = Some (vmAt 1 0 [(0, 0, 0, 0)%nat])
  ∧ ∃ st1 st2,
      handle 0 (CreateVMs [1] 1 1 0) once = Some (false, st1)
      ∧ handle 0 (DeleteVMs [1]) st1 = Some (false, st2)
      ∧ observe (domains once) (LDomain 0%nat) = Some (15, 15)
      ∧ observe (domains st2) (LDomain 0%nat) = Some (16, 16)
      ∧ ¬ sameAvailability (domains once) (domains st2).
Proof.
  split; [exact reachable_once|]. split; [vm_compute; reflexivity|].
  assert (∃ st1, handle 0 (CreateVMs [1] 1 1 0) once = Some (false, st1)) as [st1 H1].
  { vm_compute. eauto. }
  assert (∃ st2, (handle 0 (CreateVMs [1] 1 1 0) once ≫= λ r, handle 0 (DeleteVMs [1]) r.2)
                 = Some (false, st2)
                 ∧ observe (domains st2) (LDomain 0%nat) = Some (16, 16)) as (st2 & H2 & H3).
  { vm_compute. eauto. }
  rewrite H1 in H2. simpl in H2.
  assert (observe (domains once) (LDomain 0%nat) = Some (15, 15)) as H0
    by (vm_compute; reflexivity).
  exists st1, st2. do 4 (split; [done|]).
  intros Hs. specialize (Hs (LDomain 0%nat)). rewrite H0, H3 in Hs. discriminate.
Qed.

Lemma first_attempt_ready `{StdLib} st idxs ty pgi part t pg st0 groups s_in :
  reachable st → wf_request st (CreateVMs idxs ty pgi part) →
  t ∈ types st → pgsByIndex st !! pgi = Some pg →
  registerVMs t pgi (if hardRackAntiAffinityPartitions pg =? 0 then 0 else part) 0 idxs st
    = Some (tt, st0) →
  getRackGroups2 idxs st0 = Some (groups, s_in) →
  NoDup idxs ∧ batchReady idxs pgi s_in
  ∧ antiAffine (vmsByIndex s_in) ∧ colocated (vmsByIndex s_in).
Proof.
  intros Hr [Hnd Hfresh] Ht Hpg Hreg Hgr. pose proof (reachable_Inv _ Hr) as HInv.
  destruct (register_ready _ _ _ _ _ _ _ HInv Ht Hnd Hfresh Hpg Hreg)
    as (HInv0 & Hready & _ & _ & _ & Hin0).
  assert (∃ vm0 vm, head idxs = Some vm0 ∧ vmsByIndex st0 !! vm0 = Some vm)
    as (vm0 & vm & Hhd & Hvm0).
  { destruct idxs as [|i idxs].
    - unfold getRackGroups2 in Hgr. by minv.
    - destruct (Hin0 i) as (vm & ? & _); [by left|]. by exists i, vm. }
  pose proof (getRackGroups2_frame idxs idxs st0 groups s_in vm0 vm Hhd Hvm0 Hgr) as F.
  split; [done|]. split; [by eapply batchReady_frame|].
  rewrite (Frame_nil_vms _ _ _ _ F).
  split; [apply (inv_anti _ _ HInv0)|apply (inv_coloc _ _ HInv0)].
Qed.

(** C4 (amended): when [getBestPlacement] succeeds on a batch of distinct
    VMs registered for the group, every partition of the batch was placed
    by a successful [tryPlace], and the penalty is the sum, taken in
    [double]s from 0 over the partitions in the order of their iteration,
    of what that [tryPlace] charged: the number of VMs of the partition on
    a PM over the soft limit (while that rule is in play), 1000 when
    domainAffinity is SOFT and no longer possible and 1000 when
    rackAffinity is SOFT and no longer possible, each read in the state in
    which that [tryPlace] returned; to which the average load of the racks
    of the group is added.  The charges are those of the replay of the
    returned plan from the state in which the attempt started: partition by
    partition, the VMs of the partition placed where the plan has them and
    the targets of the group updated; the replay ends with the VMs, the
    group and the available amounts and counts of the state in which the
    attempt ended. *)
Theorem penalty_by_partition `{StdLib} pgi B t racks st p st' :
  NoDup B → batchReady B pgi st →
  antiAffine (vmsByIndex st) → colocated (vmsByIndex st) →
  getBestPlacement pgi B t racks st = Some (Some p, st') →
  ∃ vms trials sr,
    readVMs B st = Some (vms, st)
    ∧ Forall2 (λ part trial, placedBy pgi t part.2 trial.1 trial.2
                 ∧ penalty trial.1 = to_double (partPenalty pgi part.2 trial.2))
        (hash_order (partitionsOf B vms)) trials
    ∧ replay pgi (placements p) (hash_order (partitionsOf B vms)) st
      = Some ((λ pt, partPenalty pgi pt.1.2 pt.2.2)
                <$> zip (hash_order (partitionsOf B vms)) trials, sr)
    ∧ agree pgi st' sr
    ∧ penalty p
      = PrimFloat.add
          (foldl (λ a pt, PrimFloat.add a (to_double (partPenalty pgi pt.1.2 pt.2.2)))
             PrimFloat.zero (zip (hash_order (partitionsOf B vms)) trials))
          (averageLoad (domains st') racks).
Proof.
  intros Hnd Hready Haa Hco Hrun. unfold getBestPlacement in Hrun.
  mbind Hrun as vms s Hvms. pose proof Hvms as Hread.
  apply readVMs_spec in Hvms as [-> Hvms].
  fold (partitionsOf B vms) in Hrun. set (parts := hash_order (partitionsOf B vms)) in *.
  mbind Hrun as r sa Hparts. destruct r as [cp|]; [|by apply mret_inv in Hrun as [[=] _]].
  mbind Hrun as ds s2 Hds. apply getsM_inv in Hds as [-> ->].
  apply mret_inv in Hrun as [[= ->] ->].
  assert (fst <$> zip B vms = B) as Hfst.
  { apply fst_zip. apply Forall2_length in Hvms. lia. }
  destruct (vbp_fold (vmsByIndex st) (zip B vms) []) as [Hperm0 HP0].
  { intros i vm Hin. by eapply (Forall2_zip_in _ _ _ _ _ Hvms). }
  { by intros q V ?%elem_of_nil. }
  simpl in Hperm0. rewrite Hfst in Hperm0.
  assert (concat parts.*2 ≡ₚ B) as Hperm.
  { unfold parts, partitionsOf. by rewrite hash_order_perm. }
  assert (∀ q V, (q, V) ∈ parts →
            V ≠ [] ∧ ∀ j, j ∈ V → vm_partition <$> vmsByIndex st !! j = Some q) as HP.
  { intros q V Hin. apply HP0. unfold parts, partitionsOf in Hin.
    by rewrite hash_order_perm in Hin. }
  assert (∀ q V j, (q, V) ∈ parts → j ∈ V → j ∈ B) as HinB.
  { intros q V j Hin Hj. rewrite <- Hperm. apply elem_of_concat. exists V. split; [done|].
    apply list_elem_of_fmap. by exists (q, V). }
  destruct Hready as (pg & Hpg & Hmem & Hbatch).
  eapply (placePartitions_replay B t pgi racks parts _ st cp sa [] st (placements cp))
    in Hparts as (trials & sr & Hall & Hrep & Hag & Hpen); try done.
  - exists vms, trials, sr. simpl.
    split; [exact Hread|]. split; [exact Hall|]. split; [exact Hrep|]. split; [exact Hag|].
    fold (averageLoad (domains sa) racks). f_equal.
    rewrite Hpen. simpl. fold parts. generalize PrimFloat.zero. generalize (zip parts trials).
    intros l. induction l as [|x l IH]; intros a; simpl; [done|]. apply IH.
  - simpl. by rewrite Hperm.
  - intros i Hi. by rewrite <- Hperm.
  - intros q V Hin j Hj. destruct (HP q V Hin) as [_ Hq].
    destruct (Hbatch j) as (vm & Hvm & ? & ? & ?); [by eapply HinB|].
    specialize (Hq j Hj). rewrite Hvm in Hq. injection Hq as Hq.
    by exists vm.
  - intros q V Hin Hq. destruct (HP q V Hin) as [Hne Hpart].
    destruct V as [|j V]; [done|].
    destruct (Hbatch j) as (vm & Hvm & _ & _ & Hhp); [eapply HinB; [done|by left]|].
    specialize (Hpart j ltac:(by left)). rewrite Hvm in Hpart. injection Hpart as Hpart.
    exists pg. split; [done|]. apply Hhp. by rewrite Hpart.
  - exists pg. split; [done|]. split; [done|]. intros i Hi. apply Hbatch. by rewrite <- Hperm.
  - by intros i ?%elem_of_nil.
Qed.

Lemma penalty_by_partition_witness :
  ∃ vms trials sr,
    readVMs [3; 4] softdom_entry = Some (vms, softdom_entry)
    ∧ Forall2 (λ part trial, placedBy 1 type1 part.2 trial.1 trial.2
                 ∧ penalty trial.1 = to_double (partPenalty 1 part.2 trial.2))
        (hash_order (partitionsOf [3; 4] vms)) trials
    ∧ replay 1 (placements softdom_plan) (hash_order (partitionsOf [3; 4] vms)) softdom_entry
      = Some ([1000; 1000], sr)
    ∧ agree 1 softdom_attempt sr
    ∧ penalty softdom_plan
      = PrimFloat.add
          (foldl (λ a pt, PrimFloat.add a (to_double (partPenalty 1 pt.1.2 pt.2.2)))
             PrimFloat.zero (zip (hash_order (partitionsOf [3; 4] vms)) trials))
          (averageLoad (domains softdom_attempt) firstRack)
    ∧ penalty softdom_plan = 2000.25%float.
Proof.
  destruct (first_attempt_ready softdom [3; 4] 1 1 (-1) type1
              (default (mkPG 1 2 0 SOFT NONE) (pgsByIndex softdom !! 1))
              softdom_batch (default [] (fst <$> getRackGroups2 [3; 4] softdom_batch))
              softdom_entry reachable_softdom)
    as (Hnd & Hready & Haa & Hco).
  { apply (bool_decide_unpack _). vm_compute. reflexivity. }
  { vm_compute. by left. }
  { vm_compute. reflexivity. }
  { vm_compute. reflexivity. }
  { vm_compute. reflexivity. }
  destruct (penalty_by_partition 1 [3; 4] type1 firstRack softdom_entry softdom_plan
              softdom_attempt Hnd Hready Haa Hco)
    as (vms & trials & sr & Hread & Hall & Hrep & Hag & Hpen).
  { vm_compute. reflexivity. }
  assert (readVMs [3; 4] softdom_entry
          = Some (default [] (fst <$> readVMs [3; 4] softdom_entry), softdom_entry)) as Hread0.
  { vm_compute. reflexivity. }
  assert (vms = default [] (fst <$> readVMs [3; 4] softdom_entry)) as Evms by congruence.
  assert (fst <$> replay 1 (placements softdom_plan)
            (hash_order (partitionsOf [3; 4] (default [] (fst <$> readVMs [3; 4] softdom_entry))))
            softdom_entry = Some [1000; 1000]) as Hcharges.
  { vm_compute. reflexivity. }
  rewrite <- Evms, Hrep in Hcharges. simpl in Hcharges. injection Hcharges as Hcharges.
  exists vms, trials, sr. split; [exact Hread|]. split; [exact Hall|].
  split; [rewrite Hrep; do 2 f_equal; exact Hcharges|].
  split; [exact Hag|]. split; [exact Hpen|].
  vm_compute. reflexivity.
Defined.

(** A batch of two partitions in a group whose soft domain affinity is no
    longer possible is charged 1000 for each partition. *)
Lemma penalty_charged_per_partition :
  reachable softdom
  ∧ registerVMs type1 1 (-1) 0 [3; 4] softdom = Some (tt, softdom_batch)
  ∧ (∃ groups, getRackGroups2 [3; 4] softdom_batch = Some (firstRack :: groups, softdom_entry))
  ∧ getBestPlacement 1 [3; 4] type1 firstRack softdom_entry
    = Some (Some softdom_plan, softdom_attempt)
  ∧ penalty softdom_plan = 2000.25%float
  ∧ spec_penalty 1 [3; 4] firstRack softdom_attempt = 1000.25%float
  ∧ penalty softdom_plan ≠ spec_penalty 1 [3; 4] firstRack softdom_attempt.
Proof.
  assert (penalty softdom_plan = 2000.25%float) as H1 by (vm_compute; reflexivity).
  assert (spec_penalty 1 [3; 4] firstRack softdom_attempt = 1000.25%float) as H2
    by (vm_compute; reflexivity).
  split; [exact reachable_softdom|].
  split; [vm_compute; reflexivity|].
  split; [eexists; vm_compute; reflexivity|].
  split; [vm_compute; reflexivity|].
  split; [exact H1|]. split; [exact H2|].
  rewrite H1, H2. intros E. apply (f_equal (PrimFloat.ltb 1000.25%float)) in E.
  vm_compute in E. discriminate.
Qed.




(** C6: a creation request that starts when at least 14 seconds have
    elapsed writes the line -1 and ends the session, with the topology,
    the groups and the VMs as they were; the other requests are handled as
    at any other time, and within the budget a creation request does not
    depend on the time. *)
Theorem budget_checked_at_creation `{StdLib} st e idxs ty pgi part :
  14000000000 ≤ e →
  handle e (CreateVMs idxs ty pgi part) st = Some (true, print [-1] st)
  ∧ (∀ clock requestId rest, clock requestId = e →
       run clock requestId (CreateVMs idxs ty pgi part :: rest) st = Some (tt, print [-1] st))
  ∧ stdout (print [-1] st) = stdout st ++ [[-1]]
  ∧ domains (print [-1] st) = domains st
  ∧ pgsByIndex (print [-1] st) = pgsByIndex st
  ∧ vmsByIndex (print [-1] st) = vmsByIndex st
  ∧ (∀ e' index hardParts softPM domA rackA,
       handle e' (CreatePG index hardParts softPM domA rackA) st
       = handle e (CreatePG index hardParts softPM domA rackA) st)
  ∧ (∀ e' indices, handle e' (DeleteVMs indices) st = handle e (DeleteVMs indices) st)
  ∧ (∀ e', handle e' Terminate st = handle e Terminate st)
  ∧ (∀ e1 e2, 0 ≤ e1 < 14000000000 → 0 ≤ e2 < 14000000000 →
       handle e1 (CreateVMs idxs ty pgi part) st = handle e2 (CreateVMs idxs ty pgi part) st).
Proof.
  intros He.
  assert ((14 <=? duration_cast_seconds e) = true) as Hgate.
  { apply Z.leb_le. unfold duration_cast_seconds. apply Z.quot_le_lower_bound; lia. }
  assert (handle e (CreateVMs idxs ty pgi part) st = Some (true, print [-1] st)) as Hh.
  { simpl. unfold createVMs. rewrite Hgate. done. }
  split; [exact Hh|]. split.
  { intros clock requestId rest <-. simpl run.
    by rewrite (bind_Some _ _ st true (print [-1] st)). }
  do 7 (split; [done|]).
  intros e1 e2 H1 H2. simpl. unfold createVMs.
  assert (∀ x, 0 ≤ x < 14000000000 → (14 <=? duration_cast_seconds x) = false) as Hin.
  { intros x Hx. apply Z.leb_gt. unfold duration_cast_seconds.
    apply Z.quot_lt_upper_bound; lia. }
  by rewrite !Hin.
Qed.

Lemma budget_checked_at_creation_witness :
  handle 14000000000 (CreateVMs [1] 1 1 0) plain = Some (true, print [-1] plain)
  ∧ run clock15 2 [CreateVMs [1] 1 1 0; CreateVMs [2] 1 1 0] plain
    = Some (tt, print [-1] plain).
Proof.
  destruct (budget_checked_at_creation plain 14000000000 [1] 1 1 0) as (H1 & _); [lia|].
  destruct (budget_checked_at_creation plain 15000000000 [1] 1 1 0) as (_ & H2 & _); [lia|].
  split; [exact H1|]. by apply H2.
Defined.

Lemma run_appends `{StdLib} clock n reqs st u s :
  run clock n reqs st = Some (u, s) → stdout st `prefix_of` stdout s.
Proof.
  intros Hrun.
  eapply (Keeps_run (λ x, stdout st `prefix_of` stdout x)) in Hrun; try done.
  intros x line Hx. simpl. by apply prefix_app_r.
Qed.

(** What two runs from one state end with, whatever their clocks. *)
Lemma runs_up_to_budget `{StdLib} clock clock' n reqs st s s' :
  run clock n reqs st = Some (tt, s) → run clock' n reqs st = Some (tt, s') →
  stdout s = stdout s'
  ∨ (∃ pre, stdout s = pre ++ [[-1]] ∧ pre `prefix_of` stdout s')
  ∨ (∃ pre, stdout s' = pre ++ [[-1]] ∧ pre `prefix_of` stdout s).
Proof.
  revert n st. induction reqs as [|req reqs IH]; intros n st Hrun Hrun'.
  { simpl in *. apply mret_inv in Hrun as [_ ->]. apply mret_inv in Hrun' as [_ ->].
    by left. }
  assert (∀ c b x, handle (c n) req st = Some (b, x) →
            ∀ y, run c n (req :: reqs) st = Some (tt, y) →
            if b then y = x else run c (S n) reqs x = Some (tt, y)) as Hstep.
  { intros c b x Hh y Hy. simpl in Hy. rewrite (bind_Some _ _ _ _ _ Hh) in Hy.
    destruct b; [|done]. by apply mret_inv in Hy as [_ ->]. }
  assert (∀ c, 14 ≤ duration_cast_seconds (c n) →
            ∀ idxs ty pgi part, req = CreateVMs idxs ty pgi part →
            ∀ y, run c n (req :: reqs) st = Some (tt, y) →
            stdout y = stdout st ++ [[-1]]) as Hlate.
  { intros c Hc idxs ty pgi part -> y Hy.
    assert (handle (c n) (CreateVMs idxs ty pgi part) st = Some (true, print [-1] st)) as Hh.
    { simpl. unfold createVMs. by rewrite (proj2 (Z.leb_le _ _) Hc). }
    by rewrite (Hstep c true _ Hh y Hy). }
  assert (handle (clock n) req st = handle (clock' n) req st →
          stdout s = stdout s'
          ∨ (∃ pre, stdout s = pre ++ [[-1]] ∧ pre `prefix_of` stdout s')
          ∨ (∃ pre, stdout s' = pre ++ [[-1]] ∧ pre `prefix_of` stdout s)) as Hsame.
  { intros E. destruct (handle (clock n) req st) as [[b x]|] eqn:Hh.
    - pose proof (Hstep clock b x Hh s Hrun) as H1. symmetry in E.
      pose proof (Hstep clock' b x E s' Hrun') as H2.
      destruct b; [left; congruence|]. by eapply IH.
    - simpl in Hrun. unfold mbind, M_bind in Hrun. by rewrite Hh in Hrun. }
  destruct req as [index hp soft domA rackA|idxs ty pgi part|V|]; try (by apply Hsame).
  destruct (decide (14 ≤ duration_cast_seconds (clock n))) as [Hc|Hc],
           (decide (14 ≤ duration_cast_seconds (clock' n))) as [Hc'|Hc'].
  - left. rewrite (Hlate clock Hc _ _ _ _ eq_refl s Hrun).
    by rewrite (Hlate clock' Hc' _ _ _ _ eq_refl s' Hrun').
  - right. left. exists (stdout st). split; [by eapply Hlate|]. by eapply run_appends.
  - right. right. exists (stdout st). split; [by eapply Hlate|]. by eapply run_appends.
  - apply Hsame. simpl. unfold createVMs.
    assert ((14 <=? duration_cast_seconds (clock n)) = false) as -> by (apply Z.leb_gt; lia).
    by assert ((14 <=? duration_cast_seconds (clock' n)) = false) as -> by (apply Z.leb_gt; lia).
Qed.




(** C8: in every state the session goes through, between the requests
    and within them, at each of the four levels the memoised [getTypeFit]
    of a type of the fleet returns what [getTypeFitImpl] returns at that
    level, which is what is computed with no memo at any level. *)
Theorem getTypeFit_is_uncached `{StdLib} st t :
  touched st → t ∈ types st →
  (∀ d x, getDomain d (domains st) = Some x →
     (Domain_getTypeFit t x).1 = (Domain_getTypeFitImpl t x).1
     ∧ (Domain_getTypeFit t x).1 = Domain_uncached t x)
  ∧ (∀ r x, getRack r (domains st) = Some x →
       (Rack_getTypeFit t x).1 = (Rack_getTypeFitImpl t x).1
       ∧ (Rack_getTypeFit t x).1 = Rack_uncached t x)
  ∧ (∀ p x, getPM p (domains st) = Some x →
       (PM_getTypeFit t x).1 = (PM_getTypeFitImpl t x).1
       ∧ (PM_getTypeFit t x).1 = PM_uncached t x)
  ∧ (∀ n x, getNode n (domains st) = Some x →
       (Node_getTypeFit t x).1 = Node_getTypeFitImpl t x).
Proof.
  intros Hr Ht. apply touched_cache in Hr as [Hu Hc].
  assert (∀ d x, getDomain d (domains st) = Some x → dom_ok (types st) x) as Hd.
  { intros d x Hx. eapply Forall_lookup_1; [exact Hc|exact Hx]. }
  assert (∀ r x, getRack r (domains st) = Some x → rack_ok (types st) x) as Hrk.
  { intros r x Hx. unfold getRack in Hx. apply option.bind_Some in Hx as (dx & Hdx & Hx).
    destruct (Hd _ _ Hdx) as [_ Hall]. eapply Forall_lookup_1; [exact Hall|exact Hx]. }
  assert (∀ p x, getPM p (domains st) = Some x → pm_ok (types st) x) as Hpm.
  { intros p x Hx. unfold getPM in Hx. apply option.bind_Some in Hx as (rx & Hrx & Hx).
    destruct (Hrk _ _ Hrx) as [_ Hall]. eapply Forall_lookup_1; [exact Hall|exact Hx]. }
  assert (∀ n x, getNode n (domains st) = Some x → node_ok (types st) x) as Hn.
  { intros n x Hx. unfold getNode in Hx. apply option.bind_Some in Hx as (px & Hpx & Hx).
    destruct (Hpm _ _ Hpx) as [_ Hall]. eapply Forall_lookup_1; [exact Hall|exact Hx]. }
  split; [|split; [|split]]; intros a x Hx.
  - destruct (Domain_getTypeFit_spec (types st) t x Hu Ht (Hd _ _ Hx)) as [E _].
    split; [|done]. rewrite E. symmetry. apply (Domain_getTypeFitImpl_value (types st)); eauto.
  - destruct (Rack_getTypeFit_spec (types st) t x Hu Ht (Hrk _ _ Hx)) as [E _].
    split; [|done]. rewrite E. symmetry. apply (Rack_getTypeFitImpl_value (types st)); eauto.
  - destruct (PM_getTypeFit_spec (types st) t x Hu Ht (Hpm _ _ Hx)) as [E _].
    split; [|done]. rewrite E. symmetry. apply (PM_getTypeFitImpl_value (types st)); eauto.
  - by destruct (Node_getTypeFit_spec (types st) t x Hu Ht (Hn _ _ Hx)) as [E _].
Qed.

Lemma getTypeFit_is_uncached_witness :
  type1 ∈ types warm
  ∧ (∃ x, getRack (0, 1)%nat (domains warm) = Some x
       ∧ typeFits (rack_res x) !! 1 = Some 32
       ∧ (Rack_getTypeFit type1 x).1 = 32
       ∧ (Rack_getTypeFit type1 x).1 = (Rack_getTypeFitImpl type1 x).1
       ∧ (Rack_getTypeFit type1 x).1 = Rack_uncached type1 x)
  ∧ (∃ x, getRack (0, 0)%nat (domains warm) = Some x
       ∧ typeFits (rack_res x) !! 1 = None
       ∧ (∃ p, getPM (0, 0, 1)%nat (domains warm) = Some p
               ∧ typeFits (pm_res p) !! 1 = Some 16)
       ∧ (Rack_getTypeFit type1 x).1 = 31
       ∧ (Rack_getTypeFit type1 x).1 = (Rack_getTypeFitImpl type1 x).1
       ∧ (Rack_getTypeFit type1 x).1 = Rack_uncached type1 x)
  ∧ (∃ x, getDomain 0%nat (domains warm) = Some x
       ∧ typeFits (dom_res x) !! 1 = None
       ∧ (Domain_getTypeFit type1 x).1 = 63
       ∧ (Domain_getTypeFit type1 x).1 = (Domain_getTypeFitImpl type1 x).1
       ∧ (Domain_getTypeFit type1 x).1 = Domain_uncached type1 x).
Proof.
  assert (type1 ∈ types warm) as Ht by (vm_compute; by left).
  destruct (getTypeFit_is_uncached warm type1 (touched_reachable warm reachable_warm) Ht)
    as (Hd & Hr & _).
  split; [exact Ht|].
  assert (∃ x, getRack (0, 1)%nat (domains warm) = Some x
               ∧ typeFits (rack_res x) !! 1 = Some 32
               ∧ (Rack_getTypeFit type1 x).1 = 32) as (x1 & Hx1 & Hm1 & Hv1).
  { vm_compute. eauto. }
  assert (∃ x, getRack (0, 0)%nat (domains warm) = Some x
               ∧ typeFits (rack_res x) !! 1 = None
               ∧ (∃ p, getPM (0, 0, 1)%nat (domains warm) = Some p
                       ∧ typeFits (pm_res p) !! 1 = Some 16)
               ∧ (Rack_getTypeFit type1 x).1 = 31) as (x0 & Hx0 & Hm0 & Hp0 & Hv0).
  { vm_compute. eauto 10. }
  assert (∃ x, getDomain 0%nat (domains warm) = Some x
               ∧ typeFits (dom_res x) !! 1 = None
               ∧ (Domain_getTypeFit type1 x).1 = 63) as (d0 & Hd0 & Hmd & Hvd).
  { vm_compute. eauto. }
  split; [|split].
  - exists x1. do 3 (split; [done|]). exact (Hr _ _ Hx1).
  - exists x0. do 4 (split; [done|]). exact (Hr _ _ Hx0).
  - exists d0. do 3 (split; [done|]). exact (Hd _ _ Hd0).
Defined.

(** C9 (amended): in every state reached after successful requests whose
    creation requests name distinct indices that are not in the registry,
    every VM of the registry is placed, on as many nodes as its type asks
    for; and a deletion request over distinct VMs of the registry runs to
    its end, so that [unplace] never reads [nodes[0]] of an empty
    vector. *)
Theorem registered_VMs_are_placed `{StdLib} st :
  reachable st →
  (∀ i vm, vmsByIndex st !! i = Some vm →
     vm_nodes vm ≠ [] ∧ Z.of_nat (length (vm_nodes vm)) = t_nodes (vm_type vm))
  ∧ ∀ e idxs, NoDup idxs → (∀ i, i ∈ idxs → is_Some (vmsByIndex st !! i)) →
      ∃ st', handle e (DeleteVMs idxs) st = Some (false, st').
Proof.
  intros Hr. pose proof (reachable_Inv _ Hr) as HInv. split.
  - intros i vm Hvm. destruct (inv_placed _ _ HInv i vm) as [Hne Hlen];
      [apply not_elem_of_nil|done|]. split; [done|].
    rewrite Hlen. apply to_size_t_id. eapply (inv_wf _ _ HInv). by eapply (inv_vmtype _ _ HInv).
  - intros e idxs Hnd Hlive. destruct (deleteVMs_total idxs st HInv Hnd Hlive) as [st' Hd].
    exists st'. simpl. by rewrite (bind_Some _ _ st tt st').
Qed.

Lemma registered_VMs_are_placed_witness :
  (∀ i vm, vmsByIndex spread !! i = Some vm →
     vm_nodes vm ≠ [] ∧ Z.of_nat (length (vm_nodes vm)) = t_nodes (vm_type vm))
  ∧ ∀ e idxs, NoDup idxs → (∀ i, i ∈ idxs → is_Some (vmsByIndex spread !! i)) →
      ∃ st', handle e (DeleteVMs idxs) spread = Some (false, st').
Proof. exact (registered_VMs_are_placed spread reachable_spread). Defined.

(** A creation request that names a VM of the registry, with another type,
    succeeds and keeps the VM with its type: the VM of a type of one node
    is placed on two nodes. *)
Lemma recreated_VM_gets_other_nodes :
  reachable single
  ∧ ∃ st' vm,
      handle 0 (CreateVMs [1] 2 1 0) single = Some (false, st')
      ∧ vmsByIndex st' !! 1 = Some vm
      ∧ t_nodes (vm_type vm) = 1
      ∧ vm_nodes vm = [(0, 0, 0, 0)%nat; (0, 0, 0, 1)%nat]
      ∧ Z.of_nat (length (vm_nodes vm)) ≠ t_nodes (vm_type vm).
Proof.
  split; [exact reachable_single|].
  assert (∃ st' vm, handle 0 (CreateVMs [1] 2 1 0) single = Some (false, st')
                    ∧ vmsByIndex st' !! 1 = Some vm
                    ∧ t_nodes (vm_type vm) = 1
                    ∧ vm_nodes vm = [(0, 0, 0, 0)%nat; (0, 0, 0, 1)%nat])
    as (st' & vm & H1 & H2 & H3 & H4).
  { vm_compute. eauto 10. }
  exists st', vm. do 4 (split; [done|]). rewrite H3, H4. simpl. lia.
Qed.

(** C10: two sequences of requests that differ only in the number of
    partitions of the groups they create, each pair of numbers on the same
    side of 1, give the same output. *)
Theorem partitions_matter_through_test `{StdLib} h clock reqs reqs' :
  Forall2 sameSide reqs reqs' → main h clock reqs = main h clock reqs'.
Proof.
  intros Hreqs. unfold main.
  pose proof (run_related clock 1 reqs reqs' (initial h) (initial h) Hreqs eq_refl) as Hrun.
  destruct (run clock 1 reqs (initial h)) as [[u s]|],
           (run clock 1 reqs' (initial h)) as [[u' s']|]; simpl in Hrun; try done.
  assert (normS s = normS s') as HR by congruence.
  apply normS_inv in HR as (_ & _ & _ & E & _). by rewrite E.
Qed.

Lemma partitions_matter_through_test_witness :
  main fleet12 clock0 [CreatePG 1 2 0 NONE NONE; CreateVMs [1; 2] 1 1 (-1)]
  = main fleet12 clock0 [CreatePG 1 5 0 NONE NONE; CreateVMs [1; 2] 1 1 (-1)].
Proof.
  apply partitions_matter_through_test.
  constructor; [by apply sameSide_pg|]. constructor; [apply sameSide_refl|]. constructor.
Defined.

Lemma wf_tiny22 : wf_header tiny22.
Proof. repeat constructor; simpl; lia. Qed.
Lemma reachable_harddom : reachable harddom.
Proof. eapply after_reachable; [apply wf_tiny22|]. vm_compute. reflexivity. Qed.
Lemma reachable_hardrack : reachable hardrack.
Proof. eapply after_reachable; [apply wf_fleet12|]. vm_compute. reflexivity. Qed.

(** ** Further properties *)

(** X1: placing an unplaced VM on a non-empty list of nodes and unplacing
    it again succeeds, and leaves the VM, the groups, the lines written,
    the available CPU and memory at every node, PM, rack and domain and
    the counts of the groups on the PMs as they were. *)
Theorem place_then_unplace i nodes st vm :
  vmsByIndex st !! i = Some vm → vm_nodes vm = [] → nodes ≠ [] →
  ∃ st1 st2, place i nodes st = Some (tt, st1) ∧ unplace i st1 = Some (tt, st2)
    ∧ vmsByIndex st1 !! i = Some (set_vm_nodes nodes vm)
    ∧ vmsByIndex st2 = vmsByIndex st ∧ pgsByIndex st2 = pgsByIndex st
    ∧ stdout st2 = stdout st ∧ types st2 = types st
    ∧ sameAvailability (domains st) (domains st2).
Proof.
  intros Hvm Hnil Hne.
  assert (∃ n0, head nodes = Some n0) as [n0 Hhd] by (destruct nodes; [done|eauto]).
  set (st1 := set_domains
                (alterPM (bumpCount (vm_pg vm) 1) (node_pm n0)
                   (foldl (λ ds n, chargePath (claimResources (vm_type vm)) n ds)
                      (domains st) nodes))
                (set_vms (<[i := set_vm_nodes nodes vm]> (vmsByIndex st)) st)).
  set (st2 := set_vms (<[i := set_vm_nodes [] (set_vm_nodes nodes vm)]> (vmsByIndex st1))
                (set_domains
                   (alterPM (bumpCount (vm_pg vm) (-1)) (node_pm n0)
                      (foldl (λ ds n, chargePath (releaseResources (vm_type vm)) n ds)
                         (domains st1) nodes)) st1)).
  exists st1, st2.
  assert (vmsByIndex st1 !! i = Some (set_vm_nodes nodes vm)) as Hvm1.
  { unfold st1. simpl. by rewrite lookup_insert_eq. }
  split.
  { unfold place, readVM, orCrash, mbind, M_bind, modifyM. rewrite Hvm. simpl.
    rewrite Hhd. reflexivity. }
  split.
  { unfold unplace, readVM, orCrash, mbind, M_bind, modifyM. rewrite Hvm1. simpl.
    rewrite Hhd. reflexivity. }
  split; [done|]. split.
  { unfold st2, st1. simpl. rewrite insert_insert_eq. apply insert_id. rewrite Hvm. f_equal.
    destruct vm. simpl in *. by subst. }
  do 3 (split; [done|]).
  intros l. unfold st2, st1. simpl domains.
  rewrite (observe_unplace _ _ _ n0) by done.
  rewrite (observe_place _ _ _ n0) by done. rewrite shift_shift, padd_pneg.
  by rewrite shift_0.
Qed.

Lemma place_then_unplace_witness :
  ∃ st1 st2, place 1 [(0, 1, 0, 0)%nat] plain2_batch = Some (tt, st1)
    ∧ unplace 1 st1 = Some (tt, st2)
    ∧ vmsByIndex st1 !! 1 = Some (set_vm_nodes [(0, 1, 0, 0)%nat] (vmAt 1 0 []))
    ∧ vmsByIndex st2 = vmsByIndex plain2_batch ∧ pgsByIndex st2 = pgsByIndex plain2_batch
    ∧ stdout st2 = stdout plain2_batch ∧ types st2 = types plain2_batch
    ∧ sameAvailability (domains plain2_batch) (domains st2).
Proof.
  apply (place_then_unplace 1 [(0, 1, 0, 0)%nat] plain2_batch (vmAt 1 0 [])).
  - vm_compute. reflexivity.
  - reflexivity.
  - discriminate.
Defined.

(** X2: in every state reached after successful requests, the available
    CPU and memory at every node, PM, rack and domain are the totals of
    that place less what the VMs of the registry hold there, and the count
    of a group on a PM is the number of VMs of the group whose first node
    is on that PM. *)
Theorem resources_conserved `{StdLib} st l :
  reachable st →
  observe (domains st) l
  = shift (pneg (debt (vmsByIndex st) (registered (vmsByIndex st)) l))
      (capacity (domains st) l).
Proof.
  intros Hr. revert l. induction Hr as [h Hwf|st e req st' Hr IH Hwf Hh].
  - intros l. rewrite initial_full. unfold registered. simpl. rewrite map_to_list_empty. simpl.
    by rewrite shift_0.
  - eapply handle_conserved; eauto. by apply reachable_Inv.
Qed.

Lemma resources_conserved_witness :
  observe (domains spread) (LRack (0, 1)%nat)
  = shift (pneg (debt (vmsByIndex spread) (registered (vmsByIndex spread)) (LRack (0, 1)%nat)))
      (capacity (domains spread) (LRack (0, 1)%nat)).
Proof. exact (resources_conserved spread (LRack (0, 1)%nat) reachable_spread). Defined.

Lemma capacityNonnegb_spec ds : capacityNonnegb ds = true → capacityNonneg ds.
Proof.
  unfold capacityNonnegb. intros Hb [[[a b] c] k] x Hx.
  unfold getNode, getPM, getRack, getDomain in Hx. simpl in Hx.
  apply option.bind_Some in Hx as (p & Hp & Hx).
  apply option.bind_Some in Hp as (r & Hr & Ep).
  apply option.bind_Some in Hr as (d & Ed & Er).
  rewrite forallb_forall in Hb.
  apply list_elem_of_lookup_2, list_elem_of_In in Ed, Er, Ep, Hx.
  specialize (Hb d Ed). rewrite forallb_forall in Hb.
  specialize (Hb r Er). rewrite forallb_forall in Hb.
  specialize (Hb p Ep). rewrite forallb_forall in Hb.
  specialize (Hb x Hx). apply andb_true_iff in Hb as [H1 H2].
  apply Z.leb_le in H1, H2. done.
Qed.



(** X4: in every state reached after successful requests, the nodes of a
    VM are nodes of the fleet, no node is taken twice by one VM, and all
    its nodes are on one PM. *)
Theorem nodes_of_a_VM `{StdLib} st i vm :
  reachable st → vmsByIndex st !! i = Some vm →
  NoDup (vm_nodes vm)
  ∧ (∀ n, n ∈ vm_nodes vm → is_Some (getNode n (domains st)))
  ∧ ∀ n m, n ∈ vm_nodes vm → m ∈ vm_nodes vm → node_pm n = node_pm m.
Proof.
  intros Hr Hvm. destruct (reachable_sound False st Hr) as [_ Hd]; [done|].
  destruct (Hd i vm Hvm) as [Hnd Hval]. split; [done|]. split; [done|].
  intros n m Hn Hm. by eapply (inv_coloc _ _ (reachable_Inv _ Hr) i vm).
Qed.

Lemma nodes_of_a_VM_witness :
  NoDup (vm_nodes (vmAt 1 1 [(0, 1, 0, 0)%nat]))
  ∧ (∀ n, n ∈ vm_nodes (vmAt 1 1 [(0, 1, 0, 0)%nat]) → is_Some (getNode n (domains spread)))
  ∧ ∀ n m, n ∈ vm_nodes (vmAt 1 1 [(0, 1, 0, 0)%nat]) →
      m ∈ vm_nodes (vmAt 1 1 [(0, 1, 0, 0)%nat]) → node_pm n = node_pm m.
Proof.
  apply (nodes_of_a_VM spread 1 (vmAt 1 1 [(0, 1, 0, 0)%nat]) reachable_spread).
  vm_compute. reflexivity.
Defined.





(** X7: no request changes the types or the layout of the fleet: the
    totals and the index of every domain, rack, PM and node, and their
    numbers, are after the request what they were before it, whether the
    request succeeds or ends the session. *)
Theorem requests_keep_layout `{StdLib} e req st b st' :
  handle e req st = Some (b, st') →
  types st' = types st ∧ layout (domains st') = layout (domains st).
Proof. apply handle_layout. Qed.

Lemma requests_keep_layout_witness :
  types spread = types grouped ∧ layout (domains spread) = layout (domains grouped).
Proof.
  apply (requests_keep_layout 0 (CreateVMs [1; 2] 1 1 (-1)) grouped false spread).
  vm_compute. reflexivity.
Defined.

(** *** Requests *)

Lemma handle_create `{StdLib} e idxs ty pgi part st b st' :
  handle e (CreateVMs idxs ty pgi part) st = Some (b, st') →
  createVMs e idxs ty pgi part st = Some (negb b, st').
Proof.
  simpl. intros Hh. mbind Hh as ok s Hc. apply mret_inv in Hh as [-> ->].
  by rewrite negb_involutive.
Qed.

Lemma createVMs_late `{StdLib} e idxs ty pgi part st :
  14 ≤ duration_cast_seconds e →
  createVMs e idxs ty pgi part st = Some (false, print [-1] st).
Proof.
  intros Hl. unfold createVMs. by rewrite (proj2 (Z.leb_le _ _) Hl).
Qed.

Lemma createVMs_in_time `{StdLib} e idxs ty pgi part st st' :
  createVMs e idxs ty pgi part st = Some (true, st') → duration_cast_seconds e < 14.
Proof.
  intros Hc. destruct (decide (14 ≤ duration_cast_seconds e)) as [Hl|]; [|lia].
  by rewrite (createVMs_late _ _ _ _ _ _ Hl) in Hc.
Qed.

(** X8: what a request writes.  A creation request that succeeds writes
    one line for each VM of the batch, in the order of the request: the
    numbers, counted from 1, of the domain, the rack in its domain and the
    PM in its rack of the VM's first node, then the number of each of its
    nodes in the PM.  A creation request that fails writes the line -1.
    Creating a group, deleting VMs and the terminating request write
    nothing. *)
Theorem request_output `{StdLib} e req st b st' :
  reachable st → wf_request st req → handle e req st = Some (b, st') →
  stdout st' = stdout st ++
    match req with
    | CreateVMs idxs _ _ _ =>
        if b then [[-1]]
        else (λ i, outputLine (from_option vm_nodes [] (vmsByIndex st' !! i))) <$> idxs
    | _ => []
    end.
Proof.
  intros Hr Hwf Hh. destruct req as [index hp soft domA rackA|idxs ty pgi part|V|].
  - simpl in Hh. mbind Hh as [] s Hc. apply mret_inv in Hh as [_ ->].
    unfold createPG in Hc. apply modifyM_inv in Hc as ->.
    rewrite app_nil_r. by destruct (pgsByIndex st !! index).
  - apply handle_create in Hh. destruct Hwf as [Hnd Hfresh].
    destruct (decide (14 ≤ duration_cast_seconds e)) as [Hl|Hl].
    { rewrite (createVMs_late _ _ _ _ _ _ Hl) in Hh. injection Hh as Hb <-.
      by destruct b. }
    eapply createVMs_frame in Hh as (t & pg & st0 & _ & _ & _ & _ & _ & Hout & _);
      [| by apply reachable_Inv | by apply reachable_indexed | done | done | lia].
    rewrite Hout. by destruct b.
  - simpl in Hh. mbind Hh as [] s Hc. apply mret_inv in Hh as [_ ->].
    apply deleteVMs_in in Hc as (_ & _ & _ & -> & _). by rewrite app_nil_r.
  - apply mret_inv in Hh as [_ ->]. by rewrite app_nil_r.
Qed.

Lemma request_output_witness :
  stdout spread = stdout grouped ++
    ((λ i, outputLine (from_option vm_nodes [] (vmsByIndex spread !! i))) <$> [1; 2]).
Proof.
  apply (request_output 0 (CreateVMs [1; 2] 1 1 (-1)) grouped false spread reachable_grouped).
  - apply (bool_decide_unpack _). vm_compute. reflexivity.
  - vm_compute. reflexivity.
Defined.



(** X10: in a state reached after successful requests, a deletion request
    runs to its end exactly when its indices are distinct and each is the
    index of a VM of the registry; otherwise the lookup of a VM fails. *)
Theorem deletion_defined `{StdLib} e V st :
  reachable st →
  is_Some (handle e (DeleteVMs V) st)
  ↔ NoDup V ∧ ∀ i, i ∈ V → is_Some (vmsByIndex st !! i).
Proof.
  intros Hr. split.
  - intros [[b st'] Hh]. simpl in Hh. mbind Hh as [] s Hc.
    apply deleteVMs_in in Hc as (Hnd & Hin & _). split; [done|].
    intros i Hi. by apply Hin.
  - intros [Hnd Hin].
    destruct (deleteVMs_total V st (reachable_Inv _ Hr) Hnd Hin) as [st' Hd].
    exists (false, st'). simpl. by rewrite (bind_Some _ _ _ _ _ Hd).
Qed.

Lemma deletion_defined_witness :
  is_Some (handle 0 (DeleteVMs [2; 1]) spread)
  ↔ NoDup [2; 1] ∧ ∀ i, i ∈ [2; 1] → is_Some (vmsByIndex spread !! i).
Proof. exact (deletion_defined 0 [2; 1] spread reachable_spread). Defined.



(** X12: within the time budget, a creation request that names a type
    outside 1..T, with T the number of types, or a group that was not
    created, fails at the lookup: the request has no result. *)
Theorem creation_of_unknown `{StdLib} e idxs ty pgi part st :
  duration_cast_seconds e < 14 →
  ty < 1 ∨ Z.of_nat (length (types st)) < ty ∨ pgsByIndex st !! pgi = None →
  handle e (CreateVMs idxs ty pgi part) st = None.
Proof.
  intros Hl Hbad. destruct (handle e (CreateVMs idxs ty pgi part) st) as [[b st']|] eqn:Hh;
    [exfalso|done].
  apply handle_create in Hh.
  apply createVMs_steps in Hh as (t & pg & _ & _ & _ & Hty & Ht & Hpg & _); [|done].
  apply lookup_lt_Some in Ht. destruct Hbad as [?|[?|Hn]]; [lia|lia|congruence].
Qed.

Lemma creation_of_unknown_witness :
  handle 0 (CreateVMs [1] 2 1 0) grouped = None
  ∧ handle 0 (CreateVMs [1] 1 7 0) grouped = None.
Proof.
  split.
  - apply (creation_of_unknown 0 [1] 2 1 0 grouped); [vm_compute; reflexivity|].
    right. left. vm_compute. reflexivity.
  - apply (creation_of_unknown 0 [1] 1 7 0 grouped); [vm_compute; reflexivity|].
    right. right. vm_compute. reflexivity.
Defined.



(** *** The targets of a group *)

Lemma updateTargets_step_static pg a soft vm b :
  updateTargets_step (set_targets a soft pg) b vm = updateTargets_step pg b vm.
Proof. reflexivity. Qed.

Lemma updateTargets_pg_again pg vms :
  updateTargets_pg (updateTargets_pg pg vms) vms = updateTargets_pg pg vms.
Proof.
  assert (∀ a soft, updateTargets_pg (set_targets a soft pg) vms = updateTargets_pg pg vms) as E.
  { intros a soft. unfold updateTargets_pg. simpl.
    assert (∀ b, foldl (updateTargets_step (set_targets a soft pg)) b vms
                 = foldl (updateTargets_step pg) b vms) as ->; [|done].
    induction vms as [|v vms IH]; intros b; simpl; [done|].
    by rewrite IH, updateTargets_step_static. }
  unfold updateTargets_pg at 2. destruct (_ || _); apply E.
Qed.

(** X14: [updateTargets] is idempotent: when it has run on a group, running
    it again succeeds and changes nothing. *)
Theorem updateTargets_idempotent pgi st u st' :
  updateTargets pgi st = Some (u, st') → updateTargets pgi st' = Some (tt, st').
Proof.
  intros Hu. apply updateTargets_inv in Hu as (pg & vms & Hpg & Hvms & ->).
  unfold updateTargets.
  assert (readPG pgi (set_pgs (<[pgi := updateTargets_pg pg vms]> (pgsByIndex st)) st)
          = Some (updateTargets_pg pg vms,
                  set_pgs (<[pgi := updateTargets_pg pg vms]> (pgsByIndex st)) st)) as E1.
  { unfold readPG, getsM, orCrash, mbind, M_bind. simpl. by rewrite lookup_insert_eq. }
  rewrite (bind_Some _ _ _ _ _ E1).
  assert (pg_vms (updateTargets_pg pg vms) = pg_vms pg) as Epv.
  { pose proof (pg_static_updateTargets pg vms) as Es. unfold pg_static in Es. congruence. }
  rewrite Epv.
  assert (readVMs (pg_vms pg) (set_pgs (<[pgi := updateTargets_pg pg vms]> (pgsByIndex st)) st)
          = Some (vms, set_pgs (<[pgi := updateTargets_pg pg vms]> (pgsByIndex st)) st)) as E2.
  { destruct (readVMs_total (pg_vms pg)
                (set_pgs (<[pgi := updateTargets_pg pg vms]> (pgsByIndex st)) st))
      as [vms' Hr].
    - intros j Hj. apply list_elem_of_lookup in Hj as [n Hn].
      destruct (Forall2_lookup_l _ _ _ _ _ Hvms Hn) as (vm & _ & Hvm). simpl. eauto.
    - rewrite Hr. do 2 f_equal. apply readVMs_spec in Hr as [_ Hr]. simpl in Hr.
      clear -Hvms Hr. revert vms' Hr. induction Hvms as [|j vm l vms Hj _ IH]; intros vms' Hr.
      + by apply Forall2_nil_inv_l in Hr.
      + apply Forall2_cons_inv_l in Hr as (vm' & vms'' & Hj' & Hr & ->).
        f_equal; [congruence|by apply IH]. }
  rewrite (bind_Some _ _ _ _ _ E2). unfold modifyM. simpl.
  rewrite updateTargets_pg_again, insert_insert_eq. reflexivity.
Qed.

Lemma updateTargets_idempotent_witness :
  ∃ st', updateTargets 1 spread = Some (tt, st') ∧ updateTargets 1 st' = Some (tt, st').
Proof.
  assert (∃ st', updateTargets 1 spread = Some (tt, st')) as [st' Hu].
  { vm_compute. eauto. }
  exists st'. split; [exact Hu|]. exact (updateTargets_idempotent 1 spread tt st' Hu).
Defined.

(** X15: what [updateTargets] records in a group is drawn from its placed
    members: a target rack or target domain is the rack or domain of the
    first node of a placed member, and a rack recorded for a partition is
    the rack of the first node of a placed member of that partition.  In a
    group with a rack or domain affinity, no target means that no member is
    placed.  The constraints and the members of the group, and every other
    group, are kept. *)
Theorem updateTargets_from_members pgi st u st' :
  updateTargets pgi st = Some (u, st') →
  ∃ pg pg', pgsByIndex st !! pgi = Some pg ∧ pgsByIndex st' !! pgi = Some pg'
    ∧ pg_static pg' = pg_static pg
    ∧ (∀ k, k ≠ pgi → pgsByIndex st' !! k = pgsByIndex st !! k)
    ∧ (∀ tr, targetRack pg' = Some tr →
         ∃ j vm n0, j ∈ pg_vms pg ∧ vmsByIndex st !! j = Some vm
           ∧ head (vm_nodes vm) = Some n0 ∧ node_rack n0 = tr)
    ∧ (∀ td, targetDomain pg' = Some td →
         ∃ j vm n0, j ∈ pg_vms pg ∧ vmsByIndex st !! j = Some vm
           ∧ head (vm_nodes vm) = Some n0 ∧ rack_domain (node_rack n0) = td)
    ∧ (∀ q rs x, (q, rs) ∈ partitionRacks pg' → x ∈ rs →
         ∃ j vm n0, j ∈ pg_vms pg ∧ vmsByIndex st !! j = Some vm
           ∧ head (vm_nodes vm) = Some n0 ∧ vm_partition vm = q ∧ node_rack n0 = x)
    ∧ (rackAffinity pg ≠ NONE → targetRack pg' = None →
         ∀ j vm, j ∈ pg_vms pg → vmsByIndex st !! j = Some vm → vm_nodes vm = [])
    ∧ (domainAffinity pg ≠ NONE → targetDomain pg' = None →
         ∀ j vm, j ∈ pg_vms pg → vmsByIndex st !! j = Some vm → vm_nodes vm = []).
Proof.
  intros Hu. apply updateTargets_inv in Hu as (pg & vms & Hpg & Hvms & ->).
  exists pg, (updateTargets_pg pg vms). split; [done|]. simpl.
  split; [by rewrite lookup_insert_eq|].
  destruct (updateTargets_pg_facts pg vms) as (Hs & Hr & Hd & Hrn & Hdn & Hp).
  assert (∀ vm, vm ∈ vms → ∃ j, j ∈ pg_vms pg ∧ vmsByIndex st !! j = Some vm) as Hback.
  { intros vm [n Hn]%list_elem_of_lookup.
    destruct (Forall2_lookup_r _ _ _ _ _ Hvms Hn) as (j & Hj & Hvm).
    exists j. split; [by eapply list_elem_of_lookup_2|done]. }
  assert (∀ j vm, j ∈ pg_vms pg → vmsByIndex st !! j = Some vm → vm ∈ vms) as Hfwd.
  { intros j vm [n Hn]%list_elem_of_lookup Hvm.
    destruct (Forall2_lookup_l _ _ _ _ _ Hvms Hn) as (vm' & Hn' & Hvm').
    apply list_elem_of_lookup_2 in Hn'. congruence. }
  split; [done|]. split; [by intros k Hk; rewrite lookup_insert_ne|].
  split; [|split; [|split; [|split]]].
  - intros tr E. destruct (Hr tr E) as (vm & n0 & Hin & Hh & Hn).
    destruct (Hback vm Hin) as (j & Hj & Hvm). by exists j, vm, n0.
  - intros td E. destruct (Hd td E) as (vm & n0 & Hin & Hh & Hn).
    destruct (Hback vm Hin) as (j & Hj & Hvm). by exists j, vm, n0.
  - intros q rs x Hq Hx. destruct (Hp q rs x Hq Hx) as (vm & n0 & Hin & Hh & Hpq & Hn).
    destruct (Hback vm Hin) as (j & Hj & Hvm). by exists j, vm, n0.
  - intros Hne E j vm Hj Hvm. apply (Hrn Hne E). by eapply Hfwd.
  - intros Hne E j vm Hj Hvm. apply (Hdn Hne E). by eapply Hfwd.
Qed.

Lemma updateTargets_from_members_witness :
  ∃ st' pg pg', updateTargets 1 hardrack = Some (tt, st')
    ∧ pgsByIndex hardrack !! 1 = Some pg ∧ pgsByIndex st' !! 1 = Some pg'
    ∧ pg_static pg' = pg_static pg
    ∧ (∀ tr, targetRack pg' = Some tr →
         ∃ j vm n0, j ∈ pg_vms pg ∧ vmsByIndex hardrack !! j = Some vm
           ∧ head (vm_nodes vm) = Some n0 ∧ node_rack n0 = tr).
Proof.
  assert (∃ st', updateTargets 1 hardrack = Some (tt, st')) as [st' Hu].
  { vm_compute. eauto. }
  destruct (updateTargets_from_members 1 hardrack tt st' Hu)
    as (pg & pg' & Hpg & Hpg' & Hs & _ & Hr & _).
  exists st', pg, pg'. split; [exact Hu|]. split; [exact Hpg|]. split; [exact Hpg'|].
  split; [exact Hs|exact Hr].
Defined.

(** *** Groups and batches *)

(** X16: the constraints of a group are set once.  A request to create a
    group whose index is new enters it with the constraints of the
    request, the number of partitions read as 0 when it is at most 1; a
    request to create a group whose index exists changes nothing; and no
    other request changes the constraints of a group or the set of
    groups. *)
Theorem groups_keep_constraints `{StdLib} e req st b st' k :
  reachable st → wf_request st req → handle e req st = Some (b, st') →
  pg_constraints <$> pgsByIndex st' !! k =
    match req, pgsByIndex st !! k with
    | CreatePG index hp soft domA rackA, None =>
        if decide (k = index)
        then Some (index, (if hp <=? 1 then 0 else hp), soft, domA, rackA)
        else None
    | _, o => pg_constraints <$> o
    end.
Proof.
  intros Hr Hwf Hh. destruct req as [index hp soft domA rackA|idxs ty pgi part|V|].
  - simpl in Hh. mbind Hh as [] s Hc. apply mret_inv in Hh as [_ ->].
    unfold createPG in Hc. apply modifyM_inv in Hc as ->.
    destruct (pgsByIndex st !! index) as [pg0|] eqn:E0.
    { destruct (pgsByIndex st !! k) eqn:Ek; [done|]. case_decide; [congruence|done]. }
    simpl. destruct (decide (k = index)) as [->|Hk].
    + by rewrite lookup_insert_eq, E0.
    + rewrite lookup_insert_ne by done. by destruct (pgsByIndex st !! k).
  - assert (pg_constraints <$> pgsByIndex st' !! k = pg_constraints <$> pgsByIndex st !! k)
      as ->; [|by destruct (pgsByIndex st !! k)].
    apply handle_create in Hh. destruct Hwf as [Hnd Hfresh].
    destruct (decide (14 ≤ duration_cast_seconds e)) as [Hl|Hl].
    { rewrite (createVMs_late _ _ _ _ _ _ Hl) in Hh. by injection Hh as _ <-. }
    eapply createVMs_frame in Hh as (t & pg & st0 & _ & _ & _ & Hreg & F & _);
      [| by apply reachable_Inv | by apply reachable_indexed | done | done | lia].
    rewrite (Frame_constraints _ _ _ _ _ k F).
    by apply (registerVMs_constraints _ _ _ _ _ _ _ _ k Hreg).
  - assert (pg_constraints <$> pgsByIndex st' !! k = pg_constraints <$> pgsByIndex st !! k)
      as ->; [|by destruct (pgsByIndex st !! k)].
    simpl in Hh. mbind Hh as [] s Hc. apply mret_inv in Hh as [_ ->].
    by apply (deleteVMs_groups V st tt s k (reachable_Inv _ Hr)).
  - apply mret_inv in Hh as [_ ->]. by destruct (pgsByIndex st !! k).
Qed.

Lemma groups_keep_constraints_witness :
  ∃ st', handle 0 (CreatePG 1 5 3 HARD HARD) grouped = Some (false, st')
    ∧ pg_constraints <$> pgsByIndex st' !! 1 = Some (1, 2, 0, NONE, NONE).
Proof.
  assert (∃ st', handle 0 (CreatePG 1 5 3 HARD HARD) grouped = Some (false, st')) as [st' Hh].
  { vm_compute. eauto. }
  exists st'. split; [exact Hh|].
  rewrite (groups_keep_constraints 0 (CreatePG 1 5 3 HARD HARD) grouped false st' 1
             reachable_grouped I Hh).
  vm_compute. reflexivity.
Defined.

Lemma batch_partitions `{StdLib} e idxs ty pgi part st st' pg k i :
  reachable st → wf_request st (CreateVMs idxs ty pgi part) →
  handle e (CreateVMs idxs ty pgi part) st = Some (false, st') →
  pgsByIndex st !! pgi = Some pg → idxs !! k = Some i →
  ∃ vm, vmsByIndex st' !! i = Some vm ∧ vm_pg vm = pgi
    ∧ vm_partition vm = partitionOf (hardRackAntiAffinityPartitions pg) part k.
Proof.
  intros Hr [Hnd Hfresh] Hh Hpg Hk. apply handle_create in Hh. simpl in Hh.
  pose proof (createVMs_in_time _ _ _ _ _ _ _ Hh) as Hl.
  eapply createVMs_frame in Hh as (t & pg1 & st0 & _ & _ & Hpg1 & Hreg & F & _);
    [| by apply reachable_Inv | by apply reachable_indexed | done | done | done].
  assert (pg1 = pg) as -> by congruence.
  destruct (registerVMs_spec _ _ _ _ _ _ _ _ _ Hnd Hfresh Hpg Hreg)
    as (_ & _ & _ & _ & Hin0 & _).
  assert (i ∈ idxs) as Hi by (by eapply list_elem_of_lookup_2).
  destruct (Hin0 i Hi) as (vm0 & Hvm0 & _ & _ & Hpv & _).
  destruct (Frame_vm_fwd _ _ _ _ _ _ _ F Hvm0)
    as (vm & Hvm & (_ & _ & E3 & E4)%static_fields).
  exists vm. split; [done|]. split; [congruence|].
  pose proof (registerVMs_partition _ _ _ _ _ _ _ _ k i Hnd Hfresh Hreg Hk) as Hp.
  rewrite Hvm0 in Hp. simpl in Hp. injection Hp as Hp. rewrite E4, Hp.
  unfold partitionOf. destruct (hardRackAntiAffinityPartitions pg =? 0); [done|].
  destruct (0 <=? part); [done|lia].
Qed.








